(** * aio: futures, tasks and task groups

    A shallow embedding of the future/task core of the [aio] package:
    - [Pure]   embeds [aio/future/pure.py] (state-union futures and tasks);
    - [Legacy] embeds [aio/future.py] and [aio/task_group.py], which is
      written against that module's interface.

    Python objects live in a store indexed by identity; methods are state
    transformers that return either a value or the raised exception. *)

From Stdlib Require Import String List ZArith Lia Bool.
From stdpp Require Import base option list gmap strings.

Local Open Scope string_scope.

(** ** Values and exceptions *)

Inductive val :=
| VNone
| VInt (z : Z)
| VStr (s : string)
| VRef (id : nat)
| VPair (a b : val).

(** Exception instances.  [UserExc] and [Cancelled] instances carry the
    identity of the Python object, so Rocq equality on them is [is].
    Instances of exception classes keep Python's default truthiness (they
    are truthy). *)
#[warnings="-register-all"]
Inductive exn :=
| UserExc (id : nat) (cls : string)
| Cancelled (id : nat) (msg : option string)
| FutureNotReady (msg : option string)
| FutureFinishedError (msg : option string)
| SelfCancelForbidden
| RuntimeError (msg : string)
| TypeError (msg : string)
| ValueError (msg : string)
| KeyError
| AttributeError (msg : string)
| AssertionError (msg : string)
| TaskInnerError (msg : string)
| MultiError (msg : string) (children : list exn).

(** [isinstance(exc, Cancelled)] *)
Definition is_Cancelled (e : exn) : bool :=
  match e with Cancelled _ _ => true | _ => false end.

(** [isinstance(exc, Exception)]: every class above derives from
    [Exception]. *)
Definition is_Exception (e : exn) : bool := true.

Inductive outcome :=
| Returned (v : val)
| Raised (e : exn).

(** The argument of the cancellation API: [None], a message, or an
    instance of [Cancelled]. *)
Inductive cancel_arg :=
| CNone
| CMsg (s : string)
| CInst (id : nat) (msg : option string).

(** ** Result of a call: the returned value or the raised exception *)

Inductive res (A : Type) :=
| Ok (a : A)
| Err (e : exn).
Arguments Ok {A} a.
Arguments Err {A} e.

Definition is_ok {A} (r : res A) : bool :=
  match r with Ok _ => true | Err _ => false end.

(** ** The loop

    Modelled from the spec: the event loop ([aio.loop]) is an external
    collaborator.  [call_soon] appends to a FIFO of ready callbacks and
    returns a handle; a handle can be cancelled and records whether it was
    executed. *)
Module Loop.
Section Loop.
Context {E : Type}.

Record t := mk {
  ready : list (nat * E);
  next_handle : nat;
  executed : list nat;
}.

Definition empty : t := mk [] 0 [].

Definition call_soon (e : E) (l : t) : nat * t :=
  (next_handle l, mk (ready l ++ [(next_handle l, e)]) (S (next_handle l)) (executed l)).

Definition cancel (h : nat) (l : t) : t :=
  mk (List.filter (fun p => negb (Nat.eqb (fst p) h)) (ready l)) (next_handle l) (executed l).

Definition is_executed (h : nat) (l : t) : bool :=
  existsb (Nat.eqb h) (executed l).

Definition pop (l : t) : option (E * t) :=
  match ready l with
  | [] => None
  | (h, e) :: r => Some (e, mk r (next_handle l) (h :: executed l))
  end.

Definition pending (h : nat) (l : t) : bool :=
  existsb (fun p => Nat.eqb (fst p) h) (ready l).
End Loop.
Arguments t : clear implicits.
End Loop.

(** A call in the store-passing style: [m w] is the result and the store
    after the call.  An exception keeps the effects made before it was
    raised. *)
Definition M (W A : Type) : Type := W -> res A * W.

Definition ret {W A} (a : A) : M W A := fun w => (Ok a, w).
Definition raise {W A} (e : exn) : M W A := fun w => (Err e, w).
Definition bind {W A B} (m : M W A) (f : A -> M W B) : M W B :=
  fun w => match m w with
           | (Ok a, w') => f a w'
           | (Err e, w') => (Err e, w')
           end.
Definition get {W} : M W W := fun w => (Ok w, w).
Definition modify {W} (f : W -> W) : M W unit := fun w => (Ok tt, f w).

Declare Scope m_scope.
Delimit Scope m_scope with M.
Notation "x <- m ;; k" := (bind m (fun x => k))
  (at level 62, m at next level, right associativity) : m_scope.
Notation "m ;;; k" := (bind m (fun _ => k))
  (at level 62, right associativity) : m_scope.

(** [recursion_limit] is [sys.getrecursionlimit()]: a call chain that is
    deeper raises [RecursionError], a subclass of [RuntimeError]. *)
Definition recursion_limit : nat := 1000.
Definition RecursionError : exn := RuntimeError "maximum recursion depth exceeded".

(** * aio/future/pure.py *)
Module Pure.

(** A future callback: a user callable (identified by [n]; calling it is
    recorded in the store, like a mock), or the bound method
    [task._execute_coroutine_step]. *)
Inductive callback :=
| CbUser (n : nat)
| CbStep (task : nat).

Definition callback_eqb (a b : callback) : bool :=
  match a, b with
  | CbUser n, CbUser m => Nat.eqb n m
  | CbStep n, CbStep m => Nat.eqb n m
  | _, _ => false
  end.

(** What [call_soon] was given: [cb(fut)], or
    [task._execute_coroutine_step(None, inner_cancel)]. *)
Inductive entry :=
| ECallback (cb : callback) (fut : nat)
| EStep (task : nat) (inner_cancel : option exn).

(** Calls a coroutine body can make between two suspension points. *)
Inductive action :=
| APromiseSetResult (fut : nat) (v : val)
| APromiseSetException (fut : nat) (e : exn)
| APromiseCancel (fut : nat) (a : cancel_arg)
| ATaskCancel (task : nat) (a : cancel_arg)
| ACancelFuture (fut : nat) (a : cancel_arg)
| AAddCallback (fut : nat) (cb : callback)
| ARemoveCallback (fut : nat) (cb : callback)
| AResult (fut : nat)
| AException (fut : nat)
| ACreatePromise.

(** A coroutine body as a resumption: it returns, raises, awaits a future
    (the continuation receives what the [await] expression produced, a
    value or an exception raised at the await point, which the body may
    catch), calls into the library, or spawns a task. *)
Inductive coro :=
| CReturn (v : val)
| CRaise (e : exn)
| CAwait (fut : nat) (k : outcome -> coro)
| CDo (a : action) (k : outcome -> coro)
| CSpawn (c : coro) (k : outcome -> coro).

(** The coroutine object: [inspect.getcoroutinestate] reads its frame. *)
Inductive coroutine :=
| FCreated (body : coro)
| FRunning
| FSuspended (fut : nat) (k : outcome -> coro)
| FClosed.

Inductive coro_state := CORO_CREATED | CORO_RUNNING | CORO_SUSPENDED | CORO_CLOSED.

Definition getcoroutinestate (c : coroutine) : coro_state :=
  match c with
  | FCreated _ => CORO_CREATED
  | FRunning => CORO_RUNNING
  | FSuspended _ _ => CORO_SUSPENDED
  | FClosed => CORO_CLOSED
  end.

Definition coro_state_eqb (a b : coro_state) : bool :=
  match a, b with
  | CORO_CREATED, CORO_CREATED | CORO_RUNNING, CORO_RUNNING
  | CORO_SUSPENDED, CORO_SUSPENDED | CORO_CLOSED, CORO_CLOSED => true
  | _, _ => false
  end.

(** Modelled from the spec: [aio.utils.is_coro_running] is missing; the
    coroutine is mid-resumption. *)
Definition is_coro_running (c : coroutine) : bool :=
  coro_state_eqb (getcoroutinestate c) CORO_RUNNING.

(** [_PendingState], its task subclasses [_CreatedState],
    [_ScheduledState], [_RunningState], and the terminal [_SuccessState]
    and [_FailedState].  [result_callbacks] is an insertion-ordered dict
    keyed by the callback; [scheduled_cbs] maps a callback to its handle. *)
Inductive fstate :=
| PendingState (result_callbacks : list callback)
| CreatedState (result_callbacks : list callback) (coroutine_ : coroutine)
| ScheduledState (result_callbacks : list callback) (coroutine_ : coroutine) (handle : nat)
| RunningState (result_callbacks : list callback) (coroutine_ : coroutine) (waiting_on : nat)
| SuccessState (result : val) (scheduled_cbs : list (callback * nat))
| FailedState (exc : exn) (exc_retrieved : bool) (scheduled_cbs : list (callback * nat)).

(** The public state tag, [ABCFuture.State]. *)
Inductive State := created | scheduled | running | finished.

Inductive kind := KFuture | KTask.

Record fobj := mkObj {
  okind : kind;
  ostate : fstate;
}.

(** The store: every future and task by identity, the loop they all
    belong to, the allocation counter of exception instances, the record
    of user callback calls and the exceptions that escaped into the loop. *)
Record world := mkWorld {
  objs : gmap nat fobj;
  next_id : nat;
  loop : Loop.t entry;
  next_exc : nat;
  calls : list (nat * nat);
  loop_errors : list exn;
}.

Definition empty_world : world := mkWorld ∅ 0 Loop.empty 0 [] [].

Definition set_objs (f : gmap nat fobj -> gmap nat fobj) (w : world) : world :=
  mkWorld (f (objs w)) (next_id w) (loop w) (next_exc w) (calls w) (loop_errors w).
Definition set_loop (f : Loop.t entry -> Loop.t entry) (w : world) : world :=
  mkWorld (objs w) (next_id w) (f (loop w)) (next_exc w) (calls w) (loop_errors w).

Definition set_state (id : nat) (s : fstate) (w : world) : world :=
  set_objs (fun m => match m !! id with
                     | Some o => <[id := mkObj (okind o) s]> m
                     | None => m
                     end) w.

Local Open Scope m_scope.

(** Dereference an object; the store has no dangling references, an
    identity outside it stands for an object that is not a future. *)
Definition deref (id : nat) : M world fobj :=
  fun w => match objs w !! id with
           | Some o => (Ok o, w)
           | None => (Err (TypeError "not a future"), w)
           end.

Definition state_of (id : nat) : M world fstate :=
  o <- deref id ;; ret (ostate o).

Definition call_soon (e : entry) : M world nat :=
  fun w => let (h, l) := Loop.call_soon e (loop w) in (Ok h, set_loop (fun _ => l) w).

Definition handle_cancel (h : nat) : M world unit :=
  modify (set_loop (Loop.cancel h)).

(** [isinstance(state, _PendingState)] *)
Definition is_pending_state (s : fstate) : bool :=
  match s with
  | SuccessState _ _ | FailedState _ _ _ => false
  | _ => true
  end.

(** [isinstance(state, _BaseTaskState)], with the coroutine it holds. *)
Definition base_task_coroutine (s : fstate) : option coroutine :=
  match s with
  | CreatedState _ c | ScheduledState _ c _ | RunningState _ c _ => Some c
  | _ => None
  end.

Definition result_callbacks_of (s : fstate) : list callback :=
  match s with
  | PendingState cbs | CreatedState cbs _ | ScheduledState cbs _ _
  | RunningState cbs _ _ => cbs
  | _ => []
  end.

(** The frozen pending states share one mutable dict of callbacks. *)
Definition with_callbacks (cbs : list callback) (s : fstate) : fstate :=
  match s with
  | PendingState _ => PendingState cbs
  | CreatedState _ c => CreatedState cbs c
  | ScheduledState _ c h => ScheduledState cbs c h
  | RunningState _ c f => RunningState cbs c f
  | _ => s
  end.

Definition with_coroutine (c : coroutine) (s : fstate) : fstate :=
  match s with
  | CreatedState cbs _ => CreatedState cbs c
  | ScheduledState cbs _ h => ScheduledState cbs c h
  | RunningState cbs _ f => RunningState cbs c f
  | _ => s
  end.

Definition with_scheduled (sch : list (callback * nat)) (s : fstate) : fstate :=
  match s with
  | SuccessState v _ => SuccessState v sch
  | FailedState e r _ => FailedState e r sch
  | _ => s
  end.

(** [Future.state] and [Task.state] *)
Definition state_tag (s : fstate) : State :=
  match s with
  | CreatedState _ _ => created
  | ScheduledState _ _ _ => scheduled
  | RunningState _ _ _ => running
  | PendingState _ => running
  | SuccessState _ _ | FailedState _ _ _ => finished
  end.

(** [cbs[cb] = cb]: a key already present keeps its place. *)
Definition dict_set (cb : callback) (cbs : list callback) : list callback :=
  if existsb (callback_eqb cb) cbs then cbs else cbs ++ [cb].

Definition dict_has (cb : callback) (cbs : list callback) : bool :=
  existsb (callback_eqb cb) cbs.

Definition dict_del (cb : callback) (cbs : list callback) : list callback :=
  List.filter (fun c => negb (callback_eqb cb c)) cbs.

(** [scheduled_cbs.pop(cb)]: the handle bound to the key and the dict
    without the key, or nothing where Python raises [KeyError]. *)
Definition sched_pop (cb : callback) (sch : list (callback * nat))
  : option (nat * list (callback * nat)) :=
  match find (fun p => callback_eqb cb (fst p)) sch with
  | Some (_, h) => Some (h, List.filter (fun p => negb (callback_eqb cb (fst p))) sch)
  | None => None
  end.

(** [Future.result] *)
Definition result (id : nat) : M world val :=
  s <- state_of id ;;
  match s with
  | SuccessState v _ => ret v
  | FailedState e _ sch =>
      modify (set_state id (FailedState e true sch)) ;;; raise e
  | _ => raise (FutureNotReady None)
  end.

(** [Future.exception] *)
Definition exception (id : nat) : M world (option exn) :=
  s <- state_of id ;;
  match s with
  | SuccessState _ _ => ret None
  | FailedState e _ sch =>
      modify (set_state id (FailedState e true sch)) ;;; ret (Some e)
  | _ => raise (FutureNotReady None)
  end.

(** [Future.add_callback] *)
Definition add_callback (id : nat) (cb : callback) : M world unit :=
  s <- state_of id ;;
  if is_pending_state s
  then modify (set_state id (with_callbacks (dict_set cb (result_callbacks_of s)) s))
  else raise (FutureFinishedError
                (Some "Could not schedule callback for already finished future")).

(** [Future.remove_callback] *)
Definition remove_callback (id : nat) (cb : callback) : M world unit :=
  s <- state_of id ;;
  if is_pending_state s
  then modify (set_state id (with_callbacks (dict_del cb (result_callbacks_of s)) s))
  else match s with
       | SuccessState _ sch | FailedState _ _ sch =>
           match sched_pop cb sch with
           | None => ret tt
           | Some (h, sch') =>
               modify (set_state id (with_scheduled sch' s)) ;;; handle_cancel h
           end
       | _ => ret tt
       end.

Definition scheduled_cbs_of (s : fstate) : list (callback * nat) :=
  match s with
  | SuccessState _ sch | FailedState _ _ sch => sch
  | _ => []
  end.

(** [cb] is registered on a future: a key of [result_callbacks] while
    pending, a key of [scheduled_cbs] once terminal. *)
Definition registered (cb : callback) (s : fstate) : bool :=
  if is_pending_state s then dict_has cb (result_callbacks_of s)
  else match sched_pop cb (scheduled_cbs_of s) with Some _ => true | None => false end.

(** What a future holds once terminal. *)
Definition stored (s : fstate) : option outcome :=
  match s with
  | SuccessState v _ => Some (Returned v)
  | FailedState e _ _ => Some (Raised e)
  | _ => None
  end.

(** [Future.is_finished] and [Future.is_cancelled] *)
Definition is_finished_state (s : fstate) : bool := negb (is_pending_state s).

Definition is_cancelled_state (s : fstate) : bool :=
  match s with
  | FailedState e _ _ => is_Cancelled e
  | _ => false
  end.

Definition is_finished (id : nat) : M world bool :=
  s <- state_of id ;; ret (is_finished_state s).

Definition is_cancelled (id : nat) : M world bool :=
  s <- state_of id ;; ret (is_cancelled_state s).

(** Modelled from the spec: [aio.future.utils.coerce_cancel_arg] is
    missing.  None gives a fresh [Cancelled], a string a fresh
    [Cancelled] carrying it, a [Cancelled] instance is used as it is. *)
Definition fresh_Cancelled (msg : option string) : M world exn :=
  fun w => (Ok (Cancelled (next_exc w) msg),
            mkWorld (objs w) (next_id w) (loop w) (S (next_exc w)) (calls w)
              (loop_errors w)).

Definition coerce_cancel_arg (a : cancel_arg) : M world exn :=
  match a with
  | CNone => fresh_Cancelled None
  | CMsg s => fresh_Cancelled (Some s)
  | CInst id msg => ret (Cancelled id msg)
  end.

Fixpoint schedule_all (id : nat) (cbs : list callback)
  : M world (list (callback * nat)) :=
  match cbs with
  | [] => ret []
  | cb :: r =>
      h <- call_soon (ECallback cb id) ;;
      sch <- schedule_all id r ;;
      ret ((cb, h) :: sch)
  end.

(** [Future._schedule_callbacks] *)
Definition Future__schedule_callbacks (id : nat) : M world (list (callback * nat)) :=
  s <- state_of id ;;
  if is_pending_state s
  then schedule_all id (result_callbacks_of s)
  else raise (RuntimeError "Future must finish before calling callbacks").

(** [Future._set_result]; [val = None] is the sentinel [NOT_SET]. *)
Definition Future__set_result (id : nat) (val_ : option val) (exc : option exn)
  : M world unit :=
  match val_, exc with
  | Some _, Some _ =>
      raise (ValueError
        "Both result value and exception given, but they are mutually exclusive")
  | _, _ =>
      s <- state_of id ;;
      if negb (is_pending_state s) then raise (FutureFinishedError None)
      else
        sch <- Future__schedule_callbacks id ;;
        match val_, exc with
        | Some v, _ => modify (set_state id (SuccessState v sch))
        | None, Some e => modify (set_state id (FailedState e false sch))
        | None, None => raise (AssertionError "")
        end
  end.

(** [Task._set_result] *)
Definition Task__set_result (id : nat) (val_ : option val) (exc : option exn)
  : M world unit :=
  s <- state_of id ;;
  match base_task_coroutine s with
  | Some c =>
      if is_coro_running c
      then raise (RuntimeError "Attempt to finish task before it coroutine finished")
      else Future__set_result id val_ exc
  | None => Future__set_result id val_ exc
  end.

(** [self._set_result(...)]: the method of the object's class. *)
Definition _set_result (id : nat) (val_ : option val) (exc : option exn)
  : M world unit :=
  o <- deref id ;;
  match okind o with
  | KFuture => Future__set_result id val_ exc
  | KTask => Task__set_result id val_ exc
  end.

(** [Future._cancel] *)
Definition Future__cancel (id : nat) (a : cancel_arg) : M world unit :=
  e <- coerce_cancel_arg a ;;
  _set_result id None (Some e).

(** [Task._cancel]; [cancel_future_] is the call [cancel_future(waiting_on, exc)]. *)
Definition Task__cancel (cancel_future_ : nat -> cancel_arg -> M world unit)
    (id : nat) (a : cancel_arg) : M world unit :=
  s <- state_of id ;;
  if negb (is_pending_state s) then raise (FutureFinishedError None)
  else
    match s with
    | ScheduledState _ _ h =>
        w <- get ;;
        if Loop.is_executed h (loop w)
        then raise (AssertionError "Handle being executed, but state not changed")
        else handle_cancel h ;;; Future__cancel id a
    | RunningState _ _ waiting_on =>
        fin <- is_finished waiting_on ;;
        if negb fin then cancel_future_ waiting_on a
        else
          remove_callback waiting_on (CbStep id) ;;;
          e <- coerce_cancel_arg a ;;
          _ <- call_soon (EStep id (Some e)) ;;
          ret tt
    | _ => Future__cancel id a
    end.

(** [future._cancel(msg)], the method of the object's class, at call depth
    [depth] below the recursion limit. *)
Fixpoint _cancel (depth : nat) (id : nat) (a : cancel_arg) : M world unit :=
  match depth with
  | 0 => raise RecursionError
  | S d =>
      o <- deref id ;;
      match okind o with
      | KFuture => Future__cancel id a
      | KTask => Task__cancel (_cancel d) id a
      end
  end.

(** [cancel_future]: every object of the store is a pure future, so the
    [isinstance] test passes whenever the reference is valid. *)
Definition cancel_future (id : nat) (a : cancel_arg) : M world unit :=
  _cancel recursion_limit id a.

(** [Task.cancel] *)
Definition Task_cancel (id : nat) (a : cancel_arg) : M world unit :=
  s <- state_of id ;;
  let self_cancel_detected :=
    match base_task_coroutine s with
    | Some c => coro_state_eqb (getcoroutinestate c) CORO_RUNNING
    | None => false
    end in
  if self_cancel_detected then raise SelfCancelForbidden
  else _cancel recursion_limit id a.

(** [FuturePromise]: the write handle of [_fut]. *)
Record FuturePromise := mkPromise { _fut : nat }.

Definition FuturePromise_init (fut : nat) : M world FuturePromise :=
  o <- deref fut ;;
  match okind o with
  | KTask => raise (TypeError "Promise could not control task instance")
  | KFuture => ret (mkPromise fut)
  end.

Definition Promise_set_result (p : FuturePromise) (v : val) : M world unit :=
  _set_result (_fut p) (Some v) None.

Definition Promise_set_exception (p : FuturePromise) (e : exn) : M world unit :=
  if is_Cancelled e
  then raise (TypeError "Use cancellation API instead of passing exception manually")
  else _set_result (_fut p) None (Some e).

Definition Promise_cancel (p : FuturePromise) (a : cancel_arg) : M world unit :=
  _cancel recursion_limit (_fut p) a.

(** The three completion attempts a promise offers. *)
Inductive completion :=
| SetResult (v : val)
| SetException (e : exn)
| Cancel (a : cancel_arg).

Definition attempt (p : FuturePromise) (c : completion) : M world unit :=
  match c with
  | SetResult v => Promise_set_result p v
  | SetException e => Promise_set_exception p e
  | Cancel a => Promise_cancel p a
  end.

(** What a completion attempt on a terminal future is answered with. *)
Definition refusal (c : completion) : exn :=
  match c with
  | SetException e =>
      if is_Cancelled e
      then TypeError "Use cancellation API instead of passing exception manually"
      else FutureFinishedError None
  | _ => FutureFinishedError None
  end.

Definition alloc (o : fobj) : M world nat :=
  fun w => (Ok (next_id w),
            mkWorld (<[next_id w := o]> (objs w)) (S (next_id w)) (loop w)
              (next_exc w) (calls w) (loop_errors w)).

(** [create_promise] *)
Definition create_promise : M world FuturePromise :=
  id <- alloc (mkObj KFuture (PendingState [])) ;;
  FuturePromise_init id.

(** [_BaseTaskState.__post_init__] *)
Definition post_init (c : coroutine) (expect : coro_state) : M world unit :=
  if coro_state_eqb (getcoroutinestate c) expect then ret tt
  else raise (RuntimeError "Inconsistent task state").

(** [Task.__init__] *)
Definition Task_init (c : coroutine) : M world nat :=
  post_init c CORO_CREATED ;;;
  alloc (mkObj KTask (CreatedState [] c)).

(** [Task._schedule_first_step] *)
Definition Task__schedule_first_step (id : nat) : M world unit :=
  s <- state_of id ;;
  match s with
  | CreatedState cbs c =>
      h <- call_soon (EStep id None) ;;
      post_init c CORO_CREATED ;;;
      modify (set_state id (ScheduledState cbs c h))
  | _ => raise (RuntimeError "Only newly created tasks can be scheduled for first step")
  end.

(** [create_task] *)
Definition create_task (c : coroutine) : M world nat :=
  id <- Task_init c ;;
  Task__schedule_first_step id ;;;
  ret id.

(** The store after [create_task]: the task is scheduled under the handle
    of its first step, which is queued last. *)
Definition created_task (c : coroutine) (w : world) : world :=
  mkWorld (<[next_id w := mkObj KTask (ScheduledState [] c (Loop.next_handle (loop w)))]>
             (objs w))
    (S (next_id w))
    (Loop.mk (Loop.ready (loop w)
                ++ [(Loop.next_handle (loop w), EStep (next_id w) None)])
       (S (Loop.next_handle (loop w))) (Loop.executed (loop w)))
    (next_exc w) (calls w) (loop_errors w).

(** The handles [call_soon] gives out from [n] on for the callbacks
    [cbs], and the entries it appends to the ready queue for the future
    [id]. *)
Fixpoint handles_from (n : nat) (cbs : list callback) : list (callback * nat) :=
  match cbs with
  | [] => []
  | cb :: r => (cb, n) :: handles_from (S n) r
  end.

Fixpoint entries_from (n : nat) (id : nat) (cbs : list callback) : list (nat * entry) :=
  match cbs with
  | [] => []
  | cb :: r => (n, ECallback cb id) :: entries_from (S n) id r
  end.

(** The loop after [call_soon] was given the entries [es]. *)
Definition enqueue (es : list (nat * entry)) (l : Loop.t entry) : Loop.t entry :=
  Loop.mk (Loop.ready l ++ es) (Loop.next_handle l + length es) (Loop.executed l).


(** Identities are allocated in order: nothing lives at or above
    [next_id]. *)
Definition WF (w : world) : Prop :=
  forall id, next_id w <= id -> objs w !! id = None.

(** [evolves w w']: every object of [w] is still in [w'] with its class,
    and an object that was terminal in [w] holds in [w'] what it held. *)
Definition evolves (w w' : world) : Prop :=
  next_id w <= next_id w' /\
  forall id o, objs w !! id = Some o ->
    exists o', objs w' !! id = Some o' /\ okind o' = okind o /\
      (is_pending_state (ostate o) = false -> stored (ostate o') = stored (ostate o)).

(** A call is [good] when it keeps [WF] and lets the store evolve. *)
Definition good {X} (f : world -> X * world) : Prop :=
  forall w x w', WF w -> f w = (x, w') -> WF w' /\ evolves w w'.

(** Allocating an exception instance touches nothing but the counter. *)
Definition same_but_exc (w w' : world) : Prop :=
  objs w' = objs w /\ loop w' = loop w /\ calls w' = calls w /\
  loop_errors w' = loop_errors w /\ next_id w' = next_id w.

(** ** Coroutines *)

Definition to_outcome {A} (f : A -> val) (r : res A) : outcome :=
  match r with
  | Ok a => Returned (f a)
  | Err e => Raised e
  end.

Definition opt_exn_val (o : option exn) : val :=
  match o with None => VNone | Some _ => VStr "exception" end.

(** A library call made by a coroutine body; what it raises is raised
    inside the body. *)
Definition do_action (a : action) (w : world) : outcome * world :=
  let lift {A} (f : A -> val) (m : M world A) :=
    let (r, w') := m w in (to_outcome f r, w') in
  match a with
  | APromiseSetResult fut v =>
      lift (fun _ : unit => VNone) (p <- FuturePromise_init fut ;; Promise_set_result p v)
  | APromiseSetException fut e =>
      lift (fun _ : unit => VNone) (p <- FuturePromise_init fut ;; Promise_set_exception p e)
  | APromiseCancel fut a =>
      lift (fun _ : unit => VNone) (p <- FuturePromise_init fut ;; Promise_cancel p a)
  | ATaskCancel task a => lift (fun _ : unit => VNone) (Task_cancel task a)
  | ACancelFuture fut a => lift (fun _ : unit => VNone) (cancel_future fut a)
  | AAddCallback fut cb => lift (fun _ : unit => VNone) (add_callback fut cb)
  | ARemoveCallback fut cb => lift (fun _ : unit => VNone) (remove_callback fut cb)
  | AResult fut => lift (fun v : val => v) (result fut)
  | AException fut => lift opt_exn_val (exception fut)
  | ACreatePromise => lift (fun p => VRef (_fut p)) create_promise
  end.

(** What [coroutine.send] or [coroutine.throw] produced: the yielded
    future, [StopIteration(value)], or another exception. *)
Inductive send_result :=
| Yielded (fut : nat)
| Stopped (v : val)
| Thrown (e : exn).

(** [Future.__await__] after its [yield]: resumed while still pending is
    a [RuntimeError], otherwise [self.result()]. *)
Definition await_resume (fut : nat) : M world val :=
  s <- state_of fut ;;
  if is_pending_state s
  then raise (RuntimeError
                "Future being resumed after first yield, but still not finished!")
  else result fut.

(** Run a body up to its next suspension.  [CAwait] is
    [Future.__await__]: a pending future is yielded, a finished one gives
    its result at once. *)
Fixpoint run_coro (c : coro) (w : world) : (send_result * coroutine) * world :=
  match c with
  | CReturn v => ((Stopped v, FClosed), w)
  | CRaise e => ((Thrown e, FClosed), w)
  | CAwait fut k =>
      match objs w !! fut with
      | Some o =>
          if is_pending_state (ostate o)
          then ((Yielded fut, FSuspended fut k), w)
          else let (r, w') := await_resume fut w in
               run_coro (k (to_outcome (fun v => v) r)) w'
      | None => run_coro (k (Raised (TypeError "not a future"))) w
      end
  | CDo a k =>
      let (o, w') := do_action a w in run_coro (k o) w'
  | CSpawn c' k =>
      let (r, w') := create_task (FCreated c') w in
      run_coro (k (to_outcome VRef r)) w'
  end.

Definition set_coroutine (id : nat) (c : coroutine) (w : world) : world :=
  match objs w !! id with
  | Some o => set_state id (with_coroutine c (ostate o)) w
  | None => w
  end.

(** What the [await] expression of a body suspended on [fut] evaluates
    to when the body is resumed by [send(None)]. *)
Definition await_outcome (fut : nat) : M world outcome :=
  fun w => let (r, w') := await_resume fut w in (Ok (to_outcome (fun v => v) r), w').

(** Run the body [c] of the coroutine of task [id] to its next suspension
    and leave the coroutine in the frame it reached. *)
Definition continue_with (id : nat) (c : coro) : M world send_result :=
  fun w => let '((r, c'), w') := run_coro c w in (Ok r, set_coroutine id c' w').

(** Resume the coroutine of task [id] with [send(None)] or, when
    [inner_cancel] is given, with [throw(inner_cancel)]; while its body
    runs the coroutine is [CORO_RUNNING].  What [send] itself raises on a
    running or closed coroutine reaches the caller like an exception of
    the body. *)
Definition resume (id : nat) (c : coroutine) (inner_cancel : option exn)
  : M world send_result :=
  match c with
  | FRunning => ret (Thrown (ValueError "coroutine already executing"))
  | FClosed => ret (Thrown (RuntimeError "cannot reuse already awaited coroutine"))
  | FCreated body =>
      match inner_cancel with
      | Some e => modify (set_coroutine id FClosed) ;;; ret (Thrown e)
      | None => modify (set_coroutine id FRunning) ;;; continue_with id body
      end
  | FSuspended fut k =>
      modify (set_coroutine id FRunning) ;;;
      o <- match inner_cancel with
           | Some e => ret (Raised e)
           | None => await_outcome fut
           end ;;
      continue_with id (k o)
  end.

(** [Task._send_to_coroutine_within_new_context].  Every value a body
    yields is a future, so the [isinstance] test on it passes. *)
Definition Task__send_to_coroutine_within_new_context (id : nat)
    (inner_cancel : option exn) : M world send_result :=
  s <- state_of id ;;
  match s with
  | ScheduledState _ c _ | RunningState _ c _ => resume id c inner_cancel
  | _ => ret (Thrown (AssertionError ""))
  end.

(** [try: m finally: fin] *)
Definition try_finally {A} (m : M world A) (fin : M world unit) : M world A :=
  fun w => let (r, w') := m w in
           match fin w' with
           | (Ok _, w'') => (r, w'')
           | (Err e, w'') => (Err e, w'')
           end.

(** [Task._execute_coroutine_step] *)
Definition Task__execute_coroutine_step (id : nat) (inner_cancel : option exn)
  : M world unit :=
  s <- state_of id ;;
  match s with
  | ScheduledState _ _ _ | RunningState _ _ _ =>
      match inner_cancel, s with
      | Some _, RunningState _ _ waiting_on =>
          fin <- is_finished waiting_on ;;
          if negb fin
          then raise (RuntimeError
            "Inner task cancel was requested, but awaited future is not finished!")
          else ret tt
      | Some _, _ => raise (AttributeError "waiting_on")
      | None, _ => ret tt
      end ;;;
      r <- try_finally
             (r <- Task__send_to_coroutine_within_new_context id inner_cancel ;;
              match r with
              | Stopped v => Task__set_result id (Some v) None ;;; ret None
              | Thrown e => Task__set_result id None (Some e) ;;; ret None
              | Yielded fut => ret (Some fut)
              end)
             (s' <- state_of id ;;
              match s' with
              | RunningState _ _ waiting_on => remove_callback waiting_on (CbStep id)
              | _ => ret tt
              end) ;;
      match r with
      | None => ret tt
      | Some future =>
          if Nat.eqb future id
          then raise (RuntimeError "Task awaiting on itself")
          else
            add_callback future (CbStep id) ;;;
            s' <- state_of id ;;
            match base_task_coroutine s' with
            | Some c =>
                post_init c CORO_SUSPENDED ;;;
                modify (set_state id (RunningState (result_callbacks_of s') c future))
            | None => raise (AttributeError "result_callbacks")
            end
      end
  | _ => raise (RuntimeError "Trying to resume finished task")
  end.

(** ** Running the loop *)

Definition run_entry (e : entry) : M world unit :=
  match e with
  | ECallback (CbUser n) fut =>
      modify (fun w => mkWorld (objs w) (next_id w) (loop w) (next_exc w)
                         (calls w ++ [(n, fut)]) (loop_errors w))
  | ECallback (CbStep task) _ => Task__execute_coroutine_step task None
  | EStep task inner_cancel => Task__execute_coroutine_step task inner_cancel
  end.

(** One turn of the loop: the oldest ready callback runs to completion;
    an exception that escapes it is kept by the loop. *)
Definition run_once (w : world) : option world :=
  match Loop.pop (loop w) with
  | None => None
  | Some (e, l) =>
      match run_entry e (set_loop (fun _ => l) w) with
      | (Ok _, w') => Some w'
      | (Err x, w') =>
          Some (mkWorld (objs w') (next_id w') (loop w') (next_exc w') (calls w')
                  (loop_errors w' ++ [x]))
      end
  end.

(** Drain: run ready callbacks until none is left, at most [n] of them. *)
Fixpoint drain (n : nat) (w : world) : world :=
  match n with
  | 0 => w
  | S n' => match run_once w with
            | None => w
            | Some w' => drain n' w'
            end
  end.

Definition quiescent (w : world) : Prop := Loop.ready (loop w) = [].

(** ** Tasks that wait on one another *)

(** A task suspended in an await: its identity, the continuation of its
    body, and the user callbacks subscribed to the awaited object before
    and after the task's own step. *)
Record waiter := mkWaiter {
  w_task : nat;
  w_body : outcome -> coro;
  w_before : list nat;
  w_after : list nat;
}.

(** The callbacks of the object that [a] awaits. *)
Definition subscribers (a : waiter) : list callback :=
  (map CbUser (w_before a) ++ CbStep (w_task a) :: map CbUser (w_after a))%list.

(** [waiting w x l top]: the tasks of [l] are running and wait on one
    another, the first on [x], each later one on the task before it; an
    awaited task has the callbacks [subscribers] of its waiter, the last
    task has the callbacks [top]. *)
Fixpoint waiting (w : world) (x : nat) (l : list waiter) (top : list callback) : Prop :=
  match l with
  | [] => True
  | a :: r =>
      objs w !! w_task a =
        Some (mkObj KTask
                (RunningState (match r with [] => top | b :: _ => subscribers b end)
                   (FSuspended x (w_body a)) x)) /\
      waiting w (w_task a) r top
  end.

(** The turns the loop takes until the last task of [l] has been woken,
    when the first is woken by the first callback that is not a user
    callback. *)
Fixpoint wake_turns (l : list waiter) : nat :=
  match l with
  | [] => 0
  | a :: r =>
      length (w_before a) + 1 +
      match r with [] => 0 | _ :: _ => length (w_after a) + wake_turns r end
  end.
End Pure.

(** * aio/future.py and aio/task_group.py *)
Module Legacy.

(** A future callback: a user callable, the bound method
    [task._schedule_execution], or the closure [future_done_cb] that
    [shield(future)] makes around [future] and its [shield_promise]. *)
Inductive callback :=
| CbUser (n : nat)
| CbScheduleExecution (task : nat)
| CbFutureDone (future : nat) (shield_promise : nat).

Definition callback_eqb (a b : callback) : bool :=
  match a, b with
  | CbUser n, CbUser m => Nat.eqb n m
  | CbScheduleExecution n, CbScheduleExecution m => Nat.eqb n m
  | CbFutureDone f p, CbFutureDone f' p' => Nat.eqb f f' && Nat.eqb p p'
  | _, _ => false
  end.

(** What [call_soon] was given: [cb(fut)] or
    [task._execute_coroutine_step()]. *)
Inductive entry :=
| ECallback (cb : callback) (fut : nat)
| EStep (task : nat).

Inductive action :=
| APromiseSetResult (fut : nat) (v : val)
| APromiseSetException (fut : nat) (e : exn)
| APromiseCancel (fut : nat) (msg : option string)
| ATaskCancel (task : nat) (msg : option string)
| AAddCallback (fut : nat) (cb : callback)
| ARemoveCallback (fut : nat) (cb : callback)
| ACreatePromise
| AShield (fut : nat)
| AStartedFuture (task : nat)
| ACheckNotFinalized (group : nat)
| AGroupCancel (group : nat) (msg : option string).

Inductive coro :=
| CReturn (v : val)
| CRaise (e : exn)
| CAwait (fut : nat) (k : outcome -> coro)
| CDo (a : action) (k : outcome -> coro)
| CSpawn (group : nat) (c : coro) (k : outcome -> coro).

Inductive coroutine :=
| FCreated (body : coro)
| FRunning
| FSuspended (fut : nat) (k : outcome -> coro)
| FClosed.

(** [Future.State] *)
Inductive State := created | scheduled | running | finishing | finished.

Definition State_eqb (a b : State) : bool :=
  match a, b with
  | created, created | scheduled, scheduled | running, running
  | finishing, finishing | finished, finished => true
  | _, _ => false
  end.

(** The fields [Task] adds to [Future]. *)
Record task_fields := mkTask {
  _coroutine : coroutine;
  _waiting_on : option nat;
  _started_promise : nat;
}.

(** A [Future]; [None] in [_value] or [_exc] is the sentinel [_not_set].
    [_result_callbacks] is a set: a list without repetition, iterated in
    insertion order. *)
Record fobj := mkObj {
  _value : option val;
  _exc : option exn;
  _state : State;
  _result_callbacks : list callback;
  task_of : option task_fields;
}.

(** [TaskGroup] *)
Record TaskGroup := mkGroup {
  _tasks : list nat;
  _is_finalized : bool;
}.

Record world := mkWorld {
  objs : gmap nat fobj;
  groups : gmap nat TaskGroup;
  next_id : nat;
  loop : Loop.t entry;
  next_exc : nat;
  calls : list (nat * nat);
  loop_errors : list exn;
}.

Definition empty_world : world := mkWorld ∅ ∅ 0 Loop.empty 0 [] [].

Definition set_objs (f : gmap nat fobj -> gmap nat fobj) (w : world) : world :=
  mkWorld (f (objs w)) (groups w) (next_id w) (loop w) (next_exc w) (calls w)
    (loop_errors w).
Definition set_groups (f : gmap nat TaskGroup -> gmap nat TaskGroup) (w : world)
  : world :=
  mkWorld (objs w) (f (groups w)) (next_id w) (loop w) (next_exc w) (calls w)
    (loop_errors w).
Definition set_loop (f : Loop.t entry -> Loop.t entry) (w : world) : world :=
  mkWorld (objs w) (groups w) (next_id w) (f (loop w)) (next_exc w) (calls w)
    (loop_errors w).

Local Open Scope m_scope.

Definition deref (id : nat) : M world fobj :=
  fun w => match objs w !! id with
           | Some o => (Ok o, w)
           | None => (Err (TypeError "not a future"), w)
           end.

(** Assignment to the fields of the object [id]. *)
Definition update (id : nat) (f : fobj -> fobj) : M world unit :=
  modify (set_objs (fun m => match m !! id with
                             | Some o => <[id := f o]> m
                             | None => m
                             end)).

Definition set_task (f : task_fields -> task_fields) (o : fobj) : fobj :=
  mkObj (_value o) (_exc o) (_state o) (_result_callbacks o)
    (option_map f (task_of o)).
Definition set__state (s : State) (o : fobj) : fobj :=
  mkObj (_value o) (_exc o) s (_result_callbacks o) (task_of o).
Definition set__result_callbacks (cbs : list callback) (o : fobj) : fobj :=
  mkObj (_value o) (_exc o) (_state o) cbs (task_of o).
Definition set__value_exc (v : option val) (e : option exn) (o : fobj) : fobj :=
  mkObj v e (_state o) (_result_callbacks o) (task_of o).

Definition call_soon (e : entry) : M world nat :=
  fun w => let (h, l) := Loop.call_soon e (loop w) in (Ok h, set_loop (fun _ => l) w).

Definition fresh_Cancelled (msg : option string) : M world exn :=
  fun w => (Ok (Cancelled (next_exc w) msg),
            mkWorld (objs w) (groups w) (next_id w) (loop w) (S (next_exc w))
              (calls w) (loop_errors w)).

(** [Future.is_finished], with its assertion. *)
Definition finished_obj (o : fobj) : bool :=
  match _value o, _exc o with
  | None, None => false
  | _, _ => true
  end.

Definition is_finished (id : nat) : M world bool :=
  o <- deref id ;;
  if finished_obj o && negb (State_eqb (_state o) finished)
  then raise (AssertionError "Future has inconsistent state")
  else ret (finished_obj o).

(** [Future.is_cancelled] *)
Definition is_cancelled (id : nat) : M world bool :=
  fin <- is_finished id ;;
  o <- deref id ;;
  ret (fin && match _exc o with Some e => is_Cancelled e | None => false end).

(** The property [Future.result] *)
Definition result (id : nat) : M world val :=
  fin <- is_finished id ;;
  if negb fin then raise (FutureNotReady None)
  else
    o <- deref id ;;
    match _exc o with
    | Some e => raise e
    | None =>
        match _value o with
        | Some v => ret v
        | None => raise (AssertionError "")
        end
    end.

(** The property [Future.exception] *)
Definition exception (id : nat) : M world (option exn) :=
  fin <- is_finished id ;;
  if negb fin then raise (FutureNotReady None)
  else o <- deref id ;; ret (_exc o).

(** [Future._schedule_cb] *)
Definition Future__schedule_cb (id : nat) (cb : callback) : M world unit :=
  fin <- is_finished id ;;
  if negb fin
  then raise (AssertionError "Future must finish before scheduling callbacks")
  else _ <- call_soon (ECallback cb id) ;; ret tt.

Definition set_has (cb : callback) (cbs : list callback) : bool :=
  existsb (callback_eqb cb) cbs.

(** [Future.add_callback] *)
Definition add_callback (id : nat) (cb : callback) : M world unit :=
  o <- deref id ;;
  if set_has cb (_result_callbacks o) then ret tt
  else
    fin <- is_finished id ;;
    if fin then Future__schedule_cb id cb
    else update id (set__result_callbacks (_result_callbacks o ++ [cb])).

(** [Future.remove_callback]: [set.remove] raises [KeyError] for a
    missing element, and the handler names [ValueError]. *)
Definition remove_callback (id : nat) (cb : callback) : M world unit :=
  o <- deref id ;;
  if set_has cb (_result_callbacks o)
  then update id (set__result_callbacks
                    (List.filter (fun c => negb (callback_eqb cb c)) (_result_callbacks o)))
  else raise KeyError.

Fixpoint for_each {A} (f : A -> M world unit) (l : list A) : M world unit :=
  match l with
  | [] => ret tt
  | a :: r => f a ;;; for_each f r
  end.

(** [Future._call_cbs] *)
Definition Future__call_cbs (id : nat) : M world unit :=
  fin <- is_finished id ;;
  if negb fin
  then raise (AssertionError "Future must finish before calling callbacks")
  else o <- deref id ;; for_each (Future__schedule_cb id) (_result_callbacks o).

(** [Future._set_result] *)
Definition Future__set_result (id : nat) (val_ : option val) (exc : option exn)
  : M world unit :=
  fin <- is_finished id ;;
  if fin then raise (FutureFinishedError None)
  else
    update id (set__state finished) ;;;
    update id (set__value_exc val_ exc) ;;;
    Future__call_cbs id.

(** [Task._set_result]: the started promise is a plain future. *)
Definition Task__set_result (id : nat) (val_ : option val) (exc : option exn)
  : M world unit :=
  Future__set_result id val_ exc ;;;
  o <- deref id ;;
  match task_of o with
  | Some t =>
      fin <- is_finished (_started_promise t) ;;
      if negb fin then Future__set_result (_started_promise t) (Some VNone) None
      else ret tt
  | None => raise (AttributeError "_started_promise")
  end.

(** [self._set_result(...)]: the method of the object's class. *)
Definition _set_result (id : nat) (val_ : option val) (exc : option exn)
  : M world unit :=
  o <- deref id ;;
  match task_of o with
  | None => Future__set_result id val_ exc
  | Some _ => Task__set_result id val_ exc
  end.

(** [Future._cancel] *)
Definition Future__cancel (id : nat) (msg : option string) : M world unit :=
  e <- fresh_Cancelled msg ;;
  _set_result id None (Some e).

(** [Task._cancel]; [cancel_] is [self._waiting_on._cancel]. *)
Definition Task__cancel (cancel_ : nat -> option string -> M world unit)
    (id : nat) (msg : option string) : M world unit :=
  fin <- is_finished id ;;
  if fin then raise (FutureFinishedError None)
  else
    update id (set__state finishing) ;;;
    o <- deref id ;;
    match task_of o with
    | Some t =>
        match _waiting_on t with
        | Some f => cancel_ f msg
        | None => Future__cancel id msg
        end
    | None => raise (AttributeError "_waiting_on")
    end.

Fixpoint _cancel (depth : nat) (id : nat) (msg : option string) : M world unit :=
  match depth with
  | 0 => raise RecursionError
  | S d =>
      o <- deref id ;;
      match task_of o with
      | None => Future__cancel id msg
      | Some _ => Task__cancel (_cancel d) id msg
      end
  end.

(** [_FuturePromise.set_result], [set_exception], [cancel] on the promise
    of the future [fut]. *)
Definition Promise_set_result (fut : nat) (v : val) : M world unit :=
  _set_result fut (Some v) None.

Definition Promise_set_exception (fut : nat) (e : exn) : M world unit :=
  if is_Cancelled e
  then raise (ValueError "Use cancellation API instead of passing exception manually")
  else _set_result fut None (Some e).

Definition Promise_cancel (fut : nat) (msg : option string) : M world unit :=
  _cancel recursion_limit fut msg.

(** The three completion attempts a promise offers. *)
Inductive completion :=
| SetResult (v : val)
| SetException (e : exn)
| Cancel (msg : option string).

Definition attempt (fut : nat) (c : completion) : M world unit :=
  match c with
  | SetResult v => Promise_set_result fut v
  | SetException e => Promise_set_exception fut e
  | Cancel msg => Promise_cancel fut msg
  end.

(** What a completion attempt on a finished future is answered with. *)
Definition refusal (c : completion) : exn :=
  match c with
  | SetException e =>
      if is_Cancelled e
      then ValueError "Use cancellation API instead of passing exception manually"
      else FutureFinishedError None
  | _ => FutureFinishedError None
  end.

Definition alloc (o : fobj) : M world nat :=
  fun w => (Ok (next_id w),
            mkWorld (<[next_id w := o]> (objs w)) (groups w) (S (next_id w)) (loop w)
              (next_exc w) (calls w) (loop_errors w)).

(** [Future.__init__] leaves the future in the state [running]. *)
Definition new_future : fobj := mkObj None None running [] None.

(** [_create_promise]: the promise is named by its future. *)
Definition _create_promise : M world nat := alloc new_future.

(** [Task.__init__] *)
Definition Task_init (c : coroutine) : M world nat :=
  id <- alloc (mkObj None None created [] (Some (mkTask c None 0))) ;;
  p <- _create_promise ;;
  update id (set_task (fun t => mkTask (_coroutine t) (_waiting_on t) p)) ;;;
  ret id.

(** [Task._schedule_execution] *)
Definition Task__schedule_execution (id : nat) : M world unit :=
  _ <- call_soon (EStep id) ;;
  o <- deref id ;;
  if State_eqb (_state o) created then update id (set__state scheduled) else ret tt.

(** [_create_task] *)
Definition _create_task (c : coroutine) : M world nat :=
  id <- Task_init c ;;
  Task__schedule_execution id ;;;
  ret id.

(** [shield]'s callback [future_done_cb]; the property [exception] is
    read twice in the source and reading it changes nothing. *)
Definition future_done_cb (future shield_promise : nat) : M world unit :=
  fin <- is_finished future ;;
  if negb fin then raise (AssertionError "")
  else
    e <- exception future ;;
    match e with
    | Some x => Promise_set_exception shield_promise x
    | None =>
        v <- result future ;;
        Promise_set_result shield_promise v
    end.

(** [shield] *)
Definition shield (future : nat) : M world nat :=
  shield_promise <- _create_promise ;;
  add_callback future (CbFutureDone future shield_promise) ;;;
  ret shield_promise.

(** ** TaskGroup *)

Definition group_of (g : nat) : M world TaskGroup :=
  fun w => match groups w !! g with
           | Some tg => (Ok tg, w)
           | None => (Err (TypeError "not a task group"), w)
           end.

Definition new_group : M world nat :=
  fun w => (Ok (next_id w),
            mkWorld (objs w) (<[next_id w := mkGroup [] false]> (groups w))
              (S (next_id w)) (loop w) (next_exc w) (calls w) (loop_errors w)).

(** [TaskGroup._check_not_finalized] *)
Definition TaskGroup__check_not_finalized (g : nat) : M world unit :=
  tg <- group_of g ;;
  if _is_finalized tg
  then raise (RuntimeError
                "Spawning tasks inside task group after finalization is forbidden")
  else ret tt.

(** [TaskGroup.spawn] *)
Definition TaskGroup_spawn (g : nat) (c : coroutine) : M world nat :=
  TaskGroup__check_not_finalized g ;;;
  task <- _create_task c ;;
  tg <- group_of g ;;
  modify (set_groups <[g := mkGroup (_tasks tg ++ [task]) (_is_finalized tg)]>) ;;;
  ret task.

(** [TaskGroup.cancel] *)
Definition TaskGroup_cancel (g : nat) (msg : option string) : M world unit :=
  tg <- group_of g ;;
  for_each (fun task => _cancel recursion_limit task msg) (_tasks tg).

(** Modelled from the spec: [aio.exceptions.create_multi_error] is
    missing.  A [MultiError] is an aggregate with an ordered list of inner
    exceptions, and nested [MultiError]s are flattened. *)
Definition flatten_exc (e : exn) : list exn :=
  match e with
  | MultiError _ children => children
  | _ => [e]
  end.

Definition create_multi_error (msg : string) (excs : list exn) : exn :=
  MultiError msg (concat (map flatten_exc excs)).

(** [all(task.is_finished() for task in tasks)] *)
Fixpoint all_finished (tasks : list nat) : M world bool :=
  match tasks with
  | [] => ret true
  | t :: r => fin <- is_finished t ;; if fin then all_finished r else ret false
  end.

(** [[task.exception for task in tasks if task.exception]] *)
Fixpoint task_exceptions (tasks : list nat) : M world (list exn) :=
  match tasks with
  | [] => ret []
  | t :: r =>
      e <- exception t ;;
      match e with
      | Some x => es <- task_exceptions r ;; ret (x :: es)
      | None => task_exceptions r
      end
  end.

(** A finished future whose state tag agrees, as [is_finished] asserts. *)
Definition settled (o : fobj) : Prop :=
  finished_obj o = true /\ _state o = finished.

(** Allocating an exception instance touches nothing but the counter. *)
Definition same_but_exc (w w' : world) : Prop :=
  objs w' = objs w /\ groups w' = groups w /\ loop w' = loop w /\
  calls w' = calls w /\ loop_errors w' = loop_errors w /\ next_id w' = next_id w.

Definition all_settled (w : world) (tasks : list nat) : Prop :=
  Forall (fun t => exists o, objs w !! t = Some o /\ settled o) tasks.

(** The entries [call_soon] appends to the ready queue, from the handle
    [n] on, for the callbacks [cbs] of the future [id]. *)
Fixpoint entries_from (n : nat) (id : nat) (cbs : list callback) : list (nat * entry) :=
  match cbs with
  | [] => []
  | cb :: r => (n, ECallback cb id) :: entries_from (S n) id r
  end.

(** The loop after [call_soon] was given the entries [es]. *)
Definition enqueue (es : list (nat * entry)) (l : Loop.t entry) : Loop.t entry :=
  Loop.mk (Loop.ready l ++ es) (Loop.next_handle l + length es) (Loop.executed l).

(** Identities are allocated in order: nothing lives at or above
    [next_id]. *)
Definition WF (w : world) : Prop :=
  forall id, next_id w <= id -> objs w !! id = None.

(** The started promise of every task is a plain future of the store,
    and it is finished whenever the task is. *)
Definition started_ok (w : world) : Prop :=
  forall t o tf, objs w !! t = Some o -> task_of o = Some tf ->
    exists so, objs w !! _started_promise tf = Some so /\ task_of so = None /\
      (finished_obj o = true -> finished_obj so = true).

Definition Inv (w : world) : Prop := WF w /\ started_ok w.

(** An assignment that touches neither the result nor the task's
    started promise. *)
Definition neutral (f : fobj -> fobj) : Prop :=
  forall o, finished_obj (f o) = finished_obj o /\
            option_map _started_promise (task_of (f o))
            = option_map _started_promise (task_of o).

(** A call that only hands work to the loop: objects, groups and the
    identity counter are as before. *)
Definition loop_only {X} (f : world -> X * world) : Prop :=
  forall w x w', f w = (x, w') ->
    objs w' = objs w /\ next_id w' = next_id w /\ groups w' = groups w.

(** The state tag agrees with the result: what [is_finished] asserts. *)
Definition consistent (w : world) : Prop :=
  forall id o, objs w !! id = Some o -> finished_obj o = true -> _state o = finished.

(** A call keeps the store consistent. *)
Definition steady {X} (f : world -> X * world) : Prop :=
  forall w x w', consistent w -> f w = (x, w') -> consistent w'.

(** An assignment that touches neither the result nor the state tag. *)
Definition quiet (f : fobj -> fobj) : Prop :=
  forall o, _value (f o) = _value o /\ _exc (f o) = _exc o /\ _state (f o) = _state o.

(** [evolves w w']: every object of [w] is still in [w'], plain future
    or task as it was; an object that held a result in [w] holds the same
    value and exception in [w'], and the state tag of a finished object
    stays [finished]. *)
Definition evolves (w w' : world) : Prop :=
  next_id w <= next_id w' /\
  forall id o, objs w !! id = Some o ->
    exists o', objs w' !! id = Some o' /\
      (task_of o' = None <-> task_of o = None) /\
      (finished_obj o = true -> _value o' = _value o /\ _exc o' = _exc o) /\
      (settled o -> _state o' = finished).

(** A call is [good] when it keeps [WF] and lets the store evolve. *)
Definition good {X} (f : world -> X * world) : Prop :=
  forall w x w', WF w -> f w = (x, w') -> WF w' /\ evolves w w'.

(** A call [keeps] the invariant. *)
Definition keeps {X} (f : world -> X * world) : Prop :=
  forall w x w', Inv w -> f w = (x, w') -> Inv w'.

(** The exceptions the children of a group ended in, in spawn order. *)
Definition child_exceptions (w : world) (tasks : list nat) : list exn :=
  omap (fun t => match objs w !! t with Some o => _exc o | None => None end) tasks.

(** The inner exceptions of an aggregate. *)
Definition aggregated (e : exn) : list exn :=
  match e with
  | MultiError _ children => children
  | _ => []
  end.

Section Join.
(** [aio.gather.iter_done_futures] is missing: [iterate tasks] stands for
    the [async with iter_done_futures(...)] block of [_join], which
    awaits every child and has an empty body. *)
Variable iterate : list nat -> M world unit.

(** [TaskGroup._join] *)
Definition TaskGroup__join (g : nat) : M world unit :=
  tg0 <- group_of g ;;
  modify (set_groups <[g := mkGroup (_tasks tg0) true]>) ;;;
  let tasks := _tasks tg0 in
  (fun w => match iterate tasks w with
            | (Err (Cancelled _ _), w') =>
                (Err (RuntimeError
                   "Task group being cancelled while joining on child tasks"), w')
            | r => r
            end) ;;;
  ok <- all_finished tasks ;;
  if negb ok then raise (AssertionError "All task must be finished here")
  else
    excs <- task_exceptions tasks ;;
    match excs with
    | [] => ret tt
    | _ => raise (create_multi_error "Child task errors" excs)
    end.
End Join.

(** ** Coroutines *)

Definition to_outcome {A} (f : A -> val) (r : res A) : outcome :=
  match r with
  | Ok a => Returned (f a)
  | Err e => Raised e
  end.

Definition started_future (task : nat) : M world nat :=
  o <- deref task ;;
  match task_of o with
  | Some t => ret (_started_promise t)
  | None => raise (AttributeError "_started_promise")
  end.

Definition do_action (a : action) (w : world) : outcome * world :=
  let lift {A} (f : A -> val) (m : M world A) :=
    let (r, w') := m w in (to_outcome f r, w') in
  match a with
  | APromiseSetResult fut v => lift (fun _ : unit => VNone) (Promise_set_result fut v)
  | APromiseSetException fut e =>
      lift (fun _ : unit => VNone) (Promise_set_exception fut e)
  | APromiseCancel fut msg => lift (fun _ : unit => VNone) (Promise_cancel fut msg)
  | ATaskCancel task msg => lift (fun _ : unit => VNone) (_cancel recursion_limit task msg)
  | AAddCallback fut cb => lift (fun _ : unit => VNone) (add_callback fut cb)
  | ARemoveCallback fut cb => lift (fun _ : unit => VNone) (remove_callback fut cb)
  | ACreatePromise => lift VRef _create_promise
  | AShield fut => lift VRef (shield fut)
  | AStartedFuture task => lift VRef (started_future task)
  | ACheckNotFinalized g => lift (fun _ : unit => VNone) (TaskGroup__check_not_finalized g)
  | AGroupCancel g msg => lift (fun _ : unit => VNone) (TaskGroup_cancel g msg)
  end.

Inductive send_result :=
| Yielded (fut : nat)
| Stopped (v : val)
| Thrown (e : exn).

(** [Future.__await__] after its [yield] *)
Definition await_resume (fut : nat) : M world val :=
  fin <- is_finished fut ;;
  if negb fin
  then raise (FutureNotReady
                (Some "The future object resumed before result has been set"))
  else
    o <- deref fut ;;
    match _exc o with
    | Some e => raise e
    | None =>
        match _value o with
        | Some v => ret v
        | None => raise (AssertionError
            "Value and exception mutually exclusive when `is_finished` returns True")
        end
    end.

Fixpoint run_coro (c : coro) (w : world) : (send_result * coroutine) * world :=
  match c with
  | CReturn v => ((Stopped v, FClosed), w)
  | CRaise e => ((Thrown e, FClosed), w)
  | CAwait fut k =>
      match is_finished fut w with
      | (Ok false, _) => ((Yielded fut, FSuspended fut k), w)
      | (Ok true, _) =>
          let (r, w') := await_resume fut w in
          run_coro (k (to_outcome (fun v => v) r)) w'
      | (Err e, _) => run_coro (k (Raised e)) w
      end
  | CDo a k =>
      let (o, w') := do_action a w in run_coro (k o) w'
  | CSpawn g c' k =>
      let (r, w') := TaskGroup_spawn g (FCreated c') w in
      run_coro (k (to_outcome VRef r)) w'
  end.

(** [TaskGroup.wait_started], awaited by a body that continues with [k]. *)
Definition wait_started (g : nat) (c : coro) (k : outcome -> coro) : coro :=
  CDo (ACheckNotFinalized g) (fun o =>
    match o with
    | Raised e => k (Raised e)
    | Returned _ =>
        CSpawn g c (fun o =>
          match o with
          | Returned (VRef task) =>
              CDo (AStartedFuture task) (fun o =>
                match o with
                | Returned (VRef started) =>
                    CDo (AShield started) (fun o =>
                      match o with
                      | Returned (VRef s) =>
                          CAwait s (fun o =>
                            match o with
                            | Returned _ => k (Returned (VRef task))
                            | Raised e => k (Raised e)
                            end)
                      | Returned _ => k (Raised (TypeError "not a future"))
                      | Raised e => k (Raised e)
                      end)
                | Returned _ => k (Raised (TypeError "not a future"))
                | Raised e => k (Raised e)
                end)
          | Returned _ => k (Raised (TypeError "not a task"))
          | Raised e => k (Raised e)
          end)
    end).

Definition set_coroutine (id : nat) (c : coroutine) : world -> world :=
  fun w => snd (update id (set_task (fun t => mkTask c (_waiting_on t) (_started_promise t))) w).

(** What the [await] expression of a body suspended on [fut] evaluates
    to when the body is resumed. *)
Definition await_outcome (fut : nat) : M world outcome :=
  fun w => let (r, w') := await_resume fut w in (Ok (to_outcome (fun v => v) r), w').

Definition continue_with (id : nat) (c : coro) : M world send_result :=
  fun w => let '((r, c'), w') := run_coro c w in (Ok r, set_coroutine id c' w').

(** [coroutine.send(None)] on the coroutine of task [id]. *)
Definition send (id : nat) (c : coroutine) : M world send_result :=
  match c with
  | FRunning => ret (Thrown (ValueError "coroutine already executing"))
  | FClosed => ret (Thrown (RuntimeError "cannot reuse already awaited coroutine"))
  | FCreated body => modify (set_coroutine id FRunning) ;;; continue_with id body
  | FSuspended fut k =>
      modify (set_coroutine id FRunning) ;;;
      o <- await_outcome fut ;;
      continue_with id (k o)
  end.

(** [Task._execute_coroutine_step] *)
Definition Task__execute_coroutine_step (id : nat) : M world unit :=
  o <- deref id ;;
  match task_of o with
  | None => raise (AttributeError "_coroutine")
  | Some t =>
      r <- send id (_coroutine t) ;;
      match r with
      | Stopped v => Task__set_result id (Some v) None
      | Thrown e => Task__set_result id None (Some e)
      | Yielded future =>
          o1 <- deref id ;;
          (if State_eqb (_state o1) scheduled
           then update id (set__state running) ;;;
                Promise_set_result (_started_promise t) VNone
           else ret tt) ;;;
          if Nat.eqb future id
          then raise (RuntimeError "Task awaiting on itself")
          else
            match option_bind _ _ _waiting_on (task_of o1) with
            | Some f => remove_callback f (CbScheduleExecution id)
            | None => ret tt
            end ;;;
            add_callback future (CbScheduleExecution id) ;;;
            update id (set_task (fun t' =>
              mkTask (_coroutine t') (Some future) (_started_promise t')))
      end
  end.

(** ** Running the loop *)

Definition run_entry (e : entry) : M world unit :=
  match e with
  | ECallback (CbUser n) fut =>
      modify (fun w => mkWorld (objs w) (groups w) (next_id w) (loop w) (next_exc w)
                         (calls w ++ [(n, fut)]) (loop_errors w))
  | ECallback (CbScheduleExecution task) _ => Task__schedule_execution task
  | ECallback (CbFutureDone future shield_promise) _ =>
      future_done_cb future shield_promise
  | EStep task => Task__execute_coroutine_step task
  end.

Definition run_once (w : world) : option world :=
  match Loop.pop (loop w) with
  | None => None
  | Some (e, l) =>
      match run_entry e (set_loop (fun _ => l) w) with
      | (Ok _, w') => Some w'
      | (Err x, w') =>
          Some (mkWorld (objs w') (groups w') (next_id w') (loop w') (next_exc w')
                  (calls w') (loop_errors w' ++ [x]))
      end
  end.

Fixpoint drain (n : nat) (w : world) : world :=
  match n with
  | 0 => w
  | S n' => match run_once w with
            | None => w
            | Some w' => drain n' w'
            end
  end.

(** The store after [_create_task]: the task is scheduled, its started
    promise is the next fresh future, its first step is queued last. *)
Definition created_task (c : coroutine) (w : world) : world :=
  mkWorld (<[next_id w := mkObj None None scheduled []
                            (Some (mkTask c None (S (next_id w))))]>
             (<[S (next_id w) := new_future]> (objs w)))
    (groups w) (S (S (next_id w)))
    (Loop.mk (Loop.ready (loop w) ++ [(Loop.next_handle (loop w), EStep (next_id w))])
       (S (Loop.next_handle (loop w))) (Loop.executed (loop w)))
    (next_exc w) (calls w) (loop_errors w).

(** ** Programs

    What the code around the library does between two turns of the loop:
    it creates promises, tasks and groups, completes promises, subscribes
    callbacks, and lets the loop take a turn.  An exception a call raises
    is caught by the caller; the effects made before it stay. *)
Inductive op :=
| OCreatePromise
| OCreateTask (c : coro)
| OAttempt (fut : nat) (c : completion)
| OAddCallback (fut : nat) (cb : callback)
| ORemoveCallback (fut : nat) (cb : callback)
| OShield (fut : nat)
| ONewGroup
| OSpawn (g : nat) (c : coro)
| OGroupCancel (g : nat) (msg : option string)
| OTurn.

Definition run_op (o : op) (w : world) : world :=
  match o with
  | OCreatePromise => snd (_create_promise w)
  | OCreateTask c => snd (_create_task (FCreated c) w)
  | OAttempt fut c => snd (attempt fut c w)
  | OAddCallback fut cb => snd (add_callback fut cb w)
  | ORemoveCallback fut cb => snd (remove_callback fut cb w)
  | OShield fut => snd (shield fut w)
  | ONewGroup => snd (new_group w)
  | OSpawn g c => snd (TaskGroup_spawn g (FCreated c) w)
  | OGroupCancel g msg => snd (TaskGroup_cancel g msg w)
  | OTurn => drain 1 w
  end.

Definition run_ops (ops : list op) (w : world) : world :=
  fold_left (fun w o => run_op o w) ops w.


(** ** Tasks that wait on one another *)

(** A task suspended in an await: its identity, the continuation of its
    body, its started promise, and the user callbacks that the set of
    callbacks of the awaited object yields before and after the task's
    own wake-up. *)
Record waiter := mkWaiter {
  w_task : nat;
  w_body : outcome -> coro;
  w_started : nat;
  w_before : list nat;
  w_after : list nat;
}.

(** The callbacks of the object that [a] awaits, in the order the set
    yields them. *)
Definition subscribers (a : waiter) : list callback :=
  (map CbUser (w_before a) ++ CbScheduleExecution (w_task a)
     :: map CbUser (w_after a))%list.

(** The object of the unfinished task [a], suspended in an await on [x],
    with the callbacks [cbs]. *)
Definition suspended_on (x : nat) (a : waiter) (cbs : list callback) (o : fobj)
  : Prop :=
  finished_obj o = false /\ _result_callbacks o = cbs /\
  task_of o = Some (mkTask (FSuspended x (w_body a)) (Some x) (w_started a)).

(** [waiting w x l top]: the tasks of [l] wait on one another, the first
    on [x], each later one on the task before it; every one has taken its
    first step, so its started promise is finished; an awaited task has
    the callbacks [subscribers] of its waiter, the last task has the
    callbacks [top]. *)
Fixpoint waiting (w : world) (x : nat) (l : list waiter) (top : list callback) : Prop :=
  match l with
  | [] => True
  | a :: r =>
      (exists o so,
         objs w !! w_task a = Some o /\
         suspended_on x a (match r with [] => top | b :: _ => subscribers b end) o /\
         objs w !! w_started a = Some so /\ settled so) /\
      waiting w (w_task a) r top
  end.

(** The turns the loop takes until the last task of [l] has been woken:
    for each task the user callbacks, the wake-up callback and the step
    it schedules. *)
Fixpoint wake_turns (l : list waiter) : nat :=
  match l with
  | [] => 0
  | a :: r => length (w_before a) + 1 + length (w_after a) + 1 + wake_turns r
  end.

(** [calm w w']: every object of [w] is in [w'] with the same result,
    callbacks and task fields; only the state tag of an unfinished object
    may differ. *)
Definition calm (w w' : world) : Prop :=
  forall id o, objs w !! id = Some o ->
    exists o', objs w' !! id = Some o' /\
      _value o' = _value o /\ _exc o' = _exc o /\
      _result_callbacks o' = _result_callbacks o /\ task_of o' = task_of o /\
      (finished_obj o = true -> _state o' = _state o).
End Legacy.

(** * aio/components/executor.py *)

Module Executor.

(** [_ignore_feature_finished_error(fn, *args)]: [fn] with its arguments
    is a call on the store. *)
Definition _ignore_feature_finished_error {W} (fn : M W unit) : M W unit :=
  fun w => match fn w with
           | (Err (FutureFinishedError _), w') => (Ok tt, w')
           | r => r
           end.

End Executor.

(** * Concrete stores *)

Module PureExamples.
Import Pure.
Local Open Scope m_scope.

(** A future completed with the value 1: identity 0. *)
Definition w_done : world :=
  snd ((p <- create_promise ;; Promise_set_result p (VInt 1)) empty_world).

(** A pending future, identity 0, with one user callback. *)
Definition w_pending : world :=
  snd ((p <- create_promise ;; add_callback (_fut p) (CbUser 7)) empty_world).

(** A future with a user callback, then completed: the callback waits in
    the ready queue under handle 0. *)
Definition w_done_cb : world :=
  snd ((p <- create_promise ;;
        add_callback (_fut p) (CbUser 7) ;;;
        Promise_set_result p (VInt 1)) empty_world).

(** A task, identity 0, whose coroutine is being resumed. *)
Definition w_mid_step : world :=
  mkWorld {[0 := mkObj KTask (ScheduledState [] FRunning 0)]} 1
    (Loop.mk [] 1 [0]) 0 [] [].

(** A body that awaits [inner] and lets whatever the await raises
    propagate. *)
Definition forward (o : outcome) : coro :=
  match o with
  | Returned v => CReturn v
  | Raised e => CRaise e
  end.

(** A body that awaits [inner] inside [try ... except Cancelled] and
    returns 1 from the handler. *)
Definition catching (o : outcome) : coro :=
  match o with
  | Returned v => CReturn v
  | Raised e => if is_Cancelled e then CReturn (VInt 1) else CRaise e
  end.

(** A pending future 0 with a user callback, and a task 1 whose first
    step ran: it is suspended in [await] on the future. *)
Definition awaiting (k : outcome -> coro) : world :=
  drain 10 (snd ((p <- create_promise ;;
                  add_callback (_fut p) (CbUser 7) ;;;
                  create_task (FCreated (CAwait (_fut p) k))) empty_world)).

Definition w_awaiting : world := awaiting forward.
Definition w_catching : world := awaiting catching.

(** Test scenario: the body calls [cancel] on its own task. *)
Definition w_self_cancel : world :=
  drain 10 (snd (create_task (FCreated (CDo (ATaskCancel 0 CNone) forward))
                   empty_world)).

(** The future 0 was completed with 1 while the task 1 awaits it: the
    wake-up of the task waits in the ready queue under handle 1. *)
Definition w_woken : world :=
  snd (Promise_set_result (mkPromise 0) (VInt 1)
         (drain 10 (snd ((p <- create_promise ;;
                          create_task (FCreated (CAwait (_fut p) forward)))
                           empty_world)))).


(** A pending future 0 with a user callback and three tasks: 1 awaits the
    future, 2 awaits 1, 3 awaits 2; a user callback was subscribed to the
    task 1 after the task 2. *)
Definition w_chain : world :=
  snd (add_callback 1 (CbUser 8)
         (drain 10 (snd ((p <- create_promise ;;
                          add_callback (_fut p) (CbUser 7) ;;;
                          t1 <- create_task (FCreated (CAwait (_fut p) forward)) ;;
                          t2 <- create_task (FCreated (CAwait t1 forward)) ;;
                          create_task (FCreated (CAwait t2 forward))) empty_world)))).

(** A body that awaits [inner] inside [try ... finally] and awaits the
    future [other] in the [finally] block. *)
Definition finally_awaiting (other : nat) (o : outcome) : coro :=
  match o with
  | Returned v => CAwait other (fun _ => CReturn v)
  | Raised e => CAwait other (fun _ => CRaise e)
  end.

(** Two pending futures 0 and 1, and a task 2 suspended in an await on 0
    whose [finally] block awaits 1. *)
Definition w_finally : world :=
  drain 10 (snd ((p <- create_promise ;;
                  _ <- create_promise ;;
                  create_task (FCreated (CAwait (_fut p) (finally_awaiting 1))))
                   empty_world)).

(** A body that cancels the task [t] with the instance [Cancelled 43]. *)
Definition meddling (t : nat) (_ : outcome) : coro :=
  CDo (ATaskCancel t (CInst 43 None)) (fun _ => CReturn VNone).

(** The store [w_awaiting] with one more task, identity 2, that has not
    taken its first step: the ready queue holds that step. *)
Definition w_queued : world :=
  snd (create_task (FCreated (meddling 1 (Returned VNone))) w_awaiting).

(** A pending future 0 awaited by two tasks: the task 1, subscribed
    first, cancels the task 2 when it is woken. *)
Definition w_two_waiters : world :=
  drain 10 (snd ((p <- create_promise ;;
                  _ <- create_task (FCreated (CAwait (_fut p) (meddling 2))) ;;
                  create_task (FCreated (CAwait (_fut p) forward))) empty_world)).
End PureExamples.

Module LegacyExamples.
Import Legacy.
Local Open Scope m_scope.

(** A future completed with the value 1: identity 0. *)
Definition w_done : world :=
  snd ((p <- _create_promise ;; Promise_set_result p (VInt 1)) empty_world).

(** A pending future, identity 0. *)
Definition w_pending : world := snd (_create_promise empty_world).

(** A future with a user callback, then completed: the callback waits in
    the ready queue under handle 0. *)
Definition w_done_cb : world :=
  snd ((p <- _create_promise ;;
        add_callback p (CbUser 7) ;;;
        Promise_set_result p (VInt 1)) empty_world).

Definition forward (o : outcome) : coro :=
  match o with
  | Returned v => CReturn v
  | Raised e => CRaise e
  end.

(** A group, identity 0, with two children: the first returns at once,
    the second awaits the pending future 1. *)
Definition setup_group : M world unit :=
  g <- new_group ;;
  p <- _create_promise ;;
  _ <- TaskGroup_spawn g (FCreated (CReturn (VInt 1))) ;;
  _ <- TaskGroup_spawn g (FCreated (CAwait p forward)) ;;
  ret tt.

(** After the loop ran: child 2 is finished, child 4 waits on future 1. *)
Definition w_group_mixed : world := drain 10 (snd (setup_group empty_world)).

(** A group, identity 0, with one child, identity 1; no exception
    instance exists yet. *)
Definition w_group_spawned : world :=
  snd ((g <- new_group ;;
        TaskGroup_spawn g (FCreated (CReturn (VInt 1)))) empty_world).

(** The same group after [TaskGroup.cancel]: the child ended in the
    [Cancelled] instance that this call made. *)
Definition w_group_cancelled : world :=
  snd (TaskGroup_cancel 0 (Some "stop") w_group_spawned).

(** A pending future 0 shielded by the future 1, then cancelled. *)
Definition w_shield_cancelled : world :=
  snd ((p <- _create_promise ;;
        _ <- shield p ;;
        Promise_cancel p (Some "m")) empty_world).

(** A pending future 0 shielded by the future 1, then completed with 1. *)
Definition w_shield_value : world :=
  snd ((p <- _create_promise ;;
        _ <- shield p ;;
        Promise_set_result p (VInt 1)) empty_world).

(** A scheduled task, identity 0, with its started promise, identity 1,
    and a user callback on each. *)
Definition w_task_cbs : world :=
  snd ((t <- _create_task (FCreated (CReturn (VInt 1))) ;;
        add_callback t (CbUser 7) ;;;
        add_callback 1 (CbUser 8)) empty_world).

(** A parent task, identity 1, suspended in [wait_started] of the group 0
    on a child, identity 3, that returns at once and has not taken its
    first step: the child's started promise is 4, the future that
    shields it is 5. *)
Definition w_wait_started : world :=
  drain 1 (snd ((g <- new_group ;;
                 _create_task
                   (FCreated (wait_started g (CReturn (VInt 1)) forward))) empty_world)).

(** A wait for the children that lets the loop take [n] turns and
    returns: what the block over [iter_done_futures] of [_join] comes to
    when every child ends within [n] turns. *)
Definition wait_turns (n : nat) : list nat -> M world unit :=
  fun _ w => (Ok tt, drain n w).

(** A group, identity 0, and a future, identity 1, cancelled from outside
    the group; three children that have not run yet: 2 awaits the future,
    4 raises an exception of its own, 6 returns. *)
Definition w_group_three : world :=
  snd ((g <- new_group ;;
        p <- _create_promise ;;
        _ <- TaskGroup_spawn g (FCreated (CAwait p forward)) ;;
        _ <- TaskGroup_spawn g (FCreated (CRaise (UserExc 5 "E"))) ;;
        _ <- TaskGroup_spawn g (FCreated (CReturn (VInt 1))) ;;
        Promise_cancel p (Some "outside")) empty_world).

(** A group, identity 0, whose only child, identity 2, awaits the pending
    future 1; then [TaskGroup.cancel] on the group: the child has not
    been woken yet. *)
Definition w_group_cancel_waiting : world :=
  snd (TaskGroup_cancel 0 (Some "stop")
         (drain 10 (snd ((g <- new_group ;;
                          p <- _create_promise ;;
                          TaskGroup_spawn g (FCreated (CAwait p forward)))
                           empty_world)))).


(** A pending future 0 with a user callback and two tasks: 1 (started
    promise 2) awaits the future, 3 (started promise 4) awaits 1. *)
Definition w_chain : world :=
  drain 10 (snd ((p <- _create_promise ;;
                  add_callback p (CbUser 7) ;;;
                  t1 <- _create_task (FCreated (CAwait p forward)) ;;
                  _create_task (FCreated (CAwait t1 forward))) empty_world)).

(** A body that awaits [inner] inside [try ... except Cancelled] and
    returns 1 from the handler. *)
Definition catching (o : outcome) : coro :=
  match o with
  | Returned v => CReturn v
  | Raised e => if is_Cancelled e then CReturn (VInt 1) else CRaise e
  end.

(** A pending future 0 and a task 1 (started promise 2) suspended in an
    await on it, whose body catches the cancellation. *)
Definition w_catching : world :=
  drain 10 (snd ((p <- _create_promise ;;
                  _create_task (FCreated (CAwait p catching))) empty_world)).
End LegacyExamples.

(** * Facts about aio/future/pure.py *)
Module PureFacts.
Import Pure.
Local Open Scope m_scope.

Ltac munfold :=
  unfold state_of, deref, is_finished, is_cancelled, handle_cancel,
    bind, ret, raise, modify, get in *.

Lemma set_state_same (w : world) (id : nat) (o : fobj) :
  objs w !! id = Some o -> set_state id (ostate o) w = w.
Proof.
  intros H. unfold set_state, set_objs. rewrite H.
  destruct o as [k s]; simpl. rewrite (insert_id _ _ _ H). by destruct w.
Qed.

Lemma objs_set_state (w : world) (id : nat) (o : fobj) (s : fstate) :
  objs w !! id = Some o ->
  objs (set_state id s w) = <[id := mkObj (okind o) s]> (objs w).
Proof. intros H. unfold set_state, set_objs; simpl. by rewrite H. Qed.

Lemma lookup_set_state (w : world) (id : nat) (o : fobj) (s : fstate) :
  objs w !! id = Some o ->
  objs (set_state id s w) !! id = Some (mkObj (okind o) s).
Proof. intros H. rewrite (objs_set_state _ _ _ _ H). apply lookup_insert_eq. Qed.

Lemma lookup_set_state_ne (w : world) (id id' : nat) (s : fstate) :
  id ≠ id' -> objs (set_state id s w) !! id' = objs w !! id'.
Proof.
  intros H. unfold set_state, set_objs; simpl.
  destruct (objs w !! id) eqn:E; [|done]. by apply lookup_insert_ne.
Qed.

Lemma loop_set_state (w : world) (id : nat) (s : fstate) :
  loop (set_state id s w) = loop w.
Proof. reflexivity. Qed.

(** ** Callback dictionaries *)

Lemma callback_eqb_eq (a b : callback) : callback_eqb a b = true <-> a = b.
Proof.
  destruct a, b; simpl; rewrite ?Nat.eqb_eq; split; intros H;
    try congruence; try discriminate; inversion H; auto.
Qed.

Lemma callback_eqb_refl (a : callback) : callback_eqb a a = true.
Proof. by apply callback_eqb_eq. Qed.

Lemma dict_del_absent (cb : callback) (cbs : list callback) :
  dict_has cb cbs = false -> dict_del cb cbs = cbs.
Proof.
  unfold dict_has, dict_del. induction cbs as [|c r IH]; simpl; [done|].
  intros H. apply orb_false_elim in H as [H1 H2].
  rewrite H1; simpl. by rewrite IH.
Qed.

Lemma dict_has_del (cb : callback) (cbs : list callback) :
  dict_has cb (dict_del cb cbs) = false.
Proof.
  unfold dict_has, dict_del. induction cbs as [|c r IH]; simpl; [done|].
  destruct (callback_eqb cb c) eqn:E; simpl; [done|]. by rewrite E.
Qed.

Lemma dict_has_set (cb : callback) (cbs : list callback) :
  dict_has cb (dict_set cb cbs) = true.
Proof.
  unfold dict_set. fold (dict_has cb cbs).
  destruct (dict_has cb cbs) eqn:E; [done|].
  unfold dict_has. rewrite existsb_app; simpl.
  by rewrite callback_eqb_refl, orb_true_r.
Qed.

Lemma dict_set_idem (cb : callback) (cbs : list callback) :
  dict_set cb (dict_set cb cbs) = dict_set cb cbs.
Proof.
  unfold dict_set at 1. fold (dict_has cb (dict_set cb cbs)).
  by rewrite dict_has_set.
Qed.

Lemma sched_pop_after (cb : callback) (sch sch' : list (callback * nat)) (h : nat) :
  sched_pop cb sch = Some (h, sch') -> sched_pop cb sch' = None.
Proof.
  unfold sched_pop. destruct (find _ sch) as [[c h0]|] eqn:E; [|done].
  intros [= <- <-].
  destruct (find _ (List.filter _ sch)) as [[c1 h1]|] eqn:E1; [|done].
  apply find_some in E1 as [Hin Heq]. apply List.filter_In in Hin as [_ Hne].
  simpl in *. by rewrite Heq in Hne.
Qed.


Lemma with_callbacks_same (s : fstate) :
  with_callbacks (result_callbacks_of s) s = s.
Proof. by destruct s. Qed.

(** ** Operations on a terminal future *)

Section Terminal.
Variables (w : world) (id : nat) (o : fobj).
Hypothesis Hobj : objs w !! id = Some o.
Hypothesis Hterm : is_pending_state (ostate o) = false.

Lemma add_callback_terminal (cb : callback) :
  add_callback id cb w =
    (Err (FutureFinishedError
            (Some "Could not schedule callback for already finished future")), w).
Proof. unfold add_callback. munfold. by rewrite Hobj, Hterm. Qed.

Lemma Future__set_result_terminal (v : option val) (e : option exn) :
  v = None \/ e = None ->
  Future__set_result id v e w = (Err (FutureFinishedError None), w).
Proof.
  intros Hve. unfold Future__set_result. munfold.
  destruct v, e; try (by destruct Hve); by rewrite Hobj, Hterm.
Qed.

Lemma base_task_coroutine_terminal : base_task_coroutine (ostate o) = None.
Proof. by destruct (ostate o). Qed.

Lemma Task__set_result_terminal (v : option val) (e : option exn) :
  v = None \/ e = None ->
  Task__set_result id v e w = (Err (FutureFinishedError None), w).
Proof.
  intros Hve. unfold Task__set_result. munfold.
  rewrite Hobj, base_task_coroutine_terminal.
  by apply Future__set_result_terminal.
Qed.

Lemma _set_result_terminal (v : option val) (e : option exn) :
  v = None \/ e = None ->
  _set_result id v e w = (Err (FutureFinishedError None), w).
Proof.
  intros Hve. unfold _set_result. munfold. rewrite Hobj.
  destruct (okind o);
    [by apply Future__set_result_terminal | by apply Task__set_result_terminal].
Qed.

Lemma Task_cancel_terminal (a : cancel_arg) :
  okind o = KTask ->
  Task_cancel id a w = (Err (FutureFinishedError None), w).
Proof.
  intros Hk. unfold Task_cancel. munfold.
  rewrite Hobj, base_task_coroutine_terminal.
  change recursion_limit with (S 999). simpl. munfold.
  rewrite Hobj, Hk. unfold Task__cancel. munfold. by rewrite Hobj, Hterm.
Qed.
End Terminal.

Lemma same_but_exc_refl (w : world) : same_but_exc w w.
Proof. by repeat split. Qed.

Lemma coerce_cancel_arg_spec (a : cancel_arg) (w : world) :
  exists e w', coerce_cancel_arg a w = (Ok e, w') /\ same_but_exc w w' /\
    is_Cancelled e = true /\
    match a with CInst i m => e = Cancelled i m /\ w' = w | _ => True end.
Proof.
  destruct a; simpl; unfold fresh_Cancelled, ret; eexists _, _;
    (split; [reflexivity|]); repeat split.
Qed.

Lemma _cancel_terminal (w : world) (id : nat) (o : fobj) (a : cancel_arg) (d : nat) :
  objs w !! id = Some o -> is_pending_state (ostate o) = false ->
  exists w', _cancel (S d) id a w = (Err (FutureFinishedError None), w') /\
             same_but_exc w w'.
Proof.
  intros Hobj Hterm. simpl. munfold. rewrite Hobj. destruct (okind o) eqn:Hk.
  - unfold Future__cancel. munfold.
    destruct (coerce_cancel_arg_spec a w) as (e & w' & -> & Hs & _).
    assert (Hobj' : objs w' !! id = Some o) by (destruct Hs as [-> _]; done).
    rewrite (_set_result_terminal w' id o Hobj' Hterm); eauto.
  - unfold Task__cancel. munfold. rewrite Hobj, Hterm. simpl.
    eexists; split; [reflexivity | apply same_but_exc_refl].
Qed.


(** ** Self-cancellation *)

Lemma Task_cancel_running_coroutine (w : world) (id : nat) (o : fobj)
    (c : coroutine) (a : cancel_arg) :
  objs w !! id = Some o ->
  base_task_coroutine (ostate o) = Some c ->
  getcoroutinestate c = CORO_RUNNING ->
  Task_cancel id a w = (Err SelfCancelForbidden, w).
Proof.
  intros Hobj Hc Hrun. unfold Task_cancel. munfold.
  by rewrite Hobj, Hc, Hrun.
Qed.

(** ** Removing callbacks *)

Lemma remove_callback_unregistered (w : world) (id : nat) (o : fobj) (cb : callback) :
  objs w !! id = Some o ->
  registered cb (ostate o) = false ->
  remove_callback id cb w = (Ok tt, w).
Proof.
  intros Hobj Hreg. unfold remove_callback, registered in *. munfold.
  rewrite Hobj. destruct (is_pending_state (ostate o)) eqn:Hp.
  - rewrite (dict_del_absent _ _ Hreg), with_callbacks_same.
    by rewrite (set_state_same _ _ _ Hobj).
  - destruct (ostate o) as [| | | |v sch|e r sch]; try discriminate Hp;
      simpl in Hreg; by destruct (sched_pop cb sch) as [[? ?]|].
Qed.

Lemma remove_callback_ok (w : world) (id : nat) (o : fobj) (cb : callback) :
  objs w !! id = Some o ->
  exists w' o', remove_callback id cb w = (Ok tt, w') /\
    objs w' !! id = Some o' /\ registered cb (ostate o') = false /\
    okind o' = okind o /\ stored (ostate o') = stored (ostate o) /\
    is_pending_state (ostate o') = is_pending_state (ostate o) /\
    (forall id', id' ≠ id -> objs w' !! id' = objs w !! id').
Proof.
  intros Hobj. unfold remove_callback. munfold. rewrite Hobj.
  destruct (is_pending_state (ostate o)) eqn:Hp.
  - eexists _, _. split; [reflexivity|].
    split; [apply (lookup_set_state _ _ _ _ Hobj)|]. simpl.
    repeat split.
    + unfold registered.
      destruct (ostate o); try discriminate Hp; simpl; apply dict_has_del.
    + by destruct (ostate o).
    + by destruct (ostate o).
    + intros id' Hne. by apply lookup_set_state_ne.
  - destruct (ostate o) as [| | | |v sch|e r sch] eqn:Hs; try discriminate Hp;
      (destruct (sched_pop cb sch) as [[h sch']|] eqn:Hpop;
       [ assert (Hpop' := sched_pop_after _ _ _ _ Hpop);
         eexists _, _; split; [reflexivity|]; simpl;
         split; [apply (lookup_set_state _ _ _ _ Hobj)|]; simpl;
         unfold registered; simpl; rewrite Hpop'; repeat split; auto;
         intros id' Hne; by apply lookup_set_state_ne
       | exists w, o; split; [reflexivity|]; split; [done|];
         unfold registered; rewrite Hs; simpl; rewrite Hpop; repeat split; auto ]).
Qed.

(** The second of two removals changes nothing. *)
Lemma remove_callback_twice (w : world) (id : nat) (o : fobj) (cb : callback) :
  objs w !! id = Some o ->
  exists w', remove_callback id cb w = (Ok tt, w') /\
             remove_callback id cb w' = (Ok tt, w').
Proof.
  intros Hobj.
  destruct (remove_callback_ok w id o cb Hobj) as (w' & o' & H1 & H2 & H3 & _).
  exists w'. split; [done|]. by apply (remove_callback_unregistered w' id o').
Qed.

Lemma pending_cancel (h : nat) (l : Loop.t entry) :
  Loop.pending h (Loop.cancel h l) = false.
Proof.
  unfold Loop.pending, Loop.cancel; simpl.
  induction (Loop.ready l) as [|[h' e] r IH]; simpl; [done|].
  destruct (Nat.eqb h' h) eqn:E; simpl; [done|]. by rewrite E.
Qed.

(** On a terminal future the handle of a registered callback is cancelled:
    it leaves the ready queue, and nothing else does. *)
Lemma remove_callback_terminal_cancels (w : world) (id : nat) (o : fobj)
    (cb : callback) (h : nat) (sch' : list (callback * nat)) :
  objs w !! id = Some o ->
  is_pending_state (ostate o) = false ->
  sched_pop cb (scheduled_cbs_of (ostate o)) = Some (h, sch') ->
  exists w', remove_callback id cb w = (Ok tt, w') /\
    loop w' = Loop.cancel h (loop w) /\
    Loop.pending h (loop w') = false /\
    objs w' !! id = Some (mkObj (okind o) (with_scheduled sch' (ostate o))).
Proof.
  intros Hobj Hterm Hpop. unfold remove_callback. munfold. rewrite Hobj, Hterm.
  destruct (ostate o) eqn:Hs; try discriminate Hterm; simpl in Hpop; rewrite Hpop;
    (eexists; split; [reflexivity|]; simpl; repeat split;
     [apply pending_cancel | apply (lookup_set_state _ _ _ _ Hobj)]).
Qed.

(** ** Awaiting a future *)

Lemma run_coro_await_pending (w : world) (fut : nat) (o : fobj) (k : outcome -> coro) :
  objs w !! fut = Some o -> is_pending_state (ostate o) = true ->
  run_coro (CAwait fut k) w = ((Yielded fut, FSuspended fut k), w).
Proof. intros Hobj Hp. simpl. by rewrite Hobj, Hp. Qed.

Lemma await_outcome_pending (w : world) (fut : nat) (o : fobj) :
  objs w !! fut = Some o -> is_pending_state (ostate o) = true ->
  await_outcome fut w =
    (Ok (Raised (RuntimeError
       "Future being resumed after first yield, but still not finished!")), w).
Proof.
  intros Hobj Hp. unfold await_outcome, await_resume. munfold.
  by rewrite Hobj, Hp.
Qed.

Lemma await_outcome_success (w : world) (fut : nat) (k : kind) (v : val)
    (sch : list (callback * nat)) :
  objs w !! fut = Some (mkObj k (SuccessState v sch)) ->
  await_outcome fut w = (Ok (Returned v), w).
Proof.
  intros Hobj. unfold await_outcome, await_resume, result. munfold.
  by rewrite Hobj; simpl; rewrite Hobj.
Qed.

Lemma await_outcome_failed (w : world) (fut : nat) (k : kind) (e : exn) (r : bool)
    (sch : list (callback * nat)) :
  objs w !! fut = Some (mkObj k (FailedState e r sch)) ->
  await_outcome fut w = (Ok (Raised e), set_state fut (FailedState e true sch) w).
Proof.
  intros Hobj. unfold await_outcome, await_resume, result. munfold.
  by rewrite Hobj; simpl; rewrite Hobj.
Qed.

(** A finished future is not yielded: the [await] is evaluated at once. *)
Lemma run_coro_await_finished (w : world) (fut : nat) (o : fobj) (k : outcome -> coro) :
  objs w !! fut = Some o -> is_pending_state (ostate o) = false ->
  run_coro (CAwait fut k) w =
    (let (r, w') := await_outcome fut w in
     match r with
     | Ok out => run_coro (k out) w'
     | Err e => run_coro (k (Raised e)) w'
     end).
Proof.
  intros Hobj Hp. simpl. rewrite Hobj, Hp. unfold await_outcome.
  by destruct (await_resume fut w).
Qed.


(** ** Terminal states are stable *)

Lemma stored_terminal (s : fstate) :
  is_pending_state s = false <-> stored s <> None.
Proof. destruct s; simpl; split; intros H; congruence. Qed.

Lemma stored_eq_terminal (s s' : fstate) :
  is_pending_state s = false -> stored s' = stored s -> is_pending_state s' = false.
Proof.
  intros H E. apply stored_terminal. rewrite E. by apply stored_terminal.
Qed.

Lemma evolves_refl (w : world) : evolves w w.
Proof. split; [lia|]. intros id o H. exists o. auto. Qed.

Lemma evolves_trans (w1 w2 w3 : world) :
  evolves w1 w2 -> evolves w2 w3 -> evolves w1 w3.
Proof.
  intros [Hn1 H1] [Hn2 H2]. split; [lia|].
  intros id o Hobj. destruct (H1 id o Hobj) as (o2 & Hobj2 & Hk2 & Hs2).
  destruct (H2 id o2 Hobj2) as (o3 & Hobj3 & Hk3 & Hs3).
  exists o3. split; [done|]. split; [congruence|].
  intros Ht. specialize (Hs2 Ht). rewrite <- Hs2. apply Hs3.
  by apply (stored_eq_terminal (ostate o)).
Qed.

Lemma good_same_objs {X} (f : world -> X * world) :
  (forall w x w', f w = (x, w') -> objs w' = objs w /\ next_id w' = next_id w) ->
  good f.
Proof.
  intros H w x w' Hwf Hf. destruct (H w x w' Hf) as [Ho Hn]. split.
  - intros id Hid. rewrite Ho. apply Hwf. lia.
  - split; [lia|]. intros id o Hobj. exists o. rewrite Ho. auto.
Qed.

Lemma good_bind {A B} (m : M world A) (f : A -> M world B) :
  good m -> (forall a, good (f a)) -> good (bind m f).
Proof.
  intros Hm Hf w x w' Hwf. unfold bind.
  destruct (m w) as [[a|e] w1] eqn:E.
  - intros Hfa. destruct (Hm w _ w1 Hwf E) as [Hwf1 He1].
    destruct (Hf a w1 x w' Hwf1 Hfa) as [Hwf2 He2].
    split; [done | by apply (evolves_trans w w1 w')].
  - intros [= <- <-]. by apply (Hm w _ w1 Hwf E).
Qed.

Lemma good_ret {A} (a : A) : good (ret a : M world A).
Proof. apply good_same_objs. by intros w x w' [= _ <-]. Qed.

Lemma good_raise {A} (e : exn) : good (raise e : M world A).
Proof. apply good_same_objs. by intros w x w' [= _ <-]. Qed.

Lemma good_get : good (get : M world world).
Proof. apply good_same_objs. by intros w x w' [= _ <-]. Qed.

Lemma good_deref (id : nat) : good (deref id).
Proof.
  apply good_same_objs. intros w x w'. unfold deref.
  by destruct (objs w !! id); intros [= _ <-].
Qed.

Lemma good_state_of (id : nat) : good (state_of id).
Proof.
  apply good_bind; [apply good_deref | intros; apply good_ret].
Qed.

Lemma good_is_finished (id : nat) : good (is_finished id).
Proof. apply good_bind; [apply good_state_of | intros; apply good_ret]. Qed.

Lemma good_call_soon (e : entry) : good (call_soon e).
Proof. apply good_same_objs. by intros w x w' [= _ <-]. Qed.

Lemma good_handle_cancel (h : nat) : good (handle_cancel h).
Proof. apply good_same_objs. by intros w x w' [= _ <-]. Qed.

Lemma good_coerce_cancel_arg (a : cancel_arg) : good (coerce_cancel_arg a).
Proof. apply good_same_objs. by destruct a; intros w x w' [= _ <-]. Qed.

Lemma good_post_init (c : coroutine) (st : coro_state) : good (post_init c st).
Proof.
  unfold post_init. destruct (coro_state_eqb _ _); [apply good_ret | apply good_raise].
Qed.

(** Writing a state over a pending one, or one that stores the same. *)
Lemma good_set_state (w : world) (id : nat) (o : fobj) (s : fstate) :
  WF w -> objs w !! id = Some o ->
  (is_pending_state (ostate o) = false -> stored s = stored (ostate o)) ->
  WF (set_state id s w) /\ evolves w (set_state id s w).
Proof.
  intros Hwf Hobj Hs. split.
  - intros i Hi. destruct (decide (i = id)) as [->|Hne].
    + simpl in Hi. by rewrite (Hwf id Hi) in Hobj.
    + rewrite lookup_set_state_ne by done. by apply Hwf.
  - split; [simpl; lia|]. intros i oi Hi.
    destruct (decide (i = id)) as [->|Hne].
    + rewrite (lookup_set_state _ _ _ _ Hobj). eexists; split; [done|].
      simpl. assert (oi = o) by congruence. subst oi. auto.
    + rewrite lookup_set_state_ne by done. exists oi. auto.
Qed.

Lemma good_set_state_absent (w : world) (id : nat) (s : fstate) :
  objs w !! id = None -> set_state id s w = w.
Proof. intros H. unfold set_state, set_objs. rewrite H. by destruct w. Qed.

Lemma stored_with_coroutine (c : coroutine) (s : fstate) :
  stored (with_coroutine c s) = stored s.
Proof. by destruct s. Qed.

Lemma stored_with_callbacks (cbs : list callback) (s : fstate) :
  stored (with_callbacks cbs s) = stored s.
Proof. by destruct s. Qed.

Lemma stored_with_scheduled (sch : list (callback * nat)) (s : fstate) :
  stored (with_scheduled sch s) = stored s.
Proof. by destruct s. Qed.

Lemma good_set_coroutine {X} (id : nat) (c : coroutine) (x : X) :
  good (fun w => (x, set_coroutine id c w)).
Proof.
  intros w x' w' Hwf [= _ <-]. unfold set_coroutine.
  destruct (objs w !! id) as [o|] eqn:Hobj; [|split; [done | apply evolves_refl]].
  apply (good_set_state w id o); auto. intros _. apply stored_with_coroutine.
Qed.

Lemma good_modify_set_coroutine (id : nat) (c : coroutine) :
  good (modify (set_coroutine id c)).
Proof. apply (good_set_coroutine id c (Ok tt)). Qed.

(** A state read and written back with the same stored outcome. *)
Lemma good_read_write (id : nat) (f : fstate -> fstate) :
  (forall s, is_pending_state s = false -> stored (f s) = stored s) ->
  good (s <- state_of id ;; modify (set_state id (f s))).
Proof.
  intros Hf w x w' Hwf. unfold state_of, deref, bind, ret, modify.
  destruct (objs w !! id) as [o|] eqn:Hobj.
  - intros [= _ <-]. apply (good_set_state w id o); auto.
  - intros [= _ <-]. split; [done | apply evolves_refl].
Qed.

Lemma good_result (id : nat) : good (result id).
Proof.
  intros w x w' Hwf. unfold result, state_of, deref, bind, ret, raise, modify.
  destruct (objs w !! id) as [o|] eqn:Hobj;
    [|intros [= _ <-]; split; [done | apply evolves_refl]].
  destruct (ostate o) eqn:Hs; intros [= _ <-];
    try (split; [done | apply evolves_refl]).
  apply (good_set_state w id o); auto. by rewrite Hs.
Qed.

Lemma good_exception (id : nat) : good (exception id).
Proof.
  intros w x w' Hwf. unfold exception, state_of, deref, bind, ret, raise, modify.
  destruct (objs w !! id) as [o|] eqn:Hobj;
    [|intros [= _ <-]; split; [done | apply evolves_refl]].
  destruct (ostate o) eqn:Hs; intros [= _ <-];
    try (split; [done | apply evolves_refl]).
  apply (good_set_state w id o); auto. by rewrite Hs.
Qed.

Lemma good_add_callback (id : nat) (cb : callback) : good (add_callback id cb).
Proof.
  intros w x w' Hwf. unfold add_callback, state_of, deref, bind, ret, raise, modify.
  destruct (objs w !! id) as [o|] eqn:Hobj;
    [|intros [= _ <-]; split; [done | apply evolves_refl]].
  destruct (is_pending_state (ostate o)) eqn:Hp; intros [= _ <-];
    [|split; [done | apply evolves_refl]].
  apply (good_set_state w id o); auto. congruence.
Qed.

Lemma good_remove_callback (id : nat) (cb : callback) : good (remove_callback id cb).
Proof.
  intros w x w' Hwf. unfold remove_callback, state_of, deref, handle_cancel,
    bind, ret, raise, modify.
  destruct (objs w !! id) as [o|] eqn:Hobj;
    [|intros [= _ <-]; split; [done | apply evolves_refl]].
  destruct (is_pending_state (ostate o)) eqn:Hp.
  - intros [= _ <-]. apply (good_set_state w id o); auto. congruence.
  - destruct (ostate o) as [| | | |v sch|e r sch] eqn:Hs; try discriminate Hp;
      (destruct (sched_pop cb sch) as [[h sch']|]; intros [= _ <-];
       [|split; [done | apply evolves_refl]]);
      match goal with
      | |- WF (set_loop ?f ?w0) /\ evolves _ (set_loop ?f ?w0) =>
          assert (H0 : WF w0 /\ evolves w w0)
            by (apply (good_set_state w id o); auto; by rewrite Hs);
          destruct H0 as [H1 H2]; split; [exact H1 | exact H2]
      end.
Qed.


Lemma same_objs_evolves (w w1 : world) :
  WF w -> objs w1 = objs w -> next_id w1 = next_id w -> WF w1 /\ evolves w w1.
Proof.
  intros Hwf Ho Hn. split.
  - intros id Hid. rewrite Ho. apply Hwf. lia.
  - split; [lia|]. intros id o Hobj. exists o. rewrite Ho. auto.
Qed.

Lemma schedule_all_ok (id : nat) (cbs : list callback) (w : world) :
  exists sch w1, schedule_all id cbs w = (Ok sch, w1) /\
    objs w1 = objs w /\ next_id w1 = next_id w.
Proof.
  revert w. induction cbs as [|cb r IH]; intros w; simpl.
  - by exists [], w.
  - unfold bind, call_soon.
    destruct (Loop.call_soon (ECallback cb id) (loop w)) as [h l].
    destruct (IH (set_loop (fun _ => l) w)) as (sch & w1 & -> & Ho & Hn).
    by eexists _, _.
Qed.

Lemma good_set_after (w w1 : world) (id : nat) (o : fobj) (s : fstate) :
  WF w -> objs w1 = objs w -> next_id w1 = next_id w ->
  objs w !! id = Some o ->
  (is_pending_state (ostate o) = false -> stored s = stored (ostate o)) ->
  WF (set_state id s w1) /\ evolves w (set_state id s w1).
Proof.
  intros Hwf Ho Hn Hobj Hs.
  destruct (same_objs_evolves w w1 Hwf Ho Hn) as [Hwf1 He1].
  assert (Hobj1 : objs w1 !! id = Some o) by by rewrite Ho.
  destruct (good_set_state w1 id o s Hwf1 Hobj1 Hs) as [Hwf2 He2].
  split; [done | by apply (evolves_trans w w1)].
Qed.

Lemma good_Future__set_result (id : nat) (v : option val) (e : option exn) :
  good (Future__set_result id v e).
Proof.
  assert (Hgen : forall w x w',
    WF w ->
    (s <- state_of id ;;
     if negb (is_pending_state s) then raise (FutureFinishedError None)
     else sch <- Future__schedule_callbacks id ;;
          match v, e with
          | Some v0, _ => modify (set_state id (SuccessState v0 sch))
          | None, Some e0 => modify (set_state id (FailedState e0 false sch))
          | None, None => raise (AssertionError "")
          end)%M w = (x, w') -> WF w' /\ evolves w w').
  { intros w x w' Hwf.
    unfold Future__schedule_callbacks, state_of, deref, bind, ret, raise, modify.
    destruct (objs w !! id) as [o|] eqn:Hobj;
      [|intros [= _ <-]; split; [done | apply evolves_refl]].
    destruct (is_pending_state (ostate o)) eqn:Hp; cbn [negb];
      [|intros [= _ <-]; split; [done | apply evolves_refl]].
    rewrite Hobj. cbv beta iota. rewrite Hp.
    destruct (schedule_all_ok id (result_callbacks_of (ostate o)) w)
      as (sch & w1 & -> & Ho & Hn).
    destruct v as [v0|]; [|destruct e as [e0|]]; intros [= _ <-];
      try (apply (good_set_after w w1 id o); auto; congruence).
    by apply same_objs_evolves. }
  unfold Future__set_result. destruct v, e; try exact Hgen. apply good_raise.
Qed.

Lemma good_Task__set_result (id : nat) (v : option val) (e : option exn) :
  good (Task__set_result id v e).
Proof.
  apply good_bind; [apply good_state_of|]. intros s.
  destruct (base_task_coroutine s) as [c|]; [destruct (is_coro_running c)|];
    try apply good_raise; apply good_Future__set_result.
Qed.

Lemma good__set_result (id : nat) (v : option val) (e : option exn) :
  good (_set_result id v e).
Proof.
  apply good_bind; [apply good_deref|]. intros o.
  destruct (okind o); [apply good_Future__set_result | apply good_Task__set_result].
Qed.

Lemma good_Future__cancel (id : nat) (a : cancel_arg) : good (Future__cancel id a).
Proof.
  apply good_bind; [apply good_coerce_cancel_arg | intros; apply good__set_result].
Qed.

Lemma good_Task__cancel (cf : nat -> cancel_arg -> M world unit) (id : nat)
    (a : cancel_arg) :
  (forall f a', good (cf f a')) -> good (Task__cancel cf id a).
Proof.
  intros Hcf. apply good_bind; [apply good_state_of|]. intros s.
  destruct (negb (is_pending_state s)); [apply good_raise|].
  destruct s; try apply good_Future__cancel.
  - apply good_bind; [apply good_get|]. intros w0.
    destruct (Loop.is_executed _ _); [apply good_raise|].
    apply good_bind; [apply good_handle_cancel | intros; apply good_Future__cancel].
  - apply good_bind; [apply good_is_finished|]. intros fin.
    destruct (negb fin); [apply Hcf|].
    apply good_bind; [apply good_remove_callback|]. intros _.
    apply good_bind; [apply good_coerce_cancel_arg|]. intros e.
    apply good_bind; [apply good_call_soon | intros; apply good_ret].
Qed.

Lemma good__cancel (d : nat) (id : nat) (a : cancel_arg) : good (_cancel d id a).
Proof.
  revert id a. induction d as [|d IH]; intros id a; simpl; [apply good_raise|].
  apply good_bind; [apply good_deref|]. intros o.
  destruct (okind o); [apply good_Future__cancel | by apply good_Task__cancel].
Qed.

Lemma good_cancel_future (id : nat) (a : cancel_arg) : good (cancel_future id a).
Proof. apply good__cancel. Qed.

Lemma good_Task_cancel (id : nat) (a : cancel_arg) : good (Task_cancel id a).
Proof.
  apply good_bind; [apply good_state_of|]. intros s. cbv zeta.
  destruct (match base_task_coroutine s with Some c => _ | None => false end);
    [apply good_raise | apply good__cancel].
Qed.

Lemma good_FuturePromise_init (fut : nat) : good (FuturePromise_init fut).
Proof.
  apply good_bind; [apply good_deref|]. intros o.
  destruct (okind o); [apply good_ret | apply good_raise].
Qed.

Lemma good_attempt (p : FuturePromise) (c : completion) : good (attempt p c).
Proof.
  destruct c; simpl.
  - apply good__set_result.
  - unfold Promise_set_exception.
    destruct (is_Cancelled e); [apply good_raise | apply good__set_result].
  - apply good__cancel.
Qed.

Lemma good_alloc (o : fobj) : good (alloc o).
Proof.
  intros w x w' Hwf [= _ <-]. split.
  - intros id Hid. simpl in *. rewrite lookup_insert_ne by lia. apply Hwf. lia.
  - split; [simpl; lia|]. intros id oi Hobj. exists oi. split; [|auto].
    simpl. rewrite lookup_insert_ne; [done|].
    intros <-. by rewrite (Hwf (next_id w)) in Hobj.
Qed.

Lemma good_create_promise : good create_promise.
Proof.
  apply good_bind; [apply good_alloc | intros; apply good_FuturePromise_init].
Qed.

Lemma good_Task_init (c : coroutine) : good (Task_init c).
Proof.
  apply good_bind; [apply good_post_init | intros; apply good_alloc].
Qed.

Lemma good_Task__schedule_first_step (id : nat) : good (Task__schedule_first_step id).
Proof.
  intros w x w' Hwf.
  unfold Task__schedule_first_step, state_of, deref, call_soon, post_init,
    bind, ret, raise, modify.
  destruct (objs w !! id) as [o|] eqn:Hobj;
    [|intros [= _ <-]; split; [done | apply evolves_refl]].
  destruct (ostate o) eqn:Hs; try (intros [= _ <-]; split; [done | apply evolves_refl]).
  simpl. destruct (coro_state_eqb _ _); intros [= _ <-].
  - apply (good_set_after w _ id o); auto. by rewrite Hs.
  - by apply same_objs_evolves.
Qed.

Lemma good_create_task (c : coroutine) : good (create_task c).
Proof.
  apply good_bind; [apply good_Task_init|]. intros id.
  apply good_bind; [apply good_Task__schedule_first_step | intros; apply good_ret].
Qed.


Lemma good_lift {A} (f : A -> val) (m : M world A) :
  good m -> good (fun w => let (r, w') := m w in (to_outcome f r, w')).
Proof.
  intros Hm w x w' Hwf. destruct (m w) as [r w1] eqn:E. intros [= _ <-].
  by apply (Hm w r w1).
Qed.

Lemma good_do_action (a : action) : good (do_action a).
Proof.
  destruct a; unfold do_action; apply good_lift.
  - apply good_bind; [apply good_FuturePromise_init|]. intros p.
    apply (good_attempt p (SetResult v)).
  - apply good_bind; [apply good_FuturePromise_init|]. intros p.
    apply (good_attempt p (SetException e)).
  - apply good_bind; [apply good_FuturePromise_init|]. intros p.
    apply (good_attempt p (Cancel a)).
  - apply good_Task_cancel.
  - apply good_cancel_future.
  - apply good_add_callback.
  - apply good_remove_callback.
  - apply good_result.
  - apply good_exception.
  - apply good_create_promise.
Qed.

Lemma good_await_resume (fut : nat) : good (await_resume fut).
Proof.
  apply good_bind; [apply good_state_of|]. intros s.
  destruct (is_pending_state s); [apply good_raise | apply good_result].
Qed.

Lemma good_await_outcome (fut : nat) : good (await_outcome fut).
Proof.
  intros w x w' Hwf. unfold await_outcome.
  destruct (await_resume fut w) as [r w1] eqn:E. intros [= _ <-].
  by apply (good_await_resume fut w r w1).
Qed.

(** Whatever a coroutine body does up to its next suspension. *)
Lemma good_run_coro (c : coro) : good (run_coro c).
Proof.
  induction c as [v|e|fut k IH|a k IH|c' IHc k IH]; intros w x w' Hwf; simpl.
  - intros [= _ <-]. split; [done | apply evolves_refl].
  - intros [= _ <-]. split; [done | apply evolves_refl].
  - destruct (objs w !! fut) as [o|] eqn:Hobj; [|by apply IH].
    destruct (is_pending_state (ostate o));
      [intros [= _ <-]; split; [done | apply evolves_refl]|].
    destruct (await_resume fut w) as [r w1] eqn:E. intros Hk.
    destruct (good_await_resume fut w r w1 Hwf E) as [Hwf1 He1].
    destruct (IH _ w1 x w' Hwf1 Hk) as [Hwf2 He2].
    split; [done | by apply (evolves_trans w w1)].
  - destruct (do_action a w) as [o w1] eqn:E. intros Hk.
    destruct (good_do_action a w o w1 Hwf E) as [Hwf1 He1].
    destruct (IH _ w1 x w' Hwf1 Hk) as [Hwf2 He2].
    split; [done | by apply (evolves_trans w w1)].
  - destruct (create_task (FCreated c') w) as [r w1] eqn:E. intros Hk.
    destruct (good_create_task _ w r w1 Hwf E) as [Hwf1 He1].
    destruct (IH _ w1 x w' Hwf1 Hk) as [Hwf2 He2].
    split; [done | by apply (evolves_trans w w1)].
Qed.

Lemma good_continue_with (id : nat) (c : coro) : good (continue_with id c).
Proof.
  intros w x w' Hwf. unfold continue_with.
  destruct (run_coro c w) as [[r c'] w1] eqn:E. intros [= _ <-].
  destruct (good_run_coro c w _ w1 Hwf E) as [Hwf1 He1].
  destruct (good_set_coroutine id c' tt w1 tt _ Hwf1 eq_refl) as [Hwf2 He2].
  split; [done | by apply (evolves_trans w w1)].
Qed.

Lemma good_resume (id : nat) (c : coroutine) (ic : option exn) : good (resume id c ic).
Proof.
  destruct c as [body| |fut k|]; simpl; try apply good_ret.
  - destruct ic.
    + apply good_bind; [apply good_modify_set_coroutine | intros; apply good_ret].
    + apply good_bind; [apply good_modify_set_coroutine|].
      intros; apply good_continue_with.
  - apply good_bind; [apply good_modify_set_coroutine|]. intros _.
    apply good_bind; [destruct ic; [apply good_ret | apply good_await_outcome]|].
    intros o. apply good_continue_with.
Qed.

Lemma good_send_to_coroutine (id : nat) (ic : option exn) :
  good (Task__send_to_coroutine_within_new_context id ic).
Proof.
  apply good_bind; [apply good_state_of|]. intros s.
  destruct s; try apply good_ret; apply good_resume.
Qed.

Lemma good_try_finally {A} (m : M world A) (fin : M world unit) :
  good m -> good fin -> good (try_finally m fin).
Proof.
  intros Hm Hfin w x w' Hwf. unfold try_finally.
  destruct (m w) as [r w1] eqn:E1. destruct (fin w1) as [r2 w2] eqn:E2.
  destruct (Hm w r w1 Hwf E1) as [Hwf1 He1].
  destruct (Hfin w1 r2 w2 Hwf1 E2) as [Hwf2 He2].
  destruct r2; intros [= _ <-]; (split; [done | by apply (evolves_trans w w1)]).
Qed.

(** The state written at the end of a step replaces a pending one. *)
Lemma good_enter_running (id future : nat) :
  good (s' <- state_of id ;;
        match base_task_coroutine s' with
        | Some c =>
            post_init c CORO_SUSPENDED ;;;
            modify (set_state id (RunningState (result_callbacks_of s') c future))
        | None => raise (AttributeError "result_callbacks")
        end).
Proof.
  intros w x w' Hwf. unfold state_of, deref, post_init, bind, ret, raise, modify.
  destruct (objs w !! id) as [o|] eqn:Hobj;
    [|intros [= _ <-]; split; [done | apply evolves_refl]].
  destruct (base_task_coroutine (ostate o)) as [c|] eqn:Hc;
    [|intros [= _ <-]; split; [done | apply evolves_refl]].
  destruct (coro_state_eqb _ _); intros [= _ <-];
    [|split; [done | apply evolves_refl]].
  apply (good_set_state w id o); auto.
  intros Ht. destruct (ostate o); discriminate.
Qed.

Lemma good_Task__execute_coroutine_step (id : nat) (ic : option exn) :
  good (Task__execute_coroutine_step id ic).
Proof.
  apply good_bind; [apply good_state_of|]. intros s.
  destruct s; try apply good_raise;
    (apply good_bind;
     [ destruct ic;
       first [ apply good_ret | apply good_raise
             | apply good_bind;
               [ apply good_is_finished
               | intros fin; destruct (negb fin); [apply good_raise | apply good_ret] ] ]
     | intros _; apply good_bind;
       [ apply good_try_finally;
         [ apply good_bind; [apply good_send_to_coroutine|]; intros r;
           destruct r;
           first [ apply good_ret
                 | apply good_bind;
                   [apply good_Task__set_result | intros; apply good_ret] ]
         | apply good_bind; [apply good_state_of|]; intros s1;
           destruct s1; first [apply good_ret | apply good_remove_callback] ]
       | intros r; destruct r as [future|]; [|apply good_ret];
         destruct (Nat.eqb future id); [apply good_raise|];
         apply good_bind; [apply good_add_callback|]; intros _;
         apply good_enter_running ] ]).
Qed.

Lemma good_run_entry (e : entry) : good (run_entry e).
Proof.
  destruct e as [[n|task] fut|task ic]; simpl.
  - apply good_same_objs. by intros w x w' [= _ <-].
  - apply good_Task__execute_coroutine_step.
  - apply good_Task__execute_coroutine_step.
Qed.

Lemma run_once_evolves (w w' : world) :
  WF w -> run_once w = Some w' -> WF w' /\ evolves w w'.
Proof.
  intros Hwf. unfold run_once.
  destruct (Loop.pop (loop w)) as [[e l]|]; [|done].
  destruct (run_entry e (set_loop (fun _ => l) w)) as [r w1] eqn:E.
  destruct (same_objs_evolves w (set_loop (fun _ => l) w) Hwf eq_refl eq_refl)
    as [Hwf0 He0].
  destruct (good_run_entry e _ r w1 Hwf0 E) as [Hwf1 He1].
  assert (He : evolves w w1) by by apply (evolves_trans w (set_loop (fun _ => l) w)).
  destruct r; intros [= <-]; [done|].
  destruct (same_objs_evolves w1
    (mkWorld (objs w1) (next_id w1) (loop w1) (next_exc w1) (calls w1)
       (loop_errors w1 ++ [e0])) Hwf1 eq_refl eq_refl) as [Hwf2 He2].
  split; [done | by apply (evolves_trans w w1)].
Qed.

(** However long the loop runs. *)
Lemma drain_evolves (n : nat) (w : world) :
  WF w -> WF (drain n w) /\ evolves w (drain n w).
Proof.
  revert w. induction n as [|n IH]; intros w Hwf; simpl.
  - split; [done | apply evolves_refl].
  - destruct (run_once w) as [w1|] eqn:E; [|split; [done | apply evolves_refl]].
    destruct (run_once_evolves w w1 Hwf E) as [Hwf1 He1].
    destruct (IH w1 Hwf1) as [Hwf2 He2].
    split; [done | by apply (evolves_trans w w1)].
Qed.

Lemma WF_empty : WF empty_world.
Proof. intros id _. apply lookup_empty. Qed.


Lemma attempt_terminal (w : world) (id : nat) (o : fobj) (c : completion) :
  objs w !! id = Some o -> is_pending_state (ostate o) = false ->
  exists w', attempt (mkPromise id) c w = (Err (refusal c), w') /\ same_but_exc w w'.
Proof.
  intros Hobj Hterm. destruct c as [v|e|a]; simpl.
  - exists w. split; [|apply same_but_exc_refl].
    apply (_set_result_terminal w id o Hobj Hterm). by right.
  - exists w. split; [|apply same_but_exc_refl].
    unfold Promise_set_exception. destruct (is_Cancelled e); [done|].
    apply (_set_result_terminal w id o Hobj Hterm). by left.
  - unfold Promise_cancel. change recursion_limit with (S 999).
    by apply (_cancel_terminal w id o).
Qed.


Lemma good_WF_snd {X} (f : world -> X * world) (w : world) :
  good f -> WF w -> WF (snd (f w)).
Proof.
  intros Hf Hwf. destruct (f w) as [x w'] eqn:E. by apply (Hf w x w').
Qed.

Lemma WF_w_done_cb : WF PureExamples.w_done_cb.
Proof.
  apply good_WF_snd; [|apply WF_empty].
  apply good_bind; [apply good_create_promise|]. intros p.
  apply good_bind; [apply good_add_callback|]. intros _.
  apply (good_attempt p (SetResult (VInt 1))).
Qed.


(** ** Cancelling a running task and draining the loop *)

Local Arguments _cancel : simpl never.

Lemma _cancel_S (d id : nat) (a : cancel_arg) :
  _cancel (S d) id a =
    (o <- deref id ;;
     match okind o with
     | KFuture => Future__cancel id a
     | KTask => Task__cancel (_cancel d) id a
     end).
Proof. reflexivity. Qed.

Lemma set_loop_set_loop (f g : Loop.t entry -> Loop.t entry) (w : world) :
  set_loop f (set_loop g w) = set_loop (fun l => f (g l)) w.
Proof. reflexivity. Qed.

Lemma set_loop_id (w : world) : set_loop (fun l => l) w = w.
Proof. by destruct w. Qed.

Lemma enqueue_nil (l : Loop.t entry) : enqueue [] l = l.
Proof.
  unfold enqueue. destruct l; simpl. by rewrite app_nil_r, Nat.add_0_r.
Qed.

Lemma enqueue_cons (h : nat) (e : entry) (es : list (nat * entry)) (l : Loop.t entry) :
  h = Loop.next_handle l ->
  enqueue es (snd (Loop.call_soon e l)) = enqueue ((h, e) :: es) l.
Proof.
  intros ->. unfold enqueue, Loop.call_soon; simpl.
  rewrite <- app_assoc. simpl. f_equal. lia.
Qed.


Lemma schedule_all_spec (id : nat) (cbs : list callback) (w : world) :
  schedule_all id cbs w =
    (Ok (handles_from (Loop.next_handle (loop w)) cbs),
     set_loop (enqueue (entries_from (Loop.next_handle (loop w)) id cbs)) w).
Proof.
  revert w. induction cbs as [|cb r IH]; intros w.
  - simpl. unfold ret. f_equal. unfold set_loop.
    rewrite enqueue_nil. by destruct w.
  - simpl. unfold bind, call_soon.
    destruct (Loop.call_soon (ECallback cb id) (loop w)) as [h l] eqn:E.
    assert (Hh : h = Loop.next_handle (loop w)) by by inversion E.
    assert (Hl : l = snd (Loop.call_soon (ECallback cb id) (loop w))) by by rewrite E.
    rewrite IH. unfold ret. simpl loop.
    assert (Hn : Loop.next_handle l = S (Loop.next_handle (loop w))) by by inversion E.
    rewrite Hn, Hh. f_equal. rewrite set_loop_set_loop. unfold set_loop. simpl.
    f_equal. rewrite Hl. by apply enqueue_cons.
Qed.

Lemma lookup_set_loop (f : Loop.t entry -> Loop.t entry) (w : world) (id : nat) :
  objs (set_loop f w) !! id = objs w !! id.
Proof. reflexivity. Qed.

(** Completing a pending plain future hands its callbacks to the loop in
    insertion order. *)
Lemma _set_result_pending_future (w : world) (id : nat) (cbs : list callback)
    (e : exn) :
  objs w !! id = Some (mkObj KFuture (PendingState cbs)) ->
  _set_result id None (Some e) w =
    (Ok tt,
     set_state id (FailedState e false (handles_from (Loop.next_handle (loop w)) cbs))
       (set_loop (enqueue (entries_from (Loop.next_handle (loop w)) id cbs)) w)).
Proof.
  intros Hobj. unfold _set_result, Future__set_result, Future__schedule_callbacks.
  munfold. repeat (rewrite Hobj; simpl).
  by rewrite schedule_all_spec.
Qed.



Lemma set_coroutine_eq (w : world) (id : nat) (o : fobj) (c : coroutine) :
  objs w !! id = Some o ->
  set_coroutine id c w = set_state id (with_coroutine c (ostate o)) w.
Proof. intros H. unfold set_coroutine. by rewrite H. Qed.

Lemma state_of_eq (w : world) (id : nat) (o : fobj) :
  objs w !! id = Some o -> state_of id w = (Ok (ostate o), w).
Proof. intros H. unfold state_of, deref, bind, ret. by rewrite H. Qed.



Local Open Scope list_scope.









Lemma run_once_quiescent (w : world) : Loop.ready (loop w) = [] -> run_once w = None.
Proof. intros H. unfold run_once, Loop.pop. by rewrite H. Qed.

Lemma drain_quiescent (n : nat) (w : world) :
  Loop.ready (loop w) = [] -> drain n w = w.
Proof. intros H. destruct n; simpl; [done|]. by rewrite run_once_quiescent. Qed.


Section CancelRunning.
Variables (w : world) (t inner : nat) (k : outcome -> coro).
Variables (us1 : list nat) (later cbs_t : list callback).
Variables (ci : nat) (cm : option string).

Let C : exn := Cancelled ci cm.

Hypothesis Hwf : WF w.
Hypothesis Hidle : Loop.ready (loop w) = [].
Hypothesis Ht :
  objs w !! t = Some (mkObj KTask (RunningState cbs_t (FSuspended inner k) inner)).
Hypothesis Hi :
  objs w !! inner =
    Some (mkObj KFuture (PendingState (map CbUser us1 ++ CbStep t :: later))).
Hypothesis Hk : k (Raised C) = CRaise C.

Let nh : nat := Loop.next_handle (loop w).
Let cbs_i : list callback := map CbUser us1 ++ CbStep t :: later.
Let w1 : world :=
  set_state inner (FailedState C false (handles_from nh cbs_i))
    (set_loop (enqueue (entries_from nh inner cbs_i)) w).









End CancelRunning.






(** ** Completing a pending future, then reading it *)

Lemma _set_result_pending_value (w : world) (id : nat) (cbs : list callback) (v : val) :
  objs w !! id = Some (mkObj KFuture (PendingState cbs)) ->
  _set_result id (Some v) None w =
    (Ok tt,
     set_state id (SuccessState v (handles_from (Loop.next_handle (loop w)) cbs))
       (set_loop (enqueue (entries_from (Loop.next_handle (loop w)) id cbs)) w)).
Proof.
  intros Hobj. unfold _set_result, Future__set_result, Future__schedule_callbacks.
  munfold. repeat (rewrite Hobj; simpl).
  by rewrite schedule_all_spec.
Qed.

(** ** Subscribing twice, subscribing and unsubscribing *)

Lemma set_state_set_state (w : world) (id : nat) (o : fobj) (s1 s2 : fstate) :
  objs w !! id = Some o ->
  set_state id s2 (set_state id s1 w) = set_state id s2 w.
Proof.
  intros H. unfold set_state, set_objs. simpl. rewrite H. simpl.
  rewrite lookup_insert_eq. simpl. by rewrite insert_insert_eq.
Qed.

Lemma is_pending_with_callbacks (cbs : list callback) (s : fstate) :
  is_pending_state (with_callbacks cbs s) = is_pending_state s.
Proof. by destruct s. Qed.

Lemma result_callbacks_with_callbacks (cbs : list callback) (s : fstate) :
  is_pending_state s = true -> result_callbacks_of (with_callbacks cbs s) = cbs.
Proof. by destruct s. Qed.

Lemma with_callbacks_twice (c1 c2 : list callback) (s : fstate) :
  with_callbacks c2 (with_callbacks c1 s) = with_callbacks c2 s.
Proof. by destruct s. Qed.

Lemma add_callback_pending_spec (w : world) (id : nat) (o : fobj) (cb : callback) :
  objs w !! id = Some o -> is_pending_state (ostate o) = true ->
  add_callback id cb w =
    (Ok tt,
     set_state id (with_callbacks (dict_set cb (result_callbacks_of (ostate o)))
                     (ostate o)) w).
Proof.
  intros Hobj Hp. unfold add_callback, bind. rewrite (state_of_eq _ _ _ Hobj).
  by rewrite Hp.
Qed.

Lemma dict_del_set_absent (cb : callback) (cbs : list callback) :
  dict_has cb cbs = false -> dict_del cb (dict_set cb cbs) = cbs.
Proof.
  intros H. unfold dict_set. fold (dict_has cb cbs). rewrite H.
  unfold dict_del. rewrite List.filter_app. simpl. rewrite callback_eqb_refl. simpl.
  rewrite app_nil_r. by apply dict_del_absent.
Qed.

(** ** A task cancelled before its first step *)

Lemma create_task_spec (body : coro) (w : world) :
  create_task (FCreated body) w = (Ok (next_id w), created_task (FCreated body) w).
Proof.
  unfold create_task, Task_init, Task__schedule_first_step.
  unfold bind, post_init, alloc, state_of, bind, deref, ret, call_soon, Loop.call_soon,
    modify, set_state, set_objs, set_loop.
  cbn [getcoroutinestate coro_state_eqb objs next_id loop next_exc calls loop_errors].
  rewrite lookup_insert_eq. cbn [ostate getcoroutinestate coro_state_eqb objs okind].
  rewrite lookup_insert_eq. unfold created_task. cbn. do 2 f_equal.
  by rewrite insert_insert_eq.
Qed.

Lemma cancel_fresh_handle {E} (h : nat) (e : E) (l : Loop.t E) :
  Loop.pending h l = false ->
  List.filter (fun p => negb (Nat.eqb (fst p) h)) (Loop.ready l ++ [(h, e)])
  = Loop.ready l.
Proof.
  unfold Loop.pending. intros H. rewrite List.filter_app. simpl.
  rewrite Nat.eqb_refl. simpl. rewrite app_nil_r.
  induction (Loop.ready l) as [|[h' x] r IH]; simpl in *; [done|].
  apply orb_false_elim in H as [H1 H2]. rewrite H1. simpl. by rewrite IH.
Qed.

(** A pending task whose coroutine is not being resumed fails with the
    exception given to [_set_result]. *)
Lemma _set_result_pending_task (w : world) (id : nat) (s : fstate) (e : exn) :
  objs w !! id = Some (mkObj KTask s) -> is_pending_state s = true ->
  (forall c, base_task_coroutine s = Some c -> is_coro_running c = false) ->
  _set_result id None (Some e) w =
    (Ok tt,
     set_state id
       (FailedState e false (handles_from (Loop.next_handle (loop w))
                               (result_callbacks_of s)))
       (set_loop (enqueue (entries_from (Loop.next_handle (loop w)) id
                             (result_callbacks_of s))) w)).
Proof.
  intros Hobj Hp Hc. unfold _set_result. unfold bind at 1. unfold deref. rewrite Hobj.
  cbn [okind]. unfold Task__set_result. unfold bind at 1.
  rewrite (state_of_eq _ _ _ Hobj). cbn [ostate].
  assert (Hfut : Future__set_result id None (Some e) w =
    (Ok tt,
     set_state id
       (FailedState e false (handles_from (Loop.next_handle (loop w))
                               (result_callbacks_of s)))
       (set_loop (enqueue (entries_from (Loop.next_handle (loop w)) id
                             (result_callbacks_of s))) w))).
  { unfold Future__set_result. unfold bind at 1. rewrite (state_of_eq _ _ _ Hobj).
    cbn [ostate]. rewrite Hp. cbn [negb]. unfold bind at 1.
    unfold Future__schedule_callbacks. unfold bind at 1.
    rewrite (state_of_eq _ _ _ Hobj). cbn [ostate]. rewrite Hp.
    by rewrite schedule_all_spec. }
  destruct (base_task_coroutine s) as [c|] eqn:Hb; [|exact Hfut].
  by rewrite (Hc c eq_refl).
Qed.

(** Cancelling the task that [create_task] returned, before the loop
    ran: the first step is revoked and the task fails with the
    [Cancelled] made from the argument. *)
Lemma cancel_created_task_pure (body : coro) (a : cancel_arg) (w : world) :
  Loop.is_executed (Loop.next_handle (loop w)) (loop w) = false ->
  Loop.pending (Loop.next_handle (loop w)) (loop w) = false ->
  exists e w2,
    fst (coerce_cancel_arg a w) = Ok e /\ is_Cancelled e = true /\
    Task_cancel (next_id w) a (created_task (FCreated body) w) = (Ok tt, w2) /\
    objs w2 = <[next_id w := mkObj KTask (FailedState e false [])]> (objs w) /\
    Loop.ready (loop w2) = Loop.ready (loop w) /\
    Loop.next_handle (loop w2) = S (Loop.next_handle (loop w)) /\
    Loop.executed (loop w2) = Loop.executed (loop w) /\
    calls w2 = calls w /\ loop_errors w2 = loop_errors w /\
    next_id w2 = S (next_id w).
Proof.
  intros Hx Hp.
  set (w1 := created_task (FCreated body) w).
  assert (H1 : objs w1 !! next_id w
               = Some (mkObj KTask (ScheduledState [] (FCreated body)
                                      (Loop.next_handle (loop w)))))
    by apply lookup_insert_eq.
  set (wb := set_loop (Loop.cancel (Loop.next_handle (loop w))) w1).
  assert (Hcancel : forall e wc, coerce_cancel_arg a wb = (Ok e, wc) ->
    Task_cancel (next_id w) a w1 =
      (Ok tt, set_state (next_id w) (FailedState e false [])
                (set_loop (enqueue []) wc))).
  { intros e wc Hco.
    destruct (coerce_cancel_arg_spec a wb) as (e' & wc' & Hco' & Hsame & _).
    rewrite Hco in Hco'. injection Hco' as <- <-.
    destruct Hsame as (Ho & Hl & _).
    unfold Task_cancel. unfold bind at 1. rewrite (state_of_eq _ _ _ H1).
    cbn [ostate base_task_coroutine getcoroutinestate coro_state_eqb].
    change recursion_limit with (S 999). rewrite _cancel_S.
    unfold bind at 1. unfold deref. rewrite H1. cbn [okind].
    unfold Task__cancel. unfold bind at 1. rewrite (state_of_eq _ _ _ H1).
    cbn [ostate is_pending_state negb]. unfold bind at 1. unfold get.
    assert (Hx1 : Loop.is_executed (Loop.next_handle (loop w)) (loop w1) = false)
      by exact Hx.
    rewrite Hx1. unfold bind at 1. unfold handle_cancel, modify. fold wb.
    unfold Future__cancel. unfold bind at 1. rewrite Hco.
    erewrite (_set_result_pending_task wc (next_id w));
      [| rewrite Ho; exact H1 | reflexivity | by intros c [= <-]].
    reflexivity. }
  destruct (coerce_cancel_arg_spec a w) as (e & wa & Hco & _ & Hc & _).
  destruct (coerce_cancel_arg_spec a wb) as (e' & wc & Hco' & Hsame & _).
  assert (He : e' = e).
  { destruct a; simpl in Hco, Hco'; unfold fresh_Cancelled, ret in *;
      injection Hco as <- _; injection Hco' as <- _; reflexivity. }
  subst e'. exists e. eexists. split; [by rewrite Hco|]. split; [exact Hc|].
  split; [apply (Hcancel e wc Hco')|].
  destruct Hsame as (Ho & Hl & Hca & Hle & Hn).
  unfold set_state, set_objs. cbn [objs set_loop loop calls loop_errors next_id].
  rewrite Ho, Hl, Hca, Hle, Hn. cbn [objs wb set_loop w1 created_task].
  rewrite lookup_insert_eq. cbn.
  rewrite insert_insert_eq, app_nil_r, (cancel_fresh_handle _ _ _ Hp).
  rewrite Nat.add_0_r. repeat split.
Qed.

(** ** A task that awaits itself *)

(** The first step of a scheduled task whose body awaits the task itself
    is answered with a RuntimeError; the task stays scheduled, with its
    coroutine suspended at that await. *)
Lemma step_self_await (w : world) (t h : nat) (cbs : list callback)
    (k : outcome -> coro) :
  objs w !! t = Some (mkObj KTask (ScheduledState cbs (FCreated (CAwait t k)) h)) ->
  Task__execute_coroutine_step t None w =
    (Err (RuntimeError "Task awaiting on itself"),
     set_state t (ScheduledState cbs (FSuspended t k) h) w).
Proof.
  intros Ht.
  set (wa := set_coroutine t FRunning w).
  assert (Hta : objs wa !! t = Some (mkObj KTask (ScheduledState cbs FRunning h))).
  { unfold wa. rewrite (set_coroutine_eq _ _ _ _ Ht).
    by rewrite (lookup_set_state _ _ _ _ Ht). }
  set (wb := set_coroutine t (FSuspended t k) wa).
  assert (Htb : objs wb !! t
                = Some (mkObj KTask (ScheduledState cbs (FSuspended t k) h))).
  { unfold wb. rewrite (set_coroutine_eq _ _ _ _ Hta).
    by rewrite (lookup_set_state _ _ _ _ Hta). }
  assert (Hwb : wb = set_state t (ScheduledState cbs (FSuspended t k) h) w).
  { unfold wb. rewrite (set_coroutine_eq _ _ _ _ Hta). unfold wa.
    rewrite (set_coroutine_eq _ _ _ _ Ht). cbn [ostate with_coroutine].
    by rewrite (set_state_set_state _ _ _ _ _ Ht). }
  assert (Hsend : Task__send_to_coroutine_within_new_context t None w
                  = (Ok (Yielded t), wb)).
  { unfold Task__send_to_coroutine_within_new_context. unfold bind at 1.
    rewrite (state_of_eq _ _ _ Ht). cbn [ostate]. cbv iota beta.
    unfold resume. unfold bind at 1. unfold modify. fold wa.
    unfold continue_with. cbn [run_coro]. rewrite Hta.
    cbn [ostate is_pending_state]. by fold wb. }
  unfold Task__execute_coroutine_step. unfold bind at 1.
  rewrite (state_of_eq _ _ _ Ht). cbn [ostate]. cbv iota beta.
  unfold bind at 1. unfold ret at 1. unfold bind at 1.
  unfold try_finally. unfold bind at 1. rewrite Hsend.
  unfold ret at 1. unfold bind at 1.
  rewrite (state_of_eq _ _ _ Htb). cbn [ostate]. unfold ret at 1.
  rewrite Nat.eqb_refl. unfold raise. by rewrite Hwb.
Qed.

(** ** Cancelling a task whose awaited future is already finished *)

Section InnerCancel.
Variables (w : world) (t inner h : nat) (oi : fobj).
Variables (cbs_t : list callback) (k : outcome -> coro).
Variables (sch' : list (callback * nat)) (a : cancel_arg).
Hypothesis Hne : t <> inner.
Hypothesis Ht :
  objs w !! t = Some (mkObj KTask (RunningState cbs_t (FSuspended inner k) inner)).
Hypothesis Hi : objs w !! inner = Some oi.
Hypothesis Hterm : is_pending_state (ostate oi) = false.
Hypothesis Hpop : sched_pop (CbStep t) (scheduled_cbs_of (ostate oi)) = Some (h, sch').

Lemma inner_cancel_remove :
  remove_callback inner (CbStep t) w
  = (Ok tt, set_loop (Loop.cancel h)
              (set_state inner (with_scheduled sch' (ostate oi)) w)).
Proof.
  unfold remove_callback. unfold bind at 1. rewrite (state_of_eq _ _ _ Hi).
  rewrite Hterm.
  destruct (ostate oi) as [| | | |v sch|e r sch]; try discriminate Hterm;
    cbn [scheduled_cbs_of] in Hpop; rewrite Hpop; reflexivity.
Qed.

Lemma inner_cancel_call (e : exn) (wc : world) :
  coerce_cancel_arg a
    (set_loop (Loop.cancel h) (set_state inner (with_scheduled sch' (ostate oi)) w))
  = (Ok e, wc) ->
  Task_cancel t a w =
    (Ok tt, set_loop (fun l => snd (Loop.call_soon (EStep t (Some e)) l)) wc).
Proof.
  intros Hco. unfold Task_cancel. unfold bind at 1. rewrite (state_of_eq _ _ _ Ht).
  cbn [ostate base_task_coroutine getcoroutinestate coro_state_eqb].
  change recursion_limit with (S 999). rewrite _cancel_S.
  unfold bind at 1. unfold deref. rewrite Ht. cbn [okind].
  unfold Task__cancel. unfold bind at 1. rewrite (state_of_eq _ _ _ Ht).
  cbn [ostate is_pending_state negb]. unfold bind at 1.
  unfold is_finished. unfold bind at 1. rewrite (state_of_eq _ _ _ Hi).
  unfold ret at 1. unfold is_finished_state. rewrite Hterm. cbn [negb].
  unfold bind at 1. rewrite inner_cancel_remove.
  unfold bind at 1. rewrite Hco. unfold bind, call_soon, ret.
  unfold Loop.call_soon. reflexivity.
Qed.
End InnerCancel.

(** The step that throws a [Cancelled] into a coroutine suspended on a
    finished future, when the body lets it propagate: the task fails with
    that instance and its callbacks are handed to the loop. *)
Lemma step_inner_cancel (w : world) (t inner : nat) (oi : fobj)
    (cbs_t : list callback) (k : outcome -> coro) (e : exn) :
  objs w !! t = Some (mkObj KTask (RunningState cbs_t (FSuspended inner k) inner)) ->
  objs w !! inner = Some oi -> is_pending_state (ostate oi) = false ->
  k (Raised e) = CRaise e ->
  exists w', Task__execute_coroutine_step t (Some e) w = (Ok tt, w') /\
    objs w' !! t =
      Some (mkObj KTask
              (FailedState e false (handles_from (Loop.next_handle (loop w)) cbs_t))) /\
    (forall i, i <> t -> objs w' !! i = objs w !! i) /\
    loop w' = enqueue (entries_from (Loop.next_handle (loop w)) t cbs_t) (loop w) /\
    calls w' = calls w /\ loop_errors w' = loop_errors w.
Proof.
  intros Ht Hi Hterm Hk.
  set (wa := set_coroutine t FRunning w).
  assert (Hta : objs wa !! t = Some (mkObj KTask (RunningState cbs_t FRunning inner))).
  { unfold wa. rewrite (set_coroutine_eq _ _ _ _ Ht).
    by rewrite (lookup_set_state _ _ _ _ Ht). }
  set (wc := set_coroutine t FClosed wa).
  assert (Htc : objs wc !! t = Some (mkObj KTask (RunningState cbs_t FClosed inner))).
  { unfold wc. rewrite (set_coroutine_eq _ _ _ _ Hta).
    by rewrite (lookup_set_state _ _ _ _ Hta). }
  assert (Hoc : forall i, i <> t -> objs wc !! i = objs w !! i).
  { intros i Hne. unfold wc. rewrite (set_coroutine_eq _ _ _ _ Hta).
    rewrite lookup_set_state_ne by done. unfold wa.
    rewrite (set_coroutine_eq _ _ _ _ Ht). by rewrite lookup_set_state_ne. }
  assert (Hlc : loop wc = loop w /\ calls wc = calls w /\ loop_errors wc = loop_errors w).
  { unfold wc. rewrite (set_coroutine_eq _ _ _ _ Hta).
    unfold wa. by rewrite (set_coroutine_eq _ _ _ _ Ht). }
  destruct Hlc as (Hlc & Hcc & Hec).
  assert (Hsend : Task__send_to_coroutine_within_new_context t (Some e) w
                  = (Ok (Thrown e), wc)).
  { unfold Task__send_to_coroutine_within_new_context. unfold bind at 1.
    rewrite (state_of_eq _ _ _ Ht). cbn [ostate]. cbv iota beta.
    unfold resume. unfold bind at 1. unfold modify. fold wa.
    unfold bind at 1. unfold ret at 1.
    rewrite Hk. unfold continue_with. simpl run_coro. by fold wc. }
  set (wd := set_state t
               (FailedState e false (handles_from (Loop.next_handle (loop wc)) cbs_t))
               (set_loop (enqueue (entries_from (Loop.next_handle (loop wc)) t cbs_t)) wc)).
  assert (Hset : Task__set_result t None (Some e) wc = (Ok tt, wd)).
  { unfold Task__set_result. unfold bind at 1.
    rewrite (state_of_eq _ _ _ Htc). simpl.
    unfold Future__set_result, Future__schedule_callbacks. munfold.
    repeat (rewrite Htc; simpl). by rewrite schedule_all_spec. }
  assert (Htd : objs wd !! t =
    Some (mkObj KTask
            (FailedState e false (handles_from (Loop.next_handle (loop w)) cbs_t)))).
  { unfold wd. rewrite <- Hlc.
    by rewrite (lookup_set_state _ t (mkObj KTask (RunningState cbs_t FClosed inner))). }
  exists wd. split; [|split; [exact Htd|split; [|split; [|split]]]].
  - unfold Task__execute_coroutine_step. unfold bind at 1.
    rewrite (state_of_eq _ _ _ Ht). cbn [ostate]. cbv iota beta.
    unfold bind at 1. unfold bind at 1. unfold is_finished. unfold bind at 1.
    rewrite (state_of_eq _ _ _ Hi). unfold ret at 1. unfold is_finished_state.
    rewrite Hterm. cbn [negb]. unfold ret at 1. unfold bind at 1.
    unfold try_finally. unfold bind at 1. rewrite Hsend.
    unfold bind at 1. rewrite Hset. unfold ret at 1.
    unfold bind at 1.
    rewrite (state_of_eq _ _ _ Htd). simpl. reflexivity.
  - intros i Hne. unfold wd. rewrite lookup_set_state_ne by done.
    rewrite lookup_set_loop. by apply Hoc.
  - unfold wd. simpl. by rewrite Hlc.
  - unfold wd. simpl. exact Hcc.
  - unfold wd. simpl. exact Hec.
Qed.

(** [Task.cancel] on a task suspended on a finished future, given what
    [remove_callback] of its wake-up does: one step carrying the
    [Cancelled] is queued. *)
Lemma Task_cancel_inner_finished (w wr : world) (t inner : nat) (oi : fobj)
    (cbs_t : list callback) (k : outcome -> coro) (a : cancel_arg) :
  objs w !! t = Some (mkObj KTask (RunningState cbs_t (FSuspended inner k) inner)) ->
  objs w !! inner = Some oi -> is_pending_state (ostate oi) = false ->
  remove_callback inner (CbStep t) w = (Ok tt, wr) ->
  exists e wc,
    coerce_cancel_arg a wr = (Ok e, wc) /\ same_but_exc wr wc /\
    is_Cancelled e = true /\
    Task_cancel t a w =
      (Ok tt, set_loop (fun l => snd (Loop.call_soon (EStep t (Some e)) l)) wc).
Proof.
  intros Ht Hi Hterm Hrem.
  destruct (coerce_cancel_arg_spec a wr) as (e & wc & Hco & Hsame & Hc & _).
  exists e, wc. split; [exact Hco|]. split; [exact Hsame|]. split; [exact Hc|].
  unfold Task_cancel. unfold bind at 1. rewrite (state_of_eq _ _ _ Ht).
  cbn [ostate base_task_coroutine getcoroutinestate coro_state_eqb].
  change recursion_limit with (S 999). rewrite _cancel_S.
  unfold bind at 1. unfold deref. rewrite Ht. cbn [okind].
  unfold Task__cancel. unfold bind at 1. rewrite (state_of_eq _ _ _ Ht).
  cbn [ostate is_pending_state negb]. unfold bind at 1.
  unfold is_finished. unfold bind at 1. rewrite (state_of_eq _ _ _ Hi).
  unfold ret at 1. unfold is_finished_state. rewrite Hterm. cbn [negb].
  unfold bind at 1. rewrite Hrem.
  unfold bind at 1. rewrite Hco. unfold bind, call_soon, ret.
  unfold Loop.call_soon. reflexivity.
Qed.

(** A step on a task that is finished is refused; nothing changes. *)
Lemma step_finished_task (w : world) (t : nat) (o : fobj) (ic : option exn) :
  objs w !! t = Some o -> is_pending_state (ostate o) = false ->
  Task__execute_coroutine_step t ic w
  = (Err (RuntimeError "Trying to resume finished task"), w).
Proof.
  intros Hobj Hterm. unfold Task__execute_coroutine_step, bind.
  rewrite (state_of_eq _ _ _ Hobj). by destruct (ostate o).
Qed.

Lemma coerce_cancel_arg_next_exc (a : cancel_arg) (w w' : world) :
  next_exc w' = next_exc w ->
  fst (coerce_cancel_arg a w') = fst (coerce_cancel_arg a w).
Proof. intros H. destruct a; simpl; by rewrite ?H. Qed.

(** ** A task that awaits a future and returns *)

(** The first step of a scheduled task whose body awaits a pending
    future: the task subscribes its step to the future and is running,
    suspended at that await. *)
Lemma step_first_await (w : world) (t f h : nat) (cbs_t cbs_f : list callback)
    (k : outcome -> coro) :
  t <> f ->
  objs w !! t = Some (mkObj KTask (ScheduledState cbs_t (FCreated (CAwait f k)) h)) ->
  objs w !! f = Some (mkObj KFuture (PendingState cbs_f)) ->
  exists w', Task__execute_coroutine_step t None w = (Ok tt, w') /\
    objs w' !! t = Some (mkObj KTask (RunningState cbs_t (FSuspended f k) f)) /\
    objs w' !! f = Some (mkObj KFuture (PendingState (dict_set (CbStep t) cbs_f))) /\
    (forall i, i <> t -> i <> f -> objs w' !! i = objs w !! i) /\
    loop w' = loop w /\ calls w' = calls w /\ loop_errors w' = loop_errors w.
Proof.
  intros Hne Ht Hf.
  set (wa := set_coroutine t FRunning w).
  assert (Hta : objs wa !! t = Some (mkObj KTask (ScheduledState cbs_t FRunning h))).
  { unfold wa. rewrite (set_coroutine_eq _ _ _ _ Ht).
    by rewrite (lookup_set_state _ _ _ _ Ht). }
  assert (Hfa : objs wa !! f = Some (mkObj KFuture (PendingState cbs_f))).
  { unfold wa. rewrite (set_coroutine_eq _ _ _ _ Ht).
    by rewrite lookup_set_state_ne. }
  set (wb := set_coroutine t (FSuspended f k) wa).
  assert (Htb : objs wb !! t
                = Some (mkObj KTask (ScheduledState cbs_t (FSuspended f k) h))).
  { unfold wb. rewrite (set_coroutine_eq _ _ _ _ Hta).
    by rewrite (lookup_set_state _ _ _ _ Hta). }
  assert (Hfb : objs wb !! f = Some (mkObj KFuture (PendingState cbs_f))).
  { unfold wb. rewrite (set_coroutine_eq _ _ _ _ Hta).
    by rewrite lookup_set_state_ne. }
  assert (Hob : forall i, i <> t -> objs wb !! i = objs w !! i).
  { intros i Hi. unfold wb. rewrite (set_coroutine_eq _ _ _ _ Hta).
    rewrite lookup_set_state_ne by done. unfold wa.
    rewrite (set_coroutine_eq _ _ _ _ Ht). by rewrite lookup_set_state_ne. }
  assert (Hlb : loop wb = loop w /\ calls wb = calls w /\ loop_errors wb = loop_errors w).
  { unfold wb. rewrite (set_coroutine_eq _ _ _ _ Hta).
    unfold wa. by rewrite (set_coroutine_eq _ _ _ _ Ht). }
  assert (Hsend : Task__send_to_coroutine_within_new_context t None w
                  = (Ok (Yielded f), wb)).
  { unfold Task__send_to_coroutine_within_new_context. unfold bind at 1.
    rewrite (state_of_eq _ _ _ Ht). cbn [ostate]. cbv iota beta.
    unfold resume. unfold bind at 1. unfold modify. fold wa.
    unfold continue_with. cbn [run_coro]. rewrite Hfa.
    cbn [ostate is_pending_state]. by fold wb. }
  set (wc := set_state f (PendingState (dict_set (CbStep t) cbs_f)) wb).
  assert (Htc : objs wc !! t
                = Some (mkObj KTask (ScheduledState cbs_t (FSuspended f k) h))).
  { unfold wc. rewrite lookup_set_state_ne by done. exact Htb. }
  set (wd := set_state t (RunningState cbs_t (FSuspended f k) f) wc).
  exists wd. split; [|split; [|split; [|split]]].
  - unfold Task__execute_coroutine_step. unfold bind at 1.
    rewrite (state_of_eq _ _ _ Ht). cbn [ostate]. cbv iota beta.
    unfold bind at 1. unfold ret at 1. unfold bind at 1.
    unfold try_finally. unfold bind at 1. rewrite Hsend.
    unfold ret at 1. unfold bind at 1.
    rewrite (state_of_eq _ _ _ Htb). cbn [ostate]. unfold ret at 1.
    assert (Nat.eqb f t = false) as -> by (apply Nat.eqb_neq; congruence).
    unfold bind at 1.
    rewrite (add_callback_pending_spec wb f _ (CbStep t) Hfb eq_refl).
    cbn [ostate result_callbacks_of with_callbacks]. fold wc.
    unfold bind at 1. rewrite (state_of_eq _ _ _ Htc).
    cbn [ostate base_task_coroutine]. unfold bind at 1. unfold post_init.
    cbn [getcoroutinestate coro_state_eqb ret result_callbacks_of]. reflexivity.
  - unfold wd. by rewrite (lookup_set_state _ _ _ _ Htc).
  - unfold wd. rewrite lookup_set_state_ne by done. unfold wc.
    by rewrite (lookup_set_state _ _ _ _ Hfb).
  - intros i Hit Hif. unfold wd. rewrite lookup_set_state_ne by done.
    unfold wc. rewrite lookup_set_state_ne by done. by apply Hob.
  - unfold wd, wc. cbn. exact Hlb.
Qed.

(** The step of a task whose awaited future holds a value, when the body
    returns from the await: the task completes with what the body
    returns and its callbacks are handed to the loop. *)
Lemma step_returns (w : world) (t inner : nat) (cbs_t : list callback)
    (k : outcome -> coro) (v v' : val) (sch : list (callback * nat)) :
  t <> inner ->
  objs w !! t = Some (mkObj KTask (RunningState cbs_t (FSuspended inner k) inner)) ->
  objs w !! inner = Some (mkObj KFuture (SuccessState v sch)) ->
  k (Returned v) = CReturn v' ->
  exists w', Task__execute_coroutine_step t None w = (Ok tt, w') /\
    objs w' !! t =
      Some (mkObj KTask
              (SuccessState v' (handles_from (Loop.next_handle (loop w)) cbs_t))) /\
    (forall i, i <> t -> objs w' !! i = objs w !! i) /\
    loop w' = enqueue (entries_from (Loop.next_handle (loop w)) t cbs_t) (loop w) /\
    calls w' = calls w /\ loop_errors w' = loop_errors w.
Proof.
  intros Hne Ht Hi Hk.
  set (wa := set_coroutine t FRunning w).
  assert (Hta : objs wa !! t = Some (mkObj KTask (RunningState cbs_t FRunning inner))).
  { unfold wa. rewrite (set_coroutine_eq _ _ _ _ Ht).
    by rewrite (lookup_set_state _ _ _ _ Ht). }
  assert (Hia : objs wa !! inner = Some (mkObj KFuture (SuccessState v sch))).
  { unfold wa. rewrite (set_coroutine_eq _ _ _ _ Ht).
    by rewrite lookup_set_state_ne. }
  set (wc := set_coroutine t FClosed wa).
  assert (Htc : objs wc !! t = Some (mkObj KTask (RunningState cbs_t FClosed inner))).
  { unfold wc. rewrite (set_coroutine_eq _ _ _ _ Hta).
    by rewrite (lookup_set_state _ _ _ _ Hta). }
  assert (Hoc : forall i, i <> t -> objs wc !! i = objs w !! i).
  { intros i Hi'. unfold wc. rewrite (set_coroutine_eq _ _ _ _ Hta).
    rewrite lookup_set_state_ne by done. unfold wa.
    rewrite (set_coroutine_eq _ _ _ _ Ht). by rewrite lookup_set_state_ne. }
  assert (Hlc : loop wc = loop w /\ calls wc = calls w /\ loop_errors wc = loop_errors w).
  { unfold wc. rewrite (set_coroutine_eq _ _ _ _ Hta).
    unfold wa. by rewrite (set_coroutine_eq _ _ _ _ Ht). }
  destruct Hlc as (Hlc & Hcc & Hec).
  assert (Hsend : Task__send_to_coroutine_within_new_context t None w
                  = (Ok (Stopped v'), wc)).
  { unfold Task__send_to_coroutine_within_new_context. unfold bind at 1.
    rewrite (state_of_eq _ _ _ Ht). cbn [ostate]. cbv iota beta.
    unfold resume. unfold bind at 1. unfold modify. fold wa.
    unfold bind at 1. rewrite (await_outcome_success _ _ _ _ _ Hia).
    rewrite Hk. unfold continue_with. simpl run_coro. by fold wc. }
  set (wd := set_state t
               (SuccessState v' (handles_from (Loop.next_handle (loop wc)) cbs_t))
               (set_loop (enqueue (entries_from (Loop.next_handle (loop wc)) t cbs_t)) wc)).
  assert (Hset : Task__set_result t (Some v') None wc = (Ok tt, wd)).
  { unfold Task__set_result. unfold bind at 1.
    rewrite (state_of_eq _ _ _ Htc). simpl.
    unfold Future__set_result, Future__schedule_callbacks. munfold.
    repeat (rewrite Htc; simpl). by rewrite schedule_all_spec. }
  assert (Htd : objs wd !! t =
    Some (mkObj KTask
            (SuccessState v' (handles_from (Loop.next_handle (loop w)) cbs_t)))).
  { unfold wd. rewrite <- Hlc.
    by rewrite (lookup_set_state _ t (mkObj KTask (RunningState cbs_t FClosed inner))). }
  exists wd. split; [|split; [exact Htd|split; [|split; [|split]]]].
  - unfold Task__execute_coroutine_step. unfold bind at 1.
    rewrite (state_of_eq _ _ _ Ht). cbn [ostate]. cbv iota beta.
    unfold bind at 1. unfold ret at 1. unfold bind at 1.
    unfold try_finally. unfold bind at 1. rewrite Hsend.
    unfold bind at 1. rewrite Hset. unfold ret at 1.
    unfold bind at 1.
    rewrite (state_of_eq _ _ _ Htd). simpl. reflexivity.
  - intros i Hi'. unfold wd. rewrite lookup_set_state_ne by done.
    rewrite lookup_set_loop. by apply Hoc.
  - unfold wd. simpl. by rewrite Hlc.
  - unfold wd. simpl. exact Hcc.
  - unfold wd. simpl. exact Hec.
Qed.

(** ** Cancelling a task that waits on a chain of tasks *)


Lemma last_cons_default {A} (l : list A) (a b : A) :
  List.last (b :: l) a = List.last l b.
Proof.
  revert a b. induction l as [|c l IH]; intros a b; [done|].
  change (List.last (b :: c :: l) a) with (List.last (c :: l) a).
  by rewrite (IH a c), (IH b c).
Qed.








(** Cancelling the last task of a chain that hangs on a pending plain
    future. *)
Section CancelChain.
Variables (w : world) (f : nat) (a : waiter) (l : list waiter).
Variables (top : list callback) (ci : nat) (cm : option string).

Let C : exn := Cancelled ci cm.

Hypothesis Hwf : WF w.
Hypothesis Hidle : Loop.ready (loop w) = [].
Hypothesis Hf : objs w !! f = Some (mkObj KFuture (PendingState (subscribers a))).
Hypothesis Hchain : waiting w f (a :: l) top.
Hypothesis Hk : Forall (fun b => w_body b (Raised C) = CRaise C) (a :: l).
Hypothesis Hdepth : S (length l) < recursion_limit.

Let nh : nat := Loop.next_handle (loop w).
Let w1 : world :=
  set_state f (FailedState C false (handles_from nh (subscribers a)))
    (set_loop (enqueue (entries_from nh f (subscribers a))) w).








End CancelChain.

End PureFacts.

(** * Facts about aio/future.py and aio/task_group.py *)
Module LegacyFacts.
Import Legacy.
Local Open Scope m_scope.

Ltac munfold :=
  unfold deref, update, bind, ret, raise, modify, get in *.

Lemma is_finished_settled (w : world) (id : nat) (o : fobj) :
  objs w !! id = Some o -> settled o -> is_finished id w = (Ok true, w).
Proof.
  intros Hobj [Hf Hs]. unfold is_finished. munfold.
  by rewrite Hobj, Hf, Hs.
Qed.

Lemma is_finished_pending (w : world) (id : nat) (o : fobj) :
  objs w !! id = Some o -> finished_obj o = false -> is_finished id w = (Ok false, w).
Proof.
  intros Hobj Hf. unfold is_finished. munfold. by rewrite Hobj, Hf.
Qed.

Lemma legacy_callback_eqb_eq (a b : callback) : callback_eqb a b = true <-> a = b.
Proof.
  destruct a, b; simpl; rewrite ?andb_true_iff, ?Nat.eqb_eq; split; intros H;
    try congruence; try discriminate; try (inversion H; auto).
Qed.

(** ** Operations on a finished future *)

Section Finished.
Variables (w : world) (id : nat) (o : fobj).
Hypothesis Hobj : objs w !! id = Some o.
Hypothesis Hfin : settled o.

(** [add_callback] on a finished future does not fail: a callback that
    is not in the set is handed to the loop. *)
Lemma add_callback_finished (cb : callback) :
  add_callback id cb w =
    (Ok tt, if set_has cb (_result_callbacks o) then w
            else set_loop (fun l => snd (Loop.call_soon (ECallback cb id) l)) w).
Proof.
  unfold add_callback. munfold. rewrite Hobj.
  destruct (set_has cb (_result_callbacks o)); [done|].
  rewrite (is_finished_settled _ _ _ Hobj Hfin).
  unfold Future__schedule_cb. munfold.
  by rewrite (is_finished_settled _ _ _ Hobj Hfin).
Qed.

Lemma Future__set_result_finished (v : option val) (e : option exn) :
  Future__set_result id v e w = (Err (FutureFinishedError None), w).
Proof.
  unfold Future__set_result. munfold.
  by rewrite (is_finished_settled _ _ _ Hobj Hfin).
Qed.

Lemma Task__set_result_finished (v : option val) (e : option exn) :
  Task__set_result id v e w = (Err (FutureFinishedError None), w).
Proof.
  unfold Task__set_result. munfold. by rewrite Future__set_result_finished.
Qed.

Lemma _set_result_finished (v : option val) (e : option exn) :
  _set_result id v e w = (Err (FutureFinishedError None), w).
Proof.
  unfold _set_result. munfold. rewrite Hobj.
  destruct (task_of o);
    [apply Task__set_result_finished | apply Future__set_result_finished].
Qed.

Lemma await_outcome_finished :
  await_outcome id w =
    (Ok match _exc o, _value o with
        | Some e, _ => Raised e
        | None, Some v => Returned v
        | None, None => Raised (AssertionError
            "Value and exception mutually exclusive when `is_finished` returns True")
        end, w).
Proof.
  unfold await_outcome, await_resume. munfold.
  rewrite (is_finished_settled _ _ _ Hobj Hfin); simpl. rewrite Hobj.
  by destruct (_exc o), (_value o).
Qed.
End Finished.

Lemma _cancel_finished (w : world) (id : nat) (o : fobj) (msg : option string)
    (d : nat) :
  objs w !! id = Some o -> settled o ->
  exists w', _cancel (S d) id msg w = (Err (FutureFinishedError None), w') /\
             same_but_exc w w'.
Proof.
  intros Hobj Hfin. simpl. munfold. rewrite Hobj. destruct (task_of o) eqn:Ht.
  - unfold Task__cancel. munfold. rewrite (is_finished_settled _ _ _ Hobj Hfin).
    eexists; split; [reflexivity | by repeat split].
  - unfold Future__cancel, fresh_Cancelled. munfold.
    erewrite _set_result_finished; [|exact Hobj|exact Hfin].
    eexists; split; [reflexivity | by repeat split].
Qed.

(** A cancelled task has no pending inner future to delegate to, or the
    call fails before anything is changed. *)
Lemma Task__cancel_finished (w : world) (id : nat) (o : fobj) (msg : option string)
    (d : nat) :
  objs w !! id = Some o -> settled o -> task_of o <> None ->
  _cancel (S d) id msg w = (Err (FutureFinishedError None), w).
Proof.
  intros Hobj Hfin Ht. simpl. munfold. rewrite Hobj.
  destruct (task_of o) eqn:E; [|done].
  unfold Task__cancel. munfold. by rewrite (is_finished_settled _ _ _ Hobj Hfin).
Qed.

(** ** Removing a callback that is not in the set *)

Lemma remove_callback_missing (w : world) (id : nat) (o : fobj) (cb : callback) :
  objs w !! id = Some o -> set_has cb (_result_callbacks o) = false ->
  remove_callback id cb w = (Err KeyError, w).
Proof.
  intros Hobj Hno. unfold remove_callback. munfold. by rewrite Hobj, Hno.
Qed.

(** Removal never reaches the loop: no handle is kept, so a callback
    already handed to the loop still runs. *)
Lemma remove_callback_loop (w w' : world) (id : nat) (cb : callback) (r : res unit) :
  remove_callback id cb w = (r, w') -> loop w' = loop w.
Proof.
  unfold remove_callback. munfold.
  destruct (objs w !! id) as [o|] eqn:Hobj; [|by intros [= _ <-]].
  destruct (set_has cb (_result_callbacks o)); by intros [= _ <-].
Qed.

(** ** Awaiting a pending future *)

Lemma legacy_await_outcome_pending (w : world) (fut : nat) (o : fobj) :
  objs w !! fut = Some o -> finished_obj o = false ->
  await_outcome fut w =
    (Ok (Raised (FutureNotReady
       (Some "The future object resumed before result has been set"))), w).
Proof.
  intros Hobj Hp. unfold await_outcome, await_resume. munfold.
  by rewrite (is_finished_pending _ _ _ Hobj Hp).
Qed.

Lemma legacy_run_coro_await_pending (w : world) (fut : nat) (o : fobj) (k : outcome -> coro) :
  objs w !! fut = Some o -> finished_obj o = false ->
  run_coro (CAwait fut k) w = ((Yielded fut, FSuspended fut k), w).
Proof.
  intros Hobj Hp. simpl. by rewrite (is_finished_pending _ _ _ Hobj Hp).
Qed.


(** ** shield *)

(** The callback of [shield] on a cancelled future: [set_exception]
    refuses the [Cancelled] instance, the shielding future is not touched. *)
Lemma future_done_cb_cancelled (w : world) (future shield_promise : nat) (o : fobj)
    (i : nat) (m : option string) :
  objs w !! future = Some o -> settled o -> _exc o = Some (Cancelled i m) ->
  future_done_cb future shield_promise w =
    (Err (ValueError "Use cancellation API instead of passing exception manually"), w).
Proof.
  intros Hobj Hfin He. unfold future_done_cb, exception. munfold.
  rewrite (is_finished_settled _ _ _ Hobj Hfin); simpl.
  rewrite (is_finished_settled _ _ _ Hobj Hfin); simpl.
  by rewrite Hobj, He.
Qed.

(** On a future that holds a value, the callback completes the shielding
    future with it. *)
Lemma future_done_cb_value (w : world) (future shield_promise : nat) (o : fobj)
    (v : val) :
  objs w !! future = Some o -> settled o -> _exc o = None -> _value o = Some v ->
  future_done_cb future shield_promise w = Promise_set_result shield_promise v w.
Proof.
  intros Hobj Hfin He Hv. unfold future_done_cb, exception, result. munfold.
  rewrite (is_finished_settled _ _ _ Hobj Hfin); simpl.
  rewrite (is_finished_settled _ _ _ Hobj Hfin); simpl.
  rewrite Hobj, He. rewrite (is_finished_settled _ _ _ Hobj Hfin); simpl.
  by rewrite Hobj, He, Hv.
Qed.

(** On a future that holds an exception other than [Cancelled], the
    callback completes the shielding future with it. *)
Lemma future_done_cb_exception (w : world) (future shield_promise : nat) (o : fobj)
    (e : exn) :
  objs w !! future = Some o -> settled o -> _exc o = Some e ->
  is_Cancelled e = false ->
  future_done_cb future shield_promise w = _set_result shield_promise None (Some e) w.
Proof.
  intros Hobj Hfin He Hc. unfold future_done_cb, exception, Promise_set_exception.
  munfold.
  rewrite (is_finished_settled _ _ _ Hobj Hfin); simpl.
  rewrite (is_finished_settled _ _ _ Hobj Hfin); simpl.
  by rewrite Hobj, He, Hc.
Qed.

(** ** TaskGroup *)

Lemma for_each_cons {A} (f : A -> M world unit) (a : A) (r : list A) :
  for_each f (a :: r) = (f a ;;; for_each f r).
Proof. reflexivity. Qed.

(** [cancel] stops at the first finished child: the exception of its
    [_cancel] escapes the loop over the children. *)
Lemma TaskGroup_cancel_finished_child (w : world) (g : nat) (tg : TaskGroup)
    (t : nat) (rest : list nat) (o : fobj) (msg : option string) :
  groups w !! g = Some tg -> _tasks tg = t :: rest ->
  objs w !! t = Some o -> settled o -> task_of o <> None ->
  TaskGroup_cancel g msg w = (Err (FutureFinishedError None), w).
Proof.
  intros Hg Ht Hobj Hfin Htask. unfold TaskGroup_cancel, group_of. munfold.
  rewrite Hg, Ht, for_each_cons. munfold.
  change recursion_limit with (S 999).
  by rewrite (Task__cancel_finished w t o msg 999 Hobj Hfin Htask).
Qed.

Lemma all_finished_settled (w : world) (tasks : list nat) :
  all_settled w tasks -> all_finished tasks w = (Ok true, w).
Proof.
  induction 1 as [|t r (o & Hobj & Hfin) _ IH]; simpl; [done|].
  munfold. by rewrite (is_finished_settled _ _ _ Hobj Hfin).
Qed.

Lemma task_exceptions_settled (w : world) (tasks : list nat) :
  all_settled w tasks ->
  task_exceptions tasks w = (Ok (child_exceptions w tasks), w).
Proof.
  induction 1 as [|t r (o & Hobj & Hfin) _ IH]; simpl; [done|].
  unfold exception. munfold.
  rewrite (is_finished_settled _ _ _ Hobj Hfin); simpl. rewrite Hobj.
  unfold child_exceptions in *. simpl.
  destruct (_exc o); by rewrite IH.
Qed.

Lemma all_settled_objs (w w' : world) (tasks : list nat) :
  objs w' = objs w -> all_settled w tasks -> all_settled w' tasks.
Proof. unfold all_settled. intros ->. done. Qed.

Lemma child_exceptions_objs (w w' : world) (tasks : list nat) :
  objs w' = objs w -> child_exceptions w' tasks = child_exceptions w tasks.
Proof. unfold child_exceptions. by intros ->. Qed.

(** What [_join] does once every child is finished. *)
Lemma TaskGroup__join_settled (iterate : list nat -> M world unit) (w w' : world)
    (g : nat) (tg : TaskGroup) :
  groups w !! g = Some tg ->
  all_settled w (_tasks tg) ->
  iterate (_tasks tg) (set_groups <[g := mkGroup (_tasks tg) true]> w) = (Ok tt, w') ->
  objs w' = objs w ->
  TaskGroup__join iterate g w =
    (match child_exceptions w (_tasks tg) with
     | [] => Ok tt
     | es => Err (create_multi_error "Child task errors" es)
     end, w').
Proof.
  intros Hg Hall Hit Hobjs. unfold TaskGroup__join, group_of. munfold.
  rewrite Hg, Hit.
  assert (Hall' := all_settled_objs w w' _ Hobjs Hall).
  rewrite (all_finished_settled _ _ Hall'); simpl.
  rewrite (task_exceptions_settled _ _ Hall').
  rewrite (child_exceptions_objs _ _ _ Hobjs).
  by destruct (child_exceptions w (_tasks tg)).
Qed.

(** What [_join] does when every child is finished once the wait for the
    children has returned. *)
Lemma TaskGroup__join_after_wait (iterate : list nat -> M world unit) (w w' : world)
    (g : nat) (tg : TaskGroup) :
  groups w !! g = Some tg ->
  iterate (_tasks tg) (set_groups <[g := mkGroup (_tasks tg) true]> w) = (Ok tt, w') ->
  all_settled w' (_tasks tg) ->
  TaskGroup__join iterate g w =
    (match child_exceptions w' (_tasks tg) with
     | [] => Ok tt
     | es => Err (create_multi_error "Child task errors" es)
     end, w').
Proof.
  intros Hg Hit Hall. unfold TaskGroup__join, group_of. munfold.
  rewrite Hg, Hit.
  rewrite (all_finished_settled _ _ Hall); simpl.
  rewrite (task_exceptions_settled _ _ Hall).
  by destruct (child_exceptions w' (_tasks tg)).
Qed.

Lemma child_exceptions_complete (w : world) (tasks : list nat) (t : nat) (o : fobj)
    (e : exn) :
  t ∈ tasks -> objs w !! t = Some o -> _exc o = Some e ->
  e ∈ child_exceptions w tasks.
Proof.
  intros Hin Hobj He. unfold child_exceptions.
  apply list_elem_of_omap. exists t. split; [done|]. by rewrite Hobj.
Qed.

Lemma child_exceptions_sound (w : world) (tasks : list nat) (e : exn) :
  e ∈ child_exceptions w tasks ->
  exists t o, t ∈ tasks /\ objs w !! t = Some o /\ _exc o = Some e.
Proof.
  unfold child_exceptions. intros (t & Hin & H)%list_elem_of_omap.
  destruct (objs w !! t) as [o|] eqn:Hobj; [|done]. eauto.
Qed.

(** Nothing is lost in the aggregate: it holds each exception it was
    made from, a nested aggregate through its inner exceptions. *)
Lemma create_multi_error_keeps (msg : string) (excs : list exn) (e x : exn) :
  e ∈ excs -> x ∈ flatten_exc e -> x ∈ aggregated (create_multi_error msg excs).
Proof.
  intros He Hx. simpl. induction excs as [|a r IH]; [by inversion He|].
  simpl. apply elem_of_app. inversion He; subst; [by left | right; auto].
Qed.

Lemma create_multi_error_only (msg : string) (excs : list exn) (x : exn) :
  x ∈ aggregated (create_multi_error msg excs) ->
  exists e, e ∈ excs /\ x ∈ flatten_exc e.
Proof.
  simpl. induction excs as [|a r IH]; simpl; [by inversion 1|].
  intros [H|H]%elem_of_app.
  - exists a. split; [by left | done].
  - destruct (IH H) as (e & He & Hx). exists e. split; [by right | done].
Qed.


Lemma legacy_attempt_finished (w : world) (id : nat) (o : fobj) (c : completion) :
  objs w !! id = Some o -> settled o ->
  exists w', attempt id c w = (Err (refusal c), w') /\ same_but_exc w w'.
Proof.
  intros Hobj Hfin. destruct c as [v|e|msg]; simpl.
  - exists w. split; [|by repeat split].
    by apply (_set_result_finished w id o).
  - exists w. split; [|by repeat split].
    unfold Promise_set_exception. destruct (is_Cancelled e); [done|].
    by apply (_set_result_finished w id o).
  - unfold Promise_cancel. change recursion_limit with (S 999).
    by apply (_cancel_finished w id o).
Qed.


(** ** Completing and cancelling a pending future *)

Local Arguments _cancel : simpl never.
Local Open Scope list_scope.

Lemma legacy__cancel_S (d id : nat) (msg : option string) :
  _cancel (S d) id msg =
    (o <- deref id ;;
     match task_of o with
     | None => Future__cancel id msg
     | Some _ => Task__cancel (_cancel d) id msg
     end).
Proof. reflexivity. Qed.

Lemma deref_eq (w : world) (id : nat) (o : fobj) :
  objs w !! id = Some o -> deref id w = (Ok o, w).
Proof. intros H. unfold deref. by rewrite H. Qed.

Lemma update_eq (w : world) (id : nat) (o : fobj) (f : fobj -> fobj) :
  objs w !! id = Some o ->
  update id f w = (Ok tt, set_objs <[id := f o]> w).
Proof.
  intros H. unfold update, modify. f_equal. unfold set_objs. by rewrite H.
Qed.

Lemma lookup_set_objs_insert (w : world) (id : nat) (o : fobj) :
  objs (set_objs <[id := o]> w) !! id = Some o.
Proof. simpl. apply lookup_insert_eq. Qed.


Lemma legacy_enqueue_nil (l : Loop.t entry) : enqueue [] l = l.
Proof.
  unfold enqueue. destruct l; simpl. by rewrite app_nil_r, Nat.add_0_r.
Qed.

Lemma legacy_enqueue_cons (h : nat) (e : entry) (es : list (nat * entry))
    (l : Loop.t entry) :
  h = Loop.next_handle l ->
  enqueue es (snd (Loop.call_soon e l)) = enqueue ((h, e) :: es) l.
Proof.
  intros ->. unfold enqueue, Loop.call_soon; simpl.
  rewrite <- app_assoc. simpl. f_equal. lia.
Qed.

(** Handing the callbacks of a finished future to the loop. *)
Lemma for_each_schedule_cb (id : nat) (o : fobj) (cbs : list callback) (w : world) :
  objs w !! id = Some o -> settled o ->
  for_each (Future__schedule_cb id) cbs w =
    (Ok tt, set_loop (enqueue (entries_from (Loop.next_handle (loop w)) id cbs)) w).
Proof.
  intros Hobj Hfin. revert w Hobj. induction cbs as [|cb r IH]; intros w Hobj.
  - simpl. unfold ret. f_equal. unfold set_loop. rewrite legacy_enqueue_nil.
    by destruct w.
  - rewrite for_each_cons. unfold bind at 1. unfold Future__schedule_cb at 1.
    unfold bind at 1. rewrite (is_finished_settled _ _ _ Hobj Hfin). cbn [negb].
    unfold bind, call_soon, ret.
    destruct (Loop.call_soon (ECallback cb id) (loop w)) as [h l] eqn:E.
    assert (Hh : h = Loop.next_handle (loop w)) by by inversion E.
    assert (Hl : l = snd (Loop.call_soon (ECallback cb id) (loop w))) by by rewrite E.
    assert (Hn : Loop.next_handle l = S (Loop.next_handle (loop w))) by by inversion E.
    rewrite (IH (set_loop (fun _ => l) w) Hobj). simpl loop. rewrite Hn.
    f_equal. unfold set_loop. simpl. f_equal. rewrite Hl.
    by apply legacy_enqueue_cons.
Qed.

(** Completing a pending plain future: it is finished with what it was
    given and its callbacks are handed to the loop. *)
Lemma Future__set_result_pending (w : world) (id : nat) (o : fobj)
    (v : option val) (e : option exn) :
  objs w !! id = Some o -> finished_obj o = false ->
  (v <> None \/ e <> None) ->
  Future__set_result id v e w =
    (Ok tt,
     set_loop (enqueue (entries_from (Loop.next_handle (loop w)) id (_result_callbacks o)))
       (set_objs <[id := mkObj v e finished (_result_callbacks o) (task_of o)]> w)).
Proof.
  intros Hobj Hp Hve. unfold Future__set_result. unfold bind at 1.
  rewrite (is_finished_pending _ _ _ Hobj Hp). cbv iota beta.
  unfold bind at 1. rewrite (update_eq _ _ _ _ Hobj).
  unfold bind at 1. erewrite update_eq; [|apply lookup_set_objs_insert].
  set (o' := set__value_exc v e (set__state finished o)).
  set (w' := set_objs <[id := o']> (set_objs <[id := set__state finished o]> w)).
  assert (Hobj' : objs w' !! id = Some o') by apply lookup_set_objs_insert.
  assert (Hfin' : settled o').
  { split; [|done]. unfold o', finished_obj; simpl.
    destruct v, e; try done. by destruct Hve. }
  unfold Future__call_cbs. unfold bind at 1.
  rewrite (is_finished_settled _ _ _ Hobj' Hfin'). cbn [negb].
  unfold bind at 1. rewrite (deref_eq _ _ _ Hobj').
  rewrite (for_each_schedule_cb id o' _ w' Hobj' Hfin').
  f_equal. unfold w', set_loop, set_objs. simpl. f_equal.
  by rewrite insert_insert_eq.
Qed.



(** The task, its awaited future and the instance it ends in, on a
    concrete store: the task fails with the instance made for the inner
    future, which did not exist before the call. *)
Example legacy_cancel_cascade :
  let w := LegacyExamples.w_group_mixed in
  let w2 := drain 10 (snd (_cancel recursion_limit 4 (Some "m") w)) in
  next_exc w = 0 /\
  Loop.ready (loop w2) = [] /\
  is_cancelled 1 w2 = (Ok true, w2) /\
  exception 1 w2 = (Ok (Some (Cancelled 0 (Some "m"))), w2) /\
  exception 4 w2 = (Ok (Some (Cancelled 0 (Some "m"))), w2).
Proof. vm_compute. repeat split; reflexivity. Qed.


(** ** The started promise follows the task *)

Lemma keeps_same_objs {X} (f : world -> X * world) :
  (forall w x w', f w = (x, w') -> objs w' = objs w /\ next_id w <= next_id w') ->
  keeps f.
Proof.
  intros H w x w' [Hwf Hst] Hf. destruct (H w x w' Hf) as [Ho Hn]. split.
  - intros id Hid. rewrite Ho. apply Hwf. lia.
  - intros t o tf. rewrite !Ho. apply Hst.
Qed.

Lemma keeps_bind {A B} (m : M world A) (f : A -> M world B) :
  keeps m -> (forall a, keeps (f a)) -> keeps (bind m f).
Proof.
  intros Hm Hf w x w' HI. unfold bind.
  destruct (m w) as [[a|e] w1] eqn:E.
  - intros Hfa. apply (Hf a w1 x w'); [|done]. by apply (Hm w (Ok a) w1).
  - intros [= <- <-]. by apply (Hm w (Err e) w1).
Qed.

Lemma keeps_ret {A} (a : A) : keeps (ret a : M world A).
Proof. apply keeps_same_objs. by intros w x w' [= _ <-]. Qed.

Lemma keeps_raise {A} (e : exn) : keeps (raise e : M world A).
Proof. apply keeps_same_objs. by intros w x w' [= _ <-]. Qed.

Lemma keeps_deref (id : nat) : keeps (deref id).
Proof.
  apply keeps_same_objs. intros w x w'. unfold deref.
  by destruct (objs w !! id); intros [= _ <-].
Qed.

Lemma keeps_is_finished (id : nat) : keeps (is_finished id).
Proof.
  apply keeps_bind; [apply keeps_deref|]. intros o.
  destruct (_ && _); [apply keeps_raise | apply keeps_ret].
Qed.

Lemma keeps_is_cancelled (id : nat) : keeps (is_cancelled id).
Proof.
  apply keeps_bind; [apply keeps_is_finished|]. intros fin.
  apply keeps_bind; [apply keeps_deref | intros; apply keeps_ret].
Qed.

Lemma keeps_result (id : nat) : keeps (result id).
Proof.
  apply keeps_bind; [apply keeps_is_finished|]. intros fin.
  destruct (negb fin); [apply keeps_raise|].
  apply keeps_bind; [apply keeps_deref|]. intros o.
  destruct (_exc o); [apply keeps_raise|].
  destruct (_value o); [apply keeps_ret | apply keeps_raise].
Qed.

Lemma keeps_exception (id : nat) : keeps (exception id).
Proof.
  apply keeps_bind; [apply keeps_is_finished|]. intros fin.
  destruct (negb fin); [apply keeps_raise|].
  apply keeps_bind; [apply keeps_deref | intros; apply keeps_ret].
Qed.

Lemma keeps_call_soon (e : entry) : keeps (call_soon e).
Proof. apply keeps_same_objs. by intros w x w' [= _ <-]. Qed.

Lemma keeps_fresh_Cancelled (msg : option string) : keeps (fresh_Cancelled msg).
Proof. apply keeps_same_objs. by intros w x w' [= _ <-]. Qed.

Lemma keeps_group_of (g : nat) : keeps (group_of g).
Proof.
  apply keeps_same_objs. intros w x w'. unfold group_of.
  by destruct (groups w !! g); intros [= _ <-].
Qed.

Lemma keeps_set_groups (f : gmap nat TaskGroup -> gmap nat TaskGroup) :
  keeps (modify (set_groups f)).
Proof. apply keeps_same_objs. by intros w x w' [= _ <-]. Qed.

Lemma keeps_for_each {A} (f : A -> M world unit) (l : list A) :
  (forall a, keeps (f a)) -> keeps (for_each f l).
Proof.
  intros Hf. induction l as [|a r IH]; simpl; [apply keeps_ret|].
  apply keeps_bind; [apply Hf | intros; apply IH].
Qed.

Lemma keeps_Future__schedule_cb (id : nat) (cb : callback) :
  keeps (Future__schedule_cb id cb).
Proof.
  apply keeps_bind; [apply keeps_is_finished|]. intros fin.
  destruct (negb fin); [apply keeps_raise|].
  apply keeps_bind; [apply keeps_call_soon | intros; apply keeps_ret].
Qed.

Lemma keeps_Future__call_cbs (id : nat) : keeps (Future__call_cbs id).
Proof.
  apply keeps_bind; [apply keeps_is_finished|]. intros fin.
  destruct (negb fin); [apply keeps_raise|].
  apply keeps_bind; [apply keeps_deref|]. intros o.
  apply keeps_for_each. intros cb. apply keeps_Future__schedule_cb.
Qed.

Lemma Inv_insert_neutral (w : world) (id : nat) (o o' : fobj) :
  Inv w -> objs w !! id = Some o ->
  finished_obj o' = finished_obj o ->
  option_map _started_promise (task_of o') = option_map _started_promise (task_of o) ->
  Inv (set_objs <[id := o']> w).
Proof.
  intros [Hwf Hst] Hobj Hf Hs. split.
  - intros i Hi. simpl in *. destruct (decide (i = id)) as [->|Hne].
    + by rewrite (Hwf id Hi) in Hobj.
    + rewrite lookup_insert_ne by done. by apply Hwf.
  - assert (Hplain : forall i oi, objs w !! i = Some oi -> task_of oi = None ->
              exists oi', objs (set_objs <[id := o']> w) !! i = Some oi' /\
                task_of oi' = None /\ finished_obj oi' = finished_obj oi).
    { intros i oi Hi Hp. simpl. destruct (decide (i = id)) as [->|Hne].
      - rewrite lookup_insert_eq. exists o'. split; [done|].
        assert (oi = o) by congruence. subst oi. rewrite Hp in Hs.
        split; [by destruct (task_of o')|done].
      - rewrite lookup_insert_ne by done. eauto. }
    intros t ot tf Ht Htask. simpl in Ht.
    destruct (decide (t = id)) as [->|Hne].
    + rewrite lookup_insert_eq in Ht. assert (ot = o') by congruence. subst ot.
      rewrite Htask in Hs. destruct (task_of o) as [tf0|] eqn:Ho; [|done].
      simpl in Hs. destruct (Hst id o tf0 Hobj Ho) as (so & Hso & Hp & Hfin).
      assert (_started_promise tf = _started_promise tf0) by congruence.
      destruct (Hplain _ so Hso Hp) as (so' & Hso' & Hp' & Hf').
      exists so'. rewrite H. split; [done|]. split; [done|].
      rewrite Hf, Hf'. exact Hfin.
    + rewrite lookup_insert_ne in Ht by done.
      destruct (Hst t ot tf Ht Htask) as (so & Hso & Hp & Hfin).
      destruct (Hplain _ so Hso Hp) as (so' & Hso' & Hp' & Hf').
      exists so'. split; [done|]. split; [done|]. by rewrite Hf'.
Qed.

Lemma keeps_update (id : nat) (f : fobj -> fobj) : neutral f -> keeps (update id f).
Proof.
  intros Hf w x w' HI Hu. destruct (objs w !! id) as [o|] eqn:Hobj.
  - rewrite (update_eq _ _ _ _ Hobj) in Hu. injection Hu as _ <-.
    destruct (Hf o). by apply (Inv_insert_neutral w id o).
  - unfold update, modify, set_objs in Hu. rewrite Hobj in Hu.
    injection Hu as _ <-. by destruct w.
Qed.

Lemma neutral_set__state (s : State) : neutral (set__state s).
Proof. by intros o. Qed.

Lemma neutral_set__result_callbacks (cbs : list callback) :
  neutral (set__result_callbacks cbs).
Proof. by intros o. Qed.

Lemma neutral_set_task (g : task_fields -> task_fields) :
  (forall t, _started_promise (g t) = _started_promise t) -> neutral (set_task g).
Proof.
  intros Hg o. split; [done|]. simpl. destruct (task_of o); simpl; [|done].
  by rewrite Hg.
Qed.

Lemma keeps_add_callback (id : nat) (cb : callback) : keeps (add_callback id cb).
Proof.
  apply keeps_bind; [apply keeps_deref|]. intros o.
  destruct (set_has _ _); [apply keeps_ret|].
  apply keeps_bind; [apply keeps_is_finished|]. intros fin.
  destruct fin; [apply keeps_Future__schedule_cb|].
  apply keeps_update, neutral_set__result_callbacks.
Qed.

Lemma keeps_remove_callback (id : nat) (cb : callback) : keeps (remove_callback id cb).
Proof.
  apply keeps_bind; [apply keeps_deref|]. intros o.
  destruct (set_has _ _); [|apply keeps_raise].
  apply keeps_update, neutral_set__result_callbacks.
Qed.


Lemma loop_only_bind {A B} (m : M world A) (f : A -> M world B) :
  loop_only m -> (forall a, loop_only (f a)) -> loop_only (bind m f).
Proof.
  intros Hm Hf w x w'. unfold bind. destruct (m w) as [[a|e] w1] eqn:E.
  - intros Hfa. destruct (Hm _ _ _ E) as (Ho & Hn & Hg).
    destruct (Hf a _ _ _ Hfa) as (Ho' & Hn' & Hg'). repeat split; congruence.
  - intros [= <- <-]. by apply (Hm _ _ _ E).
Qed.

Lemma loop_only_ret {A} (a : A) : loop_only (ret a : M world A).
Proof. by intros w x w' [= _ <-]. Qed.

Lemma loop_only_raise {A} (e : exn) : loop_only (raise e : M world A).
Proof. by intros w x w' [= _ <-]. Qed.

Lemma loop_only_deref (id : nat) : loop_only (deref id).
Proof. intros w x w'. unfold deref. by destruct (objs w !! id); intros [= _ <-]. Qed.

Lemma loop_only_is_finished (id : nat) : loop_only (is_finished id).
Proof.
  apply loop_only_bind; [apply loop_only_deref|]. intros o.
  destruct (_ && _); [apply loop_only_raise | apply loop_only_ret].
Qed.

Lemma loop_only_call_soon (e : entry) : loop_only (call_soon e).
Proof. by intros w x w' [= _ <-]. Qed.

Lemma loop_only_Future__schedule_cb (id : nat) (cb : callback) :
  loop_only (Future__schedule_cb id cb).
Proof.
  apply loop_only_bind; [apply loop_only_is_finished|]. intros fin.
  destruct (negb fin); [apply loop_only_raise|].
  apply loop_only_bind; [apply loop_only_call_soon | intros; apply loop_only_ret].
Qed.

Lemma loop_only_for_each {A} (f : A -> M world unit) (l : list A) :
  (forall a, loop_only (f a)) -> loop_only (for_each f l).
Proof.
  intros Hf. induction l as [|a r IH]; simpl; [apply loop_only_ret|].
  apply loop_only_bind; [apply Hf | intros; apply IH].
Qed.

Lemma loop_only_Future__call_cbs (id : nat) : loop_only (Future__call_cbs id).
Proof.
  apply loop_only_bind; [apply loop_only_is_finished|]. intros fin.
  destruct (negb fin); [apply loop_only_raise|].
  apply loop_only_bind; [apply loop_only_deref|]. intros o.
  apply loop_only_for_each. intros cb. apply loop_only_Future__schedule_cb.
Qed.

(** What [Future._set_result] does to the objects: nothing, or it
    rewrites the one future, which was not finished. *)
Lemma Future__set_result_cases (w w' : world) (id : nat) (v : option val)
    (e : option exn) (x : res unit) :
  Future__set_result id v e w = (x, w') ->
  (objs w' = objs w /\ next_id w' = next_id w) \/
  (exists o, objs w !! id = Some o /\ finished_obj o = false /\
     objs w' = <[id := mkObj v e finished (_result_callbacks o) (task_of o)]> (objs w) /\
     next_id w' = next_id w).
Proof.
  unfold Future__set_result. unfold bind at 1.
  destruct (is_finished id w) as [[fin|err] w0] eqn:E.
  2:{ intros [= _ <-]. left. by destruct (loop_only_is_finished id _ _ _ E) as (-> & -> & _). }
  assert (w0 = w /\ exists o, objs w !! id = Some o /\ finished_obj o = fin)
    as [-> (o & Hobj & Hfin)].
  { unfold is_finished, deref, bind, ret, raise in E.
    destruct (objs w !! id) as [o|] eqn:Hobj; [|discriminate].
    destruct (_ && _); [discriminate|]. injection E as <- <-. eauto. }
  destruct fin; [intros [= _ <-]; by left|].
  unfold bind at 1. rewrite (update_eq _ _ _ _ Hobj).
  unfold bind at 1. erewrite update_eq; [|apply lookup_set_objs_insert].
  intros Hc. right. exists o. split; [done|]. split; [done|].
  destruct (loop_only_Future__call_cbs id _ _ _ Hc) as (-> & -> & _).
  simpl. split; [|done]. by rewrite insert_insert_eq.
Qed.

Lemma Inv_ext (w w' : world) :
  objs w' = objs w -> next_id w <= next_id w' -> Inv w -> Inv w'.
Proof.
  intros Ho Hn [Hwf Hst]. split.
  - intros id Hid. rewrite Ho. apply Hwf. lia.
  - intros t o tf. rewrite !Ho. apply Hst.
Qed.

(** Rewriting one object keeps the invariant when the started promise it
    names is the same, a finished object stays finished, and a task that
    becomes finished has its started promise finished already. *)
Lemma Inv_insert (w w' : world) (id : nat) (o o' : fobj) :
  Inv w -> objs w !! id = Some o ->
  objs w' = <[id := o']> (objs w) -> next_id w <= next_id w' ->
  option_map _started_promise (task_of o') = option_map _started_promise (task_of o) ->
  (finished_obj o = true -> finished_obj o' = true) ->
  (forall tf, task_of o' = Some tf -> finished_obj o' = true ->
     finished_obj o = true \/
     exists so, objs w !! _started_promise tf = Some so /\ finished_obj so = true) ->
  Inv w'.
Proof.
  intros [Hwf Hst] Hobj Ho Hn Hs Hmono Htask. split.
  - intros i Hi. rewrite Ho. destruct (decide (i = id)) as [->|Hne].
    + rewrite (Hwf id) in Hobj; [done | lia].
    + rewrite lookup_insert_ne by done. apply Hwf. lia.
  - assert (Hplain : forall i oi, objs w !! i = Some oi -> task_of oi = None ->
              exists oi', objs w' !! i = Some oi' /\ task_of oi' = None /\
                (finished_obj oi = true -> finished_obj oi' = true)).
    { intros i oi Hi Hp. rewrite Ho. destruct (decide (i = id)) as [->|Hne].
      - rewrite lookup_insert_eq. exists o'. split; [done|].
        assert (oi = o) by congruence. subst oi. rewrite Hp in Hs.
        split; [by destruct (task_of o')|done].
      - rewrite lookup_insert_ne by done. eauto. }
    intros t ot tf Ht Htf. rewrite Ho in Ht.
    destruct (decide (t = id)) as [->|Hne].
    + rewrite lookup_insert_eq in Ht. assert (ot = o') by congruence. subst ot.
      rewrite Htf in Hs. destruct (task_of o) as [tf0|] eqn:Hto; [|done].
      simpl in Hs. assert (Heq : _started_promise tf = _started_promise tf0) by congruence.
      destruct (Hst id o tf0 Hobj Hto) as (so & Hso & Hp & Hfin).
      destruct (Hplain _ so Hso Hp) as (so' & Hso' & Hp' & Hf').
      exists so'. rewrite Heq. split; [done|]. split; [done|].
      intros Hfo'. destruct (Htask tf Htf Hfo') as [Hfo|(so2 & Hso2 & Hf2)].
      * auto.
      * rewrite Heq in Hso2. assert (so2 = so) by congruence. subst so2. auto.
    + rewrite lookup_insert_ne in Ht by done.
      destruct (Hst t ot tf Ht Htf) as (so & Hso & Hp & Hfin).
      destruct (Hplain _ so Hso Hp) as (so' & Hso' & Hp' & Hf').
      exists so'. split; [done|]. split; [done|]. auto.
Qed.

Lemma finished_obj_mk (v : option val) (e : option exn) (s : State)
    (cbs : list callback) (t : option task_fields) :
  finished_obj (mkObj v e s cbs t) = match v, e with None, None => false | _, _ => true end.
Proof. reflexivity. Qed.

(** Completing a plain future keeps the invariant. *)
Lemma Future__set_result_plain_Inv (w w' : world) (id : nat) (o : fobj)
    (v : option val) (e : option exn) (x : res unit) :
  Inv w -> objs w !! id = Some o -> task_of o = None ->
  Future__set_result id v e w = (x, w') -> Inv w'.
Proof.
  intros HI Hobj Hplain Hset.
  destruct (Future__set_result_cases _ _ _ _ _ _ Hset)
    as [[Ho Hn]|(o0 & Hobj0 & Hp & Ho & Hn)].
  - apply (Inv_ext w); [done | lia | done].
  - assert (o0 = o) by congruence. subst o0.
    apply (Inv_insert w w' id o _ HI Hobj Ho); [lia | by rewrite Hplain | |].
    + by rewrite Hp.
    + simpl. by rewrite Hplain.
Qed.


Lemma is_finished_inv (w w' : world) (id : nat) (o : fobj) (r : res bool) :
  objs w !! id = Some o -> is_finished id w = (r, w') ->
  w' = w /\ (r = Ok (finished_obj o) \/ (finished_obj o = true /\ r <> Ok false)).
Proof.
  intros Hobj. unfold is_finished, bind. rewrite (deref_eq _ _ _ Hobj).
  destruct (finished_obj o) eqn:Hf; simpl.
  - destruct (negb _); intros [= <- <-]; split; auto.
  - intros [= <- <-]. auto.
Qed.

(** The tail of [Task._set_result]: completing the started promise. *)
Lemma started_tail_Inv (w w' : world) (sp : nat) (so : fobj) (x : res unit) :
  Inv w -> objs w !! sp = Some so -> task_of so = None ->
  (fin <- is_finished sp ;;
   if negb fin then Future__set_result sp (Some VNone) None else ret tt) w = (x, w') ->
  Inv w'.
Proof.
  intros HI Hso Hp. unfold bind at 1.
  destruct (is_finished sp w) as [[fin|err] w0] eqn:E.
  - destruct (is_finished_inv _ _ _ _ _ Hso E) as [-> _].
    destruct fin; simpl.
    + by intros [= _ <-].
    + by apply Future__set_result_plain_Inv with (o := so).
  - destruct (is_finished_inv _ _ _ _ _ Hso E) as [-> _]. by intros [= _ <-].
Qed.

Lemma keeps_Task_tail (id : nat) :
  keeps (o <- deref id ;;
         match task_of o with
         | Some t =>
             fin <- is_finished (_started_promise t) ;;
             if negb fin then Future__set_result (_started_promise t) (Some VNone) None
             else ret tt
         | None => raise (AttributeError "_started_promise")
         end).
Proof.
  intros w x w' HI. unfold bind at 1, deref.
  destruct (objs w !! id) as [o|] eqn:Hobj; [|by intros [= _ <-]].
  destruct (task_of o) as [tf|] eqn:Ht; [|by intros [= _ <-]].
  destruct HI as [Hwf Hst]. destruct (Hst _ _ _ Hobj Ht) as (so & Hso & Hp & _).
  by apply started_tail_Inv with (so := so).
Qed.

(** [Task._set_result] keeps the invariant: the task and its started
    promise are finished together. *)
Lemma keeps_Task__set_result (id : nat) (v : option val) (e : option exn) :
  keeps (Task__set_result id v e).
Proof.
  intros w x w' HI. unfold Task__set_result. unfold bind at 1.
  destruct (Future__set_result id v e w) as [[[]|err] w1] eqn:E.
  2:{ intros [= _ <-].
      destruct (Future__set_result_cases _ _ _ _ _ _ E)
        as [[Ho Hn]|(o & Hobj & Hp & Ho & Hn)].
      - apply (Inv_ext w); [done | lia | done].
      - apply (Inv_insert w w1 id o _ HI Hobj Ho); [lia | done | by rewrite Hp |].
        intros tf _. rewrite finished_obj_mk.
        destruct v as [v0|]; [|destruct e as [e0|]; [|done]].
        * rewrite (Future__set_result_pending _ _ _ _ _ Hobj Hp) in E by (left; done).
          discriminate.
        * rewrite (Future__set_result_pending _ _ _ _ _ Hobj Hp) in E by (right; done).
          discriminate. }
  destruct (Future__set_result_cases _ _ _ _ _ _ E)
    as [[Ho Hn]|(o & Hobj & Hp & Ho & Hn)].
  { apply (keeps_Task_tail id). apply (Inv_ext w); [done | lia | done]. }
  destruct (task_of o) as [tf|] eqn:Ht.
  2:{ apply (keeps_Task_tail id).
      by apply (Future__set_result_plain_Inv w w1 id o v e (Ok tt)). }
  assert (Hid1 : objs w1 !! id = Some (mkObj v e finished (_result_callbacks o) (Some tf)))
    by (rewrite Ho; apply lookup_insert_eq).
  unfold bind at 1. rewrite (deref_eq _ _ _ Hid1). cbn [task_of].
  destruct HI as [Hwf Hst]. destruct (Hst _ _ _ Hobj Ht) as (so & Hso & Hplain & Hsf).
  assert (Hne : _started_promise tf <> id).
  { intros Heq. rewrite Heq in Hso. congruence. }
  assert (Hso1 : objs w1 !! _started_promise tf = Some so)
    by (rewrite Ho, lookup_insert_ne; [done | congruence]).
  unfold bind at 1.
  destruct (is_finished (_started_promise tf) w1) as [r2 w2] eqn:E2.
  destruct (is_finished_inv _ _ _ _ _ Hso1 E2) as [-> Hr2].
  assert (Hdone : finished_obj so = true -> Inv w1).
  { intros Hf. apply (Inv_insert w w1 id o _ (conj Hwf Hst) Hobj Ho);
      [lia | by rewrite Ht | by rewrite Hp |].
    intros tf' Htf' _. right. cbn [task_of] in Htf'.
    assert (tf' = tf) by congruence. subst tf'. eauto. }
  destruct Hr2 as [->|[Hf Hr2]].
  - destruct (finished_obj so) eqn:Hf; simpl.
    + intros [= _ <-]. auto.
    + rewrite (Future__set_result_pending _ _ _ _ _ Hso1 Hf) by (left; done).
      intros [= _ <-].
      set (sofin := mkObj (Some VNone) None finished (_result_callbacks so) (task_of so)).
      assert (HA : Inv (set_objs <[_started_promise tf := sofin]> w)).
      { apply (Inv_insert w _ (_started_promise tf) so sofin (conj Hwf Hst) Hso);
          [done | done | by (unfold sofin; cbn [task_of]) | by rewrite Hf |].
        intros tf'. unfold sofin. cbn [task_of]. by rewrite Hplain. }
      refine (Inv_insert _ _ id o _ HA _ _ _ _ _ _).
      * simpl. by rewrite lookup_insert_ne.
      * simpl. rewrite Ho. apply insert_insert_ne. done.
      * simpl. lia.
      * by rewrite Ht.
      * by rewrite Hp.
      * intros tf' Htf' _. right. cbn [task_of] in Htf'.
        assert (tf' = tf) by congruence. subst tf'.
        exists sofin. simpl. by rewrite lookup_insert_eq.
  - destruct r2 as [[]|err]; simpl; [| done |]; intros [= _ <-]; auto.
Qed.

Lemma keeps__set_result (id : nat) (v : option val) (e : option exn) :
  keeps (_set_result id v e).
Proof.
  intros w x w' HI. unfold _set_result, bind at 1, deref.
  destruct (objs w !! id) as [o|] eqn:Hobj; [|by intros [= _ <-]].
  destruct (task_of o) eqn:Ht.
  - by apply keeps_Task__set_result.
  - by apply Future__set_result_plain_Inv with (o := o).
Qed.

Lemma keeps_Future__cancel (id : nat) (msg : option string) :
  keeps (Future__cancel id msg).
Proof.
  apply keeps_bind; [apply keeps_fresh_Cancelled|]. intros e. apply keeps__set_result.
Qed.

Lemma keeps_Task__cancel (cancel_ : nat -> option string -> M world unit)
    (id : nat) (msg : option string) :
  (forall f, keeps (cancel_ f msg)) -> keeps (Task__cancel cancel_ id msg).
Proof.
  intros Hc. apply keeps_bind; [apply keeps_is_finished|]. intros fin.
  destruct fin; [apply keeps_raise|].
  apply keeps_bind; [apply keeps_update, neutral_set__state|]. intros _.
  apply keeps_bind; [apply keeps_deref|]. intros o.
  destruct (task_of o) as [t|]; [|apply keeps_raise].
  destruct (_waiting_on t); [apply Hc | apply keeps_Future__cancel].
Qed.

Lemma keeps__cancel (depth id : nat) (msg : option string) :
  keeps (_cancel depth id msg).
Proof.
  revert id. induction depth as [|d IH]; intros id; [apply keeps_raise|].
  rewrite legacy__cancel_S.
  apply keeps_bind; [apply keeps_deref|]. intros o.
  destruct (task_of o); [|apply keeps_Future__cancel].
  apply keeps_Task__cancel. intros f. apply IH.
Qed.

Lemma keeps_attempt (fut : nat) (c : completion) : keeps (attempt fut c).
Proof.
  destruct c as [v|e|msg]; simpl.
  - apply keeps__set_result.
  - unfold Promise_set_exception. destruct (is_Cancelled e);
      [apply keeps_raise | apply keeps__set_result].
  - apply keeps__cancel.
Qed.

(** Allocating a plain future, or a task whose started promise exists. *)
Lemma alloc_Inv (w : world) (o : fobj) :
  Inv w ->
  (forall tf, task_of o = Some tf ->
     exists so, objs w !! _started_promise tf = Some so /\ task_of so = None /\
       (finished_obj o = true -> finished_obj so = true)) ->
  Inv (snd (alloc o w)).
Proof.
  intros [Hwf Hst] Ho. split.
  - intros i Hi. simpl in *. rewrite lookup_insert_ne by lia. apply Hwf. lia.
  - assert (Hold : forall i oi, objs w !! i = Some oi ->
              objs (snd (alloc o w)) !! i = Some oi).
    { intros i oi Hi. simpl. rewrite lookup_insert_ne; [done|].
      intros <-. rewrite Hwf in Hi; [done | lia]. }
    intros t ot tf Ht Htf. simpl in Ht.
    destruct (decide (t = next_id w)) as [->|Hne].
    + rewrite lookup_insert_eq in Ht. assert (ot = o) by congruence. subst ot.
      destruct (Ho tf Htf) as (so & Hso & Hp & Hf). exists so. eauto.
    + rewrite lookup_insert_ne in Ht by done.
      destruct (Hst t ot tf Ht Htf) as (so & Hso & Hp & Hf). exists so. eauto.
Qed.

Lemma keeps__create_promise : keeps _create_promise.
Proof.
  intros w x w' HI [= _ <-]. by apply (alloc_Inv w new_future).
Qed.

(** [Task.__init__] keeps the invariant: the started promise it creates
    is a fresh plain future. *)
Lemma keeps_Task_init (c : coroutine) : keeps (Task_init c).
Proof.
  intros w x w' [Hwf Hst]. unfold Task_init, _create_promise.
  unfold bind at 1. cbn [alloc]. unfold bind at 1. cbn [alloc next_id objs].
  unfold bind at 1. erewrite update_eq.
  2:{ cbn [objs]. rewrite lookup_insert_ne by lia. apply lookup_insert_eq. }
  unfold bind, ret. intros [= _ <-]. split.
  - intros i Hi. simpl in *. rewrite !lookup_insert_ne by lia. apply Hwf. lia.
  - intros t ot tf. simpl.
    destruct (decide (t = next_id w)) as [->|Hne].
    + rewrite lookup_insert_eq. intros [= <-]. simpl. intros [= <-]. simpl.
      exists new_future. rewrite lookup_insert_ne by lia.
      rewrite lookup_insert_eq. done.
    + rewrite lookup_insert_ne by done.
      destruct (decide (t = S (next_id w))) as [->|Hne'].
      * rewrite lookup_insert_eq. by intros [= <-].
      * rewrite lookup_insert_ne by done. rewrite lookup_insert_ne by done.
        intros Ht Htf. destruct (Hst t ot tf Ht Htf) as (so & Hso & Hp & Hf).
        exists so. split; [|done].
        assert (_started_promise tf < next_id w).
        { destruct (decide (_started_promise tf < next_id w)); [done|].
          rewrite Hwf in Hso; [done | lia]. }
        by rewrite !lookup_insert_ne by lia.
Qed.

Lemma keeps_Task__schedule_execution (id : nat) : keeps (Task__schedule_execution id).
Proof.
  apply keeps_bind; [apply keeps_call_soon|]. intros _.
  apply keeps_bind; [apply keeps_deref|]. intros o.
  destruct (State_eqb _ _); [apply keeps_update, neutral_set__state | apply keeps_ret].
Qed.

Lemma keeps__create_task (c : coroutine) : keeps (_create_task c).
Proof.
  apply keeps_bind; [apply keeps_Task_init|]. intros id.
  apply keeps_bind; [apply keeps_Task__schedule_execution | intros; apply keeps_ret].
Qed.

Lemma keeps_future_done_cb (future shield_promise : nat) :
  keeps (future_done_cb future shield_promise).
Proof.
  apply keeps_bind; [apply keeps_is_finished|]. intros fin.
  destruct (negb fin); [apply keeps_raise|].
  apply keeps_bind; [apply keeps_exception|]. intros [e|].
  - apply (keeps_attempt shield_promise (SetException e)).
  - apply keeps_bind; [apply keeps_result|]. intros v.
    apply (keeps_attempt shield_promise (SetResult v)).
Qed.

Lemma keeps_shield (future : nat) : keeps (shield future).
Proof.
  apply keeps_bind; [apply keeps__create_promise|]. intros p.
  apply keeps_bind; [apply keeps_add_callback | intros; apply keeps_ret].
Qed.

Lemma keeps_new_group : keeps new_group.
Proof.
  intros w x w' [Hwf Hst] [= _ <-]. split.
  - intros i Hi. simpl in *. apply Hwf. lia.
  - exact Hst.
Qed.

Lemma keeps_TaskGroup__check_not_finalized (g : nat) :
  keeps (TaskGroup__check_not_finalized g).
Proof.
  apply keeps_bind; [apply keeps_group_of|]. intros tg.
  destruct (_is_finalized tg); [apply keeps_raise | apply keeps_ret].
Qed.

Lemma keeps_TaskGroup_spawn (g : nat) (c : coroutine) : keeps (TaskGroup_spawn g c).
Proof.
  apply keeps_bind; [apply keeps_TaskGroup__check_not_finalized|]. intros _.
  apply keeps_bind; [apply keeps__create_task|]. intros task.
  apply keeps_bind; [apply keeps_group_of|]. intros tg.
  apply keeps_bind; [apply keeps_set_groups | intros; apply keeps_ret].
Qed.

Lemma keeps_TaskGroup_cancel (g : nat) (msg : option string) :
  keeps (TaskGroup_cancel g msg).
Proof.
  apply keeps_bind; [apply keeps_group_of|]. intros tg.
  apply keeps_for_each. intros t. apply keeps__cancel.
Qed.

Lemma keeps_started_future (task : nat) : keeps (started_future task).
Proof.
  apply keeps_bind; [apply keeps_deref|]. intros o.
  destruct (task_of o); [apply keeps_ret | apply keeps_raise].
Qed.

Lemma do_action_Inv (a : action) (w : world) : Inv w -> Inv (snd (do_action a w)).
Proof.
  intros HI.
  assert (L : forall A (f : A -> val) (m : M world A), keeps m ->
            Inv (snd (let (r, w') := m w in (to_outcome f r, w')))).
  { intros A f m Hm. destruct (m w) as [r w1] eqn:E. simpl. by apply (Hm w r w1). }
  destruct a as [fut v|fut e|fut msg|task msg|fut cb|fut cb| |fut|task|g|g msg].
  - apply (L _ (fun _ : unit => VNone) (Promise_set_result fut v)).
    apply (keeps_attempt _ (SetResult _)).
  - apply (L _ (fun _ : unit => VNone) (Promise_set_exception fut e)).
    apply (keeps_attempt _ (SetException _)).
  - apply (L _ (fun _ : unit => VNone) (Promise_cancel fut msg)).
    apply (keeps_attempt _ (Cancel _)).
  - apply (L _ (fun _ : unit => VNone) (_cancel recursion_limit task msg)).
    apply keeps__cancel.
  - apply (L _ (fun _ : unit => VNone) (add_callback fut cb)).
    apply keeps_add_callback.
  - apply (L _ (fun _ : unit => VNone) (remove_callback fut cb)).
    apply keeps_remove_callback.
  - apply (L _ VRef _create_promise). apply keeps__create_promise.
  - apply (L _ VRef (shield fut)). apply keeps_shield.
  - apply (L _ VRef (started_future task)). apply keeps_started_future.
  - apply (L _ (fun _ : unit => VNone) (TaskGroup__check_not_finalized g)).
    apply keeps_TaskGroup__check_not_finalized.
  - apply (L _ (fun _ : unit => VNone) (TaskGroup_cancel g msg)).
    apply keeps_TaskGroup_cancel.
Qed.

Lemma keeps_await_resume (fut : nat) : keeps (await_resume fut).
Proof.
  apply keeps_bind; [apply keeps_is_finished|]. intros fin.
  destruct (negb fin); [apply keeps_raise|].
  apply keeps_bind; [apply keeps_deref|]. intros o.
  destruct (_exc o); [apply keeps_raise|].
  destruct (_value o); [apply keeps_ret | apply keeps_raise].
Qed.

(** Running a body up to its next suspension keeps the invariant. *)
Lemma run_coro_Inv (c : coro) (w : world) : Inv w -> Inv (snd (run_coro c w)).
Proof.
  revert w. induction c as [v|e|fut k IH|a k IH|g c' _ k IH]; intros w HI; simpl.
  - done.
  - done.
  - destruct (is_finished fut w) as [[[]|err] w0] eqn:E.
    + destruct (await_resume fut w) as [r w1] eqn:E1. apply IH.
      by apply (keeps_await_resume fut w r w1).
    + done.
    + by apply IH.
  - destruct (do_action a w) as [o w1] eqn:E. apply IH.
    change w1 with (snd (o, w1)). rewrite <- E. by apply do_action_Inv.
  - destruct (TaskGroup_spawn g (FCreated c') w) as [r w1] eqn:E. apply IH.
    by apply (keeps_TaskGroup_spawn g (FCreated c') w r w1).
Qed.

Lemma set_coroutine_Inv (id : nat) (c : coroutine) (w : world) :
  Inv w -> Inv (set_coroutine id c w).
Proof.
  intros HI. unfold set_coroutine.
  destruct (update id (set_task (fun t => mkTask c (_waiting_on t) (_started_promise t))) w)
    as [r w1] eqn:E.
  simpl. refine (keeps_update id _ _ w r w1 HI E). by apply neutral_set_task.
Qed.

Lemma keeps_continue_with (id : nat) (c : coro) : keeps (continue_with id c).
Proof.
  intros w x w' HI. unfold continue_with.
  destruct (run_coro c w) as [[r c'] w1] eqn:E. intros [= _ <-].
  apply set_coroutine_Inv. change w1 with (snd ((r, c'), w1)). rewrite <- E.
  by apply run_coro_Inv.
Qed.

Lemma keeps_modify_set_coroutine (id : nat) (c : coroutine) :
  keeps (modify (set_coroutine id c)).
Proof. intros w x w' HI [= _ <-]. by apply set_coroutine_Inv. Qed.

Lemma keeps_await_outcome (fut : nat) : keeps (await_outcome fut).
Proof.
  intros w x w' HI. unfold await_outcome.
  destruct (await_resume fut w) as [r w1] eqn:E. intros [= _ <-].
  by apply (keeps_await_resume fut w r w1).
Qed.

Lemma keeps_send (id : nat) (c : coroutine) : keeps (send id c).
Proof.
  destruct c as [body| |fut k|]; simpl.
  - apply keeps_bind; [apply keeps_modify_set_coroutine|]. intros _.
    apply keeps_continue_with.
  - apply keeps_ret.
  - apply keeps_bind; [apply keeps_modify_set_coroutine|]. intros _.
    apply keeps_bind; [apply keeps_await_outcome|]. intros o.
    apply keeps_continue_with.
  - apply keeps_ret.
Qed.

Lemma keeps_Task__execute_coroutine_step (id : nat) :
  keeps (Task__execute_coroutine_step id).
Proof.
  apply keeps_bind; [apply keeps_deref|]. intros o.
  destruct (task_of o) as [t|]; [|apply keeps_raise].
  apply keeps_bind; [apply keeps_send|]. intros [future|v|e].
  - apply keeps_bind; [apply keeps_deref|]. intros o1.
    apply keeps_bind.
    { destruct (State_eqb _ _); [|apply keeps_ret].
      apply keeps_bind; [apply keeps_update, neutral_set__state|]. intros _.
      apply (keeps_attempt _ (SetResult VNone)). }
    intros _. destruct (Nat.eqb future id); [apply keeps_raise|].
    apply keeps_bind.
    { destruct (option_bind _ _ _waiting_on (task_of o1));
        [apply keeps_remove_callback | apply keeps_ret]. }
    intros _. apply keeps_bind; [apply keeps_add_callback|]. intros _.
    apply keeps_update, neutral_set_task. done.
  - apply keeps_Task__set_result.
  - apply keeps_Task__set_result.
Qed.

Lemma keeps_run_entry (e : entry) : keeps (run_entry e).
Proof.
  destruct e as [[n|task|future sp] fut|task]; simpl.
  - apply keeps_same_objs. by intros w x w' [= _ <-].
  - apply keeps_Task__schedule_execution.
  - apply keeps_future_done_cb.
  - apply keeps_Task__execute_coroutine_step.
Qed.

Lemma run_once_Inv (w w' : world) : Inv w -> run_once w = Some w' -> Inv w'.
Proof.
  intros HI. unfold run_once. destruct (Loop.pop (loop w)) as [[e l]|]; [|done].
  assert (HI0 : Inv (set_loop (fun _ => l) w)) by by apply (Inv_ext w).
  destruct (run_entry e (set_loop (fun _ => l) w)) as [[[]|x] w1] eqn:E.
  - intros [= <-]. apply (keeps_run_entry e _ _ _ HI0 E).
  - intros [= <-]. apply (Inv_ext w1); [done | done |].
    apply (keeps_run_entry e _ _ _ HI0 E).
Qed.

Lemma drain_Inv (n : nat) (w : world) : Inv w -> Inv (drain n w).
Proof.
  revert w. induction n as [|n IH]; intros w HI; simpl; [done|].
  destruct (run_once w) as [w1|] eqn:E; [|done].
  apply IH. by apply (run_once_Inv w).
Qed.

Lemma Inv_empty : Inv empty_world.
Proof. split; [by intros id _ | by intros t o tf Ht]. Qed.

Lemma run_op_Inv (o : op) (w : world) : Inv w -> Inv (run_op o w).
Proof.
  intros HI.
  assert (L : forall A (m : M world A), keeps m -> Inv (snd (m w))).
  { intros A m Hm. destruct (m w) as [r w1] eqn:E. by apply (Hm w r w1). }
  destruct o as [|c|fut c|fut cb|fut cb|fut| |g c|g msg|].
  - apply (L _ _create_promise), keeps__create_promise.
  - apply (L _ (_create_task (FCreated c))), keeps__create_task.
  - apply (L _ (attempt fut c)), keeps_attempt.
  - apply (L _ (add_callback fut cb)), keeps_add_callback.
  - apply (L _ (remove_callback fut cb)), keeps_remove_callback.
  - apply (L _ (shield fut)), keeps_shield.
  - apply (L _ new_group), keeps_new_group.
  - apply (L _ (TaskGroup_spawn g (FCreated c))), keeps_TaskGroup_spawn.
  - apply (L _ (TaskGroup_cancel g msg)), keeps_TaskGroup_cancel.
  - by apply (drain_Inv 1).
Qed.

Lemma run_ops_Inv (ops : list op) (w : world) : Inv w -> Inv (run_ops ops w).
Proof.
  revert w. induction ops as [|o r IH]; intros w HI; [done|].
  apply IH. by apply run_op_Inv.
Qed.

Lemma In_entries_from (n id : nat) (cbs : list callback) (cb : callback) :
  In cb cbs -> exists h, In (h, ECallback cb id) (entries_from n id cbs).
Proof.
  revert n. induction cbs as [|c r IH]; intros n; [done|].
  intros [->|Hin]; simpl.
  - exists n. by left.
  - destruct (IH (S n) Hin) as [h Hh]. exists h. by right.
Qed.

Lemma legacy_length_entries_from (n id : nat) (cbs : list callback) :
  length (entries_from n id cbs) = length cbs.
Proof. revert n. induction cbs as [|c r IH]; intros n; simpl; [done|]. by rewrite IH. Qed.

(** [Task._set_result] on a task whose started promise is pending: both
    are completed, and their callbacks are handed to the loop. *)
Lemma Task__set_result_pending (w : world) (id : nat) (o so : fobj) (tf : task_fields)
    (v : option val) (e : option exn) :
  objs w !! id = Some o -> task_of o = Some tf -> finished_obj o = false ->
  objs w !! _started_promise tf = Some so -> task_of so = None ->
  finished_obj so = false -> (v <> None \/ e <> None) ->
  Task__set_result id v e w =
    (Ok tt,
     set_loop (enqueue (entries_from
                 (Loop.next_handle (loop w) + length (_result_callbacks o))
                 (_started_promise tf) (_result_callbacks so)))
       (set_objs <[_started_promise tf :=
                     mkObj (Some VNone) None finished (_result_callbacks so) None]>
          (set_loop (enqueue (entries_from (Loop.next_handle (loop w)) id
                                (_result_callbacks o)))
             (set_objs <[id := mkObj v e finished (_result_callbacks o) (Some tf)]> w)))).
Proof.
  intros Hobj Ht Hp Hso Hplain Hsp Hve.
  assert (Hne : _started_promise tf <> id).
  { intros Heq. rewrite Heq in Hso. congruence. }
  unfold Task__set_result. unfold bind at 1.
  rewrite (Future__set_result_pending _ _ _ _ _ Hobj Hp Hve). rewrite Ht.
  unfold bind at 1. erewrite deref_eq; [|simpl; apply lookup_insert_eq].
  cbn [task_of].
  assert (Hso1 : forall l, objs (set_loop l
            (set_objs <[id := mkObj v e finished (_result_callbacks o) (Some tf)]> w))
            !! _started_promise tf = Some so).
  { intros l. simpl. rewrite lookup_insert_ne by done. done. }
  unfold bind at 1. rewrite (is_finished_pending _ _ _ (Hso1 _) Hsp). cbn [negb].
  rewrite (Future__set_result_pending _ _ _ _ _ (Hso1 _) Hsp) by (left; done).
  rewrite Hplain. do 4 f_equal. simpl. by rewrite legacy_length_entries_from.
Qed.

(** ** A child that ends in its first step *)

Lemma set_coroutine_eq_legacy (w : world) (id : nat) (o : fobj) (c : coroutine) :
  objs w !! id = Some o ->
  set_coroutine id c w =
    set_objs <[id := set_task (fun t => mkTask c (_waiting_on t) (_started_promise t)) o]> w.
Proof. intros H. unfold set_coroutine. by rewrite (update_eq _ _ _ _ H). Qed.

Lemma set_objs_insert_insert (w : world) (id : nat) (o1 o2 : fobj) :
  set_objs <[id := o2]> (set_objs <[id := o1]> w) = set_objs <[id := o2]> w.
Proof. unfold set_objs. simpl. by rewrite insert_insert_eq. Qed.

(** The first step of a task whose body returns or raises at once ends
    in [Task._set_result], with the coroutine closed. *)
Lemma step_body_ends (w : world) (id : nat) (o : fobj) (tf : task_fields)
    (out : outcome) :
  objs w !! id = Some o -> task_of o = Some tf ->
  _coroutine tf = FCreated (LegacyExamples.forward out) ->
  Task__execute_coroutine_step id w =
    Task__set_result id
      (match out with Returned v => Some v | Raised _ => None end)
      (match out with Returned _ => None | Raised e => Some e end)
      (set_objs <[id := mkObj (_value o) (_exc o) (_state o) (_result_callbacks o)
                          (Some (mkTask FClosed (_waiting_on tf) (_started_promise tf)))]>
         w).
Proof.
  intros Hobj Ht Hc. unfold Task__execute_coroutine_step. unfold bind at 1.
  rewrite (deref_eq _ _ _ Hobj), Ht, Hc. cbn [send]. unfold bind at 1.
  unfold bind at 1, modify. unfold continue_with.
  rewrite (set_coroutine_eq_legacy _ _ _ _ Hobj).
  destruct out as [v|e]; cbn [LegacyExamples.forward run_coro];
    (erewrite set_coroutine_eq_legacy; [|apply lookup_set_objs_insert]);
    rewrite set_objs_insert_insert; unfold set_task; rewrite Ht; reflexivity.
Qed.

(** The loop turn that runs the first step of such a child: the child
    and its started promise are completed, and the callbacks of the
    started promise are all that is ready. *)
Lemma turn_child_ends (w : world) (h0 id : nat) (o so : fobj) (tf : task_fields)
    (out : outcome) :
  Loop.ready (loop w) = [(h0, EStep id)] ->
  objs w !! id = Some o -> task_of o = Some tf -> finished_obj o = false ->
  _result_callbacks o = [] ->
  _coroutine tf = FCreated (LegacyExamples.forward out) ->
  objs w !! _started_promise tf = Some so -> task_of so = None ->
  finished_obj so = false ->
  exists w1, run_once w = Some w1 /\
    objs w1 =
      <[_started_promise tf := mkObj (Some VNone) None finished (_result_callbacks so) None]>
        (<[id := mkObj (match out with Returned v => Some v | Raised _ => None end)
                   (match out with Returned _ => None | Raised e => Some e end)
                   finished []
                   (Some (mkTask FClosed (_waiting_on tf) (_started_promise tf)))]>
           (objs w)) /\
    Loop.ready (loop w1)
      = entries_from (Loop.next_handle (loop w)) (_started_promise tf)
          (_result_callbacks so) /\
    Loop.next_handle (loop w1)
      = Loop.next_handle (loop w) + length (_result_callbacks so) /\
    loop_errors w1 = loop_errors w.
Proof.
  intros Hready Hobj Ht Hp Hcbs Hc Hso Hplain Hsp.
  assert (Hne : _started_promise tf <> id).
  { intros Heq. rewrite Heq in Hso. congruence. }
  unfold run_once, Loop.pop. rewrite Hready. cbn [run_entry].
  rewrite (step_body_ends _ id o tf out) by done.
  erewrite (Task__set_result_pending _ id _ so
              (mkTask FClosed (_waiting_on tf) (_started_promise tf)));
    [| apply lookup_set_objs_insert | reflexivity | exact Hp
     | simpl; by rewrite lookup_insert_ne | exact Hplain | exact Hsp
     | destruct out; [left | right]; discriminate ].
  eexists. split; [reflexivity|]. cbn [_result_callbacks _started_promise].
  rewrite Hcbs. simpl. rewrite insert_insert_eq.
  rewrite ?Nat.add_0_r, ?app_nil_r. repeat split; try done.
  by rewrite legacy_length_entries_from.
Qed.

(** The loop turn that runs [shield]'s callback on a future that holds a
    value: the shielding future is completed with that value. *)
Lemma turn_future_done (w : world) (h f g s : nat) (of_ os : fobj) (v : val) :
  Loop.ready (loop w) = [(h, ECallback (CbFutureDone f s) g)] ->
  objs w !! f = Some of_ -> settled of_ -> _exc of_ = None -> _value of_ = Some v ->
  objs w !! s = Some os -> task_of os = None -> finished_obj os = false ->
  exists w2, run_once w = Some w2 /\
    objs w2 = <[s := mkObj (Some v) None finished (_result_callbacks os) None]> (objs w) /\
    Loop.ready (loop w2)
      = entries_from (Loop.next_handle (loop w)) s (_result_callbacks os) /\
    Loop.next_handle (loop w2)
      = Loop.next_handle (loop w) + length (_result_callbacks os) /\
    loop_errors w2 = loop_errors w.
Proof.
  intros Hready Hf Hset He Hv Hs Hplain Hsp.
  unfold run_once, Loop.pop. rewrite Hready. cbn [run_entry].
  rewrite (future_done_cb_value _ f s of_ v) by done.
  unfold Promise_set_result, _set_result. unfold bind at 1.
  erewrite deref_eq; [|exact Hs]. rewrite Hplain.
  erewrite (Future__set_result_pending _ s os); [| exact Hs | exact Hsp | left; discriminate].
  eexists. split; [reflexivity|]. simpl. rewrite Hplain.
  repeat split; try done. by rewrite legacy_length_entries_from.
Qed.

(** The loop turn that runs a task's wake-up callback: the task's next
    step is all that is ready. *)
Lemma turn_schedule_execution (w : world) (h p f : nat) (op_ : fobj) :
  Loop.ready (loop w) = [(h, ECallback (CbScheduleExecution p) f)] ->
  objs w !! p = Some op_ ->
  exists w3, run_once w = Some w3 /\
    Loop.ready (loop w3) = [(Loop.next_handle (loop w), EStep p)] /\
    (forall i, i <> p -> objs w3 !! i = objs w !! i) /\
    loop_errors w3 = loop_errors w.
Proof.
  intros Hready Hp. unfold run_once, Loop.pop. rewrite Hready. cbn [run_entry].
  unfold Task__schedule_execution. unfold bind at 1. unfold call_soon, Loop.call_soon.
  cbn [Loop.next_handle Loop.ready Loop.executed loop set_loop].
  unfold bind at 1. erewrite deref_eq; [|exact Hp].
  destruct (State_eqb (_state op_) created).
  - erewrite update_eq; [|exact Hp]. eexists. split; [reflexivity|].
    simpl. repeat split; try done. intros i Hi. by rewrite lookup_insert_ne.
  - eexists. split; [reflexivity|]. simpl. repeat split; done.
Qed.

(** ** A task cancelled before its first step *)

Lemma _create_task_spec (c : coroutine) (w : world) :
  _create_task c w = (Ok (next_id w), created_task c w).
Proof.
  unfold _create_task, Task_init, _create_promise, Task__schedule_execution.
  unfold bind, alloc, update, modify, ret, call_soon, Loop.call_soon, deref, set_objs,
    set_loop.
  cbn [objs next_id loop groups next_exc calls loop_errors].
  rewrite (lookup_insert_ne _ (S (next_id w)) (next_id w)) by lia.
  rewrite lookup_insert_eq. cbn [objs]. rewrite lookup_insert_eq.
  cbn [set_task _state State_eqb task_of option_map objs _value _exc _result_callbacks
       _coroutine _waiting_on].
  rewrite lookup_insert_eq. unfold created_task, set__state. cbn.
  do 2 f_equal. rewrite insert_insert_eq.
  rewrite (insert_insert_ne _ (S (next_id w)) (next_id w)) by lia.
  by rewrite insert_insert_eq.
Qed.

(** Cancelling the task that [_create_task] returned, before the loop
    ran: the task and its started promise are completed; the loop is not
    touched. *)
Lemma cancel_created_task (c : coroutine) (msg : option string) (w : world) :
  exists w2,
    _cancel recursion_limit (next_id w) msg (created_task c w) = (Ok tt, w2) /\
    objs w2 =
      <[S (next_id w) := mkObj (Some VNone) None finished [] None]>
        (<[next_id w := mkObj None (Some (Cancelled (next_exc w) msg)) finished []
                          (Some (mkTask c None (S (next_id w))))]>
           (objs (created_task c w))) /\
    Loop.ready (loop w2) = Loop.ready (loop (created_task c w)) /\
    Loop.next_handle (loop w2) = Loop.next_handle (loop (created_task c w)) /\
    Loop.executed (loop w2) = Loop.executed (loop (created_task c w)) /\
    loop_errors w2 = loop_errors w /\ next_id w2 = S (S (next_id w)) /\
    groups w2 = groups w /\ calls w2 = calls w.
Proof.
  change recursion_limit with (S 999). rewrite legacy__cancel_S.
  unfold bind at 1. erewrite deref_eq; [|simpl; apply lookup_insert_eq].
  cbn [task_of]. unfold Task__cancel. unfold bind at 1.
  erewrite is_finished_pending; [|simpl; apply lookup_insert_eq|reflexivity].
  unfold bind at 1. erewrite update_eq; [|simpl; apply lookup_insert_eq].
  unfold bind at 1. erewrite deref_eq; [|apply lookup_set_objs_insert].
  cbn [set__state task_of _waiting_on].
  unfold Future__cancel. unfold bind at 1. unfold fresh_Cancelled.
  unfold _set_result. unfold bind at 1.
  erewrite deref_eq; [|simpl; apply lookup_insert_eq].
  unfold set__state.
  cbn [task_of _value _exc _state _result_callbacks _waiting_on next_exc set_objs].
  erewrite (Task__set_result_pending _ (next_id w) _ new_future);
    [| simpl; apply lookup_insert_eq | reflexivity | reflexivity
     | simpl; rewrite !lookup_insert_ne by lia; apply lookup_insert_eq
     | reflexivity | reflexivity | right; discriminate ].
  eexists. split; [reflexivity|]. simpl.
  rewrite !app_nil_r, !Nat.add_0_r. repeat split.
  by rewrite !insert_insert_eq.
Qed.

(** ** Groups *)

Lemma loop_only_exception (id : nat) : loop_only (exception id).
Proof.
  apply loop_only_bind; [apply loop_only_is_finished|]. intros fin.
  destruct (negb fin); [apply loop_only_raise|].
  apply loop_only_bind; [apply loop_only_deref | intros; apply loop_only_ret].
Qed.

Lemma loop_only_all_finished (tasks : list nat) : loop_only (all_finished tasks).
Proof.
  induction tasks as [|t r IH]; simpl; [apply loop_only_ret|].
  apply loop_only_bind; [apply loop_only_is_finished|]. intros fin.
  destruct fin; [apply IH | apply loop_only_ret].
Qed.

Lemma loop_only_task_exceptions (tasks : list nat) : loop_only (task_exceptions tasks).
Proof.
  induction tasks as [|t r IH]; simpl; [apply loop_only_ret|].
  apply loop_only_bind; [apply loop_only_exception|]. intros [x|]; [|apply IH].
  apply loop_only_bind; [apply IH | intros; apply loop_only_ret].
Qed.

(** A future whose state tag agrees with its result, as [is_finished]
    asserts. *)
Lemma is_finished_consistent (w : world) (id : nat) (o : fobj) :
  objs w !! id = Some o -> (finished_obj o = true -> _state o = finished) ->
  is_finished id w = (Ok (finished_obj o), w).
Proof.
  intros Hobj Hc. destruct (finished_obj o) eqn:Hf.
  - apply (is_finished_settled w id o Hobj). split; auto.
  - by apply (is_finished_pending w id o).
Qed.

Lemma all_finished_unfinished (w : world) (tasks : list nat) (t : nat) (ot : fobj) :
  Forall (fun i => exists o, objs w !! i = Some o /\
                     (finished_obj o = true -> _state o = finished)) tasks ->
  In t tasks -> objs w !! t = Some ot -> finished_obj ot = false ->
  all_finished tasks w = (Ok false, w).
Proof.
  intros Hall Hin Ht Hf. induction Hall as [|i r (o & Hobj & Hc) Hr IH]; [done|].
  simpl. unfold bind. rewrite (is_finished_consistent w i o Hobj Hc).
  destruct (finished_obj o) eqn:Hfo; [|done].
  apply IH. destruct Hin as [->|Hin]; [congruence | done].
Qed.

Lemma TaskGroup_spawn_spec (w : world) (g : nat) (tg : TaskGroup) (c : coroutine) :
  groups w !! g = Some tg ->
  TaskGroup_spawn g c w =
    if _is_finalized tg
    then (Err (RuntimeError
                 "Spawning tasks inside task group after finalization is forbidden"), w)
    else (Ok (next_id w),
          set_groups <[g := mkGroup (_tasks tg ++ [next_id w]) false]>
            (created_task c w)).
Proof.
  intros Hg. unfold TaskGroup_spawn, TaskGroup__check_not_finalized.
  unfold bind at 1. unfold bind at 1. unfold group_of at 1. rewrite Hg.
  destruct (_is_finalized tg) eqn:Hfin; [reflexivity|].
  unfold ret at 1. unfold bind at 1. rewrite _create_task_spec.
  unfold bind at 1. unfold group_of. cbn [groups created_task]. rewrite Hg.
  unfold bind, modify, ret. by rewrite Hfin.
Qed.


(** ** Subscribing twice, subscribing and unsubscribing *)

Lemma set_has_app_self (cb : callback) (cbs : list callback) :
  set_has cb (cbs ++ [cb]) = true.
Proof.
  unfold set_has. rewrite existsb_app. simpl.
  assert (callback_eqb cb cb = true) as -> by by apply legacy_callback_eqb_eq.
  by rewrite orb_true_r.
Qed.

Lemma filter_absent (cb : callback) (cbs : list callback) :
  set_has cb cbs = false ->
  List.filter (fun c => negb (callback_eqb cb c)) cbs = cbs.
Proof.
  unfold set_has. induction cbs as [|c r IH]; simpl; [done|].
  intros H. apply orb_false_elim in H as [Hc Hr]. rewrite Hc. simpl. by rewrite IH.
Qed.

Lemma add_callback_pending (w : world) (id : nat) (o : fobj) (cb : callback) :
  objs w !! id = Some o -> finished_obj o = false ->
  add_callback id cb w =
    (Ok tt,
     if set_has cb (_result_callbacks o) then w
     else set_objs <[id := set__result_callbacks (_result_callbacks o ++ [cb]) o]> w).
Proof.
  intros Hobj Hp. unfold add_callback. unfold bind at 1. rewrite (deref_eq _ _ _ Hobj).
  destruct (set_has cb (_result_callbacks o)); [reflexivity|].
  unfold bind. rewrite (is_finished_pending _ _ _ Hobj Hp).
  by rewrite (update_eq _ _ _ _ Hobj).
Qed.

Lemma set_objs_insert_id (w : world) (id : nat) (o : fobj) :
  objs w !! id = Some o -> set_objs <[id := o]> w = w.
Proof. intros H. unfold set_objs. rewrite insert_id by done. by destruct w. Qed.

(** ** The assertion of [is_finished] *)

Lemma steady_same_objs {X} (f : world -> X * world) :
  (forall w x w', f w = (x, w') -> objs w' = objs w) -> steady f.
Proof. intros H w x w' Hc Hf id o. rewrite (H w x w' Hf). apply Hc. Qed.

Lemma steady_loop_only {X} (f : world -> X * world) : loop_only f -> steady f.
Proof. intros H. apply steady_same_objs. intros w x w' Hf. by apply (H w x w'). Qed.

Lemma steady_bind {A B} (m : M world A) (f : A -> M world B) :
  steady m -> (forall a, steady (f a)) -> steady (bind m f).
Proof.
  intros Hm Hf w x w' HI. unfold bind.
  destruct (m w) as [[a|e] w1] eqn:E.
  - intros Hfa. apply (Hf a w1 x w'); [|done]. by apply (Hm w (Ok a) w1).
  - intros [= <- <-]. by apply (Hm w (Err e) w1).
Qed.

Lemma steady_ret {A} (a : A) : steady (ret a : M world A).
Proof. apply steady_loop_only, loop_only_ret. Qed.

Lemma steady_raise {A} (e : exn) : steady (raise e : M world A).
Proof. apply steady_loop_only, loop_only_raise. Qed.

Lemma steady_deref (id : nat) : steady (deref id).
Proof. apply steady_loop_only, loop_only_deref. Qed.

Lemma steady_is_finished (id : nat) : steady (is_finished id).
Proof. apply steady_loop_only, loop_only_is_finished. Qed.

Lemma steady_exception (id : nat) : steady (exception id).
Proof. apply steady_loop_only, loop_only_exception. Qed.

Lemma steady_result (id : nat) : steady (result id).
Proof.
  apply steady_bind; [apply steady_is_finished|]. intros fin.
  destruct (negb fin); [apply steady_raise|].
  apply steady_bind; [apply steady_deref|]. intros o.
  destruct (_exc o); [apply steady_raise|].
  destruct (_value o); [apply steady_ret | apply steady_raise].
Qed.

Lemma steady_call_soon (e : entry) : steady (call_soon e).
Proof. apply steady_loop_only, loop_only_call_soon. Qed.

Lemma steady_fresh_Cancelled (msg : option string) : steady (fresh_Cancelled msg).
Proof. apply steady_same_objs. by intros w x w' [= _ <-]. Qed.

Lemma steady_group_of (g : nat) : steady (group_of g).
Proof.
  apply steady_same_objs. intros w x w'. unfold group_of.
  by destruct (groups w !! g); intros [= _ <-].
Qed.

Lemma steady_set_groups (f : gmap nat TaskGroup -> gmap nat TaskGroup) :
  steady (modify (set_groups f)).
Proof. apply steady_same_objs. by intros w x w' [= _ <-]. Qed.

Lemma steady_for_each {A} (f : A -> M world unit) (l : list A) :
  (forall a, steady (f a)) -> steady (for_each f l).
Proof.
  intros Hf. induction l as [|a r IH]; simpl; [apply steady_ret|].
  apply steady_bind; [apply Hf | intros; apply IH].
Qed.

Lemma steady_Future__schedule_cb (id : nat) (cb : callback) :
  steady (Future__schedule_cb id cb).
Proof. apply steady_loop_only, loop_only_Future__schedule_cb. Qed.

Lemma steady_Future__call_cbs (id : nat) : steady (Future__call_cbs id).
Proof. apply steady_loop_only, loop_only_Future__call_cbs. Qed.

(** Rewriting one object keeps the store consistent when the new object
    is. *)
Lemma consistent_insert (w : world) (id : nat) (o' : fobj) :
  consistent w -> (finished_obj o' = true -> _state o' = finished) ->
  consistent (set_objs <[id := o']> w).
Proof.
  intros Hc Ho i o. simpl. destruct (decide (i = id)) as [->|Hne].
  - rewrite lookup_insert_eq. by intros [= <-].
  - rewrite lookup_insert_ne by done. apply Hc.
Qed.

(** An assignment to the object [id] that keeps it consistent. *)
Lemma steady_update (id : nat) (f : fobj -> fobj) :
  (forall w o, consistent w -> objs w !! id = Some o ->
     finished_obj (f o) = true -> _state (f o) = finished) ->
  steady (update id f).
Proof.
  intros Hf w x w' Hc Hu. destruct (objs w !! id) as [o|] eqn:Hobj.
  - rewrite (update_eq _ _ _ _ Hobj) in Hu. injection Hu as _ <-.
    apply consistent_insert; [done|]. by apply (Hf w o).
  - unfold update, modify, set_objs in Hu. rewrite Hobj in Hu.
    injection Hu as _ <-. by destruct w.
Qed.

Lemma steady_update_quiet (id : nat) (f : fobj -> fobj) :
  quiet f -> steady (update id f).
Proof.
  intros Hq. apply steady_update. intros w o Hc Hobj.
  destruct (Hq o) as (Hv & He & Hs). unfold finished_obj. rewrite Hv, He, Hs.
  apply (Hc id o Hobj).
Qed.

Lemma quiet_set__result_callbacks (cbs : list callback) :
  quiet (set__result_callbacks cbs).
Proof. by intros o. Qed.

Lemma quiet_set_task (g : task_fields -> task_fields) : quiet (set_task g).
Proof. by intros o. Qed.

Lemma steady_add_callback (id : nat) (cb : callback) : steady (add_callback id cb).
Proof.
  apply steady_bind; [apply steady_deref|]. intros o.
  destruct (set_has _ _); [apply steady_ret|].
  apply steady_bind; [apply steady_is_finished|]. intros fin.
  destruct fin; [apply steady_Future__schedule_cb|].
  apply steady_update_quiet, quiet_set__result_callbacks.
Qed.

Lemma steady_remove_callback (id : nat) (cb : callback) : steady (remove_callback id cb).
Proof.
  apply steady_bind; [apply steady_deref|]. intros o.
  destruct (set_has _ _); [|apply steady_raise].
  apply steady_update_quiet, quiet_set__result_callbacks.
Qed.

Lemma steady_Future__set_result (id : nat) (v : option val) (e : option exn) :
  steady (Future__set_result id v e).
Proof.
  apply steady_bind; [apply steady_is_finished|]. intros fin.
  destruct fin; [apply steady_raise|].
  intros w x w' Hc. unfold bind at 1.
  destruct (objs w !! id) as [o|] eqn:Hobj.
  - rewrite (update_eq _ _ _ _ Hobj). unfold bind at 1.
    erewrite update_eq; [|apply lookup_set_objs_insert].
    rewrite set_objs_insert_insert.
    apply steady_Future__call_cbs. by apply consistent_insert.
  - assert (Hu : forall f, update id f w = (Ok tt, w)).
    { intros f. unfold update, modify, set_objs. rewrite Hobj. by destruct w. }
    rewrite Hu. unfold bind at 1. rewrite Hu. by apply steady_Future__call_cbs.
Qed.

Lemma steady_Task__set_result (id : nat) (v : option val) (e : option exn) :
  steady (Task__set_result id v e).
Proof.
  apply steady_bind; [apply steady_Future__set_result|]. intros _.
  apply steady_bind; [apply steady_deref|]. intros o.
  destruct (task_of o) as [t|]; [|apply steady_raise].
  apply steady_bind; [apply steady_is_finished|]. intros fin.
  destruct (negb fin); [apply steady_Future__set_result | apply steady_ret].
Qed.

Lemma steady__set_result (id : nat) (v : option val) (e : option exn) :
  steady (_set_result id v e).
Proof.
  apply steady_bind; [apply steady_deref|]. intros o.
  destruct (task_of o); [apply steady_Task__set_result | apply steady_Future__set_result].
Qed.

Lemma steady_Future__cancel (id : nat) (msg : option string) :
  steady (Future__cancel id msg).
Proof.
  apply steady_bind; [apply steady_fresh_Cancelled|]. intros e. apply steady__set_result.
Qed.

(** [is_finished] answered false: the object has no result. *)
Lemma is_finished_false (w w' : world) (id : nat) :
  is_finished id w = (Ok false, w') ->
  w' = w /\ exists o, objs w !! id = Some o /\ finished_obj o = false.
Proof.
  unfold is_finished, bind, deref, ret, raise.
  destruct (objs w !! id) as [o|]; [|discriminate].
  destruct (_ && _); [discriminate|]. intros [= Hf <-]. eauto.
Qed.

Lemma steady_Task__cancel (cancel_ : nat -> option string -> M world unit)
    (id : nat) (msg : option string) :
  (forall f, steady (cancel_ f msg)) -> steady (Task__cancel cancel_ id msg).
Proof.
  intros Hcn w x w' Hc. unfold Task__cancel. unfold bind at 1.
  destruct (is_finished id w) as [[[]|err] w0] eqn:E.
  - intros [= _ <-]. by apply (steady_is_finished id w _ w0 Hc E).
  - destruct (is_finished_false _ _ _ E) as [-> (o & Hobj & Hf)].
    unfold bind at 1. rewrite (update_eq _ _ _ _ Hobj).
    assert (Hc1 : consistent (set_objs <[id := set__state finishing o]> w)).
    { apply consistent_insert; [done|]. unfold finished_obj in *. simpl.
      by rewrite Hf. }
    revert Hc1. generalize (set_objs <[id := set__state finishing o]> w). intros w1 Hc1.
    revert w1 x w' Hc1.
    change (steady (o0 <- deref id ;;
                    match task_of o0 with
                    | Some t => match _waiting_on t with
                                | Some f => cancel_ f msg
                                | None => Future__cancel id msg
                                end
                    | None => raise (AttributeError "_waiting_on")
                    end)).
    apply steady_bind; [apply steady_deref|]. intros o0.
    destruct (task_of o0) as [t|]; [|apply steady_raise].
    destruct (_waiting_on t); [apply Hcn | apply steady_Future__cancel].
  - intros [= _ <-]. by apply (steady_is_finished id w _ w0 Hc E).
Qed.

Lemma steady__cancel (depth id : nat) (msg : option string) :
  steady (_cancel depth id msg).
Proof.
  revert id. induction depth as [|d IH]; intros id; [apply steady_raise|].
  rewrite legacy__cancel_S.
  apply steady_bind; [apply steady_deref|]. intros o.
  destruct (task_of o); [|apply steady_Future__cancel].
  apply steady_Task__cancel. intros f. apply IH.
Qed.

Lemma steady_attempt (fut : nat) (c : completion) : steady (attempt fut c).
Proof.
  destruct c as [v|e|msg]; simpl.
  - apply steady__set_result.
  - unfold Promise_set_exception. destruct (is_Cancelled e);
      [apply steady_raise | apply steady__set_result].
  - apply steady__cancel.
Qed.

Lemma steady_alloc (o : fobj) : finished_obj o = false -> steady (alloc o).
Proof.
  intros Hf w x w' Hc [= _ <-]. intros i oi. simpl.
  destruct (decide (i = next_id w)) as [->|Hne].
  - rewrite lookup_insert_eq. intros [= <-]. by rewrite Hf.
  - rewrite lookup_insert_ne by done. apply Hc.
Qed.

Lemma steady__create_promise : steady _create_promise.
Proof. by apply steady_alloc. Qed.

Lemma steady_Task_init (c : coroutine) : steady (Task_init c).
Proof.
  apply steady_bind; [by apply steady_alloc|]. intros id.
  apply steady_bind; [apply steady__create_promise|]. intros p.
  apply steady_bind; [apply steady_update_quiet, quiet_set_task|]. intros _.
  apply steady_ret.
Qed.

(** A state tag is moved on only on an object that has no result. *)
Lemma steady_advance (id : nat) (from to : State) :
  from <> finished ->
  steady (o <- deref id ;;
          if State_eqb (_state o) from then update id (set__state to) else ret tt).
Proof.
  intros Hfrom w x w' Hc. unfold bind, deref.
  destruct (objs w !! id) as [o|] eqn:Hobj; [|by intros [= _ <-]].
  destruct (State_eqb (_state o) from) eqn:Hs; [|by intros [= _ <-]].
  rewrite (update_eq _ _ _ _ Hobj). intros [= _ <-].
  apply consistent_insert; [done|]. intros Hf.
  assert (Hfin : _state o = finished) by by apply (Hc id o Hobj).
  rewrite Hfin in Hs. destruct from; try discriminate Hs. done.
Qed.

Lemma steady_Task__schedule_execution (id : nat) : steady (Task__schedule_execution id).
Proof.
  apply steady_bind; [apply steady_call_soon|]. intros _.
  by apply (steady_advance id created scheduled).
Qed.

Lemma steady__create_task (c : coroutine) : steady (_create_task c).
Proof.
  apply steady_bind; [apply steady_Task_init|]. intros id.
  apply steady_bind; [apply steady_Task__schedule_execution | intros; apply steady_ret].
Qed.

Lemma steady_future_done_cb (future shield_promise : nat) :
  steady (future_done_cb future shield_promise).
Proof.
  apply steady_bind; [apply steady_is_finished|]. intros fin.
  destruct (negb fin); [apply steady_raise|].
  apply steady_bind; [apply steady_exception|]. intros [e|].
  - apply (steady_attempt shield_promise (SetException e)).
  - apply steady_bind; [apply steady_result|]. intros v.
    apply (steady_attempt shield_promise (SetResult v)).
Qed.

Lemma steady_shield (future : nat) : steady (shield future).
Proof.
  apply steady_bind; [apply steady__create_promise|]. intros p.
  apply steady_bind; [apply steady_add_callback | intros; apply steady_ret].
Qed.

Lemma steady_new_group : steady new_group.
Proof. apply steady_same_objs. by intros w x w' [= _ <-]. Qed.

Lemma steady_TaskGroup__check_not_finalized (g : nat) :
  steady (TaskGroup__check_not_finalized g).
Proof.
  apply steady_bind; [apply steady_group_of|]. intros tg.
  destruct (_is_finalized tg); [apply steady_raise | apply steady_ret].
Qed.

Lemma steady_TaskGroup_spawn (g : nat) (c : coroutine) : steady (TaskGroup_spawn g c).
Proof.
  apply steady_bind; [apply steady_TaskGroup__check_not_finalized|]. intros _.
  apply steady_bind; [apply steady__create_task|]. intros task.
  apply steady_bind; [apply steady_group_of|]. intros tg.
  apply steady_bind; [apply steady_set_groups | intros; apply steady_ret].
Qed.

Lemma steady_TaskGroup_cancel (g : nat) (msg : option string) :
  steady (TaskGroup_cancel g msg).
Proof.
  apply steady_bind; [apply steady_group_of|]. intros tg.
  apply steady_for_each. intros t. apply steady__cancel.
Qed.

Lemma steady_started_future (task : nat) : steady (started_future task).
Proof.
  apply steady_bind; [apply steady_deref|]. intros o.
  destruct (task_of o); [apply steady_ret | apply steady_raise].
Qed.

Lemma do_action_consistent (a : action) (w : world) :
  consistent w -> consistent (snd (do_action a w)).
Proof.
  intros HI.
  assert (L : forall A (f : A -> val) (m : M world A), steady m ->
            consistent (snd (let (r, w') := m w in (to_outcome f r, w')))).
  { intros A f m Hm. destruct (m w) as [r w1] eqn:E. simpl. by apply (Hm w r w1). }
  destruct a as [fut v|fut e|fut msg|task msg|fut cb|fut cb| |fut|task|g|g msg].
  - apply (L _ (fun _ : unit => VNone) (Promise_set_result fut v)).
    apply (steady_attempt _ (SetResult _)).
  - apply (L _ (fun _ : unit => VNone) (Promise_set_exception fut e)).
    apply (steady_attempt _ (SetException _)).
  - apply (L _ (fun _ : unit => VNone) (Promise_cancel fut msg)).
    apply (steady_attempt _ (Cancel _)).
  - apply (L _ (fun _ : unit => VNone) (_cancel recursion_limit task msg)).
    apply steady__cancel.
  - apply (L _ (fun _ : unit => VNone) (add_callback fut cb)).
    apply steady_add_callback.
  - apply (L _ (fun _ : unit => VNone) (remove_callback fut cb)).
    apply steady_remove_callback.
  - apply (L _ VRef _create_promise). apply steady__create_promise.
  - apply (L _ VRef (shield fut)). apply steady_shield.
  - apply (L _ VRef (started_future task)). apply steady_started_future.
  - apply (L _ (fun _ : unit => VNone) (TaskGroup__check_not_finalized g)).
    apply steady_TaskGroup__check_not_finalized.
  - apply (L _ (fun _ : unit => VNone) (TaskGroup_cancel g msg)).
    apply steady_TaskGroup_cancel.
Qed.

Lemma steady_await_resume (fut : nat) : steady (await_resume fut).
Proof.
  apply steady_bind; [apply steady_is_finished|]. intros fin.
  destruct (negb fin); [apply steady_raise|].
  apply steady_bind; [apply steady_deref|]. intros o.
  destruct (_exc o); [apply steady_raise|].
  destruct (_value o); [apply steady_ret | apply steady_raise].
Qed.

Lemma run_coro_consistent (c : coro) (w : world) :
  consistent w -> consistent (snd (run_coro c w)).
Proof.
  revert w. induction c as [v|e|fut k IH|a k IH|g c' _ k IH]; intros w HI; simpl.
  - done.
  - done.
  - destruct (is_finished fut w) as [[[]|err] w0] eqn:E.
    + destruct (await_resume fut w) as [r w1] eqn:E1. apply IH.
      by apply (steady_await_resume fut w r w1).
    + done.
    + by apply IH.
  - destruct (do_action a w) as [o w1] eqn:E. apply IH.
    change w1 with (snd (o, w1)). rewrite <- E. by apply do_action_consistent.
  - destruct (TaskGroup_spawn g (FCreated c') w) as [r w1] eqn:E. apply IH.
    by apply (steady_TaskGroup_spawn g (FCreated c') w r w1).
Qed.

Lemma set_coroutine_consistent (id : nat) (c : coroutine) (w : world) :
  consistent w -> consistent (set_coroutine id c w).
Proof.
  intros HI. unfold set_coroutine.
  destruct (update id (set_task (fun t => mkTask c (_waiting_on t) (_started_promise t))) w)
    as [r w1] eqn:E.
  simpl. refine (steady_update_quiet id _ _ w r w1 HI E). apply quiet_set_task.
Qed.

Lemma steady_continue_with (id : nat) (c : coro) : steady (continue_with id c).
Proof.
  intros w x w' HI. unfold continue_with.
  destruct (run_coro c w) as [[r c'] w1] eqn:E. intros [= _ <-].
  apply set_coroutine_consistent. change w1 with (snd ((r, c'), w1)). rewrite <- E.
  by apply run_coro_consistent.
Qed.

Lemma steady_modify_set_coroutine (id : nat) (c : coroutine) :
  steady (modify (set_coroutine id c)).
Proof. intros w x w' HI [= _ <-]. by apply set_coroutine_consistent. Qed.

Lemma steady_await_outcome (fut : nat) : steady (await_outcome fut).
Proof.
  intros w x w' HI. unfold await_outcome.
  destruct (await_resume fut w) as [r w1] eqn:E. intros [= _ <-].
  by apply (steady_await_resume fut w r w1).
Qed.

Lemma steady_send (id : nat) (c : coroutine) : steady (send id c).
Proof.
  destruct c as [body| |fut k|]; simpl.
  - apply steady_bind; [apply steady_modify_set_coroutine|]. intros _.
    apply steady_continue_with.
  - apply steady_ret.
  - apply steady_bind; [apply steady_modify_set_coroutine|]. intros _.
    apply steady_bind; [apply steady_await_outcome|]. intros o.
    apply steady_continue_with.
  - apply steady_ret.
Qed.

Lemma steady_Task__execute_coroutine_step (id : nat) :
  steady (Task__execute_coroutine_step id).
Proof.
  apply steady_bind; [apply steady_deref|]. intros o.
  destruct (task_of o) as [t|]; [|apply steady_raise].
  apply steady_bind; [apply steady_send|]. intros [future|v|e].
  - assert (Hrest : forall o1 : fobj, steady
        (if Nat.eqb future id
         then raise (RuntimeError "Task awaiting on itself")
         else
           match option_bind _ _ _waiting_on (task_of o1) with
           | Some f => remove_callback f (CbScheduleExecution id)
           | None => ret tt
           end ;;;
           add_callback future (CbScheduleExecution id) ;;;
           update id (set_task (fun t' =>
             mkTask (_coroutine t') (Some future) (_started_promise t'))))).
    { intros o1. destruct (Nat.eqb future id); [apply steady_raise|].
      apply steady_bind.
      { destruct (option_bind _ _ _waiting_on (task_of o1));
          [apply steady_remove_callback | apply steady_ret]. }
      intros _. apply steady_bind; [apply steady_add_callback|]. intros _.
      apply steady_update_quiet, quiet_set_task. }
    intros w x w' Hc. unfold bind at 1, deref.
    destruct (objs w !! id) as [o1|] eqn:Hobj; [|by intros [= _ <-]].
    destruct (State_eqb (_state o1) scheduled) eqn:Hs.
    + unfold bind at 1. unfold bind at 1. rewrite (update_eq _ _ _ _ Hobj).
      assert (Hc1 : consistent (set_objs <[id := set__state running o1]> w)).
      { apply consistent_insert; [done|]. intros Hf.
        assert (Hfin : _state o1 = finished) by by apply (Hc id o1 Hobj).
        rewrite Hfin in Hs. discriminate Hs. }
      destruct (Promise_set_result (_started_promise t) VNone
                  (set_objs <[id := set__state running o1]> w)) as [[[]|err] w2] eqn:EP.
      * apply (Hrest o1).
        apply (steady_attempt _ (SetResult VNone) _ _ _ Hc1 EP).
      * intros [= _ <-].
        apply (steady_attempt _ (SetResult VNone) _ _ _ Hc1 EP).
    + unfold bind at 1. unfold ret at 1. by apply (Hrest o1).
  - apply steady_Task__set_result.
  - apply steady_Task__set_result.
Qed.

Lemma steady_run_entry (e : entry) : steady (run_entry e).
Proof.
  destruct e as [[n|task|future sp] fut|task]; simpl.
  - apply steady_same_objs. by intros w x w' [= _ <-].
  - apply steady_Task__schedule_execution.
  - apply steady_future_done_cb.
  - apply steady_Task__execute_coroutine_step.
Qed.

Lemma run_once_consistent (w w' : world) :
  consistent w -> run_once w = Some w' -> consistent w'.
Proof.
  intros HI. unfold run_once. destruct (Loop.pop (loop w)) as [[e l]|]; [|done].
  assert (HI0 : consistent (set_loop (fun _ => l) w)) by exact HI.
  destruct (run_entry e (set_loop (fun _ => l) w)) as [[[]|x] w1] eqn:E.
  - intros [= <-]. apply (steady_run_entry e _ _ _ HI0 E).
  - intros [= <-]. apply (steady_run_entry e _ _ _ HI0 E).
Qed.

Lemma drain_consistent (n : nat) (w : world) : consistent w -> consistent (drain n w).
Proof.
  revert w. induction n as [|n IH]; intros w HI; simpl; [done|].
  destruct (run_once w) as [w1|] eqn:E; [|done].
  apply IH. by apply (run_once_consistent w).
Qed.

Lemma run_op_consistent (o : op) (w : world) : consistent w -> consistent (run_op o w).
Proof.
  intros HI.
  assert (L : forall A (m : M world A), steady m -> consistent (snd (m w))).
  { intros A m Hm. destruct (m w) as [r w1] eqn:E. by apply (Hm w r w1). }
  destruct o as [|c|fut c|fut cb|fut cb|fut| |g c|g msg|].
  - apply (L _ _create_promise), steady__create_promise.
  - apply (L _ (_create_task (FCreated c))), steady__create_task.
  - apply (L _ (attempt fut c)), steady_attempt.
  - apply (L _ (add_callback fut cb)), steady_add_callback.
  - apply (L _ (remove_callback fut cb)), steady_remove_callback.
  - apply (L _ (shield fut)), steady_shield.
  - apply (L _ new_group), steady_new_group.
  - apply (L _ (TaskGroup_spawn g (FCreated c))), steady_TaskGroup_spawn.
  - apply (L _ (TaskGroup_cancel g msg)), steady_TaskGroup_cancel.
  - by apply (drain_consistent 1).
Qed.

Lemma run_ops_consistent (ops : list op) (w : world) :
  consistent w -> consistent (run_ops ops w).
Proof.
  revert w. induction ops as [|o r IH]; intros w HI; [done|].
  apply IH. by apply run_op_consistent.
Qed.

Lemma consistent_empty : consistent empty_world.
Proof. by intros id o H. Qed.

(** The loop turn that runs [shield]'s callback on a future that holds
    an exception other than [Cancelled]: the shielding future is
    completed with it. *)
Lemma turn_future_done_exc (w : world) (h f g s : nat) (of_ os : fobj) (e : exn) :
  Loop.ready (loop w) = [(h, ECallback (CbFutureDone f s) g)] ->
  objs w !! f = Some of_ -> settled of_ -> _exc of_ = Some e -> is_Cancelled e = false ->
  objs w !! s = Some os -> task_of os = None -> finished_obj os = false ->
  exists w2, run_once w = Some w2 /\
    objs w2 = <[s := mkObj None (Some e) finished (_result_callbacks os) None]> (objs w) /\
    Loop.ready (loop w2)
      = entries_from (Loop.next_handle (loop w)) s (_result_callbacks os) /\
    Loop.next_handle (loop w2)
      = Loop.next_handle (loop w) + length (_result_callbacks os) /\
    loop_errors w2 = loop_errors w.
Proof.
  intros Hready Hf Hset He Hc Hs Hplain Hsp.
  unfold run_once, Loop.pop. rewrite Hready. cbn [run_entry].
  rewrite (future_done_cb_exception _ f s of_ e) by done.
  unfold _set_result. unfold bind at 1.
  erewrite deref_eq; [|exact Hs]. rewrite Hplain.
  erewrite (Future__set_result_pending _ s os); [| exact Hs | exact Hsp | right; discriminate].
  eexists. split; [reflexivity|]. simpl. rewrite Hplain.
  repeat split; try done. by rewrite legacy_length_entries_from.
Qed.

(** [shield] on an unfinished future nobody subscribed to. *)
Lemma shield_pending (w : world) (f : nat) (o : fobj) :
  objs w !! f = Some o -> finished_obj o = false -> _result_callbacks o = [] ->
  f <> next_id w ->
  shield f w =
    (Ok (next_id w),
     set_objs <[f := set__result_callbacks [CbFutureDone f (next_id w)] o]>
       (snd (_create_promise w))).
Proof.
  intros Hobj Hp Hcbs Hne. unfold shield. unfold bind at 1.
  unfold _create_promise at 1. cbn [alloc].
  assert (Hobj1 : objs (snd (_create_promise w)) !! f = Some o).
  { simpl. rewrite lookup_insert_ne by done. exact Hobj. }
  unfold bind at 1.
  change (mkWorld (<[next_id w := new_future]> (objs w)) (groups w) (S (next_id w))
            (loop w) (next_exc w) (calls w) (loop_errors w))
    with (snd (_create_promise w)).
  rewrite (add_callback_pending _ f o _ Hobj1 Hp). rewrite Hcbs. reflexivity.
Qed.


(** ** A finished future keeps its result *)

Local Ltac same_obj := repeat (split; [done|]); by intros [_ ?].

Lemma legacy_evolves_refl (w : world) : evolves w w.
Proof. split; [done|]. intros id o H. exists o. same_obj. Qed.

Lemma legacy_evolves_trans (w1 w2 w3 : world) :
  evolves w1 w2 -> evolves w2 w3 -> evolves w1 w3.
Proof.
  intros [Hn1 H1] [Hn2 H2]. split; [lia|]. intros id o Hobj.
  destruct (H1 id o Hobj) as (o2 & Hobj2 & Hk2 & Hv2 & Hs2).
  destruct (H2 id o2 Hobj2) as (o3 & Hobj3 & Hk3 & Hv3 & Hs3).
  exists o3. split; [done|]. split; [by rewrite Hk3|]. split.
  - intros Hf. destruct (Hv2 Hf) as [Hv He].
    assert (Hf2 : finished_obj o2 = true).
    { unfold finished_obj in *. by rewrite Hv, He. }
    destruct (Hv3 Hf2) as [Hv' He']. split; congruence.
  - intros Hs. apply Hs3. destruct Hs as [Hf Hst]. destruct (Hv2 Hf) as [Hv He].
    split; [|by apply Hs2]. unfold finished_obj in *. by rewrite Hv, He.
Qed.

Lemma legacy_same_objs_evolves (w w' : world) :
  objs w' = objs w -> next_id w <= next_id w' -> evolves w w'.
Proof.
  intros Ho Hn. split; [done|]. intros id o H. exists o. rewrite Ho.
  same_obj.
Qed.

Lemma lgood_same_objs {X} (f : world -> X * world) :
  (forall w x w', f w = (x, w') -> objs w' = objs w /\ next_id w <= next_id w') ->
  good f.
Proof.
  intros H w x w' Hwf Hf. destruct (H w x w' Hf) as [Ho Hn]. split.
  - intros id Hid. rewrite Ho. apply Hwf. lia.
  - by apply legacy_same_objs_evolves.
Qed.

Lemma lgood_loop_only {X} (f : world -> X * world) : loop_only f -> good f.
Proof.
  intros H. apply lgood_same_objs. intros w x w' Hf.
  destruct (H w x w' Hf) as (Ho & Hn & _). split; [done | lia].
Qed.

Lemma lgood_bind {A B} (m : M world A) (f : A -> M world B) :
  good m -> (forall a, good (f a)) -> good (bind m f).
Proof.
  intros Hm Hf w x w' Hwf. unfold bind.
  destruct (m w) as [[a|e] w1] eqn:E.
  - intros Hfa. destruct (Hm w (Ok a) w1 Hwf E) as [Hwf1 He1].
    destruct (Hf a w1 x w' Hwf1 Hfa) as [Hwf2 He2].
    split; [done|]. by apply (legacy_evolves_trans w w1 w').
  - intros [= <- <-]. by apply (Hm w (Err e) w1).
Qed.

Lemma lgood_ret {A} (a : A) : good (ret a : M world A).
Proof. apply lgood_loop_only, loop_only_ret. Qed.

Lemma lgood_raise {A} (e : exn) : good (raise e : M world A).
Proof. apply lgood_loop_only, loop_only_raise. Qed.

Lemma lgood_deref (id : nat) : good (deref id).
Proof. apply lgood_loop_only, loop_only_deref. Qed.

Lemma lgood_is_finished (id : nat) : good (is_finished id).
Proof. apply lgood_loop_only, loop_only_is_finished. Qed.

Lemma lgood_exception (id : nat) : good (exception id).
Proof. apply lgood_loop_only, loop_only_exception. Qed.

Lemma lgood_result (id : nat) : good (result id).
Proof.
  apply lgood_bind; [apply lgood_is_finished|]. intros fin.
  destruct (negb fin); [apply lgood_raise|].
  apply lgood_bind; [apply lgood_deref|]. intros o.
  destruct (_exc o); [apply lgood_raise|].
  destruct (_value o); [apply lgood_ret | apply lgood_raise].
Qed.

Lemma lgood_call_soon (e : entry) : good (call_soon e).
Proof. apply lgood_loop_only, loop_only_call_soon. Qed.

Lemma lgood_fresh_Cancelled (msg : option string) : good (fresh_Cancelled msg).
Proof. apply lgood_same_objs. by intros w x w' [= _ <-]. Qed.

Lemma lgood_group_of (g : nat) : good (group_of g).
Proof.
  apply lgood_same_objs. intros w x w'. unfold group_of.
  by destruct (groups w !! g); intros [= _ <-].
Qed.

Lemma lgood_set_groups (f : gmap nat TaskGroup -> gmap nat TaskGroup) :
  good (modify (set_groups f)).
Proof. apply lgood_same_objs. by intros w x w' [= _ <-]. Qed.

Lemma lgood_for_each {A} (f : A -> M world unit) (l : list A) :
  (forall a, good (f a)) -> good (for_each f l).
Proof.
  intros Hf. induction l as [|a r IH]; simpl; [apply lgood_ret|].
  apply lgood_bind; [apply Hf | intros; apply IH].
Qed.

Lemma lgood_Future__schedule_cb (id : nat) (cb : callback) :
  good (Future__schedule_cb id cb).
Proof. apply lgood_loop_only, loop_only_Future__schedule_cb. Qed.

Lemma lgood_Future__call_cbs (id : nat) : good (Future__call_cbs id).
Proof. apply lgood_loop_only, loop_only_Future__call_cbs. Qed.

(** Rewriting one object lets the store evolve when the new object keeps
    the class, keeps the result if there was one, and keeps a finished
    state tag. *)
Lemma legacy_insert_evolves (w : world) (id : nat) (o o' : fobj) :
  WF w -> objs w !! id = Some o ->
  (task_of o' = None <-> task_of o = None) ->
  (finished_obj o = true -> _value o' = _value o /\ _exc o' = _exc o) ->
  (settled o -> _state o' = finished) ->
  WF (set_objs <[id := o']> w) /\ evolves w (set_objs <[id := o']> w).
Proof.
  intros Hwf Hobj Hk Hv Hs. split.
  - intros i Hi. simpl in *. destruct (decide (i = id)) as [->|Hne].
    + by rewrite (Hwf id Hi) in Hobj.
    + rewrite lookup_insert_ne by done. by apply Hwf.
  - split; [done|]. intros i oi Hi. simpl.
    destruct (decide (i = id)) as [->|Hne].
    + rewrite lookup_insert_eq. exists o'. assert (oi = o) by congruence. subst oi.
      by repeat (split; [done|]).
    + rewrite lookup_insert_ne by done. exists oi. same_obj.
Qed.

Lemma lgood_update_quiet (id : nat) (f : fobj -> fobj) :
  quiet f -> (forall o, task_of (f o) = None <-> task_of o = None) ->
  good (update id f).
Proof.
  intros Hq Hk w x w' Hwf Hu. destruct (objs w !! id) as [o|] eqn:Hobj.
  - rewrite (update_eq _ _ _ _ Hobj) in Hu. injection Hu as _ <-.
    destruct (Hq o) as (Hv & He & Hs).
    apply (legacy_insert_evolves w id o); [done | done | apply Hk | by rewrite Hv, He |].
    intros [_ Hst]. by rewrite Hs.
  - unfold update, modify, set_objs in Hu. rewrite Hobj in Hu.
    injection Hu as _ <-. split; [by destruct w|].
    apply legacy_same_objs_evolves; by destruct w.
Qed.

Lemma task_of_set_task (g : task_fields -> task_fields) (o : fobj) :
  task_of (set_task g o) = None <-> task_of o = None.
Proof. unfold set_task. simpl. by destruct (task_of o). Qed.

Lemma lgood_add_callback (id : nat) (cb : callback) : good (add_callback id cb).
Proof.
  apply lgood_bind; [apply lgood_deref|]. intros o.
  destruct (set_has _ _); [apply lgood_ret|].
  apply lgood_bind; [apply lgood_is_finished|]. intros fin.
  destruct fin; [apply lgood_Future__schedule_cb|].
  by apply lgood_update_quiet; [apply quiet_set__result_callbacks|].
Qed.

Lemma lgood_remove_callback (id : nat) (cb : callback) : good (remove_callback id cb).
Proof.
  apply lgood_bind; [apply lgood_deref|]. intros o.
  destruct (set_has _ _); [|apply lgood_raise].
  by apply lgood_update_quiet; [apply quiet_set__result_callbacks|].
Qed.

Lemma lgood_Future__set_result (id : nat) (v : option val) (e : option exn) :
  good (Future__set_result id v e).
Proof.
  intros w x w' Hwf. unfold Future__set_result. unfold bind at 1.
  destruct (is_finished id w) as [[[]|err] w0] eqn:E.
  - intros [= _ <-]. by apply (lgood_is_finished id w _ w0 Hwf E).
  - destruct (is_finished_false _ _ _ E) as [-> (o & Hobj & Hf)].
    unfold bind at 1. rewrite (update_eq _ _ _ _ Hobj). unfold bind at 1.
    erewrite update_eq; [|apply lookup_set_objs_insert].
    rewrite set_objs_insert_insert.
    destruct (legacy_insert_evolves w id o
                (set__value_exc v e (set__state finished o)) Hwf Hobj)
      as [Hwf1 He1]; [done | by rewrite Hf | by intros [Hfo _]; rewrite Hf in Hfo |].
    intros Hc. destruct (lgood_Future__call_cbs id _ _ _ Hwf1 Hc) as [Hwf2 He2].
    split; [done|]. by apply (legacy_evolves_trans _ _ _ He1).
  - intros [= _ <-]. by apply (lgood_is_finished id w _ w0 Hwf E).
Qed.

Lemma lgood_Task__set_result (id : nat) (v : option val) (e : option exn) :
  good (Task__set_result id v e).
Proof.
  apply lgood_bind; [apply lgood_Future__set_result|]. intros _.
  apply lgood_bind; [apply lgood_deref|]. intros o.
  destruct (task_of o) as [t|]; [|apply lgood_raise].
  apply lgood_bind; [apply lgood_is_finished|]. intros fin.
  destruct (negb fin); [apply lgood_Future__set_result | apply lgood_ret].
Qed.

Lemma lgood__set_result (id : nat) (v : option val) (e : option exn) :
  good (_set_result id v e).
Proof.
  apply lgood_bind; [apply lgood_deref|]. intros o.
  destruct (task_of o); [apply lgood_Task__set_result | apply lgood_Future__set_result].
Qed.

Lemma lgood_Future__cancel (id : nat) (msg : option string) :
  good (Future__cancel id msg).
Proof.
  apply lgood_bind; [apply lgood_fresh_Cancelled|]. intros e. apply lgood__set_result.
Qed.

Lemma lgood_Task__cancel (cancel_ : nat -> option string -> M world unit)
    (id : nat) (msg : option string) :
  (forall f, good (cancel_ f msg)) -> good (Task__cancel cancel_ id msg).
Proof.
  intros Hcn w x w' Hwf. unfold Task__cancel. unfold bind at 1.
  destruct (is_finished id w) as [[[]|err] w0] eqn:E.
  - intros [= _ <-]. by apply (lgood_is_finished id w _ w0 Hwf E).
  - destruct (is_finished_false _ _ _ E) as [-> (o & Hobj & Hf)].
    unfold bind at 1. rewrite (update_eq _ _ _ _ Hobj).
    destruct (legacy_insert_evolves w id o (set__state finishing o) Hwf Hobj)
      as [Hwf1 He1]; [done | done | by intros [Hfo _]; rewrite Hf in Hfo |].
    assert (Hrest : good (o0 <- deref id ;;
                    match task_of o0 with
                    | Some t => match _waiting_on t with
                                | Some f => cancel_ f msg
                                | None => Future__cancel id msg
                                end
                    | None => raise (AttributeError "_waiting_on")
                    end)).
    { apply lgood_bind; [apply lgood_deref|]. intros o0.
      destruct (task_of o0) as [t|]; [|apply lgood_raise].
      destruct (_waiting_on t); [apply Hcn | apply lgood_Future__cancel]. }
    intros Hc. destruct (Hrest _ _ _ Hwf1 Hc) as [Hwf2 He2].
    split; [done|]. by apply (legacy_evolves_trans _ _ _ He1).
  - intros [= _ <-]. by apply (lgood_is_finished id w _ w0 Hwf E).
Qed.

Lemma lgood__cancel (depth id : nat) (msg : option string) :
  good (_cancel depth id msg).
Proof.
  revert id. induction depth as [|d IH]; intros id; [apply lgood_raise|].
  rewrite legacy__cancel_S.
  apply lgood_bind; [apply lgood_deref|]. intros o.
  destruct (task_of o); [|apply lgood_Future__cancel].
  apply lgood_Task__cancel. intros f. apply IH.
Qed.

Lemma lgood_attempt (fut : nat) (c : completion) : good (attempt fut c).
Proof.
  destruct c as [v|e|msg]; simpl.
  - apply lgood__set_result.
  - unfold Promise_set_exception. destruct (is_Cancelled e);
      [apply lgood_raise | apply lgood__set_result].
  - apply lgood__cancel.
Qed.

Lemma lgood_alloc (o : fobj) : good (alloc o).
Proof.
  intros w x w' Hwf [= _ <-]. split.
  - intros i Hi. simpl in *. rewrite lookup_insert_ne by lia. apply Hwf. lia.
  - split; [simpl; lia|]. intros i oi Hi. simpl. exists oi.
    rewrite lookup_insert_ne; [same_obj|].
    intros <-. rewrite Hwf in Hi; [done | lia].
Qed.

Lemma lgood__create_promise : good _create_promise.
Proof. apply lgood_alloc. Qed.

Lemma lgood_Task_init (c : coroutine) : good (Task_init c).
Proof.
  apply lgood_bind; [apply lgood_alloc|]. intros id.
  apply lgood_bind; [apply lgood__create_promise|]. intros p.
  apply lgood_bind; [|intros; apply lgood_ret].
  apply lgood_update_quiet; [apply quiet_set_task | apply task_of_set_task].
Qed.

Lemma lgood_advance (id : nat) (from to : State) :
  from <> finished ->
  good (o <- deref id ;;
        if State_eqb (_state o) from then update id (set__state to) else ret tt).
Proof.
  intros Hfrom w x w' Hwf. unfold bind, deref.
  destruct (objs w !! id) as [o|] eqn:Hobj.
  2:{ intros [= _ <-]. split; [done | apply legacy_evolves_refl]. }
  destruct (State_eqb (_state o) from) eqn:Hs.
  2:{ intros [= _ <-]. split; [done | apply legacy_evolves_refl]. }
  rewrite (update_eq _ _ _ _ Hobj). intros [= _ <-].
  apply (legacy_insert_evolves w id o); [done | done | done | done |].
  intros [_ Hst]. rewrite Hst in Hs. destruct from; try discriminate Hs. done.
Qed.

Lemma lgood_Task__schedule_execution (id : nat) : good (Task__schedule_execution id).
Proof.
  apply lgood_bind; [apply lgood_call_soon|]. intros _.
  by apply (lgood_advance id created scheduled).
Qed.

Lemma lgood__create_task (c : coroutine) : good (_create_task c).
Proof.
  apply lgood_bind; [apply lgood_Task_init|]. intros id.
  apply lgood_bind; [apply lgood_Task__schedule_execution | intros; apply lgood_ret].
Qed.

Lemma lgood_future_done_cb (future shield_promise : nat) :
  good (future_done_cb future shield_promise).
Proof.
  apply lgood_bind; [apply lgood_is_finished|]. intros fin.
  destruct (negb fin); [apply lgood_raise|].
  apply lgood_bind; [apply lgood_exception|]. intros [e|].
  - apply (lgood_attempt shield_promise (SetException e)).
  - apply lgood_bind; [apply lgood_result|]. intros v.
    apply (lgood_attempt shield_promise (SetResult v)).
Qed.

Lemma lgood_shield (future : nat) : good (shield future).
Proof.
  apply lgood_bind; [apply lgood__create_promise|]. intros p.
  apply lgood_bind; [apply lgood_add_callback | intros; apply lgood_ret].
Qed.

Lemma lgood_new_group : good new_group.
Proof.
  apply lgood_same_objs. intros w x w' [= _ <-]. split; [done | simpl; lia].
Qed.

Lemma lgood_TaskGroup__check_not_finalized (g : nat) :
  good (TaskGroup__check_not_finalized g).
Proof.
  apply lgood_bind; [apply lgood_group_of|]. intros tg.
  destruct (_is_finalized tg); [apply lgood_raise | apply lgood_ret].
Qed.

Lemma lgood_TaskGroup_spawn (g : nat) (c : coroutine) : good (TaskGroup_spawn g c).
Proof.
  apply lgood_bind; [apply lgood_TaskGroup__check_not_finalized|]. intros _.
  apply lgood_bind; [apply lgood__create_task|]. intros task.
  apply lgood_bind; [apply lgood_group_of|]. intros tg.
  apply lgood_bind; [apply lgood_set_groups | intros; apply lgood_ret].
Qed.

Lemma lgood_TaskGroup_cancel (g : nat) (msg : option string) :
  good (TaskGroup_cancel g msg).
Proof.
  apply lgood_bind; [apply lgood_group_of|]. intros tg.
  apply lgood_for_each. intros t. apply lgood__cancel.
Qed.

Lemma lgood_started_future (task : nat) : good (started_future task).
Proof.
  apply lgood_bind; [apply lgood_deref|]. intros o.
  destruct (task_of o); [apply lgood_ret | apply lgood_raise].
Qed.

Lemma lgood_do_action (a : action) : good (do_action a).
Proof.
  assert (L : forall A (f : A -> val) (m : M world A), good m ->
            good (fun w => let (r, w') := m w in (to_outcome f r, w'))).
  { intros A f m Hm w x w' Hwf. destruct (m w) as [r w1] eqn:E.
    intros [= _ <-]. by apply (Hm w r w1). }
  destruct a as [fut v|fut e|fut msg|task msg|fut cb|fut cb| |fut|task|g|g msg].
  - apply (L _ (fun _ : unit => VNone) (Promise_set_result fut v)).
    apply (lgood_attempt _ (SetResult _)).
  - apply (L _ (fun _ : unit => VNone) (Promise_set_exception fut e)).
    apply (lgood_attempt _ (SetException _)).
  - apply (L _ (fun _ : unit => VNone) (Promise_cancel fut msg)).
    apply (lgood_attempt _ (Cancel _)).
  - apply (L _ (fun _ : unit => VNone) (_cancel recursion_limit task msg)).
    apply lgood__cancel.
  - apply (L _ (fun _ : unit => VNone) (add_callback fut cb)).
    apply lgood_add_callback.
  - apply (L _ (fun _ : unit => VNone) (remove_callback fut cb)).
    apply lgood_remove_callback.
  - apply (L _ VRef _create_promise). apply lgood__create_promise.
  - apply (L _ VRef (shield fut)). apply lgood_shield.
  - apply (L _ VRef (started_future task)). apply lgood_started_future.
  - apply (L _ (fun _ : unit => VNone) (TaskGroup__check_not_finalized g)).
    apply lgood_TaskGroup__check_not_finalized.
  - apply (L _ (fun _ : unit => VNone) (TaskGroup_cancel g msg)).
    apply lgood_TaskGroup_cancel.
Qed.

Lemma lgood_await_resume (fut : nat) : good (await_resume fut).
Proof.
  apply lgood_bind; [apply lgood_is_finished|]. intros fin.
  destruct (negb fin); [apply lgood_raise|].
  apply lgood_bind; [apply lgood_deref|]. intros o.
  destruct (_exc o); [apply lgood_raise|].
  destruct (_value o); [apply lgood_ret | apply lgood_raise].
Qed.

(** Whatever a body does up to its next suspension, finished futures
    keep their results. *)
Lemma lgood_run_coro (c : coro) : good (run_coro c).
Proof.
  induction c as [v|e|fut k IH|a k IH|g c' _ k IH]; intros w x w' Hwf; simpl.
  - intros [= _ <-]. split; [done | apply legacy_evolves_refl].
  - intros [= _ <-]. split; [done | apply legacy_evolves_refl].
  - destruct (is_finished fut w) as [[[]|err] w0] eqn:E.
    + destruct (await_resume fut w) as [r w1] eqn:E1. intros Hk.
      destruct (lgood_await_resume fut w r w1 Hwf E1) as [Hwf1 He1].
      destruct (IH _ _ _ _ Hwf1 Hk) as [Hwf2 He2].
      split; [done|]. by apply (legacy_evolves_trans _ _ _ He1).
    + intros [= _ <-]. split; [done | apply legacy_evolves_refl].
    + by apply IH.
  - destruct (do_action a w) as [o w1] eqn:E. intros Hk.
    destruct (lgood_do_action a w o w1 Hwf E) as [Hwf1 He1].
    destruct (IH _ _ _ _ Hwf1 Hk) as [Hwf2 He2].
    split; [done|]. by apply (legacy_evolves_trans _ _ _ He1).
  - destruct (TaskGroup_spawn g (FCreated c') w) as [r w1] eqn:E. intros Hk.
    destruct (lgood_TaskGroup_spawn g (FCreated c') w r w1 Hwf E) as [Hwf1 He1].
    destruct (IH _ _ _ _ Hwf1 Hk) as [Hwf2 He2].
    split; [done|]. by apply (legacy_evolves_trans _ _ _ He1).
Qed.

Lemma lgood_modify_set_coroutine (id : nat) (c : coroutine) :
  good (modify (set_coroutine id c)).
Proof.
  intros w x w' Hwf [= _ <-]. unfold set_coroutine.
  destruct (update id (set_task (fun t => mkTask c (_waiting_on t) (_started_promise t))) w)
    as [r w1] eqn:E.
  simpl. refine (lgood_update_quiet id _ _ _ w r w1 Hwf E);
    [apply quiet_set_task | apply task_of_set_task].
Qed.

Lemma lgood_continue_with (id : nat) (c : coro) : good (continue_with id c).
Proof.
  intros w x w' Hwf. unfold continue_with.
  destruct (run_coro c w) as [[r c'] w1] eqn:E. intros [= _ <-].
  destruct (lgood_run_coro c w _ w1 Hwf E) as [Hwf1 He1].
  destruct (lgood_modify_set_coroutine id c' w1 (Ok tt) _ Hwf1 eq_refl) as [Hwf2 He2].
  split; [done|]. by apply (legacy_evolves_trans _ _ _ He1).
Qed.

Lemma lgood_await_outcome (fut : nat) : good (await_outcome fut).
Proof.
  intros w x w' Hwf. unfold await_outcome.
  destruct (await_resume fut w) as [r w1] eqn:E. intros [= _ <-].
  by apply (lgood_await_resume fut w r w1).
Qed.

Lemma lgood_send (id : nat) (c : coroutine) : good (send id c).
Proof.
  destruct c as [body| |fut k|]; simpl.
  - apply lgood_bind; [apply lgood_modify_set_coroutine|]. intros _.
    apply lgood_continue_with.
  - apply lgood_ret.
  - apply lgood_bind; [apply lgood_modify_set_coroutine|]. intros _.
    apply lgood_bind; [apply lgood_await_outcome|]. intros o.
    apply lgood_continue_with.
  - apply lgood_ret.
Qed.

Lemma lgood_Task__execute_coroutine_step (id : nat) :
  good (Task__execute_coroutine_step id).
Proof.
  apply lgood_bind; [apply lgood_deref|]. intros o.
  destruct (task_of o) as [t|]; [|apply lgood_raise].
  apply lgood_bind; [apply lgood_send|]. intros [future|v|e].
  - assert (Hrest : forall o1 : fobj, good
        (if Nat.eqb future id
         then raise (RuntimeError "Task awaiting on itself")
         else
           match option_bind _ _ _waiting_on (task_of o1) with
           | Some f => remove_callback f (CbScheduleExecution id)
           | None => ret tt
           end ;;;
           add_callback future (CbScheduleExecution id) ;;;
           update id (set_task (fun t' =>
             mkTask (_coroutine t') (Some future) (_started_promise t'))))).
    { intros o1. destruct (Nat.eqb future id); [apply lgood_raise|].
      apply lgood_bind.
      { destruct (option_bind _ _ _waiting_on (task_of o1));
          [apply lgood_remove_callback | apply lgood_ret]. }
      intros _. apply lgood_bind; [apply lgood_add_callback|]. intros _.
      apply lgood_update_quiet; [apply quiet_set_task | apply task_of_set_task]. }
    intros w x w' Hwf. unfold bind at 1, deref.
    destruct (objs w !! id) as [o1|] eqn:Hobj.
    2:{ intros [= _ <-]. split; [done | apply legacy_evolves_refl]. }
    destruct (State_eqb (_state o1) scheduled) eqn:Hs.
    + unfold bind at 1. unfold bind at 1. rewrite (update_eq _ _ _ _ Hobj).
      destruct (legacy_insert_evolves w id o1 (set__state running o1) Hwf Hobj)
        as [Hwf1 He1]; [done | done | |].
      { intros [_ Hst]. rewrite Hst in Hs. discriminate Hs. }
      destruct (Promise_set_result (_started_promise t) VNone
                  (set_objs <[id := set__state running o1]> w)) as [[[]|err] w2] eqn:EP.
      * destruct (lgood_attempt _ (SetResult VNone) _ _ _ Hwf1 EP) as [Hwf2 He2].
        intros Hr. destruct (Hrest o1 _ _ _ Hwf2 Hr) as [Hwf3 He3].
        split; [done|].
        apply (legacy_evolves_trans _ _ _ He1), (legacy_evolves_trans _ _ _ He2), He3.
      * intros [= _ <-].
        destruct (lgood_attempt _ (SetResult VNone) _ _ _ Hwf1 EP) as [Hwf2 He2].
        split; [done|]. by apply (legacy_evolves_trans _ _ _ He1).
    + unfold bind at 1. unfold ret at 1. by apply (Hrest o1).
  - apply lgood_Task__set_result.
  - apply lgood_Task__set_result.
Qed.

Lemma lgood_run_entry (e : entry) : good (run_entry e).
Proof.
  destruct e as [[n|task|future sp] fut|task]; simpl.
  - apply lgood_same_objs. by intros w x w' [= _ <-].
  - apply lgood_Task__schedule_execution.
  - apply lgood_future_done_cb.
  - apply lgood_Task__execute_coroutine_step.
Qed.

Lemma legacy_run_once_evolves (w w' : world) :
  WF w -> run_once w = Some w' -> WF w' /\ evolves w w'.
Proof.
  intros Hwf. unfold run_once. destruct (Loop.pop (loop w)) as [[e l]|]; [|done].
  assert (Hwf0 : WF (set_loop (fun _ => l) w)) by exact Hwf.
  destruct (run_entry e (set_loop (fun _ => l) w)) as [[[]|x] w1] eqn:E.
  - intros [= <-]. apply (lgood_run_entry e _ _ _ Hwf0 E).
  - intros [= <-]. apply (lgood_run_entry e _ _ _ Hwf0 E).
Qed.

(** However long the loop runs, finished futures keep their results. *)
Lemma legacy_drain_evolves (n : nat) (w : world) :
  WF w -> WF (drain n w) /\ evolves w (drain n w).
Proof.
  revert w. induction n as [|n IH]; intros w Hwf; simpl.
  - split; [done | apply legacy_evolves_refl].
  - destruct (run_once w) as [w1|] eqn:E.
    + destruct (legacy_run_once_evolves w w1 Hwf E) as [Hwf1 He1].
      destruct (IH w1 Hwf1) as [Hwf2 He2]. split; [done|].
      by apply (legacy_evolves_trans _ _ _ He1).
    + split; [done | apply legacy_evolves_refl].
Qed.

Lemma legacy_WF_empty : WF empty_world.
Proof. by intros id _. Qed.

Lemma lgood_WF_snd {X} (f : world -> X * world) (w : world) :
  good f -> WF w -> WF (snd (f w)).
Proof. intros Hf Hwf. destruct (f w) as [x w'] eqn:E. by apply (Hf w x w'). Qed.

Lemma legacy_WF_w_done_cb : WF LegacyExamples.w_done_cb.
Proof.
  apply lgood_WF_snd; [|apply legacy_WF_empty].
  apply lgood_bind; [apply lgood__create_promise|]. intros p.
  apply lgood_bind; [apply lgood_add_callback|]. intros _.
  apply (lgood_attempt p (SetResult (VInt 1))).
Qed.

Lemma legacy_run_op_evolves (o : op) (w : world) :
  WF w -> WF (run_op o w) /\ evolves w (run_op o w).
Proof.
  intros Hwf.
  assert (L : forall A (m : M world A), good m ->
            WF (snd (m w)) /\ evolves w (snd (m w))).
  { intros A m Hm. destruct (m w) as [r w1] eqn:E. by apply (Hm w r w1). }
  destruct o as [|c|fut c|fut cb|fut cb|fut| |g c|g msg|].
  - apply (L _ _create_promise), lgood__create_promise.
  - apply (L _ (_create_task (FCreated c))), lgood__create_task.
  - apply (L _ (attempt fut c)), lgood_attempt.
  - apply (L _ (add_callback fut cb)), lgood_add_callback.
  - apply (L _ (remove_callback fut cb)), lgood_remove_callback.
  - apply (L _ (shield fut)), lgood_shield.
  - apply (L _ new_group), lgood_new_group.
  - apply (L _ (TaskGroup_spawn g (FCreated c))), lgood_TaskGroup_spawn.
  - apply (L _ (TaskGroup_cancel g msg)), lgood_TaskGroup_cancel.
  - by apply (legacy_drain_evolves 1).
Qed.

Lemma legacy_run_ops_evolves (ops : list op) (w : world) :
  WF w -> WF (run_ops ops w) /\ evolves w (run_ops ops w).
Proof.
  revert w. induction ops as [|o r IH]; intros w Hwf.
  - split; [done | apply legacy_evolves_refl].
  - destruct (legacy_run_op_evolves o w Hwf) as [Hwf1 He1].
    destruct (IH _ Hwf1) as [Hwf2 He2]. split; [exact Hwf2|].
    exact (legacy_evolves_trans _ _ _ He1 He2).
Qed.

(** ** Cancelling a task that waits on a chain of tasks *)

Lemma calm_refl (w : world) : calm w w.
Proof. intros id o H. exists o. by repeat split. Qed.







Lemma legacy_waiting_top (w : world) (top : list callback) (l : list waiter) :
  forall (x : nat) (a : waiter),
    waiting w x (a :: l) top ->
    exists o tf, objs w !! w_task (List.last l a) = Some o /\
      finished_obj o = false /\ task_of o = Some tf.
Proof.
  induction l as [|b l IH]; intros x a [Ha Hrest].
  - destruct Ha as (o & so & Ho & (Hf & _ & Ht) & _). by eexists o, _.
  - rewrite PureFacts.last_cons_default. by apply (IH (w_task a)).
Qed.















(** Cancelling the last task of a chain that hangs on an unfinished
    plain future. *)
Section LegacyCancelChain.
Variables (w : world) (f : nat) (of_ : fobj) (a : waiter) (l : list waiter).
Variables (top : list callback) (msg : option string).

Let C : exn := Cancelled (next_exc w) msg.

Hypothesis Hwf : WF w.
Hypothesis Hidle : Loop.ready (loop w) = [].
Hypothesis Hf : objs w !! f = Some of_.
Hypothesis Hplain : task_of of_ = None.
Hypothesis Hpend : finished_obj of_ = false.
Hypothesis Hsubs : _result_callbacks of_ = subscribers a.
Hypothesis Hchain : waiting w f (a :: l) top.
Hypothesis Hk : Forall (fun b => w_body b (Raised C) = CRaise C) (a :: l).
Hypothesis Hdepth : S (length l) < recursion_limit.



End LegacyCancelChain.


(** ** The caller of [wait_started] is woken *)

(** The child ends in its first step: three loop turns later the
    parent's next step is queued. *)
Lemma wait_started_child_ends (w : world) (h0 id s p : nat)
    (o so os op_ : fobj) (tf : task_fields) (out : outcome) :
  Loop.ready (loop w) = [(h0, EStep id)] ->
  objs w !! id = Some o -> task_of o = Some tf -> finished_obj o = false ->
  _result_callbacks o = [] ->
  _coroutine tf = FCreated (LegacyExamples.forward out) ->
  objs w !! _started_promise tf = Some so -> task_of so = None ->
  finished_obj so = false ->
  _result_callbacks so = [CbFutureDone (_started_promise tf) s] ->
  objs w !! s = Some os -> task_of os = None -> finished_obj os = false ->
  _result_callbacks os = [CbScheduleExecution p] ->
  s <> _started_promise tf ->
  objs w !! p = Some op_ -> p <> id -> p <> s ->
  objs (drain 3 w) !! id
    = Some (mkObj (match out with Returned v => Some v | Raised _ => None end)
              (match out with Returned _ => None | Raised e => Some e end)
              finished []
              (Some (mkTask FClosed (_waiting_on tf) (_started_promise tf)))) /\
  objs (drain 3 w) !! s
    = Some (mkObj (Some VNone) None finished [CbScheduleExecution p] None) /\
  Loop.ready (loop (drain 3 w)) = [(Loop.next_handle (loop w) + 2, EStep p)] /\
  loop_errors (drain 3 w) = loop_errors w.
Proof.
  intros Hready Hobj Ht Hp Hcbs Hc Hso Hplain Hsp Hscb Hs Hsplain Hspend Hoscb
    Hne_s Hpar Hne_p Hne_ps.
  assert (Hne : _started_promise tf <> id).
  { intros Heq. rewrite Heq in Hso. congruence. }
  assert (Hne_sid : s <> id).
  { intros Heq. rewrite Heq in Hs. congruence. }
  destruct (turn_child_ends w h0 id o so tf out)
    as (w1 & H1 & Ho1 & Hr1 & Hn1 & He1); try done.
  rewrite Hscb in Ho1, Hr1, Hn1. simpl in Hr1, Hn1.
  destruct (turn_future_done w1 (Loop.next_handle (loop w))
              (_started_promise tf) (_started_promise tf) s
              (mkObj (Some VNone) None finished
                 [CbFutureDone (_started_promise tf) s] None) os VNone)
    as (w2 & H2 & Ho2 & Hr2 & Hn2 & He2); try done.
  { rewrite Ho1. apply lookup_insert_eq. }
  { rewrite Ho1. rewrite !lookup_insert_ne by done. done. }
  rewrite Hoscb in Ho2, Hr2, Hn2. simpl in Hr2, Hn2.
  assert (Hp2 : exists op2, objs w2 !! p = Some op2).
  { rewrite Ho2, Ho1. rewrite lookup_insert_ne by done.
    destruct (decide (p = _started_promise tf)) as [->|Hn].
    - rewrite lookup_insert_eq. eauto.
    - rewrite !lookup_insert_ne by done. eauto. }
  destruct Hp2 as [op2 Hp2].
  destruct (turn_schedule_execution w2 (Loop.next_handle (loop w) + 1) p s op2)
    as (w3 & H3 & Hr3 & Ho3 & He3); [by rewrite Hr2, Hn1 | done |].
  assert (Hd : drain 3 w = w3).
  { cbn [drain]. by rewrite H1, H2, H3. }
  rewrite Hd. split; [|split; [|split]].
  - rewrite Ho3, Ho2, Ho1 by done. rewrite !lookup_insert_ne by done.
    apply lookup_insert_eq.
  - rewrite Ho3, Ho2 by done. apply lookup_insert_eq.
  - rewrite Hr3, Hn2, Hn1. f_equal. f_equal. lia.
  - congruence.
Qed.

(** [_cancel] on an unfinished task that waits on nothing, with a
    pending started promise: the task ends in a [Cancelled] instance made
    on the spot, the started promise is completed, and the callbacks of
    both are handed to the loop. *)
Lemma cancel_unstarted_task (w : world) (id : nat) (o so : fobj) (tf : task_fields)
    (msg : option string) :
  objs w !! id = Some o -> task_of o = Some tf -> _waiting_on tf = None ->
  finished_obj o = false ->
  objs w !! _started_promise tf = Some so -> task_of so = None ->
  finished_obj so = false ->
  exists w1, _cancel recursion_limit id msg w = (Ok tt, w1) /\
    objs w1 =
      <[_started_promise tf := mkObj (Some VNone) None finished (_result_callbacks so) None]>
        (<[id := mkObj None (Some (Cancelled (next_exc w) msg)) finished
                   (_result_callbacks o) (Some tf)]> (objs w)) /\
    Loop.ready (loop w1) =
      (Loop.ready (loop w)
         ++ entries_from (Loop.next_handle (loop w)) id (_result_callbacks o))
        ++ entries_from (Loop.next_handle (loop w) + length (_result_callbacks o))
             (_started_promise tf) (_result_callbacks so) /\
    Loop.next_handle (loop w1) =
      Loop.next_handle (loop w) + length (_result_callbacks o)
        + length (_result_callbacks so) /\
    loop_errors w1 = loop_errors w.
Proof.
  intros Hobj Ht Hw Hp Hso Hplain Hsp.
  assert (Hne : _started_promise tf <> id).
  { intros Heq. rewrite Heq in Hso. congruence. }
  change recursion_limit with (S 999). rewrite legacy__cancel_S.
  unfold bind at 1. rewrite (deref_eq _ _ _ Hobj), Ht.
  unfold Task__cancel. unfold bind at 1.
  rewrite (is_finished_pending _ _ _ Hobj Hp). cbv iota beta.
  unfold bind at 1. rewrite (update_eq _ _ _ _ Hobj).
  unfold bind at 1. erewrite deref_eq; [|apply lookup_set_objs_insert].
  cbn [set__state task_of]. rewrite Ht, Hw.
  unfold Future__cancel. unfold bind at 1. unfold fresh_Cancelled.
  unfold _set_result. unfold bind at 1.
  erewrite deref_eq; [|simpl; apply lookup_insert_eq].
  unfold set__state at 1. cbn [task_of]. rewrite Ht.
  erewrite (Task__set_result_pending _ id (set__state finishing o) so tf);
    [| simpl; apply lookup_insert_eq | exact Ht | exact Hp
     | simpl; rewrite lookup_insert_ne by done; exact Hso
     | exact Hplain | exact Hsp | right; discriminate ].
  eexists. split; [reflexivity|]. simpl.
  rewrite insert_insert_eq, !legacy_length_entries_from. by repeat split.
Qed.

(** The child is cancelled before its first step: the first step still
    runs and fails, and three loop turns later the parent's next step is
    queued. *)
Lemma wait_started_child_cancelled (w : world) (h0 id s p : nat)
    (o so os op_ : fobj) (tf : task_fields) (out : outcome) (msg : option string) :
  Loop.ready (loop w) = [(h0, EStep id)] ->
  objs w !! id = Some o -> task_of o = Some tf -> finished_obj o = false ->
  _result_callbacks o = [] -> _waiting_on tf = None ->
  _coroutine tf = FCreated (LegacyExamples.forward out) ->
  objs w !! _started_promise tf = Some so -> task_of so = None ->
  finished_obj so = false ->
  _result_callbacks so = [CbFutureDone (_started_promise tf) s] ->
  objs w !! s = Some os -> task_of os = None -> finished_obj os = false ->
  _result_callbacks os = [CbScheduleExecution p] ->
  s <> _started_promise tf ->
  objs w !! p = Some op_ -> p <> id -> p <> s ->
  exists w1, _cancel recursion_limit id msg w = (Ok tt, w1) /\
    objs w1 !! id
      = Some (mkObj None (Some (Cancelled (next_exc w) msg)) finished [] (Some tf)) /\
    objs w1 !! _started_promise tf
      = Some (mkObj (Some VNone) None finished
                [CbFutureDone (_started_promise tf) s] None) /\
    objs (drain 3 w1) !! id
      = Some (mkObj None (Some (Cancelled (next_exc w) msg)) finished []
                (Some (mkTask FClosed None (_started_promise tf)))) /\
    objs (drain 3 w1) !! s
      = Some (mkObj (Some VNone) None finished [CbScheduleExecution p] None) /\
    Loop.ready (loop (drain 3 w1)) = [(Loop.next_handle (loop w) + 2, EStep p)] /\
    loop_errors (drain 3 w1) = loop_errors w ++ [FutureFinishedError None].
Proof.
  intros Hready Hobj Ht Hp Hcbs Hw Hc Hso Hplain Hsp Hscb Hs Hsplain Hspend Hoscb
    Hne_s Hpar Hne_p Hne_ps.
  assert (Hne : _started_promise tf <> id).
  { intros Heq. rewrite Heq in Hso. congruence. }
  assert (Hne_sid : s <> id).
  { intros Heq. rewrite Heq in Hs. congruence. }
  destruct (cancel_unstarted_task w id o so tf msg Hobj Ht Hw Hp Hso Hplain Hsp)
    as (w1 & Hcall & Ho1 & Hr1 & Hn1 & He1).
  rewrite Hcbs, Hscb in Ho1, Hr1, Hn1. rewrite Hready in Hr1. simpl in Hr1, Hn1.
  rewrite Nat.add_0_r in Hr1, Hn1.
  exists w1. split; [exact Hcall|].
  assert (Hid1 : objs w1 !! id
            = Some (mkObj None (Some (Cancelled (next_exc w) msg)) finished [] (Some tf))).
  { rewrite Ho1. rewrite lookup_insert_ne by done. apply lookup_insert_eq. }
  assert (Hsp1 : objs w1 !! _started_promise tf
            = Some (mkObj (Some VNone) None finished
                      [CbFutureDone (_started_promise tf) s] None)).
  { rewrite Ho1. apply lookup_insert_eq. }
  split; [exact Hid1|]. split; [exact Hsp1|].
  (* the first step of the cancelled child *)
  set (oc := mkObj None (Some (Cancelled (next_exc w) msg)) finished []
               (Some (mkTask FClosed None (_started_promise tf)))).
  assert (Hturn1 : exists wa, run_once w1 = Some wa /\
            objs wa = <[id := oc]> (objs w1) /\
            Loop.ready (loop wa)
              = [(Loop.next_handle (loop w),
                  ECallback (CbFutureDone (_started_promise tf) s) (_started_promise tf))] /\
            Loop.next_handle (loop wa) = Loop.next_handle (loop w) + 1 /\
            loop_errors wa = loop_errors w ++ [FutureFinishedError None]).
  { unfold run_once, Loop.pop. rewrite Hr1. cbn [run_entry].
    erewrite (step_body_ends _ id _ tf out); [| exact Hid1 | reflexivity | exact Hc].
    erewrite Task__set_result_finished; [| apply lookup_set_objs_insert | by split].
    eexists. split; [reflexivity|]. simpl. rewrite Hw, Hn1, He1. by repeat split. }
  destruct Hturn1 as (wa & Ha & Hoa & Hra & Hna & Hea).
  destruct (turn_future_done wa (Loop.next_handle (loop w))
              (_started_promise tf) (_started_promise tf) s
              (mkObj (Some VNone) None finished
                 [CbFutureDone (_started_promise tf) s] None) os VNone)
    as (w2 & H2 & Ho2 & Hr2 & Hn2 & He2); try done.
  { rewrite Hoa. rewrite lookup_insert_ne by done. exact Hsp1. }
  { rewrite Hoa, Ho1. rewrite !lookup_insert_ne by done. exact Hs. }
  rewrite Hoscb in Ho2, Hr2, Hn2. simpl in Hr2, Hn2.
  assert (Hp2 : exists op2, objs w2 !! p = Some op2).
  { rewrite Ho2, Hoa, Ho1. rewrite !(lookup_insert_ne _ s p) by done.
    rewrite !(lookup_insert_ne _ id p) by done.
    destruct (decide (p = _started_promise tf)) as [->|Hn].
    - rewrite lookup_insert_eq. eauto.
    - rewrite !lookup_insert_ne by done. eauto. }
  destruct Hp2 as [op2 Hp2].
  destruct (turn_schedule_execution w2 (Loop.next_handle (loop w) + 1) p s op2)
    as (w3 & H3 & Hr3 & Ho3 & He3); [by rewrite Hr2, Hna | done |].
  assert (Hd : drain 3 w1 = w3).
  { cbn [drain]. by rewrite Ha, H2, H3. }
  rewrite Hd. split; [|split; [|split]].
  - rewrite Ho3, Ho2, Hoa by done. rewrite lookup_insert_ne by done.
    apply lookup_insert_eq.
  - rewrite Ho3, Ho2 by done. apply lookup_insert_eq.
  - rewrite Hr3, Hn2, Hna. f_equal. f_equal. lia.
  - congruence.
Qed.
End LegacyFacts.

(** * The claims *)
Module Claims.

(** C8: a task whose coroutine is mid-resumption (its coroutine state is
    running) refuses [cancel] with SelfCancelForbidden, and the store, the
    task's state included, is left as it was: the cancel is not applied. *)
Theorem C8_self_cancel_forbidden (w : Pure.world) (id : nat) (o : Pure.fobj)
    (c : Pure.coroutine) (a : cancel_arg) :
  Pure.objs w !! id = Some o ->
  Pure.base_task_coroutine (Pure.ostate o) = Some c ->
  Pure.getcoroutinestate c = Pure.CORO_RUNNING ->
  Pure.Task_cancel id a w = (Err SelfCancelForbidden, w).
Proof. apply PureFacts.Task_cancel_running_coroutine. Qed.

Lemma C8_witness :
  Pure.Task_cancel 0 CNone PureExamples.w_mid_step
  = (Err SelfCancelForbidden, PureExamples.w_mid_step).
Proof.
  apply (C8_self_cancel_forbidden PureExamples.w_mid_step 0
           (Pure.mkObj Pure.KTask (Pure.ScheduledState [] Pure.FRunning 0))
           Pure.FRunning CNone); reflexivity.
Defined.

(** C3, on aio/future.py: [add_callback] on a finished future does not
    fail with FinishedError; the callback is handed to the loop. *)
Lemma C3_counterexample :
  fst (Legacy.add_callback 0 (Legacy.CbUser 7) LegacyExamples.w_done) = Ok tt /\
  Loop.ready (Legacy.loop
    (snd (Legacy.add_callback 0 (Legacy.CbUser 7) LegacyExamples.w_done)))
  = [(0, Legacy.ECallback (Legacy.CbUser 7) 0)].
Proof. split; reflexivity. Qed.

(** C3 (amended): on a terminal future of aio/future/pure.py,
    [add_callback] fails with FinishedError and leaves the whole store
    (callback bookkeeping, ready queue, record of calls) unchanged.  On a
    finished future of aio/future.py it returns normally and leaves the
    future unchanged: a callback already in the callback set is ignored,
    any other is handed to the loop with [call_soon]. *)
Theorem C3_add_callback_terminal :
  (forall (w : Pure.world) (id : nat) (o : Pure.fobj) (cb : Pure.callback),
     Pure.objs w !! id = Some o ->
     Pure.is_pending_state (Pure.ostate o) = false ->
     Pure.add_callback id cb w =
       (Err (FutureFinishedError
          (Some "Could not schedule callback for already finished future")), w)) /\
  (forall (w : Legacy.world) (id : nat) (o : Legacy.fobj) (cb : Legacy.callback),
     Legacy.objs w !! id = Some o ->
     Legacy.settled o ->
     Legacy.add_callback id cb w =
       (Ok tt,
        if Legacy.set_has cb (Legacy._result_callbacks o) then w
        else Legacy.set_loop
               (fun l => snd (Loop.call_soon (Legacy.ECallback cb id) l)) w)).
Proof.
  split.
  - intros w id o cb H1 H2. by apply (PureFacts.add_callback_terminal w id o).
  - intros w id o cb H1 H2. by apply LegacyFacts.add_callback_finished.
Qed.

Lemma C3_witness :
  Pure.add_callback 0 (Pure.CbUser 7) PureExamples.w_done =
    (Err (FutureFinishedError
       (Some "Could not schedule callback for already finished future")),
     PureExamples.w_done) /\
  Legacy.add_callback 0 (Legacy.CbUser 7) LegacyExamples.w_done_cb =
    (Ok tt, LegacyExamples.w_done_cb).
Proof.
  split.
  - apply (proj1 C3_add_callback_terminal PureExamples.w_done 0
             (Pure.mkObj Pure.KFuture (Pure.SuccessState (VInt 1) []))); reflexivity.
  - apply (proj2 C3_add_callback_terminal LegacyExamples.w_done_cb 0
             (Legacy.mkObj (Some (VInt 1)) None Legacy.finished [Legacy.CbUser 7] None)
             (Legacy.CbUser 7)); [reflexivity | split; reflexivity].
Defined.


(** C7, on aio/future.py: a future resumed while still pending raises
    FutureNotReady in the awaiter, which is not a Runtime error. *)
Lemma C7_counterexample :
  Legacy.await_outcome 0 LegacyExamples.w_pending =
    (Ok (Raised (FutureNotReady
       (Some "The future object resumed before result has been set"))),
     LegacyExamples.w_pending) /\
  forall m, FutureNotReady
    (Some "The future object resumed before result has been set") <> RuntimeError m.
Proof. split; [reflexivity | discriminate]. Qed.

(** C7 (amended): awaiting a pending future yields the future itself and
    suspends the body at that await; the resumed await never yields again.
    Resumed while the future is still pending, the awaiter receives a
    RuntimeError in aio/future/pure.py and a FutureNotReady in
    aio/future.py; resumed when it is terminal, the await returns the
    stored value or raises the stored exception. *)
Theorem C7_await :
  (forall (w : Pure.world) (fut : nat) (o : Pure.fobj),
     Pure.objs w !! fut = Some o ->
     (Pure.is_pending_state (Pure.ostate o) = true ->
      (forall k, Pure.run_coro (Pure.CAwait fut k) w
                 = ((Pure.Yielded fut, Pure.FSuspended fut k), w)) /\
      Pure.await_outcome fut w =
        (Ok (Raised (RuntimeError
           "Future being resumed after first yield, but still not finished!")), w)) /\
     (forall v sch, Pure.ostate o = Pure.SuccessState v sch ->
        Pure.await_outcome fut w = (Ok (Returned v), w)) /\
     (forall e r sch, Pure.ostate o = Pure.FailedState e r sch ->
        Pure.await_outcome fut w =
          (Ok (Raised e), Pure.set_state fut (Pure.FailedState e true sch) w))) /\
  (forall (w : Legacy.world) (fut : nat) (o : Legacy.fobj),
     Legacy.objs w !! fut = Some o ->
     (Legacy.finished_obj o = false ->
      (forall k, Legacy.run_coro (Legacy.CAwait fut k) w
                 = ((Legacy.Yielded fut, Legacy.FSuspended fut k), w)) /\
      Legacy.await_outcome fut w =
        (Ok (Raised (FutureNotReady
           (Some "The future object resumed before result has been set"))), w)) /\
     (Legacy.settled o ->
      (forall e, Legacy._exc o = Some e ->
         Legacy.await_outcome fut w = (Ok (Raised e), w)) /\
      (forall v, Legacy._exc o = None -> Legacy._value o = Some v ->
         Legacy.await_outcome fut w = (Ok (Returned v), w)))).
Proof.
  split.
  - intros w fut o Hobj. repeat split.
    + intros k. by apply (PureFacts.run_coro_await_pending w fut o).
    + by apply (PureFacts.await_outcome_pending w fut o).
    + intros v sch Hs. destruct o as [kd s]; simpl in Hs; subst s.
      by apply (PureFacts.await_outcome_success w fut kd v sch).
    + intros e r sch Hs. destruct o as [kd s]; simpl in Hs; subst s.
      by apply (PureFacts.await_outcome_failed w fut kd e r sch).
  - intros w fut o Hobj. split.
    + intros Hp. split.
      * intros k. by apply (LegacyFacts.legacy_run_coro_await_pending w fut o).
      * by apply (LegacyFacts.legacy_await_outcome_pending w fut o).
    + intros Hs. split.
      * intros e He. rewrite (LegacyFacts.await_outcome_finished w fut o Hobj Hs).
        by rewrite He.
      * intros v He Hv. rewrite (LegacyFacts.await_outcome_finished w fut o Hobj Hs).
        by rewrite He, Hv.
Qed.

Lemma C7_witness :
  Pure.await_outcome 0 PureExamples.w_pending =
    (Ok (Raised (RuntimeError
       "Future being resumed after first yield, but still not finished!")),
     PureExamples.w_pending) /\
  Pure.await_outcome 0 PureExamples.w_done = (Ok (Returned (VInt 1)), PureExamples.w_done) /\
  Legacy.await_outcome 0 LegacyExamples.w_done
    = (Ok (Returned (VInt 1)), LegacyExamples.w_done).
Proof.
  split; [|split].
  - apply (proj1 C7_await PureExamples.w_pending 0
             (Pure.mkObj Pure.KFuture (Pure.PendingState [Pure.CbUser 7])));
      reflexivity.
  - apply (proj1 C7_await PureExamples.w_done 0
             (Pure.mkObj Pure.KFuture (Pure.SuccessState (VInt 1) [])) eq_refl
           ) with (sch := []); reflexivity.
  - apply (proj2 C7_await LegacyExamples.w_done 0
             (Legacy.mkObj (Some (VInt 1)) None Legacy.finished [] None));
      try reflexivity. split; reflexivity.
Defined.

(** C9, on aio/future.py: removing a callback from a finished future does
    not cancel what was handed to the loop; the callback stays in the
    ready queue under its handle and will run. *)
Lemma C9_counterexample :
  Loop.pending 0 (Legacy.loop LegacyExamples.w_done_cb) = true /\
  fst (Legacy.remove_callback 0 (Legacy.CbUser 7) LegacyExamples.w_done_cb) = Ok tt /\
  Loop.pending 0 (Legacy.loop
    (snd (Legacy.remove_callback 0 (Legacy.CbUser 7) LegacyExamples.w_done_cb))) = true.
Proof. repeat split; reflexivity. Qed.

(** On aio/future.py a second removal of the same callback does not
    return normally: [KeyError] escapes the handler, which names
    [ValueError]. *)
Example legacy_remove_callback_twice :
  fst (Legacy.remove_callback 0 (Legacy.CbUser 7)
         (snd (Legacy.remove_callback 0 (Legacy.CbUser 7) LegacyExamples.w_done_cb)))
  = Err KeyError.
Proof. reflexivity. Qed.

(** C9 (amended): in aio/future/pure.py, removing a callback that is not
    registered returns normally and leaves the store unchanged, so a
    second removal of the same callback is a no-op; on a terminal future
    the removal of a registered callback cancels its handle, which leaves
    the ready queue.  In aio/future.py, removing a callback that is in the
    callback set returns normally and takes it out of the set, and no
    removal ever changes the loop: no handle is recorded there, so
    nothing is cancelled on a finished future. *)
Theorem C9_remove_callback :
  (forall (w : Pure.world) (id : nat) (o : Pure.fobj) (cb : Pure.callback),
     Pure.objs w !! id = Some o ->
     (Pure.registered cb (Pure.ostate o) = false ->
      Pure.remove_callback id cb w = (Ok tt, w)) /\
     (exists w', Pure.remove_callback id cb w = (Ok tt, w') /\
                 Pure.remove_callback id cb w' = (Ok tt, w')) /\
     (forall h sch',
        Pure.is_pending_state (Pure.ostate o) = false ->
        Pure.sched_pop cb (Pure.scheduled_cbs_of (Pure.ostate o)) = Some (h, sch') ->
        exists w', Pure.remove_callback id cb w = (Ok tt, w') /\
          Pure.loop w' = Loop.cancel h (Pure.loop w) /\
          Loop.pending h (Pure.loop w') = false /\
          Pure.objs w' !! id =
            Some (Pure.mkObj (Pure.okind o) (Pure.with_scheduled sch' (Pure.ostate o))))) /\
  (forall (w : Legacy.world) (id : nat) (o : Legacy.fobj) (cb : Legacy.callback),
     Legacy.objs w !! id = Some o ->
     (Legacy.set_has cb (Legacy._result_callbacks o) = true ->
      exists w', Legacy.remove_callback id cb w = (Ok tt, w') /\
        Legacy.objs w' !! id =
          Some (Legacy.set__result_callbacks
                  (List.filter (fun c => negb (Legacy.callback_eqb cb c))
                     (Legacy._result_callbacks o)) o)) /\
     (forall r w', Legacy.remove_callback id cb w = (r, w') ->
        Legacy.loop w' = Legacy.loop w)).
Proof.
  split.
  - intros w id o cb Hobj. split; [|split].
    + by apply PureFacts.remove_callback_unregistered.
    + by apply (PureFacts.remove_callback_twice w id o).
    + intros h sch' Hterm Hpop.
      by apply PureFacts.remove_callback_terminal_cancels.
  - intros w id o cb Hobj. split.
    + intros Hin. unfold Legacy.remove_callback, Legacy.deref, Legacy.update,
        bind, ret, modify. rewrite Hobj, Hin. eexists. split; [reflexivity|].
      simpl. rewrite Hobj. apply lookup_insert_eq.
    + intros r w' H. by apply (LegacyFacts.remove_callback_loop w w' id cb r).
Qed.

Lemma C9_witness :
  Pure.remove_callback 0 (Pure.CbUser 8) PureExamples.w_pending
    = (Ok tt, PureExamples.w_pending) /\
  exists w', Legacy.remove_callback 0 (Legacy.CbUser 7) LegacyExamples.w_done_cb
             = (Ok tt, w') /\
    Legacy.objs w' !! 0 =
      Some (Legacy.mkObj (Some (VInt 1)) None Legacy.finished [] None).
Proof.
  split.
  - apply (proj1 (proj1 C9_remove_callback PureExamples.w_pending 0
             (Pure.mkObj Pure.KFuture (Pure.PendingState [Pure.CbUser 7]))
             (Pure.CbUser 8) eq_refl)); reflexivity.
  - apply (proj1 (proj2 C9_remove_callback LegacyExamples.w_done_cb 0
             (Legacy.mkObj (Some (VInt 1)) None Legacy.finished [Legacy.CbUser 7] None)
             (Legacy.CbUser 7) eq_refl)); reflexivity.
Defined.


(** C2: a child cancelled by the group itself is reported.  The only
    child waits on a pending future when [TaskGroup.cancel] is called;
    the [Cancelled] instance that this call makes (the first of the
    store) is thrown into the child when the wait of [_join] lets the
    loop run, the child ends in it, and [_join] raises an aggregate that
    holds it. *)
Lemma C2_counterexample :
  Legacy.is_finished 2 LegacyExamples.w_group_cancel_waiting
    = (Ok false, LegacyExamples.w_group_cancel_waiting) /\
  Legacy.child_exceptions
    (snd (Legacy.TaskGroup__join (LegacyExamples.wait_turns 10) 0
            LegacyExamples.w_group_cancel_waiting)) [2]
    = [Cancelled 0 (Some "stop")] /\
  fst (Legacy.TaskGroup__join (LegacyExamples.wait_turns 10) 0
         LegacyExamples.w_group_cancel_waiting)
    = Err (MultiError "Child task errors" [Cancelled 0 (Some "stop")]).
Proof. vm_compute. repeat split; reflexivity. Qed.

(** C2 (amended): when the wait for the children has returned normally
    and every child of the group is finished in the store it leaves,
    [_join] raises the aggregate made from the exceptions that the
    children hold in that store, in spawn order, [Cancelled] included
    whatever its origin, and raises nothing when no child holds an
    exception; it leaves the store that the wait left.  The aggregate
    holds every such exception (a nested aggregate through its inner
    exceptions) and nothing else.  Nothing is asked of the children
    before the wait, nor of what the wait does to the store. *)
Theorem C2_join_aggregates (iterate : list nat -> M Legacy.world unit)
    (w w' : Legacy.world) (g : nat) (tg : Legacy.TaskGroup) :
  Legacy.groups w !! g = Some tg ->
  iterate (Legacy._tasks tg)
    (Legacy.set_groups <[g := Legacy.mkGroup (Legacy._tasks tg) true]> w) = (Ok tt, w') ->
  Legacy.all_settled w' (Legacy._tasks tg) ->
  let excs := Legacy.child_exceptions w' (Legacy._tasks tg) in
  Legacy.TaskGroup__join iterate g w =
    (match excs with
     | [] => Ok tt
     | _ => Err (Legacy.create_multi_error "Child task errors" excs)
     end, w') /\
  (forall e, e ∈ excs <->
     exists t o, t ∈ Legacy._tasks tg /\ Legacy.objs w' !! t = Some o /\
                 Legacy._exc o = Some e) /\
  (forall x, x ∈ Legacy.aggregated (Legacy.create_multi_error "Child task errors" excs)
     <-> exists e, e ∈ excs /\ x ∈ Legacy.flatten_exc e).
Proof.
  intros Hg Hit Hall excs. split; [|split].
  - rewrite (LegacyFacts.TaskGroup__join_after_wait iterate w w' g tg Hg Hit Hall).
    subst excs. by destruct (Legacy.child_exceptions w' (Legacy._tasks tg)).
  - intros e. split.
    + apply LegacyFacts.child_exceptions_sound.
    + intros (t & o & Hin & Hobj & He).
      by apply (LegacyFacts.child_exceptions_complete w' _ t o).
  - intros x. split.
    + apply LegacyFacts.create_multi_error_only.
    + intros (e & He & Hx). by apply (LegacyFacts.create_multi_error_keeps _ _ e).
Qed.

(** Three children that have not run when [_join] starts; the wait lets
    the loop run: one ends in a [Cancelled] made outside the group, one
    in its own exception, one returns. *)
Lemma C2_witness :
  Legacy.TaskGroup__join (LegacyExamples.wait_turns 10) 0 LegacyExamples.w_group_three =
    (Err (MultiError "Child task errors"
            [Cancelled 0 (Some "outside"); UserExc 5 "E"]),
     Legacy.drain 10
       (Legacy.set_groups <[0 := Legacy.mkGroup [2; 4; 6] true]>
          LegacyExamples.w_group_three)).
Proof.
  assert (Hg : Legacy.groups LegacyExamples.w_group_three !! 0
               = Some (Legacy.mkGroup [2; 4; 6] false)) by (vm_compute; reflexivity).
  assert (Hall : Legacy.all_settled
            (Legacy.drain 10
               (Legacy.set_groups <[0 := Legacy.mkGroup [2; 4; 6] true]>
                  LegacyExamples.w_group_three)) [2; 4; 6]).
  { repeat constructor.
    - exists (Legacy.mkObj None (Some (Cancelled 0 (Some "outside"))) Legacy.finished []
                (Some (Legacy.mkTask Legacy.FClosed None 3))).
      vm_compute. repeat split; reflexivity.
    - exists (Legacy.mkObj None (Some (UserExc 5 "E")) Legacy.finished []
                (Some (Legacy.mkTask Legacy.FClosed None 5))).
      vm_compute. repeat split; reflexivity.
    - exists (Legacy.mkObj (Some (VInt 1)) None Legacy.finished []
                (Some (Legacy.mkTask Legacy.FClosed None 7))).
      vm_compute. repeat split; reflexivity. }
  rewrite (proj1 (C2_join_aggregates (LegacyExamples.wait_turns 10)
             LegacyExamples.w_group_three _ 0 (Legacy.mkGroup [2; 4; 6] false)
             Hg eq_refl Hall)).
  f_equal; vm_compute; reflexivity.
Defined.

(** C5: [TaskGroup.cancel] on a group whose first child is finished and
    whose second child is live fails with FutureFinishedError, and the
    live child is not cancelled: the store is as it was. *)
Theorem C5_cancel_stops_at_finished_child :
  Legacy.groups LegacyExamples.w_group_mixed !! 0 = Some (Legacy.mkGroup [2; 4] false) /\
  Legacy.is_finished 2 LegacyExamples.w_group_mixed
    = (Ok true, LegacyExamples.w_group_mixed) /\
  Legacy.is_finished 4 LegacyExamples.w_group_mixed
    = (Ok false, LegacyExamples.w_group_mixed) /\
  Legacy.TaskGroup_cancel 0 (Some "m") LegacyExamples.w_group_mixed
    = (Err (FutureFinishedError None), LegacyExamples.w_group_mixed).
Proof.
  split; [reflexivity|]. split; [reflexivity|]. split; [reflexivity|].
  vm_compute. reflexivity.
Qed.

(** C6: a shielded future that is cancelled is not mirrored.  After the
    loop ran, the future is cancelled, its shield is still pending, and
    the loop holds the ValueError that [set_exception] raised inside the
    callback of [shield]. *)
Theorem C6_shield_drops_cancellation :
  let w := Legacy.drain 10 LegacyExamples.w_shield_cancelled in
  Loop.ready (Legacy.loop w) = [] /\
  Legacy.is_cancelled 0 w = (Ok true, w) /\
  Legacy.is_finished 1 w = (Ok false, w) /\
  Legacy.loop_errors w =
    [ValueError "Use cancellation API instead of passing exception manually"].
Proof. repeat split; reflexivity. Qed.

(** A value is mirrored: the shield completes with it. *)
Example shield_mirrors_value :
  let w := Legacy.drain 10 LegacyExamples.w_shield_value in
  Legacy.result 1 w = (Ok (VInt 1), w) /\ Legacy.loop_errors w = [].
Proof. split; reflexivity. Qed.


(** C4: [set_exception] with a [Cancelled] instance on a terminal future
    fails with TypeError, not with FinishedError. *)
Lemma C4_counterexample :
  Pure.attempt (Pure.mkPromise 0) (Pure.SetException (Cancelled 5 None))
    PureExamples.w_done
  = (Err (TypeError "Use cancellation API instead of passing exception manually"),
     PureExamples.w_done) /\
  forall m, TypeError "Use cancellation API instead of passing exception manually"
            <> FutureFinishedError m.
Proof. split; [reflexivity | discriminate]. Qed.

(** C4 (amended): a future is pending, success or failed, and a finished
    future keeps what it stores, in aio/future/pure.py and in
    aio/future.py alike: whatever a coroutine body does and however long
    the loop runs (and, in aio/future.py, whatever sequence of calls is
    made from outside), every object that held a result still holds the
    same value or exception.  On a finished future, [set_result],
    [cancel] and [set_exception] with an exception that is not a
    [Cancelled] fail with FinishedError; [set_exception] with a
    [Cancelled] instance is refused with TypeError (aio/future/pure.py) or
    ValueError (aio/future.py) before the state is looked at; [cancel] on
    a finished task fails with FinishedError.  None of these attempts
    changes an object or the ready queue. *)
Theorem C4_terminal_is_final :
  (forall (w : Pure.world) (id : nat) (o : Pure.fobj) (c : Pure.completion),
     Pure.objs w !! id = Some o ->
     Pure.is_pending_state (Pure.ostate o) = false ->
     exists w', Pure.attempt (Pure.mkPromise id) c w = (Err (Pure.refusal c), w') /\
                Pure.same_but_exc w w') /\
  (forall (w : Pure.world) (id : nat) (o : Pure.fobj) (a : cancel_arg),
     Pure.objs w !! id = Some o ->
     Pure.is_pending_state (Pure.ostate o) = false ->
     Pure.okind o = Pure.KTask ->
     Pure.Task_cancel id a w = (Err (FutureFinishedError None), w)) /\
  (forall (w : Pure.world), Pure.WF w ->
     (forall c x w', Pure.run_coro c w = (x, w') -> Pure.evolves w w') /\
     (forall n, Pure.evolves w (Pure.drain n w))) /\
  (forall (w : Legacy.world) (id : nat) (o : Legacy.fobj) (c : Legacy.completion),
     Legacy.objs w !! id = Some o ->
     Legacy.settled o ->
     exists w', Legacy.attempt id c w = (Err (Legacy.refusal c), w') /\
                Legacy.same_but_exc w w') /\
  (forall (w : Legacy.world), Legacy.WF w ->
     (forall c x w', Legacy.run_coro c w = (x, w') -> Legacy.evolves w w') /\
     (forall n, Legacy.evolves w (Legacy.drain n w)) /\
     (forall ops, Legacy.evolves w (Legacy.run_ops ops w))).
Proof.
  split; [|split; [|split; [|split]]].
  - intros w id o c. apply PureFacts.attempt_terminal.
  - intros w id o a Hobj Hterm Hk. by apply (PureFacts.Task_cancel_terminal w id o).
  - intros w Hwf. split.
    + intros c x w' H. by apply (PureFacts.good_run_coro c w x w').
    + intros n. by apply PureFacts.drain_evolves.
  - intros w id o c. apply LegacyFacts.legacy_attempt_finished.
  - intros w Hwf. split; [|split].
    + intros c x w' H. by apply (LegacyFacts.lgood_run_coro c w x w').
    + intros n. by apply LegacyFacts.legacy_drain_evolves.
    + intros ops. by apply LegacyFacts.legacy_run_ops_evolves.
Qed.

Lemma C4_witness :
  (exists w', Pure.attempt (Pure.mkPromise 0) (Pure.SetResult (VInt 2)) PureExamples.w_done
              = (Err (FutureFinishedError None), w') /\
              Pure.same_but_exc PureExamples.w_done w') /\
  Pure.evolves PureExamples.w_done_cb (Pure.drain 5 PureExamples.w_done_cb) /\
  (exists w', Legacy.attempt 0 (Legacy.Cancel None) LegacyExamples.w_done
              = (Err (FutureFinishedError None), w') /\
              Legacy.same_but_exc LegacyExamples.w_done w') /\
  Legacy.evolves LegacyExamples.w_done_cb (Legacy.drain 5 LegacyExamples.w_done_cb).
Proof.
  split; [|split; [|split]].
  - apply (proj1 C4_terminal_is_final PureExamples.w_done 0
             (Pure.mkObj Pure.KFuture (Pure.SuccessState (VInt 1) []))
             (Pure.SetResult (VInt 2))); reflexivity.
  - apply (proj1 (proj2 (proj2 C4_terminal_is_final)) PureExamples.w_done_cb).
    apply PureFacts.WF_w_done_cb.
  - apply (proj1 (proj2 (proj2 (proj2 C4_terminal_is_final))) LegacyExamples.w_done 0
             (Legacy.mkObj (Some (VInt 1)) None Legacy.finished [] None)
             (Legacy.Cancel None)); [reflexivity | split; reflexivity].
  - apply (proj2 (proj2 (proj2 (proj2 C4_terminal_is_final))) LegacyExamples.w_done_cb).
    apply LegacyFacts.legacy_WF_w_done_cb.
Defined.





(** C1: a body whose [finally] block awaits.  The task 2 is running and
    waits on the pending future 0; its body does not catch the exception,
    but awaits the future 1 before it lets the exception go.  After
    [cancel] and a drained loop the future 0 is cancelled and the task is
    still pending, suspended on the future 1. *)
Example finally_block_keeps_task_pending :
  let w := PureExamples.w_finally in
  let w2 := Pure.drain 10 (snd (Pure.Task_cancel 2 (CInst 42 None) w)) in
  Pure.objs w !! 2 =
    Some (Pure.mkObj Pure.KTask
            (Pure.RunningState [] (Pure.FSuspended 0 (PureExamples.finally_awaiting 1)) 0)) /\
  Pure.is_finished 0 w = (Ok false, w) /\
  fst (Pure.Task_cancel 2 (CInst 42 None) w) = Ok tt /\
  Loop.ready (Pure.loop w2) = [] /\
  Pure.is_cancelled 0 w2 = (Ok true, w2) /\
  Pure.is_finished 2 w2 = (Ok false, w2) /\
  Pure.exception 2 w2 = (Err (FutureNotReady None), w2).
Proof. vm_compute. repeat split; reflexivity. Qed.

(** C1: a ready queue that is not empty.  The step of another task is
    queued when the task 1 is cancelled with [Cancelled 42]; that step
    cancels the task 1 again, with [Cancelled 43], before the task is
    woken, and [exception()] of the task returns [Cancelled 43]. *)
Example queued_step_changes_exception :
  let w := PureExamples.w_queued in
  let w2 := Pure.drain 10 (snd (Pure.Task_cancel 1 (CInst 42 None) w)) in
  Loop.ready (Pure.loop w) = [(1, Pure.EStep 2 None)] /\
  fst (Pure.Task_cancel 1 (CInst 42 None) w) = Ok tt /\
  Loop.ready (Pure.loop w2) = [] /\
  fst (Pure.exception 0 w2) = Ok (Some (Cancelled 42 None)) /\
  fst (Pure.exception 1 w2) = Ok (Some (Cancelled 43 None)).
Proof. vm_compute. repeat split; reflexivity. Qed.

(** C1: a subscriber before the task that is not a user callback.  The
    tasks 1 and 2 both wait on the future 0, the task 1 subscribed first;
    woken by the cancellation of the task 2 with [Cancelled 42], it
    cancels the task 2 again, with [Cancelled 43], and [exception()] of
    the task 2 returns [Cancelled 43]. *)
Example earlier_waiter_changes_exception :
  let w := PureExamples.w_two_waiters in
  let w2 := Pure.drain 10 (snd (Pure.Task_cancel 2 (CInst 42 None) w)) in
  Loop.ready (Pure.loop w) = [] /\
  Pure.objs w !! 0 =
    Some (Pure.mkObj Pure.KFuture (Pure.PendingState [Pure.CbStep 1; Pure.CbStep 2])) /\
  fst (Pure.Task_cancel 2 (CInst 42 None) w) = Ok tt /\
  Loop.ready (Pure.loop w2) = [] /\
  fst (Pure.exception 0 w2) = Ok (Some (Cancelled 42 None)) /\
  fst (Pure.exception 2 w2) = Ok (Some (Cancelled 43 None)).
Proof. vm_compute. repeat split; reflexivity. Qed.

(** C1, for aio/future.py: a body that catches the exception at its
    await.  After [_cancel] on the task 1 and a drained loop the future 0
    is cancelled, but the task ended with a value and [exception] is
    empty. *)
Example legacy_catching_body :
  let w := LegacyExamples.w_catching in
  let w2 := Legacy.drain 10 (snd (Legacy._cancel recursion_limit 1 (Some "m") w)) in
  Legacy.is_finished 0 w = (Ok false, w) /\
  Legacy.is_finished 1 w = (Ok false, w) /\
  fst (Legacy._cancel recursion_limit 1 (Some "m") w) = Ok tt /\
  Loop.ready (Legacy.loop w2) = [] /\
  Legacy.is_cancelled 0 w2 = (Ok true, w2) /\
  Legacy.exception 1 w2 = (Ok None, w2) /\
  Legacy.result 1 w2 = (Ok (VInt 1), w2).
Proof. vm_compute. repeat split; reflexivity. Qed.

(** Test scenario 4: a body that cancels its own task ends the task with
    SelfCancelForbidden. *)
Example self_cancel_scenario :
  fst (Pure.exception 0 PureExamples.w_self_cancel) = Ok (Some SelfCancelForbidden).
Proof. vm_compute. reflexivity. Qed.

End Claims.

(** * Further properties of aio/future.py and aio/task_group.py *)

Module LegacyExtras.
Import Legacy.
Local Open Scope m_scope.
Local Open Scope list_scope.
Local Arguments _cancel : simpl never.


(** X1: in every store a program reaches from the empty one (creating
    promises, tasks and groups, completing and cancelling them, shielding,
    subscribing callbacks, running loop turns), a finished task has a
    finished started promise, which is a plain future of the store. *)
Theorem started_promise_follows_task (ops : list op) (t : nat) (o : fobj)
    (tf : task_fields) :
  objs (run_ops ops empty_world) !! t = Some o ->
  task_of o = Some tf ->
  finished_obj o = true ->
  exists so, objs (run_ops ops empty_world) !! _started_promise tf = Some so /\
    task_of so = None /\ finished_obj so = true.
Proof.
  intros Ht Htf Hfin.
  destruct (LegacyFacts.run_ops_Inv ops empty_world LegacyFacts.Inv_empty) as [_ Hst].
  destruct (Hst t o tf Ht Htf) as (so & Hso & Hp & Hf). eauto.
Qed.

Lemma started_promise_follows_task_witness :
  exists so,
    objs (run_ops [ONewGroup; OSpawn 0 (CReturn (VInt 1)); OTurn] empty_world) !! 2
      = Some so /\ task_of so = None /\ finished_obj so = true.
Proof.
  apply (started_promise_follows_task
           [ONewGroup; OSpawn 0 (CReturn (VInt 1)); OTurn] 1
           (mkObj (Some (VInt 1)) None finished [] (Some (mkTask FClosed None 2)))
           (mkTask FClosed None 2)); reflexivity.
Defined.

(** X2: [Task._set_result] on an unfinished task whose started promise
    is pending returns normally; afterwards the task holds the given
    result, the started promise holds the value None, and every callback
    subscribed to either of them has been handed to the loop. *)
Theorem Task_set_result_completes_started (w : world) (id : nat) (o so : fobj)
    (tf : task_fields) (v : option val) (e : option exn) :
  objs w !! id = Some o -> task_of o = Some tf -> finished_obj o = false ->
  objs w !! _started_promise tf = Some so -> task_of so = None ->
  finished_obj so = false -> (v <> None \/ e <> None) ->
  exists w', Task__set_result id v e w = (Ok tt, w') /\
    objs w' !! id = Some (mkObj v e finished (_result_callbacks o) (Some tf)) /\
    objs w' !! _started_promise tf
      = Some (mkObj (Some VNone) None finished (_result_callbacks so) None) /\
    (forall cb, In cb (_result_callbacks o) ->
       exists h, In (h, ECallback cb id) (Loop.ready (loop w'))) /\
    (forall cb, In cb (_result_callbacks so) ->
       exists h, In (h, ECallback cb (_started_promise tf)) (Loop.ready (loop w'))).
Proof.
  intros Hobj Ht Hp Hso Hplain Hsp Hve.
  assert (Hne : _started_promise tf <> id).
  { intros Heq. rewrite Heq in Hso. congruence. }
  eexists. split; [by apply (LegacyFacts.Task__set_result_pending w id o so tf)|].
  split; [|split; [|split]].
  - simpl. rewrite lookup_insert_ne by done. apply lookup_insert_eq.
  - simpl. apply lookup_insert_eq.
  - intros cb Hin.
    destruct (LegacyFacts.In_entries_from (Loop.next_handle (loop w)) id _ cb Hin)
      as [h Hh].
    exists h. simpl. rewrite !in_app_iff. auto.
  - intros cb Hin.
    destruct (LegacyFacts.In_entries_from
                (Loop.next_handle (loop w) + length (_result_callbacks o))
                (_started_promise tf) _ cb Hin) as [h Hh].
    exists h. simpl. rewrite !in_app_iff. auto.
Qed.

Lemma Task_set_result_completes_started_witness :
  exists w',
    Task__set_result 0 (Some (VInt 1)) None LegacyExamples.w_task_cbs = (Ok tt, w') /\
    objs w' !! 0 = Some (mkObj (Some (VInt 1)) None finished [CbUser 7]
                           (Some (mkTask (FCreated (CReturn (VInt 1))) None 1))) /\
    objs w' !! 1 = Some (mkObj (Some VNone) None finished [CbUser 8] None) /\
    (forall cb, In cb [CbUser 7] ->
       exists h, In (h, ECallback cb 0) (Loop.ready (loop w'))) /\
    (forall cb, In cb [CbUser 8] ->
       exists h, In (h, ECallback cb 1) (Loop.ready (loop w'))).
Proof.
  apply (Task_set_result_completes_started LegacyExamples.w_task_cbs 0
           (mkObj None None scheduled [CbUser 7]
              (Some (mkTask (FCreated (CReturn (VInt 1))) None 1)))
           (mkObj None None running [CbUser 8] None)
           (mkTask (FCreated (CReturn (VInt 1))) None 1) (Some (VInt 1)) None);
    try reflexivity.
  left. discriminate.
Defined.

(** X3: a child that returns or raises in its first step, before any
    suspension, still wakes the caller suspended in [wait_started].  With
    the child's first step the only ready callback, the child without
    subscribers, [shield]'s callback the only subscriber of the started
    promise and the parent's wake-up the only subscriber of the shielding
    future: after three loop turns the child holds its result, the
    shielding future holds the value None, the parent's next step is the
    one ready callback, and no exception reached the loop. *)
Theorem wait_started_wakes_parent (w : world) (h0 id s p : nat)
    (o so os op_ : fobj) (tf : task_fields) (out : outcome) :
  Loop.ready (loop w) = [(h0, EStep id)] ->
  objs w !! id = Some o -> task_of o = Some tf -> finished_obj o = false ->
  _result_callbacks o = [] ->
  _coroutine tf = FCreated (LegacyExamples.forward out) ->
  objs w !! _started_promise tf = Some so -> task_of so = None ->
  finished_obj so = false ->
  _result_callbacks so = [CbFutureDone (_started_promise tf) s] ->
  objs w !! s = Some os -> task_of os = None -> finished_obj os = false ->
  _result_callbacks os = [CbScheduleExecution p] ->
  s <> _started_promise tf ->
  objs w !! p = Some op_ -> p <> id -> p <> s ->
  objs (drain 3 w) !! id
    = Some (mkObj (match out with Returned v => Some v | Raised _ => None end)
              (match out with Returned _ => None | Raised e => Some e end)
              finished []
              (Some (mkTask FClosed (_waiting_on tf) (_started_promise tf)))) /\
  objs (drain 3 w) !! s
    = Some (mkObj (Some VNone) None finished [CbScheduleExecution p] None) /\
  Loop.ready (loop (drain 3 w)) = [(Loop.next_handle (loop w) + 2, EStep p)] /\
  loop_errors (drain 3 w) = loop_errors w.
Proof.
  intros Hready Hobj Ht Hp Hcbs Hc Hso Hplain Hsp Hscb Hs Hsplain Hspend Hoscb
    Hne_s Hpar Hne_p Hne_ps.
  assert (Hne : _started_promise tf <> id).
  { intros Heq. rewrite Heq in Hso. congruence. }
  assert (Hne_sid : s <> id).
  { intros Heq. rewrite Heq in Hs. congruence. }
  destruct (LegacyFacts.turn_child_ends w h0 id o so tf out)
    as (w1 & H1 & Ho1 & Hr1 & Hn1 & He1); try done.
  rewrite Hscb in Ho1, Hr1, Hn1. simpl in Hr1, Hn1.
  destruct (LegacyFacts.turn_future_done w1 (Loop.next_handle (loop w))
              (_started_promise tf) (_started_promise tf) s
              (mkObj (Some VNone) None finished
                 [CbFutureDone (_started_promise tf) s] None) os VNone)
    as (w2 & H2 & Ho2 & Hr2 & Hn2 & He2); try done.
  { rewrite Ho1. apply lookup_insert_eq. }
  { rewrite Ho1. rewrite !lookup_insert_ne by done. done. }
  rewrite Hoscb in Ho2, Hr2, Hn2. simpl in Hr2, Hn2.
  assert (Hp2 : exists op2, objs w2 !! p = Some op2).
  { rewrite Ho2, Ho1. rewrite lookup_insert_ne by done.
    destruct (decide (p = _started_promise tf)) as [->|Hn].
    - rewrite lookup_insert_eq. eauto.
    - rewrite !lookup_insert_ne by done. eauto. }
  destruct Hp2 as [op2 Hp2].
  destruct (LegacyFacts.turn_schedule_execution w2 (Loop.next_handle (loop w) + 1) p s op2)
    as (w3 & H3 & Hr3 & Ho3 & He3); [by rewrite Hr2, Hn1 | done |].
  assert (Hd : drain 3 w = w3).
  { cbn [drain]. by rewrite H1, H2, H3. }
  rewrite Hd. split; [|split; [|split]].
  - rewrite Ho3, Ho2, Ho1 by done. rewrite !lookup_insert_ne by done.
    apply lookup_insert_eq.
  - rewrite Ho3, Ho2 by done. apply lookup_insert_eq.
  - rewrite Hr3, Hn2, Hn1. f_equal. f_equal. lia.
  - congruence.
Qed.

Lemma wait_started_wakes_parent_witness :
  objs (drain 3 LegacyExamples.w_wait_started) !! 3
    = Some (mkObj (Some (VInt 1)) None finished [] (Some (mkTask FClosed None 4))) /\
  objs (drain 3 LegacyExamples.w_wait_started) !! 5
    = Some (mkObj (Some VNone) None finished [CbScheduleExecution 1] None) /\
  Loop.ready (loop (drain 3 LegacyExamples.w_wait_started)) = [(4, EStep 1)] /\
  loop_errors (drain 3 LegacyExamples.w_wait_started) = [].
Proof.
  apply (wait_started_wakes_parent LegacyExamples.w_wait_started 1 3 5 1
           (mkObj None None scheduled []
              (Some (mkTask (FCreated (CReturn (VInt 1))) None 4)))
           (mkObj None None running [CbFutureDone 4 5] None)
           (mkObj None None running [CbScheduleExecution 1] None)
           (mkObj None None running []
              (Some (mkTask
                 (FSuspended 5 (fun x => match x with
                                         | Returned _ => CReturn (VRef 3)
                                         | Raised e => CRaise e
                                         end))
                 (Some 5) 2)))
           (mkTask (FCreated (CReturn (VInt 1))) None 4) (Returned (VInt 1)));
    try reflexivity; discriminate.
Defined.

(** X4: [_create_task] followed by [cancel] before the loop ran: both
    calls return normally, the task ends in a [Cancelled] instance made
    for this call and [is_cancelled] is true, but the first step that
    [_create_task] gave to the loop is still queued, behind what was
    ready before, and the coroutine object is untouched. *)
Theorem cancel_leaves_first_step_queued (c : coroutine) (msg : option string)
    (w : world) :
  exists w2,
    (t <- _create_task c ;; _cancel recursion_limit t msg ;;; ret t) w
      = (Ok (next_id w), w2) /\
    objs w2 !! next_id w
      = Some (mkObj None (Some (Cancelled (next_exc w) msg)) finished []
                (Some (mkTask c None (S (next_id w))))) /\
    is_cancelled (next_id w) w2 = (Ok true, w2) /\
    Loop.ready (loop w2)
      = Loop.ready (loop w) ++ [(Loop.next_handle (loop w), EStep (next_id w))].
Proof.
  destruct (LegacyFacts.cancel_created_task c msg w)
    as (w2 & Hc & Ho & Hr & _).
  exists w2. unfold bind at 1. rewrite LegacyFacts._create_task_spec.
  unfold bind at 1. rewrite Hc. split; [reflexivity|].
  assert (Hobj : objs w2 !! next_id w
      = Some (mkObj None (Some (Cancelled (next_exc w) msg)) finished []
                (Some (mkTask c None (S (next_id w)))))).
  { rewrite Ho. rewrite lookup_insert_ne by lia. apply lookup_insert_eq. }
  split; [exact Hobj|]. split; [|by rewrite Hr].
  unfold is_cancelled. unfold bind at 1.
  erewrite LegacyFacts.is_finished_settled; [|exact Hobj|by split].
  unfold bind. by rewrite (LegacyFacts.deref_eq _ _ _ Hobj).
Qed.

(** X5: the queued first step of a task cancelled before the loop ran is
    still executed.  With nothing else ready and a body that returns or
    raises at once, the loop turn resumes the coroutine, which runs to its
    end; [Task._set_result] then fails on the finished task, the
    FutureFinishedError reaches the loop, and the task keeps its
    [Cancelled] result. *)
Theorem cancelled_task_still_runs (out : outcome) (msg : option string)
    (w : world) :
  Loop.ready (loop w) = [] ->
  let w2 := snd ((t <- _create_task (FCreated (LegacyExamples.forward out)) ;;
                  _cancel recursion_limit t msg) w) in
    objs (drain 1 w2) !! next_id w
      = Some (mkObj None (Some (Cancelled (next_exc w) msg)) finished []
                (Some (mkTask FClosed None (S (next_id w))))) /\
    loop_errors (drain 1 w2) = loop_errors w ++ [FutureFinishedError None] /\
    Loop.ready (loop (drain 1 w2)) = [].
Proof.
  intros Hidle. cbv zeta.
  destruct (LegacyFacts.cancel_created_task (FCreated (LegacyExamples.forward out)) msg w)
    as (w2 & Hc & Ho & Hr & Hn & Hx & He & _).
  assert (Hw : snd ((t <- _create_task (FCreated (LegacyExamples.forward out)) ;;
                     _cancel recursion_limit t msg) w) = w2).
  { unfold bind. rewrite LegacyFacts._create_task_spec. by rewrite Hc. }
  rewrite Hw. clear Hw.
  assert (Hobj : objs w2 !! next_id w
      = Some (mkObj None (Some (Cancelled (next_exc w) msg)) finished []
                (Some (mkTask (FCreated (LegacyExamples.forward out)) None
                         (S (next_id w)))))).
  { rewrite Ho. rewrite lookup_insert_ne by lia. apply lookup_insert_eq. }
  assert (Hd : exists w3, run_once w2 = Some w3 /\
            objs w3 !! next_id w
              = Some (mkObj None (Some (Cancelled (next_exc w) msg)) finished []
                        (Some (mkTask FClosed None (S (next_id w))))) /\
            loop_errors w3 = loop_errors w ++ [FutureFinishedError None] /\
            Loop.ready (loop w3) = []).
  { unfold run_once, Loop.pop. rewrite Hr. cbn [created_task loop Loop.ready].
    rewrite Hidle. cbn [app run_entry].
    erewrite (LegacyFacts.step_body_ends _ (next_id w) _ _ out);
      [| exact Hobj | reflexivity | reflexivity].
    erewrite LegacyFacts.Task__set_result_finished;
      [| apply LegacyFacts.lookup_set_objs_insert | by split].
    eexists. split; [reflexivity|]. simpl. rewrite lookup_insert_eq.
    by rewrite He. }
  destruct Hd as (w3 & Hd & H1 & H2 & H3). cbn [drain]. by rewrite Hd.
Qed.

Lemma cancelled_task_still_runs_witness :
  objs (drain 1 (snd ((t <- _create_task (FCreated (CReturn (VInt 1))) ;;
                       _cancel recursion_limit t (Some "stop")) empty_world))) !! 0
    = Some (mkObj None (Some (Cancelled 0 (Some "stop"))) finished []
              (Some (mkTask FClosed None 1))) /\
  loop_errors (drain 1 (snd ((t <- _create_task (FCreated (CReturn (VInt 1))) ;;
                              _cancel recursion_limit t (Some "stop")) empty_world)))
    = [FutureFinishedError None] /\
  Loop.ready (loop (drain 1 (snd ((t <- _create_task (FCreated (CReturn (VInt 1))) ;;
                                   _cancel recursion_limit t (Some "stop"))
                                    empty_world)))) = [].
Proof.
  apply (cancelled_task_still_runs (Returned (VInt 1)) (Some "stop") empty_world);
    reflexivity.
Defined.

(** X6: [TaskGroup.spawn] on a group that is not finalized creates the
    task with [_create_task] (scheduled, first step queued last, a fresh
    started promise) and appends it to the group's tasks; on a finalized
    group it raises the RuntimeError and changes nothing. *)
Theorem spawn_appends_or_refuses (w : world) (g : nat) (tg : TaskGroup)
    (c : coroutine) :
  groups w !! g = Some tg ->
  TaskGroup_spawn g c w =
    if _is_finalized tg
    then (Err (RuntimeError
                 "Spawning tasks inside task group after finalization is forbidden"), w)
    else (Ok (next_id w),
          set_groups <[g := mkGroup (_tasks tg ++ [next_id w]) false]>
            (created_task c w)).
Proof. apply LegacyFacts.TaskGroup_spawn_spec. Qed.

Lemma spawn_appends_or_refuses_witness :
  TaskGroup_spawn 0 (FCreated (CReturn (VInt 2))) LegacyExamples.w_group_spawned =
    (Ok 3,
     set_groups <[0 := mkGroup [1; 3] false]>
       (created_task (FCreated (CReturn (VInt 2))) LegacyExamples.w_group_spawned)).
Proof.
  apply (spawn_appends_or_refuses LegacyExamples.w_group_spawned 0 (mkGroup [1] false)).
  reflexivity.
Defined.

(** X7: [_join] finalizes the group before anything else: whatever the
    wait for the children does, as long as it leaves the groups alone,
    and however [_join] ends, the group is finalized afterwards with the
    same tasks, and [spawn] on it is refused. *)
Theorem join_finalizes (iterate : list nat -> M world unit) (w : world) (g : nat)
    (tg : TaskGroup) (c : coroutine) :
  groups w !! g = Some tg ->
  (forall l w0, groups (snd (iterate l w0)) = groups w0) ->
  groups (snd (TaskGroup__join iterate g w)) !! g = Some (mkGroup (_tasks tg) true) /\
  TaskGroup_spawn g c (snd (TaskGroup__join iterate g w)) =
    (Err (RuntimeError
            "Spawning tasks inside task group after finalization is forbidden"),
     snd (TaskGroup__join iterate g w)).
Proof.
  intros Hg Hit.
  assert (H : groups (snd (TaskGroup__join iterate g w)) !! g
              = Some (mkGroup (_tasks tg) true)).
  { unfold TaskGroup__join. unfold bind at 1. unfold group_of. rewrite Hg.
    unfold bind at 1. unfold modify.
    set (w1 := set_groups <[g := mkGroup (_tasks tg) true]> w).
    assert (Hg1 : groups w1 !! g = Some (mkGroup (_tasks tg) true))
      by apply lookup_insert_eq.
    unfold bind at 1.
    pose proof (Hit (_tasks tg) w1) as Hgi.
    destruct (iterate (_tasks tg) w1) as [[[]|x] w2]; simpl in Hgi.
    2:{ destruct x; simpl; by rewrite Hgi. }
    unfold bind at 1.
    destruct (all_finished (_tasks tg) w2) as [[ok|x] w3] eqn:E3.
    2:{ destruct (LegacyFacts.loop_only_all_finished _ _ _ _ E3) as (_ & _ & Hg3).
        simpl. by rewrite Hg3, Hgi. }
    destruct (LegacyFacts.loop_only_all_finished _ _ _ _ E3) as (_ & _ & Hg3).
    destruct ok; simpl; [|by rewrite Hg3, Hgi].
    unfold bind.
    destruct (task_exceptions (_tasks tg) w3) as [[excs|x] w4] eqn:E4;
      destruct (LegacyFacts.loop_only_task_exceptions _ _ _ _ E4) as (_ & _ & Hg4).
    - destruct excs; simpl; by rewrite Hg4, Hg3, Hgi.
    - simpl. by rewrite Hg4, Hg3, Hgi. }
  split; [exact H|].
  by rewrite (LegacyFacts.TaskGroup_spawn_spec _ g (mkGroup (_tasks tg) true) c H).
Qed.

Lemma join_finalizes_witness :
  groups (snd (TaskGroup__join (fun _ => ret tt) 0 LegacyExamples.w_group_spawned)) !! 0
    = Some (mkGroup [1] true) /\
  TaskGroup_spawn 0 (FCreated (CReturn (VInt 2)))
    (snd (TaskGroup__join (fun _ => ret tt) 0 LegacyExamples.w_group_spawned)) =
    (Err (RuntimeError
            "Spawning tasks inside task group after finalization is forbidden"),
     snd (TaskGroup__join (fun _ => ret tt) 0 LegacyExamples.w_group_spawned)).
Proof.
  apply (join_finalizes (fun _ => ret tt) LegacyExamples.w_group_spawned 0
           (mkGroup [1] false) (FCreated (CReturn (VInt 2)))); reflexivity.
Defined.

(** X8: when the wait for the children returns normally although a child
    is not finished, [_join] fails its assertion: it raises the
    AssertionError and reports no child exception.  The children are
    objects of the store whose state tag agrees with their result. *)
Theorem join_asserts_all_finished (iterate : list nat -> M world unit) (w w2 : world)
    (g t : nat) (tg : TaskGroup) (ot : fobj) :
  groups w !! g = Some tg ->
  iterate (_tasks tg) (set_groups <[g := mkGroup (_tasks tg) true]> w) = (Ok tt, w2) ->
  Forall (fun i => exists o, objs w2 !! i = Some o /\
                     (finished_obj o = true -> _state o = finished)) (_tasks tg) ->
  In t (_tasks tg) -> objs w2 !! t = Some ot -> finished_obj ot = false ->
  TaskGroup__join iterate g w
    = (Err (AssertionError "All task must be finished here"), w2).
Proof.
  intros Hg Hit Hall Hin Ht Hf. unfold TaskGroup__join.
  unfold bind at 1. unfold group_of. rewrite Hg.
  unfold bind at 1. unfold modify. unfold bind at 1. rewrite Hit.
  unfold bind at 1.
  by rewrite (LegacyFacts.all_finished_unfinished w2 (_tasks tg) t ot).
Qed.

Lemma join_asserts_all_finished_witness :
  TaskGroup__join (fun _ => ret tt) 0 LegacyExamples.w_group_spawned
    = (Err (AssertionError "All task must be finished here"),
       set_groups <[0 := mkGroup [1] true]> LegacyExamples.w_group_spawned).
Proof.
  apply (join_asserts_all_finished (fun _ => ret tt) LegacyExamples.w_group_spawned
           (set_groups <[0 := mkGroup [1] true]> LegacyExamples.w_group_spawned)
           0 1 (mkGroup [1] false)
           (mkObj None None scheduled []
              (Some (mkTask (FCreated (CReturn (VInt 1))) None 2)))).
  - reflexivity.
  - reflexivity.
  - constructor; [|constructor]. eexists. split; [reflexivity|]. discriminate.
  - left. reflexivity.
  - reflexivity.
  - reflexivity.
Defined.

(** X9: the executor completes its waiter through
    [_ignore_feature_finished_error]: on a waiter that is already
    finished, [set_result], [cancel] and [set_exception] with an
    exception other than [Cancelled] return normally and leave the
    future, the loop and the groups as they were ([cancel] has made one
    [Cancelled] instance), while the ValueError that [set_exception]
    answers a [Cancelled] with passes through. *)
Theorem ignore_finished_error_on_finished_waiter (w : world) (id : nat) (o : fobj)
    (c : completion) :
  objs w !! id = Some o -> settled o ->
  exists w',
    Executor._ignore_feature_finished_error (attempt id c) w =
      (match c with
       | SetException e =>
           if is_Cancelled e
           then Err (ValueError
                       "Use cancellation API instead of passing exception manually")
           else Ok tt
       | _ => Ok tt
       end, w') /\
    same_but_exc w w'.
Proof.
  intros Hobj Hfin.
  destruct (LegacyFacts.legacy_attempt_finished w id o c Hobj Hfin) as (w' & Ha & Hs).
  exists w'. split; [|exact Hs].
  unfold Executor._ignore_feature_finished_error. rewrite Ha.
  destruct c as [v|e|msg]; simpl; try reflexivity.
  by destruct (is_Cancelled e).
Qed.

Lemma ignore_finished_error_on_finished_waiter_witness :
  exists w',
    Executor._ignore_feature_finished_error (attempt 0 (Cancel None))
      LegacyExamples.w_done = (Ok tt, w') /\
    same_but_exc LegacyExamples.w_done w'.
Proof.
  apply (ignore_finished_error_on_finished_waiter LegacyExamples.w_done 0
           (mkObj (Some (VInt 1)) None finished [] None) (Cancel None));
    [reflexivity | split; reflexivity].
Defined.

(** X10: on an unfinished future, subscribing the same callback a second
    time changes nothing: two [add_callback] calls in a row leave the
    store that one leaves. *)
Theorem add_callback_twice (w : world) (id : nat) (o : fobj) (cb : callback) :
  objs w !! id = Some o -> finished_obj o = false ->
  (add_callback id cb ;;; add_callback id cb) w = add_callback id cb w.
Proof.
  intros Hobj Hp. unfold bind.
  rewrite (LegacyFacts.add_callback_pending w id o cb Hobj Hp).
  destruct (set_has cb (_result_callbacks o)) eqn:Hhas.
  - rewrite (LegacyFacts.add_callback_pending w id o cb Hobj Hp). by rewrite Hhas.
  - erewrite LegacyFacts.add_callback_pending;
      [| apply LegacyFacts.lookup_set_objs_insert | exact Hp].
    cbn [set__result_callbacks _result_callbacks].
    by rewrite LegacyFacts.set_has_app_self.
Qed.

Lemma add_callback_twice_witness :
  (add_callback 0 (CbUser 7) ;;; add_callback 0 (CbUser 7)) LegacyExamples.w_pending
  = add_callback 0 (CbUser 7) LegacyExamples.w_pending.
Proof.
  apply (add_callback_twice LegacyExamples.w_pending 0 new_future (CbUser 7));
    reflexivity.
Defined.

(** X11: on an unfinished future, [add_callback] of a callback that is
    not subscribed followed by [remove_callback] of it returns normally
    and gives back the store as it was. *)
Theorem add_then_remove_callback (w : world) (id : nat) (o : fobj) (cb : callback) :
  objs w !! id = Some o -> finished_obj o = false ->
  set_has cb (_result_callbacks o) = false ->
  (add_callback id cb ;;; remove_callback id cb) w = (Ok tt, w).
Proof.
  intros Hobj Hp Hhas. unfold bind at 1.
  rewrite (LegacyFacts.add_callback_pending w id o cb Hobj Hp), Hhas.
  unfold remove_callback. unfold bind.
  erewrite LegacyFacts.deref_eq; [|apply LegacyFacts.lookup_set_objs_insert].
  cbn [set__result_callbacks _result_callbacks].
  rewrite LegacyFacts.set_has_app_self.
  erewrite LegacyFacts.update_eq; [|apply LegacyFacts.lookup_set_objs_insert].
  rewrite LegacyFacts.set_objs_insert_insert. f_equal.
  unfold set__result_callbacks. cbn [_value _exc _state _result_callbacks task_of].
  rewrite List.filter_app. simpl.
  assert (callback_eqb cb cb = true) as -> by by apply LegacyFacts.legacy_callback_eqb_eq.
  simpl. rewrite app_nil_r, (LegacyFacts.filter_absent cb _ Hhas).
  apply LegacyFacts.set_objs_insert_id. rewrite Hobj. by destruct o.
Qed.

Lemma add_then_remove_callback_witness :
  (add_callback 0 (CbUser 7) ;;; remove_callback 0 (CbUser 7)) LegacyExamples.w_pending
  = (Ok tt, LegacyExamples.w_pending).
Proof.
  apply (add_then_remove_callback LegacyExamples.w_pending 0 new_future (CbUser 7));
    reflexivity.
Defined.

(** X20: the assertion of [Future.is_finished] never fails.  In every
    store a program reaches from the empty one, a future or task that
    holds a result has the state tag [finished], so [is_finished] on any
    object of the store returns normally, with whether the object holds a
    result, and changes nothing. *)
Theorem is_finished_never_asserts (ops : list op) (id : nat) (o : fobj) :
  objs (run_ops ops empty_world) !! id = Some o ->
  (finished_obj o = true -> _state o = finished) /\
  is_finished id (run_ops ops empty_world)
    = (Ok (finished_obj o), run_ops ops empty_world).
Proof.
  intros Hobj.
  pose proof (LegacyFacts.run_ops_consistent ops empty_world
                LegacyFacts.consistent_empty id o Hobj) as Hc.
  split; [exact Hc|]. by apply LegacyFacts.is_finished_consistent.
Qed.

Lemma is_finished_never_asserts_witness :
  (finished_obj (mkObj (Some (VInt 1)) None finished [] (Some (mkTask FClosed None 2)))
     = true ->
   _state (mkObj (Some (VInt 1)) None finished [] (Some (mkTask FClosed None 2)))
     = finished) /\
  is_finished 1 (run_ops [ONewGroup; OSpawn 0 (CReturn (VInt 1)); OTurn] empty_world)
    = (Ok (finished_obj
             (mkObj (Some (VInt 1)) None finished [] (Some (mkTask FClosed None 2)))),
       run_ops [ONewGroup; OSpawn 0 (CReturn (VInt 1)); OTurn] empty_world).
Proof.
  apply (is_finished_never_asserts
           [ONewGroup; OSpawn 0 (CReturn (VInt 1)); OTurn] 1
           (mkObj (Some (VInt 1)) None finished [] (Some (mkTask FClosed None 2)))).
  reflexivity.
Defined.

(** X23: [shield] mirrors a value and an exception other than
    [Cancelled].  For an unfinished plain future nobody subscribed to,
    with nothing ready: after [shield], completing the future with
    [set_result] or with [set_exception] and one loop turn, the
    shielding future is finished and awaiting it gives the same value or
    raises the same exception; no exception reached the loop. *)
Theorem shield_mirrors_outcome (w : world) (f : nat) (o : fobj) (out : outcome) :
  Loop.ready (loop w) = [] ->
  objs w !! f = Some o -> task_of o = None -> finished_obj o = false ->
  _result_callbacks o = [] -> f <> next_id w ->
  match out with Returned _ => True | Raised e => is_Cancelled e = false end ->
  exists w3,
    drain 1 (snd ((s <- shield f ;;
                   attempt f (match out with
                              | Returned v => SetResult v
                              | Raised e => SetException e
                              end)) w)) = w3 /\
    await_outcome (next_id w) w3 = (Ok out, w3) /\
    Loop.ready (loop w3) = [] /\
    loop_errors w3 = loop_errors w.
Proof.
  intros Hidle Hobj Hplain Hp Hcbs Hne Hout.
  unfold bind at 1. rewrite (LegacyFacts.shield_pending w f o Hobj Hp Hcbs Hne).
  set (s := next_id w).
  set (w1 := set_objs _ _).
  assert (Hf1 : objs w1 !! f = Some (set__result_callbacks [CbFutureDone f s] o))
    by apply lookup_insert_eq.
  assert (Hs1 : objs w1 !! s = Some new_future).
  { unfold w1. simpl. rewrite lookup_insert_ne by done. apply lookup_insert_eq. }
  assert (Hset : exists w2,
     attempt f (match out with
                | Returned v => SetResult v
                | Raised e => SetException e
                end) w1 = (Ok tt, w2) /\
     objs w2 = <[f := mkObj (match out with Returned v => Some v | Raised _ => None end)
                        (match out with Returned _ => None | Raised e => Some e end)
                        finished [CbFutureDone f s] None]> (objs w1) /\
     Loop.ready (loop w2) = [(Loop.next_handle (loop w), ECallback (CbFutureDone f s) f)] /\
     Loop.next_handle (loop w2) = S (Loop.next_handle (loop w)) /\
     loop_errors w2 = loop_errors w).
  { assert (Hgen : forall v e, (v <> None \/ e <> None) ->
       exists w2, _set_result f v e w1 = (Ok tt, w2) /\
         objs w2 = <[f := mkObj v e finished [CbFutureDone f s] None]> (objs w1) /\
         Loop.ready (loop w2)
           = [(Loop.next_handle (loop w), ECallback (CbFutureDone f s) f)] /\
         Loop.next_handle (loop w2) = S (Loop.next_handle (loop w)) /\
         loop_errors w2 = loop_errors w).
    { intros v e Hve. unfold _set_result. unfold bind at 1.
      rewrite (LegacyFacts.deref_eq _ _ _ Hf1). cbn [set__result_callbacks task_of].
      rewrite Hplain.
      erewrite LegacyFacts.Future__set_result_pending; [| exact Hf1 | exact Hp | exact Hve].
      eexists. split; [reflexivity|]. cbn. rewrite Hplain, Hidle. cbn.
      repeat split. f_equal. lia. }
    destruct out as [v|e]; cbn [attempt].
    - apply (Hgen (Some v) None). left. discriminate.
    - unfold Promise_set_exception. rewrite Hout.
      apply (Hgen None (Some e)). right. discriminate. }
  destruct Hset as (w2 & Hatt & Ho2 & Hr2 & Hn2 & He2).
  rewrite Hatt. cbn [snd].
  assert (Hf2 : objs w2 !! f
     = Some (mkObj (match out with Returned v => Some v | Raised _ => None end)
               (match out with Returned _ => None | Raised e => Some e end)
               finished [CbFutureDone f s] None)).
  { rewrite Ho2. apply lookup_insert_eq. }
  assert (Hs2 : objs w2 !! s = Some new_future).
  { rewrite Ho2. rewrite lookup_insert_ne by done. exact Hs1. }
  assert (H3 : exists w3, run_once w2 = Some w3 /\
     objs w3 !! s
       = Some (mkObj (match out with Returned v => Some v | Raised _ => None end)
                 (match out with Returned _ => None | Raised e => Some e end)
                 finished [] None) /\
     Loop.ready (loop w3) = [] /\ loop_errors w3 = loop_errors w).
  { destruct out as [v|e].
    - destruct (LegacyFacts.turn_future_done w2 _ f f s _ new_future v Hr2 Hf2)
        as (w3 & Hrun & Ho3 & Hr3 & _ & He3); try done.
      exists w3. split; [exact Hrun|]. rewrite Ho3. split; [apply lookup_insert_eq|].
      split; [exact Hr3 | congruence].
    - destruct (LegacyFacts.turn_future_done_exc w2 _ f f s _ new_future e Hr2 Hf2)
        as (w3 & Hrun & Ho3 & Hr3 & _ & He3); try done.
      exists w3. split; [exact Hrun|]. rewrite Ho3. split; [apply lookup_insert_eq|].
      split; [exact Hr3 | congruence]. }
  destruct H3 as (w3 & Hrun & Hs3 & Hr3 & He3).
  exists w3. split; [cbn [drain]; by rewrite Hrun|]. split; [|done].
  unfold await_outcome, await_resume. unfold bind at 1.
  erewrite LegacyFacts.is_finished_settled;
    [| exact Hs3 | split; [by destruct out | reflexivity]].
  cbn [negb]. unfold bind. rewrite (LegacyFacts.deref_eq _ _ _ Hs3).
  by destruct out.
Qed.

Lemma shield_mirrors_outcome_witness :
  exists w3,
    drain 1 (snd ((s <- shield 0 ;; attempt 0 (SetException (UserExc 5 "E")))
                    LegacyExamples.w_pending)) = w3 /\
    await_outcome 1 w3 = (Ok (Raised (UserExc 5 "E")), w3) /\
    Loop.ready (loop w3) = [] /\
    loop_errors w3 = [].
Proof.
  apply (shield_mirrors_outcome LegacyExamples.w_pending 0 new_future
           (Raised (UserExc 5 "E"))); try reflexivity. vm_compute. lia.
Defined.
End LegacyExtras.

(** * Further properties of aio/future/pure.py *)

Module PureExtras.
Import Pure.
Local Open Scope m_scope.
Local Open Scope list_scope.
Local Arguments _cancel : simpl never.


(** X12: [set_result] on a pending plain future returns normally, hands
    the subscribed callbacks to the loop once each, in the order of their
    subscription and behind what was ready, and from then on [result]
    returns the value, [exception] returns None, the future is finished
    and not cancelled; reading changes nothing. *)
Theorem set_result_then_read (w : world) (id : nat) (cbs : list callback) (v : val) :
  objs w !! id = Some (mkObj KFuture (PendingState cbs)) ->
  exists w1, Promise_set_result (mkPromise id) v w = (Ok tt, w1) /\
    result id w1 = (Ok v, w1) /\
    exception id w1 = (Ok None, w1) /\
    is_finished id w1 = (Ok true, w1) /\
    is_cancelled id w1 = (Ok false, w1) /\
    Loop.ready (loop w1)
      = Loop.ready (loop w) ++ entries_from (Loop.next_handle (loop w)) id cbs.
Proof.
  intros Hobj. eexists. split.
  { unfold Promise_set_result. cbn [_fut].
    apply (PureFacts._set_result_pending_value w id cbs v Hobj). }
  assert (Hobj1 : objs
      (set_state id (SuccessState v (handles_from (Loop.next_handle (loop w)) cbs))
         (set_loop (enqueue (entries_from (Loop.next_handle (loop w)) id cbs)) w))
      !! id = Some (mkObj KFuture
                      (SuccessState v (handles_from (Loop.next_handle (loop w)) cbs)))).
  { by rewrite (PureFacts.lookup_set_state _ id (mkObj KFuture (PendingState cbs))). }
  repeat split.
  - unfold result. unfold bind. by rewrite (PureFacts.state_of_eq _ _ _ Hobj1).
  - unfold exception. unfold bind. by rewrite (PureFacts.state_of_eq _ _ _ Hobj1).
  - unfold is_finished. unfold bind. by rewrite (PureFacts.state_of_eq _ _ _ Hobj1).
  - unfold is_cancelled. unfold bind. by rewrite (PureFacts.state_of_eq _ _ _ Hobj1).
Qed.

Lemma set_result_then_read_witness :
  exists w1,
    Promise_set_result (mkPromise 0) (VInt 1) PureExamples.w_pending = (Ok tt, w1) /\
    result 0 w1 = (Ok (VInt 1), w1) /\
    exception 0 w1 = (Ok None, w1) /\
    is_finished 0 w1 = (Ok true, w1) /\
    is_cancelled 0 w1 = (Ok false, w1) /\
    Loop.ready (loop w1)
      = Loop.ready (loop PureExamples.w_pending) ++ entries_from 0 0 [CbUser 7].
Proof.
  apply (set_result_then_read PureExamples.w_pending 0 [CbUser 7] (VInt 1)).
  reflexivity.
Defined.

(** X13: [set_exception] with an exception that is not a [Cancelled] on a
    pending plain future returns normally and hands the callbacks to the
    loop like [set_result]; afterwards [result] raises that exception,
    [exception] returns it, the future is not cancelled, and reading the
    exception marks it as retrieved on the future. *)
Theorem set_exception_then_read (w : world) (id : nat) (cbs : list callback) (e : exn) :
  objs w !! id = Some (mkObj KFuture (PendingState cbs)) ->
  is_Cancelled e = false ->
  exists w1, Promise_set_exception (mkPromise id) e w = (Ok tt, w1) /\
    objs w1 !! id
      = Some (mkObj KFuture
                (FailedState e false (handles_from (Loop.next_handle (loop w)) cbs))) /\
    fst (result id w1) = Err e /\
    fst (exception id w1) = Ok (Some e) /\
    objs (snd (exception id w1)) !! id
      = Some (mkObj KFuture
                (FailedState e true (handles_from (Loop.next_handle (loop w)) cbs))) /\
    is_cancelled id w1 = (Ok false, w1) /\
    Loop.ready (loop w1)
      = Loop.ready (loop w) ++ entries_from (Loop.next_handle (loop w)) id cbs.
Proof.
  intros Hobj Hc. eexists. split.
  { unfold Promise_set_exception. rewrite Hc. cbn [_fut].
    apply (PureFacts._set_result_pending_future w id cbs e Hobj). }
  assert (Hobj1 : objs
      (set_state id (FailedState e false (handles_from (Loop.next_handle (loop w)) cbs))
         (set_loop (enqueue (entries_from (Loop.next_handle (loop w)) id cbs)) w))
      !! id = Some (mkObj KFuture
                      (FailedState e false (handles_from (Loop.next_handle (loop w)) cbs)))).
  { by rewrite (PureFacts.lookup_set_state _ id (mkObj KFuture (PendingState cbs))). }
  split; [exact Hobj1|]. repeat split.
  - unfold result. unfold bind. by rewrite (PureFacts.state_of_eq _ _ _ Hobj1).
  - unfold exception. unfold bind. by rewrite (PureFacts.state_of_eq _ _ _ Hobj1).
  - unfold exception. unfold bind. rewrite (PureFacts.state_of_eq _ _ _ Hobj1).
    cbn [ostate modify snd ret].
    by rewrite (PureFacts.lookup_set_state _ _ _ _ Hobj1).
  - unfold is_cancelled. unfold bind. rewrite (PureFacts.state_of_eq _ _ _ Hobj1).
    cbn [ostate is_cancelled_state ret]. by rewrite Hc.
Qed.

Lemma set_exception_then_read_witness :
  exists w1,
    Promise_set_exception (mkPromise 0) (UserExc 5 "E") PureExamples.w_pending
      = (Ok tt, w1) /\
    objs w1 !! 0 = Some (mkObj KFuture (FailedState (UserExc 5 "E") false [(CbUser 7, 0)])) /\
    fst (result 0 w1) = Err (UserExc 5 "E") /\
    fst (exception 0 w1) = Ok (Some (UserExc 5 "E")) /\
    objs (snd (exception 0 w1)) !! 0
      = Some (mkObj KFuture (FailedState (UserExc 5 "E") true [(CbUser 7, 0)])) /\
    is_cancelled 0 w1 = (Ok false, w1) /\
    Loop.ready (loop w1)
      = Loop.ready (loop PureExamples.w_pending) ++ entries_from 0 0 [CbUser 7].
Proof.
  apply (set_exception_then_read PureExamples.w_pending 0 [CbUser 7] (UserExc 5 "E"));
    reflexivity.
Defined.

(** X14: subscribing the same callback twice in a row is the same as
    subscribing it once, on any future or task and in any state: while
    pending the key keeps its place in the callback dict, once terminal
    both calls are refused. *)
Theorem add_callback_idempotent (w : world) (id : nat) (cb : callback) :
  (add_callback id cb ;;; add_callback id cb) w = add_callback id cb w.
Proof.
  unfold bind at 1. destruct (objs w !! id) as [o|] eqn:Hobj.
  2:{ unfold add_callback, bind, state_of, bind, deref. by rewrite Hobj. }
  destruct (is_pending_state (ostate o)) eqn:Hp.
  - rewrite (PureFacts.add_callback_pending_spec w id o cb Hobj Hp).
    erewrite PureFacts.add_callback_pending_spec;
      [| apply (PureFacts.lookup_set_state _ _ _ _ Hobj)
       | cbn [ostate]; by rewrite PureFacts.is_pending_with_callbacks].
    cbn [ostate]. rewrite PureFacts.result_callbacks_with_callbacks by done.
    rewrite PureFacts.dict_set_idem, PureFacts.with_callbacks_twice.
    by rewrite (PureFacts.set_state_set_state _ _ _ _ _ Hobj).
  - by rewrite (PureFacts.add_callback_terminal w id o Hobj Hp).
Qed.

(** X15: on a pending future or task, [add_callback] of a callback that
    is not subscribed followed by [remove_callback] of it returns
    normally and gives back the store as it was. *)
Theorem add_then_remove_is_identity (w : world) (id : nat) (o : fobj) (cb : callback) :
  objs w !! id = Some o -> is_pending_state (ostate o) = true ->
  dict_has cb (result_callbacks_of (ostate o)) = false ->
  (add_callback id cb ;;; remove_callback id cb) w = (Ok tt, w).
Proof.
  intros Hobj Hp Hhas. unfold bind at 1.
  rewrite (PureFacts.add_callback_pending_spec w id o cb Hobj Hp).
  unfold remove_callback, bind.
  erewrite PureFacts.state_of_eq; [|apply (PureFacts.lookup_set_state _ _ _ _ Hobj)].
  cbn [ostate]. rewrite PureFacts.is_pending_with_callbacks, Hp.
  rewrite PureFacts.result_callbacks_with_callbacks by done.
  rewrite PureFacts.with_callbacks_twice, (PureFacts.dict_del_set_absent _ _ Hhas).
  rewrite PureFacts.with_callbacks_same. unfold modify.
  rewrite (PureFacts.set_state_set_state _ _ _ _ _ Hobj).
  by rewrite (PureFacts.set_state_same _ _ _ Hobj).
Qed.

Lemma add_then_remove_is_identity_witness :
  (add_callback 0 (CbUser 9) ;;; remove_callback 0 (CbUser 9)) PureExamples.w_pending
  = (Ok tt, PureExamples.w_pending).
Proof.
  apply (add_then_remove_is_identity PureExamples.w_pending 0
           (mkObj KFuture (PendingState [CbUser 7])) (CbUser 9)); reflexivity.
Defined.

(** X16: [create_task] followed by [Task.cancel] before the loop ran,
    on a loop whose next handle is fresh: both calls return normally, the
    task fails with the [Cancelled] made from the argument, and the
    first step is revoked: the ready queue is what it was before
    [create_task], so the coroutine is never resumed.  No other object is
    touched. *)
Theorem cancel_revokes_first_step (body : coro) (a : cancel_arg) (w : world) :
  Loop.is_executed (Loop.next_handle (loop w)) (loop w) = false ->
  Loop.pending (Loop.next_handle (loop w)) (loop w) = false ->
  exists e w2,
    fst (coerce_cancel_arg a w) = Ok e /\ is_Cancelled e = true /\
    (t <- create_task (FCreated body) ;; Task_cancel t a ;;; ret t) w
      = (Ok (next_id w), w2) /\
    objs w2 !! next_id w = Some (mkObj KTask (FailedState e false [])) /\
    (forall i, i <> next_id w -> objs w2 !! i = objs w !! i) /\
    Loop.ready (loop w2) = Loop.ready (loop w) /\
    calls w2 = calls w /\ loop_errors w2 = loop_errors w.
Proof.
  intros Hx Hp.
  destruct (PureFacts.cancel_created_task_pure body a w Hx Hp)
    as (e & w2 & Hco & Hc & Hcancel & Ho & Hr & _ & _ & Hca & Hle & _).
  exists e, w2. split; [exact Hco|]. split; [exact Hc|]. split.
  { unfold bind at 1. rewrite PureFacts.create_task_spec.
    unfold bind. by rewrite Hcancel. }
  rewrite Ho. split; [apply lookup_insert_eq|]. split; [|done].
  intros i Hi. by rewrite lookup_insert_ne.
Qed.

Lemma cancel_revokes_first_step_witness :
  exists e w2,
    fst (coerce_cancel_arg (CMsg "stop") empty_world) = Ok e /\ is_Cancelled e = true /\
    (t <- create_task (FCreated (CReturn (VInt 1))) ;;
     Task_cancel t (CMsg "stop") ;;; ret t) empty_world = (Ok 0, w2) /\
    objs w2 !! 0 = Some (mkObj KTask (FailedState e false [])) /\
    (forall i, i <> 0 -> objs w2 !! i = objs empty_world !! i) /\
    Loop.ready (loop w2) = [] /\
    calls w2 = [] /\ loop_errors w2 = [].
Proof.
  apply (cancel_revokes_first_step (CReturn (VInt 1)) (CMsg "stop") empty_world);
    reflexivity.
Defined.

(** X17: the task that [create_task] returned is scheduled, and
    [_schedule_first_step] on it is refused with the RuntimeError: it
    leaves the store as [create_task] left it and queues no second step. *)
Theorem schedule_first_step_only_once (body : coro) (w : world) :
  (t <- create_task (FCreated body) ;; Task__schedule_first_step t) w
  = (Err (RuntimeError "Only newly created tasks can be scheduled for first step"),
     snd (create_task (FCreated body) w)).
Proof.
  unfold bind at 1. rewrite PureFacts.create_task_spec. cbn [snd].
  unfold Task__schedule_first_step, bind.
  erewrite PureFacts.state_of_eq; [|simpl; apply lookup_insert_eq]. reflexivity.
Qed.

(** X18: a task whose body awaits the task itself.  With nothing else
    ready, the first loop turn resumes the coroutine, the RuntimeError of
    [_execute_coroutine_step] reaches the loop, and the task is left
    unfinished with nothing ready: however long the loop runs, the task
    does not finish. *)
Theorem self_await_never_finishes (k : outcome -> coro) (w : world) (m : nat) :
  Loop.ready (loop w) = [] ->
  loop_errors (drain (S m) (snd (create_task (FCreated (CAwait (next_id w) k)) w)))
    = loop_errors w ++ [RuntimeError "Task awaiting on itself"] /\
  fst (is_finished (next_id w)
         (drain (S m) (snd (create_task (FCreated (CAwait (next_id w) k)) w))))
    = Ok false /\
  Loop.ready (loop (drain (S m)
                      (snd (create_task (FCreated (CAwait (next_id w) k)) w)))) = [].
Proof.
  intros Hidle. rewrite PureFacts.create_task_spec. cbn [snd].
  set (w1 := created_task (FCreated (CAwait (next_id w) k)) w).
  assert (Hd : exists w2, run_once w1 = Some w2 /\
            loop_errors w2 = loop_errors w ++ [RuntimeError "Task awaiting on itself"] /\
            objs w2 !! next_id w
              = Some (mkObj KTask
                        (ScheduledState [] (FSuspended (next_id w) k)
                           (Loop.next_handle (loop w)))) /\
            Loop.ready (loop w2) = []).
  { unfold run_once, Loop.pop. cbn [w1 created_task loop Loop.ready].
    rewrite Hidle. cbn [app run_entry].
    erewrite PureFacts.step_self_await; [|simpl; apply lookup_insert_eq].
    eexists. split; [reflexivity|]. cbn. rewrite lookup_insert_eq. cbn.
    by rewrite lookup_insert_eq. }
  destruct Hd as (w2 & Hrun & He & Ho & Hr).
  assert (Hdr : drain (S m) w1 = w2).
  { cbn [drain]. rewrite Hrun. by apply PureFacts.drain_quiescent. }
  rewrite Hdr. split; [exact He|]. split; [|exact Hr].
  unfold is_finished, bind. by rewrite (PureFacts.state_of_eq _ _ _ Ho).
Qed.

Lemma self_await_never_finishes_witness :
  loop_errors (drain 5 (snd (create_task (FCreated (CAwait 0 PureExamples.forward))
                               empty_world)))
    = [RuntimeError "Task awaiting on itself"] /\
  fst (is_finished 0
         (drain 5 (snd (create_task (FCreated (CAwait 0 PureExamples.forward))
                          empty_world)))) = Ok false /\
  Loop.ready (loop (drain 5 (snd (create_task (FCreated (CAwait 0 PureExamples.forward))
                                    empty_world)))) = [].
Proof.
  apply (self_await_never_finishes PureExamples.forward empty_world 4). reflexivity.
Defined.

(** X19: [Task.cancel] on a task whose awaited future is already
    finished, with the wake-up of the task the only ready callback and a
    body that lets a [Cancelled] raised at its await propagate.  The call
    returns normally; it revokes the wake-up and queues one step that
    carries the [Cancelled] made from the argument.  After that loop turn
    the task has failed with this very instance, the awaited future
    holds what it held (only the revoked callback is gone from its
    bookkeeping), the task's callbacks are all that is ready, and no
    exception reached the loop. *)
Theorem cancel_after_inner_finished (w : world) (t inner h : nat) (oi : fobj)
    (cbs_t : list callback) (k : outcome -> coro) (sch' : list (callback * nat))
    (a : cancel_arg) :
  t <> inner ->
  objs w !! t = Some (mkObj KTask (RunningState cbs_t (FSuspended inner k) inner)) ->
  objs w !! inner = Some oi ->
  is_pending_state (ostate oi) = false ->
  sched_pop (CbStep t) (scheduled_cbs_of (ostate oi)) = Some (h, sch') ->
  Loop.ready (loop w) = [(h, ECallback (CbStep t) inner)] ->
  (forall e, is_Cancelled e = true -> k (Raised e) = CRaise e) ->
  exists e w1,
    fst (coerce_cancel_arg a w) = Ok e /\
    Task_cancel t a w = (Ok tt, w1) /\
    Loop.ready (loop w1) = [(Loop.next_handle (loop w), EStep t (Some e))] /\
    objs (drain 1 w1) !! t
      = Some (mkObj KTask
                (FailedState e false
                   (handles_from (S (Loop.next_handle (loop w))) cbs_t))) /\
    objs (drain 1 w1) !! inner
      = Some (mkObj (okind oi) (with_scheduled sch' (ostate oi))) /\
    Loop.ready (loop (drain 1 w1))
      = entries_from (S (Loop.next_handle (loop w))) t cbs_t /\
    loop_errors (drain 1 w1) = loop_errors w.
Proof.
  intros Hne Ht Hi Hterm Hpop Hready Hk.
  set (wr := set_loop (Loop.cancel h)
               (set_state inner (with_scheduled sch' (ostate oi)) w)).
  destruct (PureFacts.coerce_cancel_arg_spec a w) as (e & wa & Hco & _ & Hc & _).
  destruct (PureFacts.coerce_cancel_arg_spec a wr) as (e' & wc & Hco' & Hsame & _).
  assert (He : e' = e).
  { destruct a; simpl in Hco, Hco'; unfold fresh_Cancelled, ret in *;
      injection Hco as <- _; injection Hco' as <- _; reflexivity. }
  subst e'. destruct Hsame as (Ho & Hl & Hca & Hle & Hn).
  exists e. eexists. split; [by rewrite Hco|]. split.
  { apply (PureFacts.inner_cancel_call w t inner h oi cbs_t k sch' a Ht Hi Hterm Hpop
             e wc Hco'). }
  set (w1 := set_loop (fun l => snd (Loop.call_soon (EStep t (Some e)) l)) wc).
  assert (Hr1 : Loop.ready (loop w1) = [(Loop.next_handle (loop w), EStep t (Some e))]).
  { unfold w1. cbn [loop set_loop Loop.call_soon snd Loop.ready]. rewrite Hl.
    unfold wr. cbn [loop set_loop]. rewrite PureFacts.loop_set_state.
    cbn [Loop.cancel Loop.ready Loop.next_handle]. rewrite Hready. cbn.
    by rewrite Nat.eqb_refl. }
  split; [exact Hr1|].
  assert (Hnh : Loop.next_handle (loop w1) = S (Loop.next_handle (loop w))).
  { unfold w1. cbn [loop set_loop Loop.call_soon snd Loop.next_handle]. rewrite Hl.
    unfold wr. cbn [loop set_loop]. by rewrite PureFacts.loop_set_state. }
  assert (Ht1 : forall l, objs (set_loop l w1) !! t
      = Some (mkObj KTask (RunningState cbs_t (FSuspended inner k) inner))).
  { intros l. cbn [objs set_loop w1]. rewrite Ho. unfold wr. cbn [objs set_loop].
    rewrite PureFacts.lookup_set_state_ne by done. exact Ht. }
  assert (Hi1 : forall l, objs (set_loop l w1) !! inner
      = Some (mkObj (okind oi) (with_scheduled sch' (ostate oi)))).
  { intros l. cbn [objs set_loop w1]. rewrite Ho. unfold wr. cbn [objs set_loop].
    by rewrite (PureFacts.lookup_set_state _ _ _ _ Hi). }
  assert (Hd : exists w2, run_once w1 = Some w2 /\
     objs w2 !! t = Some (mkObj KTask
        (FailedState e false (handles_from (S (Loop.next_handle (loop w))) cbs_t))) /\
     objs w2 !! inner = Some (mkObj (okind oi) (with_scheduled sch' (ostate oi))) /\
     Loop.ready (loop w2) = entries_from (S (Loop.next_handle (loop w))) t cbs_t /\
     loop_errors w2 = loop_errors w).
  { unfold run_once, Loop.pop. rewrite Hr1. cbn [run_entry].
    match goal with
    | |- context [Task__execute_coroutine_step t (Some e) (set_loop ?l w1)] =>
        destruct (PureFacts.step_inner_cancel (set_loop l w1) t inner _ cbs_t k e
                    (Ht1 l) (Hi1 l))
          as (w2 & Hstep & Ht2 & Ho2 & Hl2 & Hc2 & He2)
    end.
    { cbn [ostate]. by destruct (ostate oi). }
    { by apply Hk. }
    rewrite Hstep. exists w2. split; [reflexivity|].
    cbn [loop set_loop Loop.next_handle] in Ht2, Hl2. rewrite Hnh in Ht2, Hl2.
    split; [exact Ht2|]. split; [|split].
    - rewrite Ho2 by congruence. apply (Hi1 (fun l => l)).
    - rewrite Hl2. reflexivity.
    - rewrite He2. cbn [loop_errors set_loop w1]. rewrite Hle. reflexivity. }
  destruct Hd as (w2 & Hrun & H2t & H2i & H2r & H2e).
  cbn [drain]. fold w1. rewrite Hrun. done.
Qed.

Lemma cancel_after_inner_finished_witness :
  exists e w1,
    fst (coerce_cancel_arg (CMsg "stop") PureExamples.w_woken) = Ok e /\
    Task_cancel 1 (CMsg "stop") PureExamples.w_woken = (Ok tt, w1) /\
    Loop.ready (loop w1) = [(2, EStep 1 (Some e))] /\
    objs (drain 1 w1) !! 1 = Some (mkObj KTask (FailedState e false [])) /\
    objs (drain 1 w1) !! 0 = Some (mkObj KFuture (SuccessState (VInt 1) [])) /\
    Loop.ready (loop (drain 1 w1)) = [] /\
    loop_errors (drain 1 w1) = [].
Proof.
  apply (cancel_after_inner_finished PureExamples.w_woken 1 0 1
           (mkObj KFuture (SuccessState (VInt 1) [(CbStep 1, 1)])) []
           PureExamples.forward [] (CMsg "stop"));
    try reflexivity; lia.
Defined.

(** X21: cancelling such a task a second time before the loop ran.  The
    second [Task.cancel] also returns normally and queues a second step.
    The first step ends the task with the [Cancelled] of the first call;
    the second step finds the task finished, and its RuntimeError is the
    one exception that reaches the loop.  The task keeps the result of
    the first cancellation. *)
Theorem cancel_twice_after_inner_finished (w : world) (t inner h : nat) (oi : fobj)
    (cbs_t : list callback) (k : outcome -> coro) (sch' : list (callback * nat))
    (a1 a2 : cancel_arg) :
  t <> inner ->
  objs w !! t = Some (mkObj KTask (RunningState cbs_t (FSuspended inner k) inner)) ->
  objs w !! inner = Some oi ->
  is_pending_state (ostate oi) = false ->
  sched_pop (CbStep t) (scheduled_cbs_of (ostate oi)) = Some (h, sch') ->
  Loop.ready (loop w) = [(h, ECallback (CbStep t) inner)] ->
  (forall e, is_Cancelled e = true -> k (Raised e) = CRaise e) ->
  exists e1 w2,
    fst (coerce_cancel_arg a1 w) = Ok e1 /\
    (Task_cancel t a1 ;;; Task_cancel t a2) w = (Ok tt, w2) /\
    length (Loop.ready (loop w2)) = 2 /\
    objs (drain 2 w2) !! t
      = Some (mkObj KTask
                (FailedState e1 false
                   (handles_from (S (S (Loop.next_handle (loop w)))) cbs_t))) /\
    Loop.ready (loop (drain 2 w2))
      = entries_from (S (S (Loop.next_handle (loop w)))) t cbs_t /\
    loop_errors (drain 2 w2)
      = loop_errors w ++ [RuntimeError "Trying to resume finished task"].
Proof.
  intros Hne Ht Hi Hterm Hpop Hready Hk.
  (* the first call *)
  set (wr := set_loop (Loop.cancel h)
               (set_state inner (with_scheduled sch' (ostate oi)) w)).
  destruct (PureFacts.Task_cancel_inner_finished w wr t inner oi cbs_t k a1 Ht Hi Hterm)
    as (e1 & wc1 & Hco1 & Hsame1 & Hc1 & Hcall1).
  { apply (PureFacts.inner_cancel_remove w t inner h oi sch' Hi Hterm Hpop). }
  destruct Hsame1 as (Ho1 & Hl1 & Hca1 & Hle1 & Hn1).
  set (w1 := set_loop (fun l => snd (Loop.call_soon (EStep t (Some e1)) l)) wc1) in *.
  assert (Hlr : loop wr = Loop.cancel h (loop w)) by reflexivity.
  assert (Ht1 : objs w1 !! t
      = Some (mkObj KTask (RunningState cbs_t (FSuspended inner k) inner))).
  { cbn [objs set_loop w1]. rewrite Ho1. unfold wr. cbn [objs set_loop].
    rewrite PureFacts.lookup_set_state_ne by done. exact Ht. }
  assert (Hi1 : objs w1 !! inner
      = Some (mkObj (okind oi) (with_scheduled sch' (ostate oi)))).
  { cbn [objs set_loop w1]. rewrite Ho1. unfold wr. cbn [objs set_loop].
    by rewrite (PureFacts.lookup_set_state _ _ _ _ Hi). }
  assert (Hterm1 : is_pending_state (with_scheduled sch' (ostate oi)) = false)
    by by destruct (ostate oi).
  assert (Hr1 : Loop.ready (loop w1)
                = [(Loop.next_handle (loop w), EStep t (Some e1))]).
  { unfold w1. cbn [loop set_loop Loop.call_soon snd Loop.ready]. rewrite Hl1, Hlr.
    cbn [Loop.cancel Loop.ready Loop.next_handle]. rewrite Hready. cbn.
    by rewrite Nat.eqb_refl. }
  assert (Hnh1 : Loop.next_handle (loop w1) = S (Loop.next_handle (loop w))).
  { unfold w1. cbn [loop set_loop Loop.call_soon snd Loop.next_handle].
    by rewrite Hl1, Hlr. }
  assert (Hle1' : loop_errors w1 = loop_errors w).
  { unfold w1. cbn [loop_errors set_loop]. by rewrite Hle1. }
  (* the second call *)
  destruct (PureFacts.Task_cancel_inner_finished w1 w1 t inner _ cbs_t k a2 Ht1 Hi1 Hterm1)
    as (e2 & wc2 & Hco2 & Hsame2 & Hc2 & Hcall2).
  { apply (PureFacts.remove_callback_unregistered _ _ _ _ Hi1).
    unfold registered. cbn [ostate]. rewrite Hterm1.
    assert (Hs : scheduled_cbs_of (with_scheduled sch' (ostate oi)) = sch')
      by (destruct (ostate oi); try discriminate Hterm; reflexivity).
    rewrite Hs. by rewrite (PureFacts.sched_pop_after _ _ _ _ Hpop). }
  destruct Hsame2 as (Ho2 & Hl2 & Hca2 & Hle2 & Hn2).
  set (w2 := set_loop (fun l => snd (Loop.call_soon (EStep t (Some e2)) l)) wc2) in *.
  assert (Hr2 : Loop.ready (loop w2)
      = [(Loop.next_handle (loop w), EStep t (Some e1));
         (S (Loop.next_handle (loop w)), EStep t (Some e2))]).
  { unfold w2. cbn [loop set_loop Loop.call_soon snd Loop.ready].
    by rewrite Hl2, Hr1, Hnh1. }
  assert (Hnh2 : Loop.next_handle (loop w2) = S (S (Loop.next_handle (loop w)))).
  { unfold w2. cbn [loop set_loop Loop.call_soon snd Loop.next_handle].
    by rewrite Hl2, Hnh1. }
  assert (Ht2 : forall l, objs (set_loop l w2) !! t
      = Some (mkObj KTask (RunningState cbs_t (FSuspended inner k) inner))).
  { intros l. cbn [objs set_loop w2]. by rewrite Ho2. }
  assert (Hi2 : forall l, objs (set_loop l w2) !! inner
      = Some (mkObj (okind oi) (with_scheduled sch' (ostate oi)))).
  { intros l. cbn [objs set_loop w2]. by rewrite Ho2. }
  assert (Hle2' : loop_errors w2 = loop_errors w).
  { unfold w2. cbn [loop_errors set_loop]. by rewrite Hle2. }
  exists e1, w2. split.
  { rewrite (PureFacts.coerce_cancel_arg_next_exc a1 wr w eq_refl). by rewrite Hco1. }
  split.
  { unfold bind. rewrite Hcall1. exact Hcall2. }
  split; [by rewrite Hr2|].
  (* the first step *)
  assert (Hd1 : exists w3, run_once w2 = Some w3 /\
     objs w3 !! t = Some (mkObj KTask
        (FailedState e1 false (handles_from (S (S (Loop.next_handle (loop w)))) cbs_t))) /\
     Loop.ready (loop w3)
       = (S (Loop.next_handle (loop w)), EStep t (Some e2))
         :: entries_from (S (S (Loop.next_handle (loop w)))) t cbs_t /\
     loop_errors w3 = loop_errors w).
  { unfold run_once, Loop.pop. rewrite Hr2. cbn [run_entry].
    match goal with
    | |- context [Task__execute_coroutine_step t (Some e1) (set_loop ?l w2)] =>
        destruct (PureFacts.step_inner_cancel (set_loop l w2) t inner _ cbs_t k e1
                    (Ht2 l) (Hi2 l) Hterm1 (Hk e1 Hc1))
          as (w3 & Hstep & Ht3 & Ho3 & Hl3 & Hc3 & He3)
    end.
    rewrite Hstep. exists w3. split; [reflexivity|].
    cbn [loop set_loop Loop.next_handle] in Ht3, Hl3. rewrite Hnh2 in Ht3, Hl3.
    split; [exact Ht3|]. split.
    - rewrite Hl3. reflexivity.
    - rewrite He3. exact Hle2'. }
  destruct Hd1 as (w3 & Hrun1 & H3t & H3r & H3e).
  (* the second step *)
  assert (Hd2 : exists w4, run_once w3 = Some w4 /\
     objs w4 !! t = Some (mkObj KTask
        (FailedState e1 false (handles_from (S (S (Loop.next_handle (loop w)))) cbs_t))) /\
     Loop.ready (loop w4) = entries_from (S (S (Loop.next_handle (loop w)))) t cbs_t /\
     loop_errors w4 = loop_errors w ++ [RuntimeError "Trying to resume finished task"]).
  { unfold run_once, Loop.pop. rewrite H3r. cbn [run_entry].
    erewrite PureFacts.step_finished_task; [| exact H3t | reflexivity].
    eexists. split; [reflexivity|]. cbn. by rewrite H3e. }
  destruct Hd2 as (w4 & Hrun2 & H4t & H4r & H4e).
  cbn [drain]. rewrite Hrun1, Hrun2. done.
Qed.

Lemma cancel_twice_after_inner_finished_witness :
  exists e1 w2,
    fst (coerce_cancel_arg (CMsg "first") PureExamples.w_woken) = Ok e1 /\
    (Task_cancel 1 (CMsg "first") ;;; Task_cancel 1 (CMsg "second")) PureExamples.w_woken
      = (Ok tt, w2) /\
    length (Loop.ready (loop w2)) = 2 /\
    objs (drain 2 w2) !! 1 = Some (mkObj KTask (FailedState e1 false [])) /\
    Loop.ready (loop (drain 2 w2)) = [] /\
    loop_errors (drain 2 w2) = [RuntimeError "Trying to resume finished task"].
Proof.
  apply (cancel_twice_after_inner_finished PureExamples.w_woken 1 0 1
           (mkObj KFuture (SuccessState (VInt 1) [(CbStep 1, 1)])) []
           PureExamples.forward [] (CMsg "first") (CMsg "second"));
    try reflexivity; lia.
Defined.

(** X22: a task that awaits a pending future and returns.  With nothing
    ready and a future nobody subscribed to, [create_task] and one loop
    turn leave the task unfinished, suspended at its await;
    [set_result] on the future and one more loop turn resume the body
    with the value, and the task completes with what the body returns:
    [result] returns it, nothing is left ready, and no exception reached
    the loop. *)
Theorem task_returns_awaited_value (w : world) (f : nat) (k : outcome -> coro)
    (v v' : val) :
  Loop.ready (loop w) = [] ->
  objs w !! f = Some (mkObj KFuture (PendingState [])) ->
  f <> next_id w ->
  k (Returned v) = CReturn v' ->
  fst (is_finished (next_id w)
         (drain 1 (snd (create_task (FCreated (CAwait f k)) w)))) = Ok false /\
  fst (result (next_id w)
         (drain 1 (snd (Promise_set_result (mkPromise f) v
                          (drain 1 (snd (create_task (FCreated (CAwait f k)) w)))))))
    = Ok v' /\
  Loop.ready (loop
    (drain 1 (snd (Promise_set_result (mkPromise f) v
                     (drain 1 (snd (create_task (FCreated (CAwait f k)) w))))))) = [] /\
  loop_errors
    (drain 1 (snd (Promise_set_result (mkPromise f) v
                     (drain 1 (snd (create_task (FCreated (CAwait f k)) w))))))
    = loop_errors w.
Proof.
  intros Hidle Hf Hne Hk. rewrite PureFacts.create_task_spec. cbn [snd].
  set (w0 := created_task (FCreated (CAwait f k)) w).
  (* the first step *)
  assert (H1 : exists w1, run_once w0 = Some w1 /\
     objs w1 !! (next_id w) = Some (mkObj KTask (RunningState [] (FSuspended f k) f)) /\
     objs w1 !! f = Some (mkObj KFuture (PendingState [CbStep (next_id w)])) /\
     Loop.ready (loop w1) = [] /\ loop_errors w1 = loop_errors w).
  { unfold run_once, Loop.pop. cbn [w0 created_task loop Loop.ready].
    rewrite Hidle. cbn [app run_entry].
    match goal with
    | |- context [Task__execute_coroutine_step _ None ?W] =>
        destruct (PureFacts.step_first_await W (next_id w) f (Loop.next_handle (loop w)) [] [] k)
          as (w1 & Hstep & Ht1 & Hf1 & _ & Hl1 & _ & He1)
    end.
    { exact (not_eq_sym Hne). }
    { cbn. apply lookup_insert_eq. }
    { cbn. rewrite lookup_insert_ne by exact (not_eq_sym Hne). exact Hf. }
    rewrite Hstep. exists w1. split; [reflexivity|]. split; [exact Ht1|].
    split; [exact Hf1|]. rewrite Hl1, He1. done. }
  destruct H1 as (w1 & Hrun1 & Ht1 & Hf1 & Hr1 & He1).
  assert (Hd1 : drain 1 w0 = w1) by (cbn [drain]; by rewrite Hrun1).
  rewrite Hd1. split.
  { unfold is_finished, bind. by rewrite (PureFacts.state_of_eq _ _ _ Ht1). }
  (* the future is completed *)
  unfold Promise_set_result. cbn [_fut].
  rewrite (PureFacts._set_result_pending_value w1 f [CbStep (next_id w)] v Hf1). cbn [snd].
  set (w2 := set_state f _ _).
  assert (Ht2 : forall l, objs (set_loop l w2) !! (next_id w)
                  = Some (mkObj KTask (RunningState [] (FSuspended f k) f))).
  { intros l. cbn [objs set_loop]. unfold w2.
    rewrite PureFacts.lookup_set_state_ne by exact Hne. exact Ht1. }
  assert (Hf2 : forall l, objs (set_loop l w2) !! f
                  = Some (mkObj KFuture
                            (SuccessState v (handles_from (Loop.next_handle (loop w1))
                                               [CbStep (next_id w)])))).
  { intros l. cbn [objs set_loop]. unfold w2.
    erewrite PureFacts.lookup_set_state; [|exact Hf1]. reflexivity. }
  assert (Hr2 : Loop.ready (loop w2)
                = [(Loop.next_handle (loop w1), ECallback (CbStep (next_id w)) f)]).
  { unfold w2. cbn. by rewrite Hr1. }
  (* the wake-up *)
  assert (H3 : exists w3, run_once w2 = Some w3 /\
     objs w3 !! (next_id w) = Some (mkObj KTask (SuccessState v' [])) /\
     Loop.ready (loop w3) = [] /\ loop_errors w3 = loop_errors w).
  { unfold run_once, Loop.pop. rewrite Hr2. cbn [run_entry].
    match goal with
    | |- context [Task__execute_coroutine_step (next_id w) None (set_loop ?l w2)] =>
        destruct (PureFacts.step_returns (set_loop l w2) (next_id w) f [] k v v' _
                    (not_eq_sym Hne) (Ht2 l) (Hf2 l) Hk)
          as (w3 & Hstep & Ht3 & _ & Hl3 & _ & He3)
    end.
    rewrite Hstep. exists w3. split; [reflexivity|]. split; [exact Ht3|].
    rewrite Hl3, He3. cbn. by rewrite He1. }
  destruct H3 as (w3 & Hrun3 & Ht3 & Hr3 & He3).
  assert (Hd3 : drain 1 w2 = w3) by (cbn [drain]; by rewrite Hrun3).
  rewrite Hd3. split; [|done].
  unfold result, bind. by rewrite (PureFacts.state_of_eq _ _ _ Ht3).
Qed.

Lemma task_returns_awaited_value_witness :
  fst (is_finished 1
         (drain 1 (snd (create_task (FCreated (CAwait 0 PureExamples.forward))
                          (snd (create_promise empty_world)))))) = Ok false /\
  fst (result 1
         (drain 1 (snd (Promise_set_result (mkPromise 0) (VInt 5)
                          (drain 1 (snd (create_task
                                           (FCreated (CAwait 0 PureExamples.forward))
                                           (snd (create_promise empty_world)))))))))
    = Ok (VInt 5) /\
  Loop.ready (loop
    (drain 1 (snd (Promise_set_result (mkPromise 0) (VInt 5)
                     (drain 1 (snd (create_task
                                      (FCreated (CAwait 0 PureExamples.forward))
                                      (snd (create_promise empty_world))))))))) = [] /\
  loop_errors
    (drain 1 (snd (Promise_set_result (mkPromise 0) (VInt 5)
                     (drain 1 (snd (create_task
                                      (FCreated (CAwait 0 PureExamples.forward))
                                      (snd (create_promise empty_world))))))))
    = [].
Proof.
  apply (task_returns_awaited_value (snd (create_promise empty_world)) 0
           PureExamples.forward (VInt 5) (VInt 5)); try reflexivity. vm_compute. lia.
Defined.
End PureExtras.
